(** * utdataflow: dataflow runtime, SRG store and pattern matcher

    A shallow embedding of the parts of the Ubitrack dataflow library that
    the specification makes claims about, and the proofs (or refutations)
    of those claims.

    - [EventQueue]      src/utDataflow/EventQueue.{h,cpp}
    - [AttributeValue]  src/utGraph/AttributeValue.{h,cpp}
    - [Predicate]       src/utGraph/Predicate.cpp, AttributeExpression.cpp,
                        KeyValueAttributes.cpp, EvaluationContext.h
    - [Graph]           src/utGraph/Graph.h
    - [DataflowNetwork] src/utDataflow/DataflowNetwork.{h,cpp}, Component.h
    - [UTQL], [SRG]     src/utGraph/InOutAttribute.h, UTQLSubgraph.h, SRGraph.h
    - [Matching]        src/utGraph/EdgeMatching.h, Pattern.h
    - [Manager]         src/utGraph/UTQLSRGManager.h
*)

From Stdlib Require Import ZArith NArith Lia Bool Ascii String PrimFloat.
From Stdlib Require SpecFloat FloatOps FloatAxioms.
From stdpp Require Import base tactics option list gmap strings sorting pretty.

Local Open Scope Z_scope.


(** The outcome of a C++ call: it returns a value, it throws
    [Ubitrack::Util::Exception] with a message, or its behaviour is
    undefined (a null pointer is dereferenced, an end iterator is erased,
    a loop never ends).  [OutOfFuel] is not an outcome of the program:
    a loop of the model was cut off after the number of passes it was
    given. *)
Inductive Exc (A : Type) : Type :=
| Ret (a : A)
| Throw (msg : string)
| Undefined
| OutOfFuel.
Arguments Ret {A} a.
Arguments Throw {A} msg.
Arguments Undefined {A}.
Arguments OutOfFuel {A}.

Definition bindExc {A B} (x : Exc A) (f : A -> Exc B) : Exc B :=
  match x with
  | Ret a => f a
  | Throw m => Throw m
  | Undefined => Undefined
  | OutOfFuel => OutOfFuel
  end.

Notation "x <-! e1 ;; e2" := (bindExc e1 (fun x => e2))
  (at level 100, e1 at next level, right associativity).

Definition returned {A} (x : Exc A) : bool :=
  match x with Ret _ => true | _ => false end.

(** A dereferenced pointer: the object, or undefined behaviour. *)
Definition deref_ptr {A} (h : gmap nat A) (p : nat) : Exc A :=
  match h !! p with
  | Some x => Ret x
  | None => Undefined
  end.

(** [new]: an address that holds no object yet. *)
Definition newPtr {A} (h : gmap nat A) : nat := fresh (dom h).

(** Iteration over a [std::map] or [std::set] with [std::string] keys
    visits the keys in ascending order. *)
Definition stringLe (a b : string) : Prop := String.leb a b = true.

Global Instance stringLe_dec : RelDecision stringLe.
Proof. intros a b. unfold stringLe. apply _. Defined.

Definition keyLe {A} (x y : string * A) : Prop := stringLe (fst x) (fst y).

Global Instance keyLe_dec {A} : RelDecision (@keyLe A).
Proof. intros x y. unfold keyLe. apply _. Defined.

(** The entries of a [std::map< std::string, A >] in iteration order. *)
Definition entries {A} (m : gmap string A) : list (string * A) :=
  merge_sort keyLe (map_to_list m).

(** The elements of a [std::set< std::string >] in iteration order. *)
Definition members (s : gset string) : list string :=
  merge_sort stringLe (elements s).

(* ===================================================================== *)
(** * The prioritized event queue (utDataflow/EventQueue.cpp)            *)
(* ===================================================================== *)

Module EventQueue.

(** [EventQueue::ReceiverInfo].  Receiver infos are heap objects that the
    queue entries point to; [ptr] is the address.  [pPort] is kept as the
    port's full name, [pMutex] as the address of the component mutex. *)
Definition ptr := nat.

Record ReceiverInfo := mkReceiverInfo {
  pPort : string;
  pMutex : option ptr;
  nMaxQueueLength : Z;   (* int; negative if infinite queueing is allowed *)
  nQueuedEvents : Z      (* int *)
}.

(** [EventQueue::QueueData].  The payload is a type-erased callable which
    the queue never inspects; it is identified here by a number.
    [priority] is an [unsigned long long]. *)
Record QueueData := mkQueueData {
  pReceiverInfo : option ptr;   (* [None] is the null pointer *)
  event : nat;
  priority : N
}.

Inductive ThreadState :=
  state_running | state_stopping | state_stopped | state_end.

(** The queue object together with the receiver infos it points into. *)
Record State := mkState {
  m_Queue : list QueueData;                (* std::list< QueueData > *)
  receivers : gmap ptr ReceiverInfo;       (* the heap of ReceiverInfo *)
  m_State : ThreadState
}.

Definition incQueued (ri : ReceiverInfo) : ReceiverInfo :=
  mkReceiverInfo (pPort ri) (pMutex ri) (nMaxQueueLength ri) (nQueuedEvents ri + 1).

Definition decQueued (ri : ReceiverInfo) : ReceiverInfo :=
  mkReceiverInfo (pPort ri) (pMutex ri) (nMaxQueueLength ri) (nQueuedEvents ri - 1).

(** [if ( p ) p->nQueuedEvents++] and [if ( p ) p->nQueuedEvents--]. *)
Definition countUp (p : option ptr) (rs : gmap ptr ReceiverInfo) :=
  match p with Some r => alter incQueued r rs | None => rs end.

Definition countDown (p : option ptr) (rs : gmap ptr ReceiverInfo) :=
  match p with Some r => alter decQueued r rs | None => rs end.

(** The slow path of the insertion in [queue]:
<<
    QueueType::iterator it = m_Queue.begin();
    while ( it->priority < pos->priority )
        it++;
    m_Queue.insert( it, *pos );
>>
    The loop has no end test; it is only entered when the last element has
    a priority above the new one, so the iterator stops before the end.
    The [[]] case is therefore not reached from [sortIn]. *)
Fixpoint insertScan (q : list QueueData) (x : QueueData) : list QueueData :=
  match q with
  | [] => [x]
  | y :: q' =>
      if (priority y <? priority x)%N then y :: insertScan q' x
      else x :: y :: q'
  end.

(** "sort event into queue": empty queue, fast path at the back, or scan
    from the front. *)
Definition sortIn (q : list QueueData) (x : QueueData) : list QueueData :=
  match last q with
  | None => [x]
  | Some b =>
      if (priority b <=? priority x)%N then q ++ [x]
      else insertScan q x
  end.

(** The [for] loop of [queue]: every event of the batch is sorted in and
    counted for its receiver. *)
Fixpoint enqueueAll (q : list QueueData) (rs : gmap ptr ReceiverInfo)
    (events : list QueueData) : list QueueData * gmap ptr ReceiverInfo :=
  match events with
  | [] => (q, rs)
  | e :: es => enqueueAll (sortIn q e) (countUp (pReceiverInfo e) rs) es
  end.

(** The test shared by [queue], [dispatchNow] and [threadFunction]:
<<
    front().pReceiverInfo && front().pReceiverInfo->nMaxQueueLength > 0 &&
    front().pReceiverInfo->nQueuedEvents > front().pReceiverInfo->nMaxQueueLength
>> *)
Definition tooLong (rs : gmap ptr ReceiverInfo) (d : QueueData) : bool :=
  match pReceiverInfo d with
  | None => false
  | Some r =>
      match rs !! r with
      | None => false
      | Some ri => (0 <? nMaxQueueLength ri) && (nMaxQueueLength ri <? nQueuedEvents ri)
      end
  end.

(** The [while] loop at the end of [queue], which pops events off the
    front while the front's receiver is over its limit.  The third
    component collects the popped (dropped) events in order.  The loop
    does not test for an empty list; once the list is empty [front()] is
    undefined, and the model stops there. *)
Fixpoint dropFront (q : list QueueData) (rs : gmap ptr ReceiverInfo)
    : list QueueData * gmap ptr ReceiverInfo * list QueueData :=
  match q with
  | [] => ([], rs, [])
  | d :: q' =>
      if tooLong rs d then
        let '(q'', rs', dropped) := dropFront q' (countDown (pReceiverInfo d) rs) in
        (q'', rs', d :: dropped)
      else (q, rs, [])
  end.

(** [EventQueue::queue].  Returns the new state and the events the call
    dropped. *)
Definition queue (s : State) (events : list QueueData) : State * list QueueData :=
  let '(q1, rs1) := enqueueAll (m_Queue s) (receivers s) events in
  let '(q2, rs2, dropped) := dropFront q1 rs1 in
  (mkState q2 rs2 (m_State s), dropped).

(** One pass through the [while ( true )] body of
    [EventQueue::threadFunction].  The second component is the event the
    pass takes off the queue and invokes, if any.  The model records the
    event and does not run it: what the handler of an invoked event does
    to the queue (it may call [queue]) is a call of [queue] between two
    passes. *)
Definition threadFunction_step (s : State) : State * option QueueData :=
  match m_State s, m_Queue s with
  | state_running, d :: q' =>
      let s' := mkState q' (countDown (pReceiverInfo d) (receivers s)) state_running in
      if tooLong (receivers s) d then (s', None) else (s', Some d)
  | state_end, _ => (s, None)
  | state_stopping, _ => (mkState (m_Queue s) (receivers s) state_stopped, None)
  | _, _ => (s, None)
  end.

(** [n] passes of the worker; the events invoked, in order. *)
Fixpoint worker (n : nat) (s : State) : State * list QueueData :=
  match n with
  | O => (s, [])
  | S n' =>
      let '(s1, o) := threadFunction_step s in
      let '(s2, l) := worker n' s1 in
      (s2, match o with Some d => d :: l | None => l end)
  end.

(** [EventQueue::start].  [stop] asks a running worker to stop and then
    waits for the worker to get there; [stop_request] is the part before
    the wait. *)
Definition start (s : State) : State :=
  mkState (m_Queue s) (receivers s) state_running.

Definition stop_request (s : State) : State :=
  match m_State s with
  | state_stopped => s
  | _ => mkState (m_Queue s) (receivers s) state_stopping
  end.

(** [EventQueue::clear]: every counter is decremented once per queued
    event, then the list is emptied. *)
Definition clear (s : State) : State :=
  mkState [] (foldl (fun rs d => countDown (pReceiverInfo d) rs) (receivers s) (m_Queue s))
          (m_State s).

(** [EventQueue::removeComponent( pComponent )]:
<<
    for ( QueueType::iterator it = m_Queue.begin(); it != m_Queue.end(); )
        if ( it->pReceiverInfo && &it->pReceiverInfo->pPort->getComponent() == pComponent )
        {
            it->pReceiverInfo->nQueuedEvents--;
            it = m_Queue.erase( it );
        }
        else
            it++;
>>
    [ofComponent] is the test on the port of a receiver.  An entry whose
    receiver info is not an object makes the test undefined. *)
Fixpoint removeEvents (ofComponent : string -> bool) (q : list QueueData)
    (rs : gmap ptr ReceiverInfo) : Exc (list QueueData * gmap ptr ReceiverInfo) :=
  match q with
  | [] => Ret ([], rs)
  | d :: q' =>
      match pReceiverInfo d with
      | None =>
          r <-! removeEvents ofComponent q' rs ;; Ret (d :: fst r, snd r)
      | Some p =>
          ri <-! deref_ptr rs p ;;
          if ofComponent (pPort ri) then removeEvents ofComponent q' (alter decQueued p rs)
          else r <-! removeEvents ofComponent q' rs ;; Ret (d :: fst r, snd r)
      end
  end.

Definition removeComponent (ofComponent : string -> bool) (s : State) : Exc State :=
  r <-! removeEvents ofComponent (m_Queue s) (receivers s) ;;
  Ret (mkState (fst r) (snd r) (m_State s)).

(** [EventQueue::dispatchNow]: the loop takes the events off the queue one
    by one until the queue is empty, whatever [m_State] is, and invokes
    each one unless its receiver is over its limit at that moment.  The
    second component lists the events invoked, in order.  The model
    records the events and does not run them, so it is the loop for
    handlers that queue nothing: in the code an invoked handler may call
    [queue], and the loop goes on to dispatch the events it added, which
    [dispatchLoop] does not describe. *)
Fixpoint dispatchLoop (q : list QueueData) (rs : gmap ptr ReceiverInfo)
    : gmap ptr ReceiverInfo * list QueueData :=
  match q with
  | [] => (rs, [])
  | d :: q' =>
      let '(rs', l) := dispatchLoop q' (countDown (pReceiverInfo d) rs) in
      (rs', if tooLong rs d then l else d :: l)
  end.

Definition dispatchNow (s : State) : State * list QueueData :=
  let '(rs, l) := dispatchLoop (m_Queue s) (receivers s) in
  (mkState [] rs (m_State s), l).

(** Number of events of a list addressed to receiver [r]. *)
Definition isFor (r : ptr) (d : QueueData) : bool :=
  match pReceiverInfo d with
  | Some r' => Nat.eqb r' r
  | None => false
  end.

Definition countFor (r : ptr) (l : list QueueData) : Z :=
  Z.of_nat (length (filter (fun d => isFor r d = true) l)).

Definition queuedFor (r : ptr) (rs : gmap ptr ReceiverInfo) : option Z :=
  nQueuedEvents <$> rs !! r.

(** What the specification promises of one [queue] call for receiver [r]
    with limit [K]: exactly one of [r]'s events is dropped and [r]'s
    counter ends at [K]. *)
Definition dropsOneAndKeeps (s : State) (r : ptr) (K : Z) (events : list QueueData) : Prop :=
  countFor r (snd (queue s events)) = 1 /\
  queuedFor r (receivers (fst (queue s events))) = Some K.

(** The queue in dispatch order: priorities never go down. *)
Definition byPriority (a b : QueueData) : Prop := (priority a <= priority b)%N.

(** The counter of every receiver is the number of its queued events. *)
Definition counted (s : State) : Prop :=
  forall r ri, receivers s !! r = Some ri -> nQueuedEvents ri = countFor r (m_Queue s).

(** The events of a list that are addressed to receiver [r], in order. *)
Definition eventsFor (r : ptr) (l : list QueueData) : list QueueData :=
  List.filter (isFor r) l.

(** An event that [removeComponent] leaves in the queue: it has no
    receiver, or the port of its receiver is not one of the component. *)
Definition keeps (ofComponent : string -> bool) (rs : gmap ptr ReceiverInfo)
    (d : QueueData) : bool :=
  match pReceiverInfo d with
  | None => true
  | Some p =>
      match rs !! p with
      | Some ri => negb (ofComponent (pPort ri))
      | None => true
      end
  end.

(** The same receiver as far as the tests of the queue on it go: the
    port and the limit. *)
Definition sameReceiver (a b : option ReceiverInfo) : Prop :=
  option_Forall2 (fun x y => pPort y = pPort x /\ nMaxQueueLength y = nMaxQueueLength x) a b.

(** Every counter is zero. *)
Definition nothingQueued (s : State) : Prop :=
  forall r ri, receivers s !! r = Some ri -> nQueuedEvents ri = 0.

End EventQueue.


(** Concrete queues used to evaluate the model. *)
Module EventQueueExamples.
Import EventQueue.

(** Two receivers without a limit. *)
Definition rcvA : ReceiverInfo := mkReceiverInfo "sink.in" None (-1) 0.
Definition rcvB : ReceiverInfo := mkReceiverInfo "other.in" None (-1) 0.

Definition idle : State :=
  mkState [] (<[1%nat := rcvB]> (<[0%nat := rcvA]> ∅)) state_running.

Definition e1 : QueueData := mkQueueData (Some 0%nat) 1 5%N.
Definition e2 : QueueData := mkQueueData (Some 0%nat) 2 5%N.
Definition ex : QueueData := mkQueueData (Some 1%nat) 3 7%N.

(** A receiver with [nMaxQueueLength = K] and nothing queued. *)
Definition capped (K : Z) : ReceiverInfo := mkReceiverInfo "capped.in" None K 0.

(** Receiver 0 has limit [K]; receiver 1 has none. *)
Definition fresh (K : Z) : State :=
  mkState [] (<[1%nat := rcvB]> (<[0%nat := capped K]> ∅)) state_running.

(** The same, with one event for receiver 1 already waiting at priority 1. *)
Definition behind (K : Z) : State :=
  mkState [mkQueueData (Some 1%nat) 9 1%N]
          (<[1%nat := incQueued rcvB]> (<[0%nat := capped K]> ∅)) state_running.

Definition c1 : QueueData := mkQueueData (Some 0%nat) 11 5%N.
Definition c2 : QueueData := mkQueueData (Some 0%nat) 12 5%N.
Definition c3 : QueueData := mkQueueData (Some 0%nat) 13 6%N.

(** Three events wait in a running queue: two for receiver 0, between
    them one for receiver 1. *)
Definition waiting : State := fst (queue idle [e1; ex; e2]).

(** The ports of the component [sink]. *)
Definition ofSink (port : string) : bool := String.prefix "sink." port.

End EventQueueExamples.

(* ===================================================================== *)
(** * Event priorities of the dataflow network
      (utDataflow/DataflowNetwork.{h,cpp}, Component.h)                   *)
(* ===================================================================== *)

Module DataflowNetwork.

(** [Component], as far as the priority assignment reads and writes it. *)
Record Component := mkComponent {
  m_name : string;           (* getName() *)
  m_eventPriority : Z        (* int *)
}.

Definition setEventPriority (priority : Z) (c : Component) : Component :=
  mkComponent (m_name c) priority.

Record DataflowNetworkSide := mkSide {
  m_componentName : string;
  m_portName : string
}.

Record DataflowNetworkConnection := mkConnection {
  m_source : DataflowNetworkSide;
  m_destination : DataflowNetworkSide
}.

(** A [ConnectionSet] ([std::set< DataflowNetworkConnection >]) is kept as
    the list of its elements in iteration order. *)
Abbreviation ConnectionSet := (list DataflowNetworkConnection) (only parsing).

(** [DataflowNetwork].  Components are held by [shared_ptr]; [components]
    is the store the pointers lead to. *)
Record Network := mkNetwork {
  components : gmap nat Component;
  m_componentIDMap : gmap string nat;
  m_inConnectionMap : gmap string ConnectionSet;
  m_outConnectionMap : gmap string ConnectionSet;
  m_allConnections : ConnectionSet
}.

Definition DFN_MAX_PATHLENGTH : Z := 255.

(** [AEPSearchInfo]. *)
Record AEPSearchInfo := mkInfo {
  priority : Z;              (* int *)
  pComponent : nat
}.

(** [m_inConnectionMap[ name ]] and [m_outConnectionMap[ name ]]: a missing
    key reads as the empty set (which [operator[]] also inserts; the
    function never looks at the keys of these maps). *)
Definition inConnections (net : Network) (name : string) : ConnectionSet :=
  default [] (m_inConnectionMap net !! name).

Definition outConnections (net : Network) (name : string) : ConnectionSet :=
  default [] (m_outConnectionMap net !! name).

(** The state of one depth-first search: the [search] vector with its
    back at the head of the list, the [visiting] set and the components. *)
Record SearchState := mkSearch {
  search : list AEPSearchInfo;
  visiting : gset nat;
  store : gmap nat Component
}.

(** "add all ancestors to the list": for every in-connection, the source
    component is looked up and pushed with priority [prio] unless it is in
    [visiting].  [m_componentIDMap[ name ]] of an unregistered name yields
    a null pointer, which is dereferenced once the entry is visited; the
    model stops at the lookup. *)
Fixpoint pushAncestors (net : Network) (vis : gset nat) (prio : Z)
    (inConns : ConnectionSet) (stack : list AEPSearchInfo)
    : Exc (list AEPSearchInfo) :=
  match inConns with
  | [] => Ret stack
  | itIn :: more =>
      match m_componentIDMap net !! m_componentName (m_source itIn) with
      | None => Undefined
      | Some pComp =>
          if bool_decide (pComp ∈ vis)
          then pushAncestors net vis prio more stack
          else pushAncestors net vis prio more (mkInfo prio pComp :: stack)
      end
  end.

(** One pass through the body of [while ( !search.empty() )]. *)
Definition searchStep (net : Network) (st : SearchState) : Exc SearchState :=
  match search st with
  | [] => Ret st
  | back :: below =>
      if priority back <? 0 then
        Ret (mkSearch below (visiting st ∖ {[pComponent back]}) (store st))
      else
        comp <-! deref_ptr (store st) (pComponent back) ;;
        let prio := priority back in
        let store' :=
          if prio <? m_eventPriority comp
          then <[pComponent back := setEventPriority prio comp]> (store st)
          else store st in
        let prio' := prio - 1 in
        let vis' := {[pComponent back]} ∪ visiting st in
        stack <-! pushAncestors net vis' prio' (inConnections net (m_name comp))
                                (mkInfo (-1) (pComponent back) :: below) ;;
        Ret (mkSearch stack vis' store')
  end.

(** The [while] loop of one search.  [None]: the passes allowed by [fuel]
    did not empty the stack. *)
Fixpoint searchLoop (fuel : nat) (net : Network) (st : SearchState)
    : option (Exc (gmap nat Component)) :=
  match search st with
  | [] => Some (Ret (store st))
  | _ =>
      match fuel with
      | O => None
      | S fuel' =>
          match searchStep net st with
          | Ret st' => searchLoop fuel' net st'
          | Throw m => Some (Throw m)
          | Undefined => Some Undefined
          | OutOfFuel => None
          end
      end
  end.

(** "clear all event priorities". *)
Definition clearPriorities (net : Network) : gmap nat Component :=
  foldl (fun cs it => alter (setEventPriority DFN_MAX_PATHLENGTH) (snd it) cs)
        (components net) (entries (m_componentIDMap net)).

(** "find all sinks in the data flow network" and search from each. *)
Fixpoint searchFromSinks (fuel : nat) (net : Network) (its : list (string * nat))
    (cs : gmap nat Component) : option (Exc (gmap nat Component)) :=
  match its with
  | [] => Some (Ret cs)
  | it :: more =>
      match outConnections net (fst it) with
      | [] =>
          match searchLoop fuel net
                  (mkSearch [mkInfo DFN_MAX_PATHLENGTH (snd it)] ∅ cs) with
          | Some (Ret cs') => searchFromSinks fuel net more cs'
          | other => other
          end
      | _ :: _ => searchFromSinks fuel net more cs
      end
  end.

(** [DataflowNetwork::assignEventPriorities]; every search may take up to
    [fuel] passes. *)
Definition assignEventPriorities (fuel : nat) (net : Network) : option (Exc Network) :=
  match searchFromSinks fuel net (entries (m_componentIDMap net)) (clearPriorities net) with
  | Some (Ret cs) =>
      Some (Ret (mkNetwork cs (m_componentIDMap net) (m_inConnectionMap net)
                           (m_outConnectionMap net) (m_allConnections net)))
  | Some (Throw m) => Some (Throw m)
  | Some Undefined => Some Undefined
  | Some OutOfFuel | None => None
  end.

(** [componentByName( name )->getEventPriority()]. *)
Definition eventPriorityOf (net : Network) (name : string) : option Z :=
  p ← m_componentIDMap net !! name;
  c ← components net !! p;
  Some (m_eventPriority c).

(** The networks the priority assignment is verified for.  [wf_names]:
    every registered id leads to a component whose [getName()] is that
    id.  [createComponent] establishes this for a component the factory
    constructs for the id, not for one that the module mechanism hands
    back a second time: that one is registered under the new id and keeps
    its name (the code logs a warning).  [wf_source], [wf_destination]:
    both ends of every connection are registered ids, as
    [connectComponents] checks.  [wf_in], [wf_out]: the in- and out-maps
    index [m_allConnections] by destination and by source, as
    [connectComponents] and [disconnectComponents] keep them. *)
Record wellFormed (net : Network) : Prop := mkWellFormed {
  wf_names : forall id p, m_componentIDMap net !! id = Some p ->
               exists c, components net !! p = Some c /\ m_name c = id;
  wf_source : forall conn, conn ∈ m_allConnections net ->
               is_Some (m_componentIDMap net !! m_componentName (m_source conn));
  wf_destination : forall conn, conn ∈ m_allConnections net ->
               is_Some (m_componentIDMap net !! m_componentName (m_destination conn));
  wf_in : forall name conn, conn ∈ inConnections net name <->
               conn ∈ m_allConnections net /\ m_componentName (m_destination conn) = name;
  wf_out : forall name conn, conn ∈ outConnections net name <->
               conn ∈ m_allConnections net /\ m_componentName (m_source conn) = name
}.

(** An acyclic network whose paths have at most [bound] connections: the
    components can be put on levels [0 .. bound] so that every connection
    leads from a higher level to a lower one (sinks at the bottom). *)
Definition layered (net : Network) (bound : nat) (level : string -> nat) : Prop :=
  (forall conn, conn ∈ m_allConnections net ->
     (level (m_componentName (m_destination conn))
      < level (m_componentName (m_source conn)))%nat) /\
  (forall id, is_Some (m_componentIDMap net !! id) -> (level id <= bound)%nat).

(** What the specification promises for connection [conn]. *)
Definition ordersConnection (net : Network) (conn : DataflowNetworkConnection) : Prop :=
  exists pu pv,
    eventPriorityOf net (m_componentName (m_source conn)) = Some pu /\
    eventPriorityOf net (m_componentName (m_destination conn)) = Some pv /\
    pu < pv.

(** ** The search, as a relation

    Auxiliary notions for reasoning about the searches of a fixed
    network [net] with levels [level]. *)
Section Search.

Variable net : Network.
Variable level : string -> nat.

Definition registered (id : string) (p : nat) : Prop :=
  m_componentIDMap net !! id = Some p.

(** The level of the component behind a pointer. *)
Definition plevel (p : nat) : nat :=
  match components net !! p with
  | Some c => level (m_name c)
  | None => O
  end.

(** A store that still holds every registered component under its name. *)
Definition storeOk (cs : gmap nat Component) : Prop :=
  forall id p, registered id p ->
    exists c, cs !! p = Some c /\ m_name c = id.

Definition prioOf (cs : gmap nat Component) (p : nat) : Z :=
  match cs !! p with
  | Some c => m_eventPriority c
  | None => 0
  end.

(** [a] is the source of an in-connection of [p]. *)
Definition ancestor (a p : nat) : Prop :=
  exists id conn, registered id p /\ conn ∈ inConnections net id /\
    registered (m_componentName (m_source conn)) a.

(** [Up p x q y]: the search that visits [p] with priority [x] comes to
    [q] with priority [y] (one less per connection walked upstream). *)
Inductive Up : nat -> Z -> nat -> Z -> Prop :=
| Up_here p x : Up p x p x
| Up_step p x a q y : ancestor a p -> Up a (x - 1) q y -> Up p x q y.

(** Relations between the store before and after a stretch of the
    search that works off the stack entries [items]: no priority went up;
    every component the entries lead to has at most the priority it was
    reached with; every changed priority is one some component was
    reached with. *)
Definition noHigher (cs cs' : gmap nat Component) : Prop :=
  forall p, prioOf cs' p <= prioOf cs p.

Definition covers (items : list AEPSearchInfo) (cs' : gmap nat Component) : Prop :=
  forall it q y, it ∈ items -> Up (pComponent it) (priority it) q y -> 0 <= y ->
    prioOf cs' q <= y.

Definition attained (items : list AEPSearchInfo) (cs cs' : gmap nat Component) : Prop :=
  forall q, prioOf cs' q = prioOf cs q \/
    exists it y, it ∈ items /\ Up (pComponent it) (priority it) q y /\ 0 <= y /\
      prioOf cs' q = y.

End Search.

(** ** Connections ([connectComponents], [disconnectComponents],
       [disconnectComponent], [dropComponent]) *)

(** [DataflowNetworkSide::operator<] and
    [DataflowNetworkConnection::operator<]. *)
Definition sideLt (a x : DataflowNetworkSide) : bool :=
  if String.ltb (m_componentName a) (m_componentName x)
     || String.ltb (m_componentName x) (m_componentName a)
  then String.ltb (m_componentName a) (m_componentName x)
  else String.ltb (m_portName a) (m_portName x).

Definition connectionLt (a x : DataflowNetworkConnection) : bool :=
  if sideLt (m_source a) (m_source x) || sideLt (m_source x) (m_source a)
  then sideLt (m_source a) (m_source x)
  else sideLt (m_destination a) (m_destination x).

(** The pattern of both: the first components decide if they differ,
    else the second components do. *)
Definition lex {A B} (lt1 : A -> A -> bool) (lt2 : B -> B -> bool)
    (a1 : A) (a2 : B) (x1 : A) (x2 : B) : bool :=
  if lt1 a1 x1 || lt1 x1 a1 then lt1 a1 x1 else lt2 a2 x2.

(** The equivalence of the ordered containers: neither is less. *)
Definition equivalent (a b : DataflowNetworkConnection) : bool :=
  negb (connectionLt a b) && negb (connectionLt b a).

(** [find], [insert] and [erase] of a [std::set] on the list of the
    elements in iteration order. *)
Definition setFind (s : ConnectionSet) (c : DataflowNetworkConnection) : bool :=
  existsb (equivalent c) s.

Fixpoint setInsert (s : ConnectionSet) (c : DataflowNetworkConnection) : ConnectionSet :=
  match s with
  | [] => [c]
  | x :: s' =>
      if connectionLt c x then c :: x :: s'
      else if connectionLt x c then x :: setInsert s' c
      else x :: s'
  end.

Fixpoint setErase (s : ConnectionSet) (c : DataflowNetworkConnection) : ConnectionSet :=
  match s with
  | [] => []
  | x :: s' => if equivalent c x then s' else x :: setErase s' c
  end.

(** The representation of a set: the elements in strictly ascending
    order. *)
Definition isSet (s : ConnectionSet) : Prop :=
  StronglySorted (fun a b => connectionLt a b = true) s.

Definition withConnections (net : Network) (ins outs : gmap string ConnectionSet)
    (all : ConnectionSet) : Network :=
  mkNetwork (components net) (m_componentIDMap net) ins outs all.

(** [componentByName< Component >( name )]. *)
Definition componentByName (net : Network) (name : string) : Exc nat :=
  match m_componentIDMap net !! name with
  | Some p => Ret p
  | None => Throw ("no match for component name: '" +:+ name +:+ "'")
  end.

(** [DataflowNetwork::createComponent( subgraph )], after the checks of
    the XML configuration; [componentName] is [subgraph->m_ID].  The call
    [m_componentFactory.createComponent( class, componentName, subgraph )]
    is the function [factory]: from the name and the components that
    exist it gives the address of the component it returns and the
    components that exist afterwards, or throws (for a class that is not
    registered).  The factory constructs a component
    of that name, or, for a class that belongs to a module
    ([Module::newComponent]), returns the component the module holds for
    the key of the subgraph, whatever its name.  For a returned component
    of another, registered name the code logs a warning; in every case the
    component is registered under [componentName]. *)
Definition createComponent (net : Network)
    (factory : string -> gmap nat Component -> Exc (nat * gmap nat Component))
    (componentName : string) : Exc (Network * nat) :=
  match m_componentIDMap net !! componentName with
  | Some _ => Throw ("duplicate component name: " +:+ componentName)
  | None =>
      made <-! factory componentName (components net) ;;
      Ret (mkNetwork (snd made) (<[componentName := fst made]> (m_componentIDMap net))
                     (m_inConnectionMap net) (m_outConnectionMap net)
                     (m_allConnections net),
           fst made)
  end.

Section Wiring.

(** The ports live outside the network.  [m_PortMap] is
    [Component::m_PortMap] of the component at an address; the state of
    all ports is of type [PortState], and the virtual [Port::connect] and
    [Port::disconnect] are functions on it that may throw. *)
Variable PortState : Type.
Variable m_PortMap : nat -> gmap string nat.
Variable connect : nat -> nat -> PortState -> Exc PortState.
Variable disconnect : nat -> nat -> PortState -> Exc PortState.

(** [Component::getPortByName( sName )]. *)
Definition getPortByName (net : Network) (comp : nat) (sName : string) : Exc nat :=
  c <-! deref_ptr (components net) comp ;;
  match m_PortMap comp !! sName with
  | Some port => Ret port
  | None => Throw ("Port " +:+ sName +:+ " is not registered at component " +:+ m_name c)
  end.

(** [DataflowNetwork::getPortPair]. *)
Definition getPortPair (net : Network) (connection : DataflowNetworkConnection)
    : Exc (nat * nat) :=
  src <-! componentByName net (m_componentName (m_source connection)) ;;
  dst <-! componentByName net (m_componentName (m_destination connection)) ;;
  srcPort <-! getPortByName net src (m_portName (m_source connection)) ;;
  dstPort <-! getPortByName net dst (m_portName (m_destination connection)) ;;
  Ret (srcPort, dstPort).

(** [Port::fullName()] of the port at one side of a connection whose
    ports [getPortPair] has found. *)
Definition fullName (net : Network) (side : DataflowNetworkSide) : string :=
  match m_componentIDMap net !! m_componentName side with
  | Some p =>
      match components net !! p with
      | Some c => m_name c +:+ ":" +:+ m_portName side
      | None => ""
      end
  | None => ""
  end.

(** [catch ( std::runtime_error& e ) { UBITRACK_THROW( prefix + e.what() ); }] *)
Definition rethrow {A} (prefix : string) (x : Exc A) : Exc A :=
  match x with
  | Throw msg => Throw (prefix +:+ msg)
  | other => other
  end.

(** [DataflowNetwork::connectComponents( connection )].  When the second
    [connect] throws, the first is undone and the exception goes on; in
    every case an exception leaves the connection sets as they were. *)
Definition connectComponents (net : Network) (ps : PortState)
    (connection : DataflowNetworkConnection) : Exc (Network * PortState) :=
  if setFind (m_allConnections net) connection then
    Throw ("ports already connected: "
           +:+ m_componentName (m_source connection) +:+ ":"
           +:+ m_portName (m_source connection) +:+ " -> "
           +:+ m_componentName (m_destination connection) +:+ ":"
           +:+ m_portName (m_destination connection))
  else
    pp <-! getPortPair net connection ;;
    ps2 <-! rethrow ("Error connecting " +:+ fullName net (m_source connection) +:+ " to "
                     +:+ fullName net (m_destination connection) +:+ ": ")
              (ps1 <-! connect (fst pp) (snd pp) ps ;;
               match connect (snd pp) (fst pp) ps1 with
               | Ret ps2 => Ret ps2
               | failure => _ <-! disconnect (fst pp) (snd pp) ps1 ;; failure
               end) ;;
    let dst := m_componentName (m_destination connection) in
    let src := m_componentName (m_source connection) in
    Ret (withConnections net
           (<[dst := setInsert (inConnections net dst) connection]> (m_inConnectionMap net))
           (<[src := setInsert (outConnections net src) connection]> (m_outConnectionMap net))
           (setInsert (m_allConnections net) connection),
         ps2).

(** [DataflowNetwork::disconnectComponents( connection )]. *)
Definition disconnectComponents (net : Network) (ps : PortState)
    (connection : DataflowNetworkConnection) : Exc (Network * PortState) :=
  if negb (setFind (m_allConnections net) connection) then
    Throw ("ports not connected: "
           +:+ m_componentName (m_source connection) +:+ " ("
           +:+ m_portName (m_source connection) +:+ ") -> "
           +:+ m_componentName (m_destination connection) +:+ " ("
           +:+ m_portName (m_destination connection) +:+ ")")
  else
    pp <-! getPortPair net connection ;;
    ps1 <-! disconnect (snd pp) (fst pp) ps ;;
    ps2 <-! disconnect (fst pp) (snd pp) ps1 ;;
    let dst := m_componentName (m_destination connection) in
    let src := m_componentName (m_source connection) in
    Ret (withConnections net
           (<[dst := setErase (inConnections net dst) connection]> (m_inConnectionMap net))
           (<[src := setErase (outConnections net src) connection]> (m_outConnectionMap net))
           (setErase (m_allConnections net) connection),
         ps2).

(** The loops of [disconnectComponent]:
<<
    std::set< DataflowNetworkConnection >& connections = m_inConnectionMap[ name ];
    while ( !connections.empty() )
    {
        DataflowNetworkConnection connection = *(connections.begin());
        disconnectComponents ( connection );
    }
>>
    [which] reads the set that [connections] refers to. *)
Fixpoint disconnectAll (fuel : nat) (which : Network -> ConnectionSet)
    (net : Network) (ps : PortState) : Exc (Network * PortState) :=
  match which net with
  | [] => Ret (net, ps)
  | connection :: _ =>
      match fuel with
      | O => OutOfFuel
      | S fuel' =>
          r <-! disconnectComponents net ps connection ;;
          disconnectAll fuel' which (fst r) (snd r)
      end
  end.

(** [DataflowNetwork::disconnectComponent( name )].  Every pass of a loop
    that does not throw takes a connection out of [m_allConnections], so
    the loops are given one pass more than it has elements. *)
Definition disconnectComponent (net : Network) (ps : PortState) (name : string)
    : Exc (Network * PortState) :=
  r1 <-! (if bool_decide (is_Some (m_inConnectionMap net !! name)) then
            r <-! disconnectAll (S (length (m_allConnections net)))
                    (fun n => inConnections n name) net ps ;;
            Ret (withConnections (fst r) (delete name (m_inConnectionMap (fst r)))
                   (m_outConnectionMap (fst r)) (m_allConnections (fst r)), snd r)
          else Ret (net, ps)) ;;
  let net1 := fst r1 in
  if bool_decide (is_Some (m_outConnectionMap net1 !! name)) then
    r <-! disconnectAll (S (length (m_allConnections net1)))
            (fun n => outConnections n name) net1 (snd r1) ;;
    Ret (withConnections (fst r) (m_inConnectionMap (fst r))
           (delete name (m_outConnectionMap (fst r))) (m_allConnections (fst r)), snd r)
  else Ret r1.

(** [DataflowNetwork::dropComponent( name )]. *)
Definition dropComponent (net : Network) (ps : PortState) (name : string)
    : Exc (Network * PortState) :=
  match m_componentIDMap net !! name with
  | None => Throw ("component " +:+ name +:+ " not found")
  | Some _ =>
      r <-! disconnectComponent net ps name ;;
      Ret (mkNetwork (components (fst r)) (delete name (m_componentIDMap (fst r)))
                     (m_inConnectionMap (fst r)) (m_outConnectionMap (fst r))
                     (m_allConnections (fst r)), snd r)
  end.

End Wiring.

(** The connection sets as the code keeps them: each one is a set, and
    the two maps index [m_allConnections] by destination and by source. *)
Record indexed (net : Network) : Prop := {
  ix_all : isSet (m_allConnections net);
  ix_ins : forall name, isSet (inConnections net name);
  ix_outs : forall name, isSet (outConnections net name);
  ix_in : forall name conn, conn ∈ inConnections net name <->
            conn ∈ m_allConnections net /\ m_componentName (m_destination conn) = name;
  ix_out : forall name conn, conn ∈ outConnections net name <->
            conn ∈ m_allConnections net /\ m_componentName (m_source conn) = name
}.

(** Connection [conn] has component [name] at one of its ends. *)
Definition touches (name : string) (conn : DataflowNetworkConnection) : Prop :=
  m_componentName (m_source conn) = name \/ m_componentName (m_destination conn) = name.

End DataflowNetwork.

(** Chains of components [c0 -> c1 -> ... -> cn], [cn] the only sink. *)
Module DataflowNetworkExamples.
Import DataflowNetwork.

Definition compName (i : nat) : string := "c" ++ pretty i.

Definition link (i : nat) : DataflowNetworkConnection :=
  mkConnection (mkSide (compName i) "out") (mkSide (compName (S i)) "in").

(** The chain with [n] connections, hence [n + 1] components; before the
    assignment every priority is 0, as the [Component] constructor leaves
    it. *)
Definition chain (n : nat) : Network :=
  mkNetwork
    (list_to_map ((fun i => (i, mkComponent (compName i) 0)) <$> seq 0 (S n)))
    (list_to_map ((fun i => (compName i, i)) <$> seq 0 (S n)))
    (list_to_map ((fun i => (compName (S i), [link i])) <$> seq 0 n))
    (list_to_map ((fun i => (compName i, [link i])) <$> seq 0 n))
    (link <$> seq 0 n).

(** Levels for a chain with [n] connections: [ci] is on level [n - i]. *)
Definition chainLevel (n : nat) (id : string) : nat :=
  default O (head (omap (fun i => if String.eqb (compName i) id then Some (n - i)%nat else None)
                        (seq 0 (S n)))).

(** Ports as the base class [Port] has them: [connect] and [disconnect]
    do nothing.  Every component has a port [out] and a port [in]. *)
Definition plainPorts (comp : nat) : gmap string nat :=
  <["in" := 1%nat]> (<["out" := 0%nat]> ∅).

Definition plainConnect (port other : nat) (ps : unit) : Exc unit := Ret ps.

(** The chain [c0 -> c1] with the connection back from [c1] to [c0]
    added, the same with that connection taken out again, and with [c1]
    isolated, respectively dropped. *)
Definition back : DataflowNetworkConnection :=
  mkConnection (mkSide (compName 1) "out") (mkSide (compName 0) "in").

Definition looped : Network :=
  match connectComponents unit plainPorts plainConnect plainConnect (chain 1) tt back with
  | Ret (net, _) => net
  | _ => chain 1
  end.

Definition unlooped : Network :=
  match disconnectComponents unit plainPorts plainConnect looped tt back with
  | Ret (net, _) => net
  | _ => looped
  end.

Definition isolated : Network :=
  match disconnectComponent unit plainPorts plainConnect looped tt (compName 1) with
  | Ret (net, _) => net
  | _ => looped
  end.

Definition dropped : Network :=
  match dropComponent unit plainPorts plainConnect looped tt (compName 1) with
  | Ret (net, _) => net
  | _ => looped
  end.

(** A factory that constructs a component of the name asked for at the
    next free address, and the factory of a module that holds the
    component at address [p] for the key of the subgraph. *)
Definition newComponent (name : string) (cs : gmap nat Component)
    : Exc (nat * gmap nat Component) :=
  Ret (size cs, <[size cs := mkComponent name 0]> cs).

Definition heldComponent (p : nat) (name : string) (cs : gmap nat Component)
    : Exc (nat * gmap nat Component) :=
  Ret (p, cs).

Definition emptyNetwork : Network := mkNetwork ∅ ∅ ∅ ∅ [].

(** Components [a] and [x] are created, and then id [y] for a subgraph
    with the module key of [x]: the module returns the component [x],
    which is registered under [y] as well. *)
Definition created : Network :=
  match createComponent emptyNetwork newComponent "a" with
  | Ret (net1, _) =>
      match createComponent net1 newComponent "x" with
      | Ret (net2, x) =>
          match createComponent net2 (heldComponent x) "y" with
          | Ret (net3, _) => net3
          | _ => net2
          end
      | _ => net1
      end
  | _ => emptyNetwork
  end.

(** The connection from [a] to [y], and the network with it. *)
Definition intoAlias : DataflowNetworkConnection :=
  mkConnection (mkSide "a" "out") (mkSide "y" "in").

Definition aliased : Network :=
  match connectComponents unit plainPorts plainConnect plainConnect created tt intoAlias with
  | Ret (net, _) => net
  | _ => created
  end.

Definition aliasLevel (id : string) : nat :=
  if String.eqb id "a" then 1%nat else 0%nat.

End DataflowNetworkExamples.

(* ===================================================================== *)
(** * Attribute values (utGraph/AttributeValue.{h,cpp})                   *)
(* ===================================================================== *)

Module AttributeValue.

(** The terminating NUL of a C string. *)
Definition NUL : ascii := Ascii.zero.

(** [std::string::c_str()] seen as a C string: what a [const char*] reader
    finds before the first NUL character. *)
Fixpoint c_str (s : string) : string :=
  match s with
  | EmptyString => EmptyString
  | String c s' => if Ascii.eqb c NUL then EmptyString else String c (c_str s')
  end.

(** [*( nptr + n )] for a C string [cs]: the character at offset [n], the
    terminator when [n] is the length. *)
Definition deref (cs : string) (n : nat) : ascii :=
  match String.get n cs with
  | Some c => c
  | None => NUL
  end.

(** A [TiXmlElement] as far as [getText] reads it: its address, and the
    printed children of its first [Value] child (empty if there is none). *)
Record TiXmlElement := mkXml {
  xml_addr : nat;
  xml_Value : string
}.

Inductive ContentState :=
  stateEmpty | stateUnchecked | stateNumber | stateNoNumber.

Definition ContentState_eqb (a b : ContentState) : bool :=
  match a, b with
  | stateEmpty, stateEmpty | stateUnchecked, stateUnchecked
  | stateNumber, stateNumber | stateNoNumber, stateNoNumber => true
  | _, _ => false
  end.

(** [struct AttributeValue].  [m_string], [m_double] and [m_contentState]
    are [mutable]: the [const] accessors cache into them, so every
    accessor below returns the object it leaves behind.  A constructor
    that does not initialise [m_double] leaves 0 here. *)
Record t := mk {
  m_node : option TiXmlElement;
  m_string : string;
  m_double : float;
  m_contentState : ContentState
}.

Definition AttributeValue_empty : t := mk None EmptyString 0%float stateEmpty.

Definition AttributeValue_xml (ptr : option TiXmlElement) : t :=
  mk ptr EmptyString 0%float
     (match ptr with None => stateEmpty | Some _ => stateUnchecked end).

Definition AttributeValue_string (str : string) : t :=
  mk None str 0%float
     (match str with EmptyString => stateEmpty | _ => stateUnchecked end).

Definition AttributeValue_double (v : float) : t :=
  mk None EmptyString v stateNumber.

Definition isEmpty (a : t) : bool := ContentState_eqb (m_contentState a) stateEmpty.

Section Accessors.

(** The C library's [strtod]: the value read from the front of a C string
    and the number of characters consumed ([endptr - nptr]). *)
Variable strtod : string -> float * nat.

(** [std::ostream << double]. *)
Variable printDouble : float -> string.

(** [AttributeValue::getText]. *)
Definition getText (a : t) : string * t :=
  if negb (Nat.eqb (String.length (m_string a)) 0)
     || ContentState_eqb (m_contentState a) stateEmpty
  then (m_string a, a)
  else
    match m_node a with
    | Some node =>
        (xml_Value node, mk (m_node a) (xml_Value node) (m_double a) (m_contentState a))
    | None =>
        if ContentState_eqb (m_contentState a) stateNumber then
          let str := printDouble (m_double a) in
          (str, mk (m_node a) str (m_double a) (m_contentState a))
        else (m_string a, a)
    end.

(** [AttributeValue::checkNumber]: "assuming that state = unchecked". *)
Definition checkNumber (a : t) : t :=
  let a1 := if Nat.eqb (String.length (m_string a)) 0 then snd (getText a) else a in
  let nptr := c_str (m_string a1) in
  let '(d, n) := strtod nptr in
  if Nat.eqb n 0 || negb (Ascii.eqb (deref nptr n) NUL)
  then mk (m_node a1) (m_string a1) d stateNoNumber
  else mk (m_node a1) (m_string a1) d stateNumber.

(** [AttributeValue::isNumber]. *)
Definition isNumber (a : t) : bool * t :=
  match m_contentState a with
  | stateEmpty => (false, a)
  | stateUnchecked =>
      let a' := checkNumber a in
      (ContentState_eqb (m_contentState a') stateNumber, a')
  | s => (ContentState_eqb s stateNumber, a)
  end.

(** [AttributeValue::getNumber]. *)
Definition getNumber (a : t) : Exc float * t :=
  let a' := match m_contentState a with
            | stateUnchecked => checkNumber a
            | _ => a
            end in
  match m_contentState a' with
  | stateEmpty | stateNoNumber =>
      (Throw ("Attribute is no number! (" ++ m_string a' ++ ")"), a')
  | _ => (Ret (m_double a'), a')
  end.

(** Pointer comparison of two [XMLNodePtr]. *)
Definition sameNode (x y : option TiXmlElement) : bool :=
  match x, y with
  | Some n1, Some n2 => Nat.eqb (xml_addr n1) (xml_addr n2)
  | None, None => true
  | _, _ => false
  end.

(** [AttributeValue::operator==]:
<<
    if ( m_node ) return m_node == b.m_node;
    return ( isNumber() && b.isNumber() && m_double == b.m_double )
        || getText() == b.getText();
>> *)
Definition equal (a b : t) : bool :=
  match m_node a with
  | Some _ => sameNode (m_node a) (m_node b)
  | None =>
      let '(na, a1) := isNumber a in
      let '(numeric, b1) :=
        if na then
          let '(nb, b1) := isNumber b in
          (nb && PrimFloat.eqb (m_double a1) (m_double b1), b1)
        else (false, b) in
      if numeric then true
      else String.eqb (fst (getText a1)) (fst (getText b1))
  end.

(** The test of [checkNumber]: the numeric parse consumed at least one
    character and stopped at the terminating NUL of [c_str()].  What
    [strtod] sees is the C string, that is the text up to its first NUL
    character; characters of the [std::string] behind an embedded NUL
    take no part. *)
Definition parsesFully (s : string) : bool :=
  let n := snd (strtod (c_str s)) in
  negb (Nat.eqb n 0) && Nat.eqb n (String.length (c_str s)).

End Accessors.

(** A stand-in for [strtod] on strings of decimal digits: it reads the
    longest prefix of digits.  Used to evaluate the model on examples. *)
Definition digitValue (c : ascii) : option float :=
  match c with
  | "0"%char => Some 0%float | "1"%char => Some 1%float
  | "2"%char => Some 2%float | "3"%char => Some 3%float
  | "4"%char => Some 4%float | "5"%char => Some 5%float
  | "6"%char => Some 6%float | "7"%char => Some 7%float
  | "8"%char => Some 8%float | "9"%char => Some 9%float
  | _ => None
  end.

Fixpoint readDigits (acc : float) (s : string) : float * nat :=
  match s with
  | EmptyString => (acc, O)
  | String c s' =>
      match digitValue c with
      | Some d => let '(v, n) := readDigits (acc * 10 + d)%float s' in (v, S n)
      | None => (acc, O)
      end
  end.

Definition strtodDigits (s : string) : float * nat := readDigits 0%float s.

(** A stand-in for the stream output of a double; never inspected. *)
Definition printNothing (v : float) : string := "0".

End AttributeValue.

(* ===================================================================== *)
(** * Attribute expressions and predicates
      (utGraph/KeyValueAttributes, AttributeExpression, Predicate,
       EvaluationContext)                                                 *)
(* ===================================================================== *)

Module Predicate.
Import AttributeValue.

(** [KeyValueAttributes]: [std::map< std::string, AttributeValue > m_Values]. *)
Record KeyValueAttributes := mkKV { m_Values : gmap string AttributeValue.t }.

Definition hasAttribute (kv : KeyValueAttributes) (key : string) : bool :=
  bool_decide (is_Some (m_Values kv !! key)).

Definition getAttribute (kv : KeyValueAttributes) (key : string) : Exc AttributeValue.t :=
  match m_Values kv !! key with
  | Some v => Ret v
  | None => Throw "Unknown key in get attribute"
  end.

Definition setAttribute (kv : KeyValueAttributes) (key : string) (value : AttributeValue.t) :=
  mkKV (<[key := value]> (m_Values kv)).

(** [mergeAttributes]: every attribute of [x] is set, in key order. *)
Definition mergeAttributes (kv x : KeyValueAttributes) : KeyValueAttributes :=
  foldl (fun acc e => setAttribute acc (fst e) (snd e)) kv (entries (m_Values x)).

(** [PatternAttributes]. *)
Record PatternAttributes := mkPA { m_InformationSources : gset string }.

(** [EvaluationContext]: node/edge-local (the attributes and the pattern
    attributes of one SRG node or edge) or global (a matching, of which
    the evaluation reads [m_allInputAttributes] and
    [m_informationSources]). *)
Inductive EvaluationContext :=
| LocalContext (m_pNodeEdgeAttributes : KeyValueAttributes)
               (m_pPatternAttributes : PatternAttributes)
| GlobalContext (m_allInputAttributes : gmap string KeyValueAttributes)
                (m_informationSources : gset string).

Definition isGlobal (c : EvaluationContext) : bool :=
  match c with LocalContext _ _ => false | GlobalContext _ _ => true end.

Inductive FunctionType := FunctionSyncError | FunctionSteadyState | FunctionSourceCount.

(** The [AttributeExpression] class hierarchy.  The functor of a unary or
    binary node ([std::negate], [std::plus], [&::pow], ...) is kept as a
    function on doubles. *)
#[warnings="-register-all"]
Inductive AttributeExpression :=
| AttributeExpressionConstant (m_value : AttributeValue.t)
| AttributeExpressionAttribute (m_nodeEdge m_name : string)
| AttributeExpressionUnary (m_f : float -> float) (m_pChild : AttributeExpression)
| AttributeExpressionBinary (m_f : float -> float -> float)
    (m_pChild1 m_pChild2 : AttributeExpression)
| AttributeExpressionFunction (m_functionType : FunctionType)
    (m_children : list AttributeExpression).

Inductive ComparisonType :=
  equals | notEquals | greater | less | greaterEquals | lessEquals.

(** The [Predicate] class hierarchy; [PredicateFunction] has the single
    function type [inSourceSet]. *)
Inductive Predicate :=
| PredicateNot (m_pChild : Predicate)
| PredicateAnd (m_pChild1 m_pChild2 : Predicate)
| PredicateOr (m_pChild1 m_pChild2 : Predicate)
| PredicateCompare (m_type : ComparisonType) (m_pChild1 m_pChild2 : AttributeExpression)
| PredicateFunction (m_pChild1 : AttributeExpression).

(** [std::string::compare( 0, query.size(), query ) == 0] for a string at
    least as long as [query]. *)
Definition startsWith (query s : string) : bool := String.prefix query s.

(** [std::set::lower_bound]: the first element not less than [query]. *)
Definition lower_bound (sources : gset string) (query : string) : option string :=
  head (List.filter (fun x => String.leb query x) (members sources)).

(** The six comparisons of C++ on doubles. *)
Definition compareNumbers (ty : ComparisonType) (x y : float) : bool :=
  match ty with
  | equals => PrimFloat.eqb x y
  | notEquals => negb (PrimFloat.eqb x y)
  | greater => PrimFloat.ltb y x
  | greaterEquals => PrimFloat.leb y x
  | less => PrimFloat.ltb x y
  | lessEquals => PrimFloat.leb x y
  end.

(** The six comparisons of [std::string]: lexicographic by character code. *)
Definition compareTexts (ty : ComparisonType) (x y : string) : bool :=
  match ty with
  | equals => String.eqb x y
  | notEquals => negb (String.eqb x y)
  | greater => String.ltb y x
  | greaterEquals => String.leb y x
  | less => String.ltb x y
  | lessEquals => String.leb x y
  end.

Section Evaluate.

Variable strtod : string -> float * nat.
Variable printDouble : float -> string.

(** The numerical functions [syncError], [steadyState] and [sourceCount],
    which are only available in a global context. *)
Variable evaluateFunction :
  FunctionType -> list AttributeExpression -> gmap string KeyValueAttributes ->
  gset string -> Exc AttributeValue.t.

(** The constructor [AttributeExpressionConstant( value )] converts to a
    number at once: "so we don't have to do it at runtime". *)
Definition mkConstant (value : string) : AttributeExpression :=
  AttributeExpressionConstant (snd (isNumber strtod printDouble (AttributeValue_string value))).

(** [AttributeExpression::evaluate].  Operands are evaluated left to
    right. *)
Fixpoint evaluateExpression (e : AttributeExpression) (c : EvaluationContext)
    : Exc AttributeValue.t :=
  match e with
  | AttributeExpressionConstant v => Ret v
  | AttributeExpressionAttribute nodeEdge name =>
      let pAttr :=
        match c with
        | GlobalContext all _ => all !! nodeEdge
        | LocalContext kv _ => Some kv
        end in
      match pAttr with
      | None => Ret AttributeValue_empty
      | Some kv =>
          if hasAttribute kv name then getAttribute kv name
          else Ret AttributeValue_empty
      end
  | AttributeExpressionUnary f child =>
      v <-! evaluateExpression child c ;;
      x <-! fst (getNumber strtod printDouble v) ;;
      Ret (AttributeValue_double (f x))
  | AttributeExpressionBinary f child1 child2 =>
      v1 <-! evaluateExpression child1 c ;;
      x1 <-! fst (getNumber strtod printDouble v1) ;;
      v2 <-! evaluateExpression child2 c ;;
      x2 <-! fst (getNumber strtod printDouble v2) ;;
      Ret (AttributeValue_double (f x1 x2))
  | AttributeExpressionFunction ty children =>
      match c with
      | LocalContext _ _ => Throw "Function can only be used within AttributeExpressions"
      | GlobalContext all sources => evaluateFunction ty children all sources
      end
  end.

(** [PredicateCompare::doCompare]. *)
Definition doCompare (ty : ComparisonType) (a b : AttributeValue.t) : Exc bool :=
  match ty with
  | equals =>
      let '(na, a1) := isNumber strtod printDouble a in
      if na then
        let '(nb, b1) := isNumber strtod printDouble b in
        if nb then
          x <-! fst (getNumber strtod printDouble a1) ;;
          y <-! fst (getNumber strtod printDouble b1) ;;
          Ret (PrimFloat.eqb x y)
        else Ret false
      else
        Ret (String.eqb (fst (getText printDouble a1)) (fst (getText printDouble b)))
  | notEquals =>
      let '(na, a1) := isNumber strtod printDouble a in
      if na then
        let '(nb, b1) := isNumber strtod printDouble b in
        if nb then
          x <-! fst (getNumber strtod printDouble a1) ;;
          y <-! fst (getNumber strtod printDouble b1) ;;
          Ret (negb (PrimFloat.eqb x y))
        else Ret true
      else
        Ret (negb (String.eqb (fst (getText printDouble a1)) (fst (getText printDouble b))))
  | greater =>
      x <-! fst (getNumber strtod printDouble a) ;; y <-! fst (getNumber strtod printDouble b) ;; Ret (PrimFloat.ltb y x)
  | greaterEquals =>
      x <-! fst (getNumber strtod printDouble a) ;; y <-! fst (getNumber strtod printDouble b) ;; Ret (PrimFloat.leb y x)
  | less =>
      x <-! fst (getNumber strtod printDouble a) ;; y <-! fst (getNumber strtod printDouble b) ;; Ret (PrimFloat.ltb x y)
  | lessEquals =>
      x <-! fst (getNumber strtod printDouble a) ;; y <-! fst (getNumber strtod printDouble b) ;; Ret (PrimFloat.leb x y)
  end.

(** [Predicate::evaluate] with the short-circuit rules of [&&] and [||]. *)
Fixpoint evaluate (p : Predicate) (c : EvaluationContext) : Exc bool :=
  match p with
  | PredicateNot child => b <-! evaluate child c ;; Ret (negb b)
  | PredicateAnd child1 child2 =>
      b1 <-! evaluate child1 c ;; if b1 then evaluate child2 c else Ret false
  | PredicateOr child1 child2 =>
      b1 <-! evaluate child1 c ;; if b1 then Ret true else evaluate child2 c
  | PredicateCompare ty child1 child2 =>
      a <-! evaluateExpression child1 c ;;
      b <-! evaluateExpression child2 c ;;
      doCompare ty a b
  | PredicateFunction child1 =>
      match c with
      | GlobalContext _ _ => Throw "inSourceSet can only be used in edge predicates!"
      | LocalContext _ pa =>
          v <-! evaluateExpression child1 c ;;
          let query := fst (getText printDouble v) in
          match lower_bound (m_InformationSources pa) query with
          | Some it =>
              Ret (Nat.leb (String.length query) (String.length it) && startsWith query it)
          | None => Ret false
          end
      end
  end.

(** What the specification says a comparison does: numeric if both
    operands parse as numbers, else lexicographic on the text forms. *)
Definition specCompare (ty : ComparisonType) (a b : AttributeValue.t) : bool :=
  let '(na, a1) := isNumber strtod printDouble a in
  let '(nb, b1) := isNumber strtod printDouble b in
  if na && nb then compareNumbers ty (m_double a1) (m_double b1)
  else compareTexts ty (fst (getText printDouble a)) (fst (getText printDouble b)).

(** What [doCompare] does, case by case. *)
Definition codeCompare (ty : ComparisonType) (a b : AttributeValue.t) : Exc bool :=
  let na := fst (isNumber strtod printDouble a) in
  let nb := fst (isNumber strtod printDouble b) in
  if na && nb then
    Ret (compareNumbers ty (m_double (snd (isNumber strtod printDouble a))) (m_double (snd (isNumber strtod printDouble b))))
  else
    match ty with
    | equals =>
        if na then Ret false
        else Ret (String.eqb (fst (getText printDouble a)) (fst (getText printDouble b)))
    | notEquals =>
        if na then Ret true
        else Ret (negb (String.eqb (fst (getText printDouble a)) (fst (getText printDouble b))))
    | _ =>
        Throw ("Attribute is no number! ("
               ++ m_string (if na then snd (isNumber strtod printDouble b) else snd (isNumber strtod printDouble a)) ++ ")")
    end.

(** [Predicate::getConjunctiveEqualities]: the [(attribute, literal)]
    pairs of the top-level equality conjuncts.  The [dynamic_cast]s accept
    exactly an attribute on the left and a constant on the right; the
    attribute's [getName()] is its name without the qualifier. *)
Fixpoint getConjunctiveEqualities (p : Predicate) : list (string * string) :=
  match p with
  | PredicateAnd child1 child2 =>
      getConjunctiveEqualities child1 ++ getConjunctiveEqualities child2
  | PredicateCompare equals (AttributeExpressionAttribute _ name)
                     (AttributeExpressionConstant v) =>
      [(name, fst (getText printDouble v))]
  | _ => []
  end.

End Evaluate.

(** No numerical function is available outside a global context; this
    stand-in refuses them all. *)
Definition noFunctions (ty : FunctionType) (children : list AttributeExpression)
    (all : gmap string KeyValueAttributes) (sources : gset string)
    : Exc AttributeValue.t :=
  Throw "function not available".

End Predicate.

(* ===================================================================== *)
(** * The generic graph (utGraph/Graph.h)                                 *)
(* ===================================================================== *)

Module Graph.

(** Nodes and edges are heap objects held by [shared_ptr] in the maps of
    the graph and by [weak_ptr] in each other.  A pointer is an address
    into the store of its kind.  Lifetimes are not modelled: an object
    stays in its store once allocated, so [lock()] on a [weak_ptr] that
    was not reset yields the object. *)
Abbreviation NodePtr := nat (only parsing).
Abbreviation EdgePtr := nat (only parsing).

Section Generic.

Context {NodeAttributes EdgeAttributes : Type}.

(** [GraphNode]: the attributes it inherits, its name and the two lists of
    [weak_ptr]s to its edges. *)
Record GraphNode := mkNode {
  node_data : NodeAttributes;
  node_Name : string;          (* m_Name *)
  m_InEdges : list EdgePtr;
  m_OutEdges : list EdgePtr
}.

(** [GraphEdge]: the attributes it inherits, its name and the [weak_ptr]s
    to its end points ([None] after [reset()]). *)
Record GraphEdge := mkEdge {
  edge_data : EdgeAttributes;
  edge_Name : string;          (* m_Name *)
  m_Source : option NodePtr;
  m_Target : option NodePtr
}.

(** [Graph]: the two name maps, and the stores their pointers lead to. *)
Record Graph := mkGraph {
  nodeStore : gmap NodePtr GraphNode;
  edgeStore : gmap EdgePtr GraphEdge;
  m_Nodes : gmap string NodePtr;
  m_Edges : gmap string EdgePtr
}.

Definition emptyGraph : Graph := mkGraph ∅ ∅ ∅ ∅.

Definition setNodes (g : Graph) (ns : gmap NodePtr GraphNode) : Graph :=
  mkGraph ns (edgeStore g) (m_Nodes g) (m_Edges g).

Definition setEdges (g : Graph) (es : gmap EdgePtr GraphEdge) : Graph :=
  mkGraph (nodeStore g) es (m_Nodes g) (m_Edges g).

(** [addNode( nodeName, data )]. *)
Definition addNode (g : Graph) (nodeName : string) (data : NodeAttributes)
    : Exc (Graph * NodePtr) :=
  match m_Nodes g !! nodeName with
  | Some _ => Throw "Trying to insert already present node"
  | None =>
      let newNode := newPtr (nodeStore g) in
      Ret (mkGraph (<[newNode := mkNode data nodeName [] []]> (nodeStore g))
                   (edgeStore g)
                   (<[nodeName := newNode]> (m_Nodes g))
                   (m_Edges g),
           newNode)
  end.

Definition hasNode (g : Graph) (nodeName : string) : bool :=
  bool_decide (is_Some (m_Nodes g !! nodeName)).

Definition getNode (g : Graph) (nodeName : string) : Exc NodePtr :=
  match m_Nodes g !! nodeName with
  | Some p => Ret p
  | None => Throw ("Trying to get a non present node " ++ nodeName)
  end.

Definition pushOutEdge (e : EdgePtr) (n : GraphNode) : GraphNode :=
  mkNode (node_data n) (node_Name n) (m_InEdges n) (m_OutEdges n ++ [e]).

Definition pushInEdge (e : EdgePtr) (n : GraphNode) : GraphNode :=
  mkNode (node_data n) (node_Name n) (m_InEdges n ++ [e]) (m_OutEdges n).

(** [addEdge( edgeName, NodePtr source, NodePtr target, data )]:
<<
    if ( m_Edges.find ( edgeName ) != m_Edges.end() )
    {
        LOG4CPP_WARN ( m_logger, "Edge is already in Graph: " << edgeName );
//      UBITRACK_THROW ( "Trying to insert already present edge" );
    }
    EdgePtr newEdge = EdgePtr( new Edge( edgeName, source, target, data ) );
    m_Edges.insert( std::pair< std::string, EdgePtr >( edgeName, newEdge ) );
    source->m_OutEdges.push_back( boost::weak_ptr< Edge >( newEdge ) );
    target->m_InEdges.push_back( boost::weak_ptr< Edge >( newEdge ) );
    return newEdge;
>>
    [std::map::insert] does nothing when the key is present. *)
Definition addEdge (g : Graph) (edgeName : string) (source target : NodePtr)
    (data : EdgeAttributes) : Exc (Graph * EdgePtr) :=
  let newEdge := newPtr (edgeStore g) in
  let edges' :=
    match m_Edges g !! edgeName with
    | Some _ => m_Edges g
    | None => <[edgeName := newEdge]> (m_Edges g)
    end in
  _ <-! deref_ptr (nodeStore g) source ;;
  let nodes1 := alter (pushOutEdge newEdge) source (nodeStore g) in
  _ <-! deref_ptr nodes1 target ;;
  let nodes2 := alter (pushInEdge newEdge) target nodes1 in
  Ret (mkGraph nodes2
               (<[newEdge := mkEdge data edgeName (Some source) (Some target)]> (edgeStore g))
               (m_Nodes g) edges',
       newEdge).

(** [addEdge( edgeName, source name, target name, data )]. *)
Definition addEdgeByName (g : Graph) (edgeName source target : string)
    (data : EdgeAttributes) : Exc (Graph * EdgePtr) :=
  sourceNode <-! getNode g source ;;
  targetNode <-! getNode g target ;;
  addEdge g edgeName sourceNode targetNode data.

Definition hasEdge (g : Graph) (edgeName : string) : bool :=
  bool_decide (is_Some (m_Edges g !! edgeName)).

Definition getEdge (g : Graph) (edgeName : string) : Exc EdgePtr :=
  match m_Edges g !! edgeName with
  | Some p => Ret p
  | None => Throw ("Trying to get a non present edge " ++ edgeName)
  end.

(** Erase the first entry of an edge list that points to [e]
    ([if ( it->lock() == edge ) { erase( it ); break; }]). *)
Fixpoint eraseFirst (e : EdgePtr) (l : list EdgePtr) : list EdgePtr :=
  match l with
  | [] => []
  | x :: l' => if Nat.eqb x e then l' else x :: eraseFirst e l'
  end.

Definition eraseOutEdge (e : EdgePtr) (n : GraphNode) : GraphNode :=
  mkNode (node_data n) (node_Name n) (m_InEdges n) (eraseFirst e (m_OutEdges n)).

Definition eraseInEdge (e : EdgePtr) (n : GraphNode) : GraphNode :=
  mkNode (node_data n) (node_Name n) (eraseFirst e (m_InEdges n)) (m_OutEdges n).

Definition resetEnds (x : GraphEdge) : GraphEdge :=
  mkEdge (edge_data x) (edge_Name x) None None.

(** [removeEdge( EdgePtr edge )].  The edge is taken out of the lists of
    its end points, its end points are reset, and the entry of the edge
    map under the edge's name is erased; if there is no such entry the
    code erases the end iterator. *)
Definition removeEdge (g : Graph) (edge : EdgePtr) : Exc Graph :=
  x <-! deref_ptr (edgeStore g) edge ;;
  let nodes1 :=
    match m_Source x with
    | Some source => alter (eraseOutEdge edge) source (nodeStore g)
    | None => nodeStore g
    end in
  let nodes2 :=
    match m_Target x with
    | Some target => alter (eraseInEdge edge) target nodes1
    | None => nodes1
    end in
  match m_Edges g !! edge_Name x with
  | None => Undefined
  | Some _ =>
      Ret (mkGraph nodes2 (<[edge := resetEnds x]> (edgeStore g))
                   (m_Nodes g) (delete (edge_Name x) (m_Edges g)))
  end.

(** [removeEdge( edgeName )]. *)
Definition removeEdgeByName (g : Graph) (edgeName : string) : Exc Graph :=
  edge <-! getEdge g edgeName ;;
  removeEdge g edge.

(** [while ( !list.empty() ) removeEdge( list.begin()->lock() );] for the
    in- or the out-list of node [n].  A pass that does not shorten the
    list repeats forever, so the loop either ends after as many passes as
    the list is long, or never; [fuel] is that length. *)
Fixpoint removeEdgesOf (fuel : nat) (pick : GraphNode -> list EdgePtr)
    (g : Graph) (n : NodePtr) : Exc Graph :=
  nd <-! deref_ptr (nodeStore g) n ;;
  match pick nd with
  | [] => Ret g
  | e :: _ =>
      match fuel with
      | O => Undefined
      | S fuel' =>
          g' <-! removeEdge g e ;;
          removeEdgesOf fuel' pick g' n
      end
  end.

(** [removeNode( NodePtr node )]. *)
Definition removeNode (g : Graph) (node : NodePtr) : Exc Graph :=
  nd <-! deref_ptr (nodeStore g) node ;;
  g1 <-! removeEdgesOf (length (m_OutEdges nd)) m_OutEdges g node ;;
  nd1 <-! deref_ptr (nodeStore g1) node ;;
  g2 <-! removeEdgesOf (length (m_InEdges nd1)) m_InEdges g1 node ;;
  Ret (mkGraph (nodeStore g2) (edgeStore g2)
               (delete (node_Name nd) (m_Nodes g2)) (m_Edges g2)).

(** [removeNode( nodeName )]. *)
Definition removeNodeByName (g : Graph) (nodeName : string) : Exc Graph :=
  node <-! getNode g nodeName ;;
  removeNode g node.

(** [size()] and [order()]. *)
Definition size (g : Graph) : Z := Z.of_nat (base.size (m_Edges g)).
Definition order (g : Graph) : Z := Z.of_nat (base.size (m_Nodes g)).

(** Every [shared_ptr] in the edge map leads to an edge object. *)
Definition edgesAllocated (g : Graph) : Prop :=
  forall name p, m_Edges g !! name = Some p -> is_Some (edgeStore g !! p).

(** Edge object [e] is stored in the edge map under some name. *)
Definition reachableByName (g : Graph) (e : EdgePtr) : Prop :=
  exists name, m_Edges g !! name = Some e.

(** ** What removals leave of a graph *)

(** The same node, possibly with other edge lists; the same edge,
    possibly with its end points reset. *)
Definition sameNode (a b : GraphNode) : Prop :=
  node_data b = node_data a /\ node_Name b = node_Name a.

Definition sameEdge (a b : GraphEdge) : Prop :=
  edge_data b = edge_data a /\ edge_Name b = edge_Name a.

(** [g'] is what is left of [g]: the maps have lost entries at most, and
    every object is the same but for its links. *)
Record remainder (g g' : Graph) : Prop := {
  rem_edges : m_Edges g' ⊆ m_Edges g;
  rem_nodes : m_Nodes g' ⊆ m_Nodes g;
  rem_edgeStore : forall e, option_Forall2 sameEdge (edgeStore g !! e) (edgeStore g' !! e);
  rem_nodeStore : forall n, option_Forall2 sameNode (nodeStore g !! n) (nodeStore g' !! n)
}.

(** [empty()] and [null()]. *)
Definition empty (g : Graph) : bool := bool_decide (m_Edges g = ∅).
Definition null (g : Graph) : bool := bool_decide (m_Nodes g = ∅).

(** ** The links between the maps, the nodes and the edges *)

(** Edge [e] is an edge of the graph: it is the entry of the edge map
    under its own name. *)
Definition edgeOfGraph (g : Graph) (e : EdgePtr) : Prop :=
  exists x, edgeStore g !! e = Some x /\ m_Edges g !! edge_Name x = Some e.

(** A well linked graph: the entries of the two maps lead to objects of
    the same name; every edge of the edge map has both end points and is
    in the out-list of its source and the in-list of its target; the
    lists of a node hold edges of the graph that start, respectively end,
    at the node, each one once. *)
Record linked (g : Graph) : Prop := {
  lk_nodes : forall name n, m_Nodes g !! name = Some n ->
    exists nd, nodeStore g !! n = Some nd /\ node_Name nd = name;
  lk_edges : forall name e, m_Edges g !! name = Some e ->
    exists x s t sn tn,
      edgeStore g !! e = Some x /\ edge_Name x = name /\
      m_Source x = Some s /\ m_Target x = Some t /\
      nodeStore g !! s = Some sn /\ e ∈ m_OutEdges sn /\
      nodeStore g !! t = Some tn /\ e ∈ m_InEdges tn;
  lk_out : forall n nd e, nodeStore g !! n = Some nd -> e ∈ m_OutEdges nd ->
    exists x, edgeStore g !! e = Some x /\ m_Source x = Some n /\
              m_Edges g !! edge_Name x = Some e;
  lk_in : forall n nd e, nodeStore g !! n = Some nd -> e ∈ m_InEdges nd ->
    exists x, edgeStore g !! e = Some x /\ m_Target x = Some n /\
              m_Edges g !! edge_Name x = Some e;
  lk_out_once : forall n nd, nodeStore g !! n = Some nd -> NoDup (m_OutEdges nd);
  lk_in_once : forall n nd, nodeStore g !! n = Some nd -> NoDup (m_InEdges nd)
}.

(** The graphs that the interface builds when no edge name is used for a
    second edge while the first is in the graph. *)
Inductive assembled : Graph -> Prop :=
| assembled_empty : assembled emptyGraph
| assembled_addNode g nodeName data g' n :
    assembled g -> addNode g nodeName data = Ret (g', n) -> assembled g'
| assembled_addEdge g edgeName source target data g' e :
    assembled g -> hasEdge g edgeName = false ->
    addEdge g edgeName source target data = Ret (g', e) -> assembled g'
| assembled_removeEdge g e g' :
    assembled g -> edgeOfGraph g e -> removeEdge g e = Ret g' -> assembled g'
| assembled_removeNode g n g' :
    assembled g -> removeNode g n = Ret g' -> assembled g'.

(** Node [k] after an edge [e] from [s] to [t] was added, and after it
    was removed. *)
Definition withEdge (e : EdgePtr) (s t k : NodePtr) (nd : GraphNode) : GraphNode :=
  mkNode (node_data nd) (node_Name nd)
         (m_InEdges nd ++ (if decide (k = t) then [e] else []))
         (m_OutEdges nd ++ (if decide (k = s) then [e] else [])).

Definition withoutEdge (e : EdgePtr) (s t : option NodePtr) (k : NodePtr)
    (nd : GraphNode) : GraphNode :=
  mkNode (node_data nd) (node_Name nd)
         (if decide (t = Some k) then eraseFirst e (m_InEdges nd) else m_InEdges nd)
         (if decide (s = Some k) then eraseFirst e (m_OutEdges nd) else m_OutEdges nd).

(** Edge object [x] has node [n] as an end point. *)
Definition incident (n : NodePtr) (x : GraphEdge) : Prop :=
  m_Source x = Some n \/ m_Target x = Some n.

End Generic.

Arguments GraphNode : clear implicits.
Arguments GraphEdge : clear implicits.
Arguments Graph : clear implicits.

End Graph.

(** A two-node graph with one edge, built through the interface. *)
Module GraphExamples.
Import Graph.

Definition built : Exc (Graph unit unit * EdgePtr) :=
  r1 <-! addNode emptyGraph "A" tt ;;
  r2 <-! addNode (fst r1) "B" tt ;;
  addEdge (fst r2) "s:e" (snd r1) (snd r2) tt.

Definition oneEdge : Graph unit unit :=
  match built with
  | Ret (g, _) => g
  | _ => emptyGraph
  end.

(** The two nodes before the edge is added. *)
Definition twoNodes : Graph unit unit :=
  match (r1 <-! addNode emptyGraph "A" tt ;; addNode (fst r1) "B" tt) with
  | Ret (g, _) => g
  | _ => emptyGraph
  end.

End GraphExamples.

(* ===================================================================== *)
(** * UTQL subgraphs and the SRG (utGraph/InOutAttribute.h,
      UTQLSubgraph.h, SRGraph.h)                                          *)
(* ===================================================================== *)

Module UTQL.
Import AttributeValue Predicate Graph.

(** [InOutAttribute::Tag]. *)
Inductive Tag := Input | Output.

Definition Tag_eqb (a b : Tag) : bool :=
  match a, b with
  | Input, Input | Output, Output => true
  | _, _ => false
  end.

(** [InOutAttribute]: a [PredicateList], [KeyValueAttributes], the tag and
    the attribute expressions. *)
Record InOutAttribute := mkInOut {
  m_predicateList : list Predicate;
  io_attributes : KeyValueAttributes;
  m_Tag : Tag;
  m_attributeExpressions : list (string * AttributeExpression)
}.

Definition isInput (x : InOutAttribute) : bool := Tag_eqb (m_Tag x) Input.
Definition isOutput (x : InOutAttribute) : bool := Tag_eqb (m_Tag x) Output.

(** [EdgeReference]. *)
Record EdgeReference := mkEdgeReference {
  m_id : string;      (* getSubgraphId() *)
  m_name : string     (* getEdgeName() *)
}.

Definition noReference : EdgeReference := mkEdgeReference "" "".

(** The constructor [EdgeReference( graphRef, edgeRef )]. *)
Definition makeEdgeReference (graphRef edgeRef : string) : Exc EdgeReference :=
  if String.eqb graphRef "" || String.eqb edgeRef ""
  then Throw ("illegal edge reference: " +:+ graphRef +:+ ":" +:+ edgeRef)
  else Ret (mkEdgeReference graphRef edgeRef).

(** [UTQLNode] and [UTQLEdge]. *)
Record UTQLNode := mkUTQLNode {
  node_io : InOutAttribute;
  node_pattern : PatternAttributes;
  m_QualifiedName : string
}.

Record UTQLEdge := mkUTQLEdge {
  edge_io : InOutAttribute;
  edge_pattern : PatternAttributes;
  m_EdgeReference : EdgeReference
}.

(** [UTQLNode( tag )] and [UTQLEdge( tag )]. *)
Definition freshInOut (tag : Tag) : InOutAttribute := mkInOut [] (mkKV ∅) tag [].

Definition newUTQLNode (tag : Tag) : UTQLNode :=
  mkUTQLNode (freshInOut tag) (mkPA ∅) "".

Definition newUTQLEdge (tag : Tag) : UTQLEdge :=
  mkUTQLEdge (freshInOut tag) (mkPA ∅) noReference.

Definition withAttributes (x : InOutAttribute) (kv : KeyValueAttributes) : InOutAttribute :=
  mkInOut (m_predicateList x) kv (m_Tag x) (m_attributeExpressions x).

Definition withoutPredicates (x : InOutAttribute) : InOutAttribute :=
  mkInOut [] (io_attributes x) (m_Tag x) (m_attributeExpressions x).

(** [UTQLSubgraph]: a [Graph< UTQLNode, UTQLEdge >] with the attributes of
    the pattern.  A subgraph held by [shared_ptr] is kept by value. *)
Record UTQLSubgraph := mkSubgraph {
  graph : Graph UTQLNode UTQLEdge;
  m_ID : string;
  m_Name : string;
  m_onlyBestEdgeMatch : bool;
  m_bestMatchExpression : option AttributeExpression;
  m_DataflowConfiguration : AttributeValue.t;
  m_DataflowAttributes : KeyValueAttributes;
  m_DataflowClass : string
}.

Definition emptySubgraph (id name : string) : UTQLSubgraph :=
  mkSubgraph emptyGraph id name false None AttributeValue_empty (mkKV ∅) "".

Definition withGraph (sg : UTQLSubgraph) (g : Graph UTQLNode UTQLEdge) : UTQLSubgraph :=
  mkSubgraph g (m_ID sg) (m_Name sg) (m_onlyBestEdgeMatch sg) (m_bestMatchExpression sg)
             (m_DataflowConfiguration sg) (m_DataflowAttributes sg) (m_DataflowClass sg).

Definition withID (sg : UTQLSubgraph) (id : string) : UTQLSubgraph :=
  mkSubgraph (graph sg) id (m_Name sg) (m_onlyBestEdgeMatch sg) (m_bestMatchExpression sg)
             (m_DataflowConfiguration sg) (m_DataflowAttributes sg) (m_DataflowClass sg).

(** The edges and nodes of a subgraph as the loops over [m_Edges] and
    [m_Nodes] meet them: in name order, each pointer dereferenced. *)
Definition edgesOf (sg : UTQLSubgraph) : list (string * EdgePtr) := entries (m_Edges (graph sg)).
Definition nodesOf (sg : UTQLSubgraph) : list (string * NodePtr) := entries (m_Nodes (graph sg)).

Definition edgeAt (sg : UTQLSubgraph) (e : EdgePtr) : Exc (GraphEdge UTQLEdge) :=
  deref_ptr (edgeStore (graph sg)) e.

Definition nodeAt (sg : UTQLSubgraph) (n : NodePtr) : Exc (GraphNode UTQLNode) :=
  deref_ptr (nodeStore (graph sg)) n.

End UTQL.

Module SRG.
Import AttributeValue Predicate Graph UTQL.

(** [SRGNodeAttributes].  [m_NodeRefs], the pattern nodes merged into the
    node (used to write merged attributes back to them), is left out. *)
Record SRGNodeAttributes := mkSRGNode {
  srgnode_attributes : KeyValueAttributes;
  srgnode_pattern : PatternAttributes;
  m_SubgraphIDs : gset string
}.

(** [SRGEdgeAttributes]. *)
Record SRGEdgeAttributes := mkSRGEdge {
  srgedge_attributes : KeyValueAttributes;
  srgedge_pattern : PatternAttributes;
  m_SubgraphID : string;
  m_PatternName : string;
  m_LocalName : string;
  m_DependantSubgraphIDs : gset string
}.

(** [SRGNodeAttributes( utqlAttrs, subgraphID, referenceNode )]: the
    key-value part is copied, the pattern attributes start empty. *)
Definition newSRGNodeAttributes (utqlAttrs : UTQLNode) (subgraphID : string)
    : SRGNodeAttributes :=
  mkSRGNode (io_attributes (node_io utqlAttrs)) (mkPA ∅)
            (if String.eqb subgraphID "" then ∅ else {[subgraphID]}).

(** [SRGEdgeAttributes( utqlAttrs, subgraphID, localName )]. *)
Definition newSRGEdgeAttributes (utqlAttrs : UTQLEdge) (subgraphID localName : string)
    : SRGEdgeAttributes :=
  mkSRGEdge (io_attributes (edge_io utqlAttrs)) (mkPA ∅) subgraphID "" localName ∅.

Definition informationSources (x : SRGEdgeAttributes) : gset string :=
  m_InformationSources (srgedge_pattern x).

Definition setInformationSources (s : gset string) (x : SRGEdgeAttributes) : SRGEdgeAttributes :=
  mkSRGEdge (srgedge_attributes x) (mkPA s) (m_SubgraphID x) (m_PatternName x)
            (m_LocalName x) (m_DependantSubgraphIDs x).

Definition setPatternName (n : string) (x : SRGEdgeAttributes) : SRGEdgeAttributes :=
  mkSRGEdge (srgedge_attributes x) (srgedge_pattern x) (m_SubgraphID x) n
            (m_LocalName x) (m_DependantSubgraphIDs x).

Definition setDependants (d : gset string) (x : SRGEdgeAttributes) : SRGEdgeAttributes :=
  mkSRGEdge (srgedge_attributes x) (srgedge_pattern x) (m_SubgraphID x) (m_PatternName x)
            (m_LocalName x) d.

Definition setSubgraphIDs (s : gset string) (x : SRGNodeAttributes) : SRGNodeAttributes :=
  mkSRGNode (srgnode_attributes x) (srgnode_pattern x) s.

Definition setNodeAttributes (kv : KeyValueAttributes) (x : SRGNodeAttributes) : SRGNodeAttributes :=
  mkSRGNode kv (srgnode_pattern x) (m_SubgraphIDs x).

(** Update of the attribute part of a stored node or edge. *)
Definition onNodeData {A} (f : A -> A) (n : GraphNode A) : GraphNode A :=
  mkNode (f (node_data n)) (node_Name n) (m_InEdges n) (m_OutEdges n).

Definition onEdgeData {B} (f : B -> B) (e : GraphEdge B) : GraphEdge B :=
  mkEdge (f (edge_data e)) (edge_Name e) (m_Source e) (m_Target e).

(** [SRGraph]: the graph, the id map of its nodes, and the function-local
    [static long idCounter] of [addNode]. *)
Record SRGraph := mkSRG {
  base : Graph SRGNodeAttributes SRGEdgeAttributes;
  m_NodeIDMap : gmap string NodePtr;
  idCounter : Z
}.

Definition emptySRG : SRGraph := mkSRG emptyGraph ∅ 1000.

Definition withBase (srg : SRGraph) (g : Graph SRGNodeAttributes SRGEdgeAttributes) : SRGraph :=
  mkSRG g (m_NodeIDMap srg) (idCounter srg).

(** [SRGraph::hasNode( id )] and [SRGraph::getNode( id )] go through
    [m_NodeIDMap]. *)
Definition hasNode (srg : SRGraph) (id : string) : bool :=
  bool_decide (is_Some (m_NodeIDMap srg !! id)).

Definition getNode (srg : SRGraph) (id : string) : Exc NodePtr :=
  match m_NodeIDMap srg !! id with
  | Some p => Ret p
  | None => Throw "Trying to get node for unregistered id"
  end.

(** [SRGraph::addNode( utqlNode, subgraphID )]. *)
Definition addNode (srg : SRGraph) (utqlNode : UTQLNode) (subgraphID : string)
    : Exc (SRGraph * NodePtr) :=
  let '(id, counter) :=
    if String.eqb (m_QualifiedName utqlNode) ""
    then ("tmp" +:+ pretty (idCounter srg), idCounter srg + 1)
    else (m_QualifiedName utqlNode, idCounter srg) in
  if hasNode srg id then Throw "Trying to register duplicate IDs"
  else
    r <-! Graph.addNode (base srg) id (newSRGNodeAttributes utqlNode subgraphID) ;;
    Ret (mkSRG (fst r) (<[id := snd r]> (m_NodeIDMap srg)) counter, snd r).

(** [SRGraph::removeNode( id )]. *)
Definition removeNode (srg : SRGraph) (id : string) : Exc SRGraph :=
  if hasNode srg id then
    g <-! Graph.removeNodeByName (base srg) id ;;
    Ret (mkSRG g (delete id (m_NodeIDMap srg)) (idCounter srg))
  else Throw ("Trying to erase node with unknown id: " +:+ id).

(** [SRGraph::mergeNodeAttributes( node, utqlNode, subgraphID )], without
    the write-back to [m_NodeRefs]. *)
Definition mergeNodeAttributes (srg : SRGraph) (node : NodePtr) (utqlNode : UTQLNode)
    (subgraphID : string) : Exc SRGraph :=
  _ <-! deref_ptr (nodeStore (base srg)) node ;;
  let merge (x : SRGNodeAttributes) :=
    mkSRGNode (mergeAttributes (srgnode_attributes x) (io_attributes (node_io utqlNode)))
              (srgnode_pattern x) ({[subgraphID]} ∪ m_SubgraphIDs x) in
  Ret (withBase srg (setNodes (base srg)
                       (alter (onNodeData merge) node (nodeStore (base srg))))).

Definition srgEdgeAt (srg : SRGraph) (e : EdgePtr) : Exc (GraphEdge SRGEdgeAttributes) :=
  deref_ptr (edgeStore (base srg)) e.

Definition srgNodeAt (srg : SRGraph) (n : NodePtr) : Exc (GraphNode SRGNodeAttributes) :=
  deref_ptr (nodeStore (base srg)) n.

End SRG.

(* ===================================================================== *)
(** * Edge matchings, search plans and the matcher
      (utGraph/EdgeMatching.h, Pattern.h)                                 *)
(* ===================================================================== *)

Module Matching.
Import AttributeValue Predicate Graph UTQL SRG.

(** [EdgeMatching::vertexMapData]. *)
Record vertexMapData := mkVMD {
  m_correspondence : NodePtr;
  m_associationCount : Z
}.

(** [EdgeMatching< UTQLSubgraph, SRGraph >].  The maps are keyed by
    pointers; forward keys are pattern objects, backward keys SRG objects.
    An entry of [m_allInputAttributes] points to the attributes of an SRG
    edge ([inl]) or an SRG node ([inr]). *)
Record EdgeMatching := mkEM {
  m_edgeForwardMap : gmap EdgePtr EdgePtr;
  m_edgeBackwardMap : gmap EdgePtr EdgePtr;
  m_vertexForwardMap : gmap NodePtr vertexMapData;
  m_vertexBackwardMap : gmap NodePtr vertexMapData;
  m_expandedEdgeAttributes : gmap string KeyValueAttributes;
  m_expandedNodeAttributes : gmap string KeyValueAttributes;
  m_allInputAttributes : gmap string (EdgePtr + NodePtr);
  m_informationSources : gset string;
  m_iSearchPlanStep : Z
}.

Definition emptyMatching : EdgeMatching := mkEM ∅ ∅ ∅ ∅ ∅ ∅ ∅ ∅ 0.

Definition withStep (m : EdgeMatching) (i : Z) : EdgeMatching :=
  mkEM (m_edgeForwardMap m) (m_edgeBackwardMap m) (m_vertexForwardMap m)
       (m_vertexBackwardMap m) (m_expandedEdgeAttributes m) (m_expandedNodeAttributes m)
       (m_allInputAttributes m) (m_informationSources m) i.

Definition withMaps (m : EdgeMatching) (ef eb : gmap EdgePtr EdgePtr)
    (vf vb : gmap NodePtr vertexMapData) : EdgeMatching :=
  mkEM ef eb vf vb (m_expandedEdgeAttributes m) (m_expandedNodeAttributes m)
       (m_allInputAttributes m) (m_informationSources m) (m_iSearchPlanStep m).

(** [map[ k ].m_correspondence = v; map[ k ].m_associationCount++;] *)
Definition associate (k v : NodePtr) (m : gmap NodePtr vertexMapData)
    : gmap NodePtr vertexMapData :=
  let count := match m !! k with Some d => m_associationCount d | None => 0 end in
  <[k := mkVMD v (count + 1)]> m.

Definition isPatternEdgeMatched (m : EdgeMatching) (e : EdgePtr) : bool :=
  bool_decide (is_Some (m_edgeForwardMap m !! e)).

Definition isSrgEdgeMatched (m : EdgeMatching) (e : EdgePtr) : bool :=
  bool_decide (is_Some (m_edgeBackwardMap m !! e)).

Definition isPatternVertexMatched (m : EdgeMatching) (u : NodePtr) : bool :=
  bool_decide (is_Some (m_vertexForwardMap m !! u)).

Definition isSrgVertexMatched (m : EdgeMatching) (u : NodePtr) : bool :=
  bool_decide (is_Some (m_vertexBackwardMap m !! u)).

Definition getCorrespondingSrgEdge (m : EdgeMatching) (e : EdgePtr) : Exc EdgePtr :=
  match m_edgeForwardMap m !! e with
  | Some f => Ret f
  | None => Throw "Edge not matched in getCorrespondingSrgEdge: "
  end.

Definition getCorrespondingSrgVertex (m : EdgeMatching) (u : NodePtr) : Exc NodePtr :=
  match m_vertexForwardMap m !! u with
  | Some d => Ret (m_correspondence d)
  | None => Throw "Vertex not matched in getCorrespondingSrgVertex"
  end.

(** [lock()] of an end point.  A reset or expired pointer would enter the
    maps of the matching as a null key; the model stops there. *)
Definition locked (p : option NodePtr) : Exc NodePtr :=
  match p with Some n => Ret n | None => Undefined end.

(** [addMatchedEdge( e, f )]; the [assert]s are compiled out. *)
Definition addMatchedEdge (pattern : UTQLSubgraph) (srg : SRGraph) (m : EdgeMatching)
    (e f : EdgePtr) : Exc EdgeMatching :=
  pe <-! edgeAt pattern e ;;
  sf <-! srgEdgeAt srg f ;;
  ue <-! locked (m_Source pe) ;;
  ve <-! locked (m_Target pe) ;;
  uf <-! locked (m_Source sf) ;;
  vf <-! locked (m_Target sf) ;;
  Ret (withMaps m
         (<[e := f]> (m_edgeForwardMap m))
         (<[f := e]> (m_edgeBackwardMap m))
         (associate ve vf (associate ue uf (m_vertexForwardMap m)))
         (associate vf ve (associate uf ue (m_vertexBackwardMap m)))).

(** [addMatchedVertex( u, v )]. *)
Definition addMatchedVertex (m : EdgeMatching) (u v : NodePtr) : EdgeMatching :=
  withMaps m (m_edgeForwardMap m) (m_edgeBackwardMap m)
           (associate u v (m_vertexForwardMap m))
           (associate v u (m_vertexBackwardMap m)).

(** [Pattern::SearchPlanElement]: "match edge" when [m_pEdge] is set,
    else "match node", with the required id [m_sId] if not empty. *)
Record SearchPlanElement := mkSPE {
  m_pNode : option NodePtr;
  m_pEdge : option EdgePtr;
  m_sId : string
}.

Definition planNode (n : NodePtr) (sId : string) : SearchPlanElement := mkSPE (Some n) None sId.
Definition planEdge (e : EdgePtr) : SearchPlanElement := mkSPE None (Some e) "".

(** [class Pattern]. *)
Record Pattern := mkPattern {
  pattern_Name : string;       (* m_Name *)
  m_clientId : string;
  m_Graph : UTQLSubgraph;
  m_searchPlan : list SearchPlanElement
}.

Section Matcher.

Variable strtod : string -> float * nat.
Variable printDouble : float -> string.
Variable evaluateFunction :
  FunctionType -> list AttributeExpression -> gmap string KeyValueAttributes ->
  gset string -> Exc AttributeValue.t.

(** ** The constructor of [Pattern]: the search plan *)

(** The state of the plan construction. *)
Record PlanState := mkPlan {
  plan : list SearchPlanElement;     (* m_searchPlan, in [push_back] order *)
  nodeStack : list NodePtr;          (* top at the head *)
  matchedEdges : gset string;
  matchedNodes : gset string
}.

(** The first pair with key ["id"] of a list of conjunctive equalities. *)
Definition idEquality (attribs : list (string * string)) : option string :=
  snd <$> head (List.filter (fun a => String.eqb (fst a) "id") attribs).

(** "first find input node with id predicate": the loop over [m_Nodes];
    the second component is [pFirstPredicateNode]. *)
Fixpoint findIdNodes (g : UTQLSubgraph) (nodes : list (string * NodePtr))
    (st : PlanState) (first : option NodePtr) : Exc (PlanState * option NodePtr) :=
  match nodes with
  | [] => Ret (st, first)
  | (name, n) :: more =>
      nd <-! nodeAt g n ;;
      let io := node_io (node_data nd) in
      match isInput io, m_predicateList io with
      | true, front :: _ =>
          let st' :=
            match idEquality (getConjunctiveEqualities printDouble front) with
            | Some sId =>
                mkPlan (plan st ++ [planNode n sId]) (n :: nodeStack st)
                       (matchedEdges st) ({[name]} ∪ matchedNodes st)
            | None => st
            end in
          findIdNodes g more st' (match first with Some f => Some f | None => Some n end)
      | _, _ => findIdNodes g more st first
      end
  end.

(** "no nodes with predicates -> start with first input edge". *)
Fixpoint startWithEdge (g : UTQLSubgraph) (edges : list (string * EdgePtr))
    (st : PlanState) : Exc PlanState :=
  match edges with
  | [] => Ret st
  | (name, e) :: more =>
      ed <-! edgeAt g e ;;
      if isInput (edge_io (edge_data ed)) then
        s <-! locked (m_Source ed) ;;
        sn <-! nodeAt g s ;;
        t <-! locked (m_Target ed) ;;
        tn <-! nodeAt g t ;;
        Ret (mkPlan (plan st ++ [planEdge e]) (t :: s :: nodeStack st)
                    ({[name]} ∪ matchedEdges st)
                    ({[node_Name tn]} ∪ ({[node_Name sn]} ∪ matchedNodes st)))
      else startWithEdge g more st
  end.

(** "follow out edges" / "follow in edges" of the node taken off the
    stack; [other] picks the far end of an edge. *)
Fixpoint followEdges (g : UTQLSubgraph) (other : GraphEdge UTQLEdge -> option NodePtr)
    (edges : list EdgePtr) (st : PlanState) : Exc PlanState :=
  match edges with
  | [] => Ret st
  | e :: more =>
      ed <-! edgeAt g e ;;
      if isInput (edge_io (edge_data ed))
         && negb (bool_decide (edge_Name ed ∈ matchedEdges st)) then
        o <-! locked (other ed) ;;
        on <-! nodeAt g o ;;
        let plan1 := plan st ++ [planEdge e] in
        let edges1 := {[edge_Name ed]} ∪ matchedEdges st in
        if bool_decide (node_Name on ∈ matchedNodes st) then
          followEdges g other more (mkPlan plan1 (nodeStack st) edges1 (matchedNodes st))
        else
          let plan2 :=
            match m_predicateList (node_io (node_data on)) with
            | [] => plan1
            | _ :: _ => plan1 ++ [planNode o ""]
            end in
          followEdges g other more
            (mkPlan plan2 (o :: nodeStack st) edges1 ({[node_Name on]} ∪ matchedNodes st))
      else followEdges g other more st
  end.

(** [while ( !nodeStack.empty() )]. *)
Fixpoint drainStack (fuel : nat) (g : UTQLSubgraph) (st : PlanState) : Exc PlanState :=
  match nodeStack st with
  | [] => Ret st
  | pNode :: below =>
      match fuel with
      | O => OutOfFuel
      | S fuel' =>
          nd <-! nodeAt g pNode ;;
          let st0 := mkPlan (plan st) below (matchedEdges st) (matchedNodes st) in
          st1 <-! followEdges g m_Target (m_OutEdges nd) st0 ;;
          nd' <-! nodeAt g pNode ;;
          st2 <-! followEdges g m_Source (m_InEdges nd') st1 ;;
          drainStack fuel' g st2
      end
  end.

(** "any unmatched input nodes left?". *)
Fixpoint nextUnmatched (g : UTQLSubgraph) (nodes : list (string * NodePtr))
    (st : PlanState) : Exc PlanState :=
  match nodes with
  | [] => Ret st
  | (name, n) :: more =>
      nd <-! nodeAt g n ;;
      if isInput (node_io (node_data nd)) && negb (bool_decide (name ∈ matchedNodes st)) then
        Ret (mkPlan (plan st ++ [planNode n ""]) (n :: nodeStack st)
                    (matchedEdges st) ({[name]} ∪ matchedNodes st))
      else nextUnmatched g more st
  end.

(** The [do ... while ( !nodeStack.empty() )] loop. *)
Fixpoint planLoop (fuel : nat) (g : UTQLSubgraph) (st : PlanState) : Exc PlanState :=
  match fuel with
  | O => OutOfFuel
  | S fuel' =>
      st1 <-! drainStack fuel g st ;;
      st2 <-! nextUnmatched g (nodesOf g) st1 ;;
      match nodeStack st2 with
      | [] => Ret st2
      | _ :: _ => planLoop fuel' g st2
      end
  end.

(** [Pattern::Pattern( pGraph, clientId )].  Every pass of either loop
    marks a further node, so [fuel] beyond the number of nodes (plus one)
    is never used up. *)
Definition newPattern (fuel : nat) (pGraph : UTQLSubgraph) (clientId : string) : Exc Pattern :=
  match nodesOf pGraph with
  | [] => Ret (mkPattern (m_Name pGraph) clientId pGraph [])
  | _ :: _ =>
      r <-! findIdNodes pGraph (nodesOf pGraph) (mkPlan [] [] ∅ ∅) None ;;
      let '(st, pFirstPredicateNode) := r in
      st1 <-! match nodeStack st with
              | _ :: _ => Ret st
              | [] =>
                  match pFirstPredicateNode with
                  | Some n =>
                      nd <-! nodeAt pGraph n ;;
                      Ret (mkPlan (plan st ++ [planNode n ""]) (n :: nodeStack st)
                                  (matchedEdges st) ({[node_Name nd]} ∪ matchedNodes st))
                  | None => startWithEdge pGraph (edgesOf pGraph) st
                  end
              end ;;
      st2 <-! planLoop fuel pGraph st1 ;;
      Ret (mkPattern (m_Name pGraph) clientId pGraph (plan st2))
  end.

(** ** [PatternFunc] *)

(** The loop shared by [isVertexCompatible] and [isEdgeCompatible]: a
    predicate that is false or throws makes the candidate incompatible. *)
Fixpoint allHold (preds : list Predicate) (c : EvaluationContext) : bool :=
  match preds with
  | [] => true
  | predicate :: more =>
      match evaluate strtod printDouble evaluateFunction predicate c with
      | Ret true => allHold more c
      | _ => false
      end
  end.

Definition isVertexCompatible (patternNode : GraphNode UTQLNode)
    (srgNode : GraphNode SRGNodeAttributes) : bool :=
  allHold (m_predicateList (node_io (node_data patternNode)))
          (LocalContext (srgnode_attributes (node_data srgNode))
                        (srgnode_pattern (node_data srgNode))).

Definition isEdgeCompatible (patternEdge : GraphEdge UTQLEdge)
    (srgEdge : GraphEdge SRGEdgeAttributes) : bool :=
  allHold (m_predicateList (edge_io (edge_data patternEdge)))
          (LocalContext (srgedge_attributes (edge_data srgEdge))
                        (srgedge_pattern (edge_data srgEdge))).

Definition sameOptPtr (a b : option NodePtr) : bool :=
  match a, b with
  | Some x, Some y => Nat.eqb x y
  | None, None => true
  | _, _ => false
  end.

(** The loops over candidate SRG edges.  [fixedEnd] is the SRG node the
    far end has to be if the far end of the pattern edge is matched;
    [farEnd] picks that end of an SRG edge; [endsFree] is set when
    neither end of the pattern edge is matched, and then requires both
    ends of the SRG edge to be unmatched. *)
Fixpoint tryEdges (p : Pattern) (srg : SRGraph) (state : EdgeMatching)
    (pEdge : EdgePtr) (pe : GraphEdge UTQLEdge)
    (fixedEnd : option NodePtr) (farEnd : GraphEdge SRGEdgeAttributes -> option NodePtr)
    (endsFree : bool) (candidates : list EdgePtr) : Exc (list EdgeMatching) :=
  match candidates with
  | [] => Ret []
  | pSrgEdge :: more =>
      se <-! srgEdgeAt srg pSrgEdge ;;
      skip <-!
        (if isSrgEdgeMatched state pSrgEdge then Ret true
         else if endsFree then
           s <-! locked (m_Source se) ;;
           if isSrgVertexMatched state s then Ret true
           else t <-! locked (m_Target se) ;; Ret (isSrgVertexMatched state t)
         else
           match fixedEnd with
           | Some v => Ret (negb (sameOptPtr (Some v) (farEnd se)))
           | None => Ret false
           end) ;;
      if skip || negb (isEdgeCompatible pe se) then
        tryEdges p srg state pEdge pe fixedEnd farEnd endsFree more
      else
        refined <-! addMatchedEdge (m_Graph p) srg state pEdge pSrgEdge ;;
        rest <-! tryEdges p srg state pEdge pe fixedEnd farEnd endsFree more ;;
        Ret (refined :: rest)
  end.

(** "try all srg nodes". *)
Fixpoint tryNodes (srg : SRGraph) (state : EdgeMatching) (pVertex : NodePtr)
    (pv : GraphNode UTQLNode) (candidates : list (string * NodePtr))
    : Exc (list EdgeMatching) :=
  match candidates with
  | [] => Ret []
  | (_, n) :: more =>
      sn <-! srgNodeAt srg n ;;
      rest <-! tryNodes srg state pVertex pv more ;;
      if isSrgVertexMatched state n || negb (isVertexCompatible pv sn)
      then Ret rest
      else Ret (addMatchedVertex state pVertex n :: rest)
  end.

(** What one pass of the [while ( !stack.empty() )] loop of
    [checkPattern] does with the matching it popped: either it is a
    complete match, or refined matchings are pushed (listed in push
    order). *)
Inductive Pass :=
| Detected (m : EdgeMatching)
| Pushed (l : list EdgeMatching).

Definition checkStep (p : Pattern) (srg : SRGraph) (popped : EdgeMatching) : Exc Pass :=
  let iSearchPlanStep := m_iSearchPlanStep popped in
  let state := withStep popped (iSearchPlanStep + 1) in
  if iSearchPlanStep =? Z.of_nat (length (m_searchPlan p)) then Ret (Detected state)
  else
    match m_searchPlan p !! Z.to_nat iSearchPlanStep with
    | None => Undefined
    | Some step =>
        match m_pEdge step with
        | Some pEdge =>
            (* search plan says: match edge *)
            pe <-! edgeAt (m_Graph p) pEdge ;;
            src <-! locked (m_Source pe) ;;
            tgt <-! locked (m_Target pe) ;;
            let bSourceMatched := isPatternVertexMatched state src in
            let bTargetMatched := isPatternVertexMatched state tgt in
            if bSourceMatched then
              pStartNode <-! getCorrespondingSrgVertex state src ;;
              start <-! srgNodeAt srg pStartNode ;;
              fixedEnd <-! (if bTargetMatched
                            then v <-! getCorrespondingSrgVertex state tgt ;; Ret (Some v)
                            else Ret None) ;;
              l <-! tryEdges p srg state pEdge pe fixedEnd m_Target false (m_OutEdges start) ;;
              Ret (Pushed l)
            else if bTargetMatched then
              pStartNode <-! getCorrespondingSrgVertex state tgt ;;
              start <-! srgNodeAt srg pStartNode ;;
              l <-! tryEdges p srg state pEdge pe None m_Source false (m_InEdges start) ;;
              Ret (Pushed l)
            else
              l <-! tryEdges p srg state pEdge pe None m_Target true
                      (snd <$> entries (m_Edges (base srg))) ;;
              Ret (Pushed l)
        | None =>
            (* search plan says: match vertex *)
            pVertex <-! locked (m_pNode step) ;;
            pv <-! nodeAt (m_Graph p) pVertex ;;
            if isPatternVertexMatched state pVertex then
              n <-! getCorrespondingSrgVertex state pVertex ;;
              sn <-! srgNodeAt srg n ;;
              if isVertexCompatible pv sn then Ret (Pushed [state]) else Ret (Pushed [])
            else if String.eqb (m_sId step) "" then
              l <-! tryNodes srg state pVertex pv (entries (m_Nodes (base srg))) ;;
              Ret (Pushed l)
            else
              (* directly find node by id *)
              if SRG.hasNode srg (m_sId step) then
                n <-! SRG.getNode srg (m_sId step) ;;
                Ret (Pushed [addMatchedVertex state pVertex n])
              else Ret (Pushed [])
        end
    end.

(** The loop of [checkPattern]: [stack] has its top at the head,
    [detected] is [detectedMatches] in [push_back] order. *)
Fixpoint checkLoop (fuel : nat) (p : Pattern) (srg : SRGraph)
    (stack detected : list EdgeMatching) : Exc (list EdgeMatching) :=
  match stack with
  | [] => Ret detected
  | top :: below =>
      match fuel with
      | O => OutOfFuel
      | S fuel' =>
          pass <-! checkStep p srg top ;;
          match pass with
          | Detected m => checkLoop fuel' p srg below (detected ++ [m])
          | Pushed l => checkLoop fuel' p srg (reverse l ++ below) detected
          end
      end
  end.

(** [PatternFunc::checkPattern( p, srg )]. *)
Definition checkPattern (fuel : nat) (p : Pattern) (srg : SRGraph) : Exc (list EdgeMatching) :=
  checkLoop fuel p srg [withStep emptyMatching 0] [].

End Matcher.

(** Every SRG edge of the matching is an edge object of the SRG. *)
Definition matchedAllocated (srg : SRGraph) (m : EdgeMatching) : Prop :=
  map_Forall (fun _ f => is_Some (edgeStore (base srg) !! f)) (m_edgeForwardMap m).

(** The same for what a pass of the matcher leaves. *)
Definition passAllocated (srg : SRGraph) (pass : Pass) : Prop :=
  match pass with
  | Detected m => matchedAllocated srg m
  | Pushed l => Forall (matchedAllocated srg) l
  end.

(** ** Notions for the matchings that the matcher returns *)

(** The pattern edges of the search plan, in plan order. *)
Definition planEdges (p : Pattern) : list EdgePtr := omap m_pEdge (m_searchPlan p).

(** The state of the plan construction on pattern graph [g]: no edge is
    planned twice, and every planned edge is an input edge of the
    pattern whose name is in [matchedEdges]. *)
Record planned (g : UTQLSubgraph) (st : PlanState) : Prop := {
  planned_once : NoDup (omap m_pEdge (plan st));
  planned_input : forall e, e ∈ omap m_pEdge (plan st) ->
    exists ed, edgeStore (graph g) !! e = Some ed /\
               edge_Name ed ∈ matchedEdges st /\
               isInput (edge_io (edge_data ed)) = true
}.

(** The entries of the edge map lead to objects of the same name. *)
Definition edgesByName (g : UTQLSubgraph) : Prop :=
  forall name e, m_Edges (graph g) !! name = Some e ->
    exists ed, edgeStore (graph g) !! e = Some ed /\ edge_Name ed = name.

(** The two edge maps of a matching are inverse to each other, so the
    matching pairs pattern edges and SRG edges one to one. *)
Definition inverseMaps (m : EdgeMatching) : Prop :=
  forall e f, m_edgeForwardMap m !! e = Some f <-> m_edgeBackwardMap m !! f = Some e.

(** The names that the plan construction can mark: the keys of the node
    map and the names of the node objects. *)
Definition nodeNames (g : UTQLSubgraph) : gset string :=
  dom (m_Nodes (graph g))
  ∪ list_to_set (node_Name <$> (snd <$> map_to_list (nodeStore (graph g)))).

(** What the loops of the plan construction use up: every pass of the
    inner loop takes a node off the stack, and a node is pushed only
    when a further name is marked. *)
Definition planMeasure (g : UTQLSubgraph) (st : PlanState) : nat :=
  (length (nodeStack st) + base.size (nodeNames g ∖ matchedNodes st))%nat.

(** The most candidates that one pass of [checkPattern] tries: all
    edges of the SRG, all its nodes, or the edges that start or end at
    one node. *)
Definition branching (srg : SRGraph) : nat :=
  max_list (1%nat :: base.size (m_Edges (base srg)) :: base.size (m_Nodes (base srg))
            :: ((fun x => Nat.max (length (m_OutEdges (snd x))) (length (m_InEdges (snd x))))
                  <$> map_to_list (nodeStore (base srg)))).

(** The passes that the loop of [checkPattern] needs at most for a
    matching that has [k] steps of the search plan before it, when no
    pass pushes more than [b] matchings. *)
Fixpoint searchPasses (b k : nat) : nat :=
  match k with
  | O => 1
  | S k' => S (b * searchPasses b k')
  end.

Definition passesFor (p : Pattern) (srg : SRGraph) (m : EdgeMatching) : nat :=
  searchPasses (branching srg)
               (length (m_searchPlan p) - Z.to_nat (m_iSearchPlanStep m)).

Section Sound.

Variable strtod : string -> float * nat.
Variable printDouble : float -> string.
Variable evaluateFunction :
  FunctionType -> list AttributeExpression -> gmap string KeyValueAttributes ->
  gset string -> Exc AttributeValue.t.

(** Every matched pair is a pattern edge and an SRG edge that passes the
    predicates of the pattern edge. *)
Definition edgesCompatible (p : Pattern) (srg : SRGraph) (m : EdgeMatching) : Prop :=
  forall e f, m_edgeForwardMap m !! e = Some f ->
    exists pe se,
      edgeStore (graph (m_Graph p)) !! e = Some pe /\
      edgeStore (base srg) !! f = Some se /\
      isEdgeCompatible strtod printDouble evaluateFunction pe se = true.

(** A matching that has worked off the first [i] steps of the plan. *)
Record matchedUpTo (p : Pattern) (srg : SRGraph) (i : nat) (m : EdgeMatching) : Prop := {
  upto_domain : forall e, is_Some (m_edgeForwardMap m !! e) <->
                          e ∈ omap m_pEdge (take i (m_searchPlan p));
  upto_compatible : edgesCompatible p srg m;
  upto_inverse : NoDup (planEdges p) -> inverseMaps m
}.

(** A matching on the stack of [checkPattern]. *)
Definition onStack (p : Pattern) (srg : SRGraph) (m : EdgeMatching) : Prop :=
  exists i : nat,
    m_iSearchPlanStep m = Z.of_nat i /\ (i <= length (m_searchPlan p))%nat /\
    matchedUpTo p srg i m.

Definition passSound (p : Pattern) (srg : SRGraph) (pass : Pass) : Prop :=
  match pass with
  | Detected m => matchedUpTo p srg (length (m_searchPlan p)) m
  | Pushed l => Forall (onStack p srg) l
  end.

End Sound.

End Matching.

(** A query with one input node [N] and the predicate
    [id=='S' && type=='camera'], and an SRG whose node [S] is of type
    [marker]. *)
Module MatchingExamples.
Import AttributeValue Predicate Graph UTQL SRG Matching.

Definition attributeIs (name value : string) : Predicate :=
  PredicateCompare equals (AttributeExpressionAttribute "" name)
                   (mkConstant strtodDigits printNothing value).

Definition cameraS : Predicate := PredicateAnd (attributeIs "id" "S") (attributeIs "type" "camera").

Definition nodeN : UTQLNode :=
  mkUTQLNode (mkInOut [cameraS] (mkKV ∅) Input []) (mkPA ∅) "".

Definition queryGraph : UTQLSubgraph :=
  match Graph.addNode emptyGraph "N" nodeN with
  | Ret (g, _) => withGraph (emptySubgraph "" "query") g
  | _ => emptySubgraph "" "query"
  end.

Definition query : Exc Pattern :=
  newPattern printNothing 10 queryGraph "client".

Definition markerS : UTQLNode :=
  mkUTQLNode
    (mkInOut [] (mkKV (<["type" := AttributeValue_string "marker"]>
                         (<["id" := AttributeValue_string "S"]> ∅))) Output [])
    (mkPA ∅) "S".

Definition world : SRGraph :=
  match SRG.addNode emptySRG markerS "base" with
  | Ret (srg, _) => srg
  | _ => emptySRG
  end.

End MatchingExamples.

(* ===================================================================== *)
(** * The SRG manager (utGraph/UTQLSRGManager.h)                          *)
(* ===================================================================== *)

Module Manager.
Import AttributeValue Predicate Graph UTQL SRG Matching.

(** [InstantiatedPattern]: a subgraph and the client it belongs to. *)
Record InstantiatedPattern := mkInstance {
  instance_graph : UTQLSubgraph;
  instance_clientId : string
}.

(** The part of [UTQLSRGManager] that registration, pattern application
    and deletion work on: the world SRG, the subgraph repository and the
    function-local [static long patternApplicationID] of
    [applyDetectedPattern]. *)
Record State := mkState {
  m_GlobalSrg : SRGraph;
  m_GraphRepository : gmap string InstantiatedPattern;
  patternApplicationID : Z
}.

Definition initial : State := mkState emptySRG ∅ 2000.

(** The name of an SRG edge: "subgraph id + local edge name". *)
Definition srgEdgeName (subgraphID localName : string) : string :=
  subgraphID +:+ ":" +:+ localName.

(** Update of the attributes of a stored SRG edge or node. *)
Definition updateEdge (f : SRGEdgeAttributes -> SRGEdgeAttributes) (e : EdgePtr)
    (srg : SRGraph) : SRGraph :=
  withBase srg (setEdges (base srg) (alter (onEdgeData f) e (edgeStore (base srg)))).

Definition updateNode (f : SRGNodeAttributes -> SRGNodeAttributes) (n : NodePtr)
    (srg : SRGraph) : SRGraph :=
  withBase srg (setNodes (base srg) (alter (onNodeData f) n (nodeStore (base srg)))).

(** ** [registerSRG] *)

(** "run over all nodes of the base srg"; [matching] is the local
    [std::map< UTQLSubgraph::NodePtr, SRGraph::NodePtr >]. *)
Fixpoint registerNodes (subgraphID : string) (subgraph : UTQLSubgraph)
    (nodes : list (string * NodePtr)) (srg : SRGraph) (matching : gmap NodePtr NodePtr)
    : Exc (SRGraph * gmap NodePtr NodePtr) :=
  match nodes with
  | [] => Ret (srg, matching)
  | (_, node) :: more =>
      nd <-! nodeAt subgraph node ;;
      if negb (isOutput (node_io (node_data nd))) then
        registerNodes subgraphID subgraph more srg matching
      else if SRG.hasNode srg (m_QualifiedName (node_data nd)) then
        srgNode <-! SRG.getNode srg (m_QualifiedName (node_data nd)) ;;
        srg' <-! mergeNodeAttributes srg srgNode (node_data nd) subgraphID ;;
        registerNodes subgraphID subgraph more srg' (<[node := srgNode]> matching)
      else
        r <-! SRG.addNode srg (node_data nd) subgraphID ;;
        registerNodes subgraphID subgraph more (fst r) (<[node := snd r]> matching)
  end.

(** [matching[ edge->m_Source.lock() ]]: a null pointer comes out for an
    end point that is not in the map, and [addEdge] dereferences it. *)
Definition matchedEnd (matching : gmap NodePtr NodePtr) (p : option NodePtr) : Exc NodePtr :=
  n <-! locked p ;;
  match matching !! n with
  | Some s => Ret s
  | None => Undefined
  end.

(** "run over all edges in the base srg". *)
Fixpoint registerEdges (subgraphID : string) (subgraph : UTQLSubgraph)
    (edges : list (string * EdgePtr)) (matching : gmap NodePtr NodePtr) (srg : SRGraph)
    : Exc SRGraph :=
  match edges with
  | [] => Ret srg
  | (_, edge) :: more =>
      ed <-! edgeAt subgraph edge ;;
      if negb (isOutput (edge_io (edge_data ed))) then
        registerEdges subgraphID subgraph more matching srg
      else
        src <-! matchedEnd matching (m_Source ed) ;;
        dst <-! matchedEnd matching (m_Target ed) ;;
        let edgeName := srgEdgeName subgraphID (edge_Name ed) in
        r <-! Graph.addEdge (base srg) edgeName src dst
                (newSRGEdgeAttributes (edge_data ed) subgraphID (edge_Name ed)) ;;
        (* e->m_InformationSources.insert( edgeName ) *)
        registerEdges subgraphID subgraph more matching
          (updateEdge (fun x => setInformationSources ({[edgeName]} ∪ informationSources x) x)
                      (snd r) (withBase srg (fst r)))
  end.

(** [registerSRG( subgraph, clientID )]. *)
Definition registerSRG (st : State) (subgraph : UTQLSubgraph) (clientID : string)
    : Exc State :=
  let subgraphID := m_ID subgraph in
  let repository := <[subgraphID := mkInstance subgraph clientID]> (m_GraphRepository st) in
  r <-! registerNodes subgraphID subgraph (nodesOf subgraph) (m_GlobalSrg st) ∅ ;;
  srg <-! registerEdges subgraphID subgraph (edgesOf subgraph) (snd r) (fst r) ;;
  Ret (mkState srg repository (patternApplicationID st)).

(** ** [decidePattern1], with
    [MATCHING_EDGE_REQUIREMENTS == ERQ_DISJOINT_INFORMATION_SOURCES] *)

(** The loop over [itOther] and, inside it, over the information sources
    of [it->second].  [false] is the [return false] of the code. *)
Fixpoint disjointFromOthers (srg : SRGraph) (it : EdgePtr * EdgePtr)
    (others : list (EdgePtr * EdgePtr)) : Exc bool :=
  match others with
  | [] => Ret true
  | itOther :: more =>
      if Nat.eqb (fst it) (fst itOther) then disjointFromOthers srg it more
      else
        a <-! srgEdgeAt srg (snd it) ;;
        match members (informationSources (edge_data a)) with
        | [] => disjointFromOthers srg it more
        | (_ :: _) as sources =>
            b <-! srgEdgeAt srg (snd itOther) ;;
            if existsb (fun x => bool_decide (x ∈ informationSources (edge_data b))) sources
            then Ret false
            else disjointFromOthers srg it more
        end
  end.

(** The loop over [it]. *)
Fixpoint allDisjoint (srg : SRGraph) (its all : list (EdgePtr * EdgePtr)) : Exc bool :=
  match its with
  | [] => Ret true
  | it :: more =>
      d <-! disjointFromOthers srg it all ;;
      if d then allDisjoint srg more all else Ret false
  end.

(** [decidePattern1( pattern, matching )].  The map is ordered by the
    addresses of the pattern edges; the model takes the entries in the
    order of [map_to_list]. *)
Definition decidePattern1 (srg : SRGraph) (matching : EdgeMatching) : Exc bool :=
  if 1 <? Z.of_nat (base.size (m_edgeForwardMap matching)) then
    allDisjoint srg (map_to_list (m_edgeForwardMap matching))
                    (map_to_list (m_edgeForwardMap matching))
  else Ret true.

(** ** [expandMatchingAttributes] *)

Definition setExpansion (m : EdgeMatching)
    (expandedEdges expandedNodes : gmap string KeyValueAttributes)
    (allInput : gmap string (EdgePtr + NodePtr)) (sources : gset string) : EdgeMatching :=
  mkEM (m_edgeForwardMap m) (m_edgeBackwardMap m) (m_vertexForwardMap m)
       (m_vertexBackwardMap m) expandedEdges expandedNodes allInput sources
       (m_iSearchPlanStep m).

(** "run over all input edges in the pattern". *)
Fixpoint expandInputEdges (pattern : UTQLSubgraph) (srg : SRGraph)
    (edges : list (string * EdgePtr)) (m : EdgeMatching) : Exc EdgeMatching :=
  match edges with
  | [] => Ret m
  | (_, patternEdge) :: more =>
      pe <-! edgeAt pattern patternEdge ;;
      if isInput (edge_io (edge_data pe)) then
        srgEdge <-! getCorrespondingSrgEdge m patternEdge ;;
        se <-! srgEdgeAt srg srgEdge ;;
        expandInputEdges pattern srg more
          (setExpansion m (m_expandedEdgeAttributes m) (m_expandedNodeAttributes m)
             (<[edge_Name pe := inl srgEdge]> (m_allInputAttributes m))
             (m_informationSources m ∪ informationSources (edge_data se)))
      else expandInputEdges pattern srg more m
  end.

(** "run over all input nodes in the pattern". *)
Fixpoint expandInputNodes (pattern : UTQLSubgraph)
    (nodes : list (string * NodePtr)) (m : EdgeMatching) : Exc EdgeMatching :=
  match nodes with
  | [] => Ret m
  | (_, patternNode) :: more =>
      pn <-! nodeAt pattern patternNode ;;
      if isInput (node_io (node_data pn)) then
        srgNode <-! getCorrespondingSrgVertex m patternNode ;;
        expandInputNodes pattern more
          (setExpansion m (m_expandedEdgeAttributes m) (m_expandedNodeAttributes m)
             (<[node_Name pn := inr srgNode]> (m_allInputAttributes m))
             (m_informationSources m))
      else expandInputNodes pattern more m
  end.

Section Apply.

Variable strtod : string -> float * nat.
Variable printDouble : float -> string.
Variable evaluateFunction :
  FunctionType -> list AttributeExpression -> gmap string KeyValueAttributes ->
  gset string -> Exc AttributeValue.t.

(** [EvaluationContext( matching )]: the raw pointers of
    [m_allInputAttributes] are followed into the SRG. *)
Definition globalContext (srg : SRGraph) (m : EdgeMatching) : EvaluationContext :=
  GlobalContext
    (omap (fun r : EdgePtr + NodePtr =>
             match r with
             | inl e => (fun x => srgedge_attributes (edge_data x)) <$> edgeStore (base srg) !! e
             | inr n => (fun x => srgnode_attributes (node_data x)) <$> nodeStore (base srg) !! n
             end) (m_allInputAttributes m))
    (m_informationSources m).

(** The loop over [m_attributeExpressions]; an exception of an
    evaluation is caught and logged. *)
Fixpoint evaluateExpressions (c : EvaluationContext)
    (expressions : list (string * AttributeExpression)) (newAttributes : KeyValueAttributes)
    : Exc KeyValueAttributes :=
  match expressions with
  | [] => Ret newAttributes
  | (name, e) :: more =>
      match evaluateExpression strtod printDouble evaluateFunction e c with
      | Ret v => evaluateExpressions c more (setAttribute newAttributes name v)
      | Throw _ => evaluateExpressions c more newAttributes
      | Undefined => Undefined
      | OutOfFuel => OutOfFuel
      end
  end.

(** "run over all output edges in the pattern". *)
Fixpoint expandOutputEdges (pattern : UTQLSubgraph) (c : EvaluationContext)
    (edges : list (string * EdgePtr)) (m : EdgeMatching) : Exc EdgeMatching :=
  match edges with
  | [] => Ret m
  | (_, patternEdge) :: more =>
      pe <-! edgeAt pattern patternEdge ;;
      let io := edge_io (edge_data pe) in
      if isOutput io then
        newAttributes <-! evaluateExpressions c (m_attributeExpressions io) (io_attributes io) ;;
        expandOutputEdges pattern c more
          (setExpansion m (<[edge_Name pe := newAttributes]> (m_expandedEdgeAttributes m))
             (m_expandedNodeAttributes m) (m_allInputAttributes m) (m_informationSources m))
      else expandOutputEdges pattern c more m
  end.

(** "run over all output nodes in the pattern". *)
Fixpoint expandOutputNodes (pattern : UTQLSubgraph) (c : EvaluationContext)
    (nodes : list (string * NodePtr)) (m : EdgeMatching) : Exc EdgeMatching :=
  match nodes with
  | [] => Ret m
  | (_, patternNode) :: more =>
      pn <-! nodeAt pattern patternNode ;;
      let io := node_io (node_data pn) in
      if isOutput io then
        newAttributes <-! evaluateExpressions c (m_attributeExpressions io) (io_attributes io) ;;
        expandOutputNodes pattern c more
          (setExpansion m (m_expandedEdgeAttributes m)
             (<[node_Name pn := newAttributes]> (m_expandedNodeAttributes m))
             (m_allInputAttributes m) (m_informationSources m))
      else expandOutputNodes pattern c more m
  end.

(** [expandMatchingAttributes( pattern, matching )].  The output loops
    read [m_allInputAttributes] and [m_informationSources] only, which
    they do not change, so the context is the same at every evaluation. *)
Definition expandMatchingAttributes (p : Pattern) (srg : SRGraph) (matching : EdgeMatching)
    : Exc EdgeMatching :=
  let cleared := setExpansion matching ∅ ∅ (m_allInputAttributes matching) ∅ in
  m1 <-! expandInputEdges (m_Graph p) srg (edgesOf (m_Graph p)) cleared ;;
  m2 <-! expandInputNodes (m_Graph p) (nodesOf (m_Graph p)) m1 ;;
  let c := globalContext srg m2 in
  m3 <-! expandOutputEdges (m_Graph p) c (edgesOf (m_Graph p)) m2 ;;
  expandOutputNodes (m_Graph p) c (nodesOf (m_Graph p)) m3.

(** ** [instanciatePattern] *)

(** What the two loops work on: the copy under construction, the local
    [newNodesMap], the matching (whose expanded attributes are swapped
    out) and the graph of the pattern (whose output nodes are swapped
    into). *)
Record Instantiation := mkInstantiation {
  inst_subgraph : UTQLSubgraph;
  newNodesMap : gmap string NodePtr;
  inst_matching : EdgeMatching;
  inst_pattern : UTQLSubgraph
}.

(** "run over all nodes in the pattern". *)
Fixpoint instanciateNodes (srg : SRGraph) (nodes : list (string * NodePtr))
    (i : Instantiation) : Exc Instantiation :=
  match nodes with
  | [] => Ret i
  | (_, patternNode) :: more =>
      pn <-! nodeAt (inst_pattern i) patternNode ;;
      srgNode <-! getCorrespondingSrgVertex (inst_matching i) patternNode ;;
      sn <-! srgNodeAt srg srgNode ;;
      let matchedID := node_Name sn in
      r <-! Graph.addNode (graph (inst_subgraph i)) (node_Name pn) (node_data pn) ;;
      let io := node_io (node_data pn) in
      let copy :=
        mkUTQLNode
          (withoutPredicates
             (withAttributes io (mergeAttributes (io_attributes io)
                                                 (srgnode_attributes (node_data sn)))))
          (node_pattern (node_data pn)) matchedID in
      let subgraph :=
        withGraph (inst_subgraph i)
          (setNodes (fst r) (alter (onNodeData (fun _ => copy)) (snd r) (nodeStore (fst r)))) in
      let names := <[node_Name pn := snd r]> (newNodesMap i) in
      if isOutput io then
        (* patternNode->swap( matching.m_expandedNodeAttributes[ patternNode->m_Name ] ) *)
        let m := inst_matching i in
        let expanded := default (mkKV ∅) (m_expandedNodeAttributes m !! node_Name pn) in
        let m' :=
          setExpansion m (m_expandedEdgeAttributes m)
            (<[node_Name pn := io_attributes io]> (m_expandedNodeAttributes m))
            (m_allInputAttributes m) (m_informationSources m) in
        let swapped (d : UTQLNode) :=
          mkUTQLNode (withAttributes (node_io d) expanded) (node_pattern d) (m_QualifiedName d) in
        let g := graph (inst_pattern i) in
        let pattern' :=
          withGraph (inst_pattern i)
            (setNodes g (alter (onNodeData swapped) patternNode (nodeStore g))) in
        instanciateNodes srg more (mkInstantiation subgraph names m' pattern')
      else
        instanciateNodes srg more
          (mkInstantiation subgraph names (inst_matching i) (inst_pattern i))
  end.

(** [newNodesMap[ patternEdge->m_Source.lock()->m_Name ]]. *)
Definition copiedEnd (i : Instantiation) (p : option NodePtr) : Exc NodePtr :=
  n <-! locked p ;;
  nd <-! nodeAt (inst_pattern i) n ;;
  match newNodesMap i !! node_Name nd with
  | Some u => Ret u
  | None => Undefined
  end.

(** "now run over all edges in the pattern". *)
Fixpoint instanciateEdges (srg : SRGraph) (edges : list (string * EdgePtr))
    (i : Instantiation) : Exc Instantiation :=
  match edges with
  | [] => Ret i
  | (_, patternEdge) :: more =>
      pe <-! edgeAt (inst_pattern i) patternEdge ;;
      source <-! copiedEnd i (m_Source pe) ;;
      target <-! copiedEnd i (m_Target pe) ;;
      i1 <-!
        (if isInput (edge_io (edge_data pe)) then
           r <-! Graph.addEdge (graph (inst_subgraph i)) (edge_Name pe) source target
                   (newUTQLEdge Input) ;;
           srgEdge <-! getCorrespondingSrgEdge (inst_matching i) patternEdge ;;
           se <-! srgEdgeAt srg srgEdge ;;
           edgeRef <-! makeEdgeReference (m_SubgraphID (edge_data se))
                                         (m_LocalName (edge_data se)) ;;
           let copy (d : UTQLEdge) :=
             mkUTQLEdge
               (withAttributes (edge_io d)
                  (mergeAttributes (io_attributes (edge_io d))
                                   (srgedge_attributes (edge_data se))))
               (edge_pattern d) edgeRef in
           Ret (mkInstantiation
                  (withGraph (inst_subgraph i)
                     (setEdges (fst r) (alter (onEdgeData copy) (snd r) (edgeStore (fst r)))))
                  (newNodesMap i) (inst_matching i) (inst_pattern i))
         else Ret i) ;;
      i2 <-!
        (if isOutput (edge_io (edge_data pe)) then
           r <-! Graph.addEdge (graph (inst_subgraph i1)) (edge_Name pe) source target
                   (newUTQLEdge Output) ;;
           (* utqlEdge->swap( matching.m_expandedEdgeAttributes[ patternEdge->m_Name ] ) *)
           let m := inst_matching i1 in
           let expanded := default (mkKV ∅) (m_expandedEdgeAttributes m !! edge_Name pe) in
           let m' :=
             setExpansion m (<[edge_Name pe := mkKV ∅]> (m_expandedEdgeAttributes m))
               (m_expandedNodeAttributes m) (m_allInputAttributes m)
               (m_informationSources m) in
           let copy (d : UTQLEdge) :=
             mkUTQLEdge (withAttributes (edge_io d) expanded)
                        (mkPA (m_informationSources m)) (m_EdgeReference d) in
           Ret (mkInstantiation
                  (withGraph (inst_subgraph i1)
                     (setEdges (fst r) (alter (onEdgeData copy) (snd r) (edgeStore (fst r)))))
                  (newNodesMap i1) m' (inst_pattern i1))
         else Ret i1) ;;
      instanciateEdges srg more i2
  end.

(** [instanciatePattern( pattern, matching )]. *)
Definition instanciatePattern (p : Pattern) (srg : SRGraph) (matching : EdgeMatching)
    : Exc Instantiation :=
  let subgraph :=
    mkSubgraph emptyGraph "" (pattern_Name p) false None
               (m_DataflowConfiguration (m_Graph p)) (m_DataflowAttributes (m_Graph p)) "" in
  i <-! instanciateNodes srg (nodesOf (m_Graph p))
          (mkInstantiation subgraph ∅ matching (m_Graph p)) ;;
  instanciateEdges srg (edgesOf (m_Graph p)) i.

(** ** [applyDetectedPattern] *)

(** "run over all edges in the pattern and insert the output edges into
    the srg"; [inserted] lists the edges that [addEdge] returned. *)
Fixpoint insertOutputs (p : Pattern) (subgraph : UTQLSubgraph) (m : EdgeMatching)
    (edges : list (string * EdgePtr)) (srg : SRGraph) (inserted : list EdgePtr)
    : Exc (SRGraph * list EdgePtr) :=
  match edges with
  | [] => Ret (srg, inserted)
  | (_, edge) :: more =>
      ed <-! edgeAt (m_Graph p) edge ;;
      if isInput (edge_io (edge_data ed)) then
        srgEdge <-! getCorrespondingSrgEdge m edge ;;
        _ <-! srgEdgeAt srg srgEdge ;;
        insertOutputs p subgraph m more
          (updateEdge (fun x => setDependants ({[m_ID subgraph]} ∪ m_DependantSubgraphIDs x) x)
                      srgEdge srg)
          inserted
      else if isOutput (edge_io (edge_data ed)) then
        s <-! locked (m_Source ed) ;;
        source <-! getCorrespondingSrgVertex m s ;;
        t <-! locked (m_Target ed) ;;
        target <-! getCorrespondingSrgVertex m t ;;
        let edgeName := srgEdgeName (m_ID subgraph) (edge_Name ed) in
        instanceEdge <-! Graph.getEdge (graph subgraph) (edge_Name ed) ;;
        ie <-! edgeAt subgraph instanceEdge ;;
        r <-! Graph.addEdge (base srg) edgeName source target
                (newSRGEdgeAttributes (edge_data ie) (m_ID subgraph) (edge_Name ed)) ;;
        insertOutputs p subgraph m more
          (updateEdge (fun x => setPatternName (pattern_Name p)
                                  (setInformationSources (m_informationSources m) x))
                      (snd r) (withBase srg (fst r)))
          (inserted ++ [snd r])
      else insertOutputs p subgraph m more srg inserted
  end.

(** What applying a matching leaves behind: the state, the pattern (its
    output nodes hold the expanded attributes now), and the SRG edges
    that were inserted. *)
Record Application := mkApplication {
  app_state : State;
  app_pattern : Pattern;
  app_inserted : list EdgePtr
}.

(** [applyDetectedPattern( pattern, matching )]. *)
Definition applyDetectedPattern (st : State) (p : Pattern) (matching : EdgeMatching)
    : Exc Application :=
  let id := pattern_Name p +:+ pretty (patternApplicationID st) in
  i <-! instanciatePattern p (m_GlobalSrg st) matching ;;
  let subgraph := withID (inst_subgraph i) id in
  let p' := mkPattern (pattern_Name p) (m_clientId p) (inst_pattern i) (m_searchPlan p) in
  r <-! insertOutputs p' subgraph (inst_matching i) (edgesOf (m_Graph p'))
          (m_GlobalSrg st) [] ;;
  Ret (mkApplication
         (mkState (fst r)
                  (<[id := mkInstance subgraph (m_clientId p)]> (m_GraphRepository st))
                  (patternApplicationID st + 1))
         p' (snd r)).

(** ** [deleteSRG] *)

(** The loop over [srgEdge->m_DependantSubgraphIDs]. *)
Fixpoint markDependants (dependants : list string) (deleteStack : list string)
    (deletedSubgraphs : gset string) : list string * gset string :=
  match dependants with
  | [] => (deleteStack, deletedSubgraphs)
  | depSubgraph :: more =>
      if bool_decide (depSubgraph ∈ deletedSubgraphs)
      then markDependants more deleteStack deletedSubgraphs
      else markDependants more (depSubgraph :: deleteStack)
                          ({[depSubgraph]} ∪ deletedSubgraphs)
  end.

(** "remove the dependency link" of an input edge. *)
Definition unlinkInput (subgraphID : string) (ed : GraphEdge UTQLEdge) (srg : SRGraph)
    : Exc SRGraph :=
  let primalEdgeReference := m_EdgeReference (edge_data ed) in
  let primalEdgeName :=
    srgEdgeName (m_id primalEdgeReference) (m_name primalEdgeReference) in
  if Graph.hasEdge (base srg) primalEdgeName then
    primalEdge <-! Graph.getEdge (base srg) primalEdgeName ;;
    _ <-! srgEdgeAt srg primalEdge ;;
    Ret (updateEdge (fun x => setDependants (m_DependantSubgraphIDs x ∖ {[subgraphID]}) x)
                    primalEdge srg)
  else Ret srg.

(** "iterate over all edges of the subgraph". *)
Fixpoint deleteEdges (subgraphID : string) (subgraph : UTQLSubgraph)
    (edges : list (string * EdgePtr)) (srg : SRGraph)
    (deleteStack : list string) (deletedSubgraphs : gset string)
    : Exc (SRGraph * (list string * gset string)) :=
  match edges with
  | [] => Ret (srg, (deleteStack, deletedSubgraphs))
  | (_, edge) :: more =>
      ed <-! edgeAt subgraph edge ;;
      srg1 <-! (if isInput (edge_io (edge_data ed))
                then unlinkInput subgraphID ed srg else Ret srg) ;;
      if isOutput (edge_io (edge_data ed)) then
        let edgeName := srgEdgeName subgraphID (edge_Name ed) in
        srgEdge <-! Graph.getEdge (base srg1) edgeName ;;
        se <-! srgEdgeAt srg1 srgEdge ;;
        let marked :=
          markDependants (members (m_DependantSubgraphIDs (edge_data se)))
                         deleteStack deletedSubgraphs in
        g <-! Graph.removeEdgeByName (base srg1) edgeName ;;
        deleteEdges subgraphID subgraph more (withBase srg1 g) (fst marked) (snd marked)
      else deleteEdges subgraphID subgraph more srg1 deleteStack deletedSubgraphs
  end.

(** "iterate over all nodes of the current subgraph". *)
Fixpoint deleteNodes (subgraphID : string) (subgraph : UTQLSubgraph)
    (nodes : list (string * NodePtr)) (srg : SRGraph) (removableNodes : gset string)
    : Exc (SRGraph * gset string) :=
  match nodes with
  | [] => Ret (srg, removableNodes)
  | (_, node) :: more =>
      nd <-! nodeAt subgraph node ;;
      if negb (isOutput (node_io (node_data nd))) then
        deleteNodes subgraphID subgraph more srg removableNodes
      else
        let qualifiedName := m_QualifiedName (node_data nd) in
        if negb (SRG.hasNode srg qualifiedName) then
          Throw ("Trying to remove unregistered node:" +:+ qualifiedName)
        else
          srgNode <-! SRG.getNode srg qualifiedName ;;
          sn <-! srgNodeAt srg srgNode ;;
          let remaining := m_SubgraphIDs (node_data sn) ∖ {[subgraphID]} in
          deleteNodes subgraphID subgraph more
            (updateNode (setSubgraphIDs remaining) srgNode srg)
            (if bool_decide (remaining = ∅)
             then {[qualifiedName]} ∪ removableNodes else removableNodes)
  end.

(** What the [while ( !deleteStack.empty() )] loop works on. *)
Record Deletion := mkDeletion {
  del_srg : SRGraph;
  del_repository : gmap string InstantiatedPattern;
  deleteStack : list string;
  deletedSubgraphs : gset string;
  removableNodes : gset string
}.

(** One pass of the loop for the subgraph id on top of the stack, with
    the stack already popped. *)
Definition deleteStep (subgraphID : string) (d : Deletion) : Exc Deletion :=
  match del_repository d !! subgraphID with
  | None => Ret d
  | Some itSubgraph =>
      let subgraph := instance_graph itSubgraph in
      r <-! deleteEdges subgraphID subgraph (edgesOf subgraph) (del_srg d)
              (deleteStack d) (deletedSubgraphs d) ;;
      n <-! deleteNodes subgraphID subgraph (nodesOf subgraph) (fst r) (removableNodes d) ;;
      Ret (mkDeletion (fst n) (delete subgraphID (del_repository d))
                      (fst (snd r)) (snd (snd r)) (snd n))
  end.

Fixpoint deleteLoop (fuel : nat) (d : Deletion) : Exc Deletion :=
  match deleteStack d with
  | [] => Ret d
  | subgraphID :: below =>
      match fuel with
      | O => OutOfFuel
      | S fuel' =>
          d' <-! deleteStep subgraphID
                   (mkDeletion (del_srg d) (del_repository d) below
                               (deletedSubgraphs d) (removableNodes d)) ;;
          deleteLoop fuel' d'
      end
  end.

(** "remove all node which have been marked for deletion". *)
Fixpoint removeNodes (names : list string) (srg : SRGraph) : Exc SRGraph :=
  match names with
  | [] => Ret srg
  | pNodeName :: more =>
      srg' <-! SRG.removeNode srg pNodeName ;;
      removeNodes more srg'
  end.

(** Every subgraph id that some SRG edge holds as a dependant. *)
Definition allDependants (srg : SRGraph) : gset string :=
  ⋃ ((fun x => m_DependantSubgraphIDs (edge_data (snd x)))
       <$> map_to_list (edgeStore (base srg))).

(** A pass pops one id, and pushes only ids that an edge holds as a
    dependant and that were not pushed before: the loop is over after
    one pass more than there are such ids. *)
Definition deletePasses (srg : SRGraph) : nat := S (base.size (allDependants srg)).

(** [deleteSRG( primalSubgraphID )]. *)
Definition deleteSRG (st : State) (primalSubgraphID : string) : Exc State :=
  d <-! deleteLoop (deletePasses (m_GlobalSrg st))
          (mkDeletion (m_GlobalSrg st) (m_GraphRepository st) [primalSubgraphID] ∅ ∅) ;;
  srg <-! removeNodes (members (removableNodes d)) (del_srg d) ;;
  Ret (mkState srg (del_repository d) (patternApplicationID st)).

(** ** [applyPattern] *)

(** The second stage of acceptance, [decidePattern2], compares the
    expanded attributes of the output edges with the edges that are in
    the SRG already; it changes nothing.  It is a parameter here: what is
    proved about [applyPattern] holds whatever the second stage decides.
    Its result is the decision and the list [supersedes]. *)
Variable decidePattern2 : State -> Pattern -> EdgeMatching -> Exc (bool * list string).

(** What one pass of the loop over the matches does. *)
Inductive Outcome :=
| Skipped                                              (* [continue] *)
| Applied (a : Application) (supersedes : list string).

Definition applyMatching (st : State) (p : Pattern) (matching : EdgeMatching)
    : Exc Outcome :=
  d1 <-! decidePattern1 (m_GlobalSrg st) matching ;;
  if negb d1 then Ret Skipped
  else
    expanded <-! expandMatchingAttributes p (m_GlobalSrg st) matching ;;
    d2 <-! decidePattern2 st p expanded ;;
    if negb (fst d2) then Ret Skipped
    else
      a <-! applyDetectedPattern st p expanded ;;
      Ret (Applied a (snd d2)).

(** What [applyPattern] has done so far. *)
Record Progress := mkProgress {
  prog_state : State;
  prog_pattern : Pattern;
  nInstances : Z;
  supersededSubgraphs : list string;
  prog_inserted : list (EdgeMatching * list EdgePtr)
}.

(** "for each found instance, decide if it is useful and apply it". *)
Fixpoint applyMatchings (matches : list EdgeMatching) (pr : Progress) : Exc Progress :=
  match matches with
  | [] => Ret pr
  | it :: more =>
      o <-! applyMatching (prog_state pr) (prog_pattern pr) it ;;
      match o with
      | Skipped => applyMatchings more pr
      | Applied a supersedes =>
          applyMatchings more
            (mkProgress (app_state a) (app_pattern a) (nInstances pr + 1)
                        (supersededSubgraphs pr ++ supersedes)
                        (prog_inserted pr ++ [(it, app_inserted a)]))
      end
  end.

(** The number of output edges of a subgraph. *)
Fixpoint countOutputs (subgraph : UTQLSubgraph) (edges : list (string * EdgePtr)) : Exc Z :=
  match edges with
  | [] => Ret 0
  | (_, e) :: more =>
      ed <-! edgeAt subgraph e ;;
      n <-! countOutputs subgraph more ;;
      Ret (if isOutput (edge_io (edge_data ed)) then n + 1 else n)
  end.

(** "remove all superseded subgraphs". *)
Fixpoint deleteSuperseded (ids : list string) (st : State) : Exc State :=
  match ids with
  | [] => Ret st
  | it :: more =>
      match m_GraphRepository st !! it with
      | None => deleteSuperseded more st
      | Some itG =>
          nOutputs <-! countOutputs (instance_graph itG) (edgesOf (instance_graph itG)) ;;
          if nOutputs =? 1 then
            st' <-! deleteSRG st it ;;
            deleteSuperseded more st'
          else deleteSuperseded more st
      end
  end.

(** [applyPattern( pattern )]; [fuel] bounds the passes of the matcher.
    The result is the state, the pattern and the number of instances,
    and with each matching that was applied the edges inserted for it. *)
Definition applyPattern (fuel : nat) (st : State) (p : Pattern) : Exc Progress :=
  matches <-! checkPattern strtod printDouble evaluateFunction fuel p (m_GlobalSrg st) ;;
  pr <-! applyMatchings matches (mkProgress st p 0 [] []) ;;
  st' <-! deleteSuperseded (supersededSubgraphs pr) (prog_state pr) ;;
  Ret (mkProgress st' (prog_pattern pr) (nInstances pr) (supersededSubgraphs pr)
                  (prog_inserted pr)).

End Apply.

(** ** Notions used in the statements *)

(** The sources of the SRG edges [f] and [g] are disjoint. *)
Definition apart (srg : SRGraph) (f g : EdgePtr) : Prop :=
  forall x y s,
    edgeStore (base srg) !! f = Some x -> edgeStore (base srg) !! g = Some y ->
    s ∈ informationSources (edge_data x) -> s ∉ informationSources (edge_data y).

(** [s] is an information source of an SRG edge that is matched to one
    of the input edges among [edges] of the pattern graph. *)
Definition inputSourceIn (pattern : UTQLSubgraph) (srg : SRGraph)
    (forward : gmap EdgePtr EdgePtr) (edges : list (string * EdgePtr)) (s : string) : Prop :=
  exists name pe x f y,
    (name, pe) ∈ edges /\
    edgeStore (graph pattern) !! pe = Some x /\
    isInput (edge_io (edge_data x)) = true /\
    forward !! pe = Some f /\
    edgeStore (base srg) !! f = Some y /\
    s ∈ informationSources (edge_data y).

(** [s] is in the union of the information sources of the SRG edges that
    [m] matches to the input edges of [p]. *)
Definition matchedSource (srg : SRGraph) (p : Pattern) (m : EdgeMatching) (s : string) : Prop :=
  exists name pe x f y,
    m_Edges (graph (m_Graph p)) !! name = Some pe /\
    edgeStore (graph (m_Graph p)) !! pe = Some x /\
    isInput (edge_io (edge_data x)) = true /\
    m_edgeForwardMap m !! pe = Some f /\
    edgeStore (base srg) !! f = Some y /\
    s ∈ informationSources (edge_data y).

(** Every edge object of [srg] is in [srg'] with the same sources. *)
Definition sameSources (srg srg' : SRGraph) : Prop :=
  forall e x, edgeStore (base srg) !! e = Some x ->
    exists x', edgeStore (base srg') !! e = Some x' /\
               informationSources (edge_data x') = informationSources (edge_data x).

(** The matching [m] of pattern [p] is on record with the edges
    [inserted] for it: every input edge of the pattern is matched to an
    edge object of the SRG, and every inserted edge carries the union of
    the sources of those objects. *)
Definition recorded (srg : SRGraph) (p : Pattern) (m : EdgeMatching)
    (inserted : list EdgePtr) : Prop :=
  (forall name pe x,
     m_Edges (graph (m_Graph p)) !! name = Some pe ->
     edgeStore (graph (m_Graph p)) !! pe = Some x ->
     isInput (edge_io (edge_data x)) = true ->
     exists f, m_edgeForwardMap m !! pe = Some f /\
               is_Some (edgeStore (base srg) !! f)) /\
  (forall e, e ∈ inserted ->
     exists x, edgeStore (base srg) !! e = Some x /\
       forall s, s ∈ informationSources (edge_data x) <-> matchedSource srg p m s).

(** Two patterns with the same edges. *)
Definition sameEdges (p p' : Pattern) : Prop :=
  m_Edges (graph (m_Graph p')) = m_Edges (graph (m_Graph p)) /\
  edgeStore (graph (m_Graph p')) = edgeStore (graph (m_Graph p)).

(** What [instanciatePattern] keeps of the matching and the pattern. *)
Definition kept (i i' : Instantiation) : Prop :=
  m_informationSources (inst_matching i') = m_informationSources (inst_matching i) /\
  m_edgeForwardMap (inst_matching i') = m_edgeForwardMap (inst_matching i) /\
  m_Edges (graph (inst_pattern i')) = m_Edges (graph (inst_pattern i)) /\
  edgeStore (graph (inst_pattern i')) = edgeStore (graph (inst_pattern i)).

(** What deletion leaves of an SRG edge object: its name, its producing
    subgraph and its sources stay, dependants may go. *)
Definition survives (x x' : GraphEdge SRGEdgeAttributes) : Prop :=
  edge_Name x' = edge_Name x /\
  m_SubgraphID (edge_data x') = m_SubgraphID (edge_data x) /\
  informationSources (edge_data x') = informationSources (edge_data x) /\
  m_DependantSubgraphIDs (edge_data x') ⊆ m_DependantSubgraphIDs (edge_data x).

(** What deletion leaves of the edges of an SRG. *)
Record evolves (srg srg' : SRGraph) : Prop := {
  ev_edges : m_Edges (base srg') ⊆ m_Edges (base srg);
  ev_edgeStore : forall e,
    option_Forall2 survives (edgeStore (base srg) !! e) (edgeStore (base srg') !! e)
}.

(** The edge map of the SRG holds the edge [x] under [name]; the node
    map holds the node [x] under [name]. *)
Definition srgEdge (srg : SRGraph) (name : string) (x : GraphEdge SRGEdgeAttributes) : Prop :=
  exists e, m_Edges (base srg) !! name = Some e /\ edgeStore (base srg) !! e = Some x.

Definition srgNode (srg : SRGraph) (name : string) (x : GraphNode SRGNodeAttributes) : Prop :=
  exists n, m_Nodes (base srg) !! name = Some n /\ nodeStore (base srg) !! n = Some x.

(** The subgraph has an output edge with the local name [l]. *)
Definition outputEdge (subgraph : UTQLSubgraph) (l : string) : Prop :=
  exists k e x,
    m_Edges (graph subgraph) !! k = Some e /\
    edgeStore (graph subgraph) !! e = Some x /\
    isOutput (edge_io (edge_data x)) = true /\
    edge_Name x = l.

(** The subgraphs that the loop of [deleteSRG( primal )] pops: [primal]
    itself, and every subgraph that an edge produced by such a subgraph
    lists in [m_DependantSubgraphIDs] (the instances that took that edge
    as an input).  The relation does not follow the edges that
    [deleteSRG] removes at its end together with a node that has lost
    its last spawning subgraph: the dependants of such an edge, and its
    producing subgraph, are not in it unless they are for another
    reason. *)
Inductive doomed (st : State) (primal : string) : string -> Prop :=
| doomed_primal : doomed st primal primal
| doomed_dependant (s name d : string) (x : GraphEdge SRGEdgeAttributes) :
    doomed st primal s ->
    srgEdge (m_GlobalSrg st) name x ->
    m_SubgraphID (edge_data x) = s ->
    d ∈ m_DependantSubgraphIDs (edge_data x) ->
    doomed st primal d.

(** The edge map leads to edge objects that carry the name they are
    stored under. *)
Definition edgesNamed (srg : SRGraph) : Prop :=
  forall name e, m_Edges (base srg) !! name = Some e ->
    exists x, edgeStore (base srg) !! e = Some x /\ edge_Name x = name.

(** The producing subgraph of every edge of the SRG is in the repository
    and has an output edge that the name of the SRG edge is made from. *)
Definition edgesProduced (srg : SRGraph) (repository : gmap string InstantiatedPattern)
    : Prop :=
  forall name x, srgEdge srg name x ->
    exists inst l,
      repository !! m_SubgraphID (edge_data x) = Some inst /\
      outputEdge (instance_graph inst) l /\
      name = srgEdgeName (m_SubgraphID (edge_data x)) l.

(** The two node maps are the same, and lead to node objects that carry
    the name they are stored under. *)
Definition nodesNamed (srg : SRGraph) : Prop :=
  m_NodeIDMap srg = m_Nodes (base srg) /\
  forall name n, m_Nodes (base srg) !! name = Some n ->
    exists x, nodeStore (base srg) !! n = Some x /\ node_Name x = name.

(** Every node of the SRG is spawned by some subgraph. *)
Definition nodesSpawned (srg : SRGraph) : Prop :=
  forall name x, srgNode srg name x -> m_SubgraphIDs (node_data x) <> ∅.

(** The SRG and the repository agree. *)
Record consistent (st : State) : Prop := {
  con_edgesNamed : edgesNamed (m_GlobalSrg st);
  con_edgesProduced : edgesProduced (m_GlobalSrg st) (m_GraphRepository st);
  con_nodesNamed : nodesNamed (m_GlobalSrg st);
  con_nodesSpawned : nodesSpawned (m_GlobalSrg st)
}.

(** The edge of the SRG stored under [name] holds [d] as a dependant. *)
Definition dependsOn (srg : SRGraph) (name d : string) : Prop :=
  exists x, srgEdge srg name x /\ d ∈ m_DependantSubgraphIDs (edge_data x).

(** What holds between the passes of the loop of [deleteSRG] that was
    started for [primal] in the state [st]: the edges are consistent with
    the repository; a subgraph that was marked, and [primal], is on the
    stack or gone from the repository; and so is every dependant that
    an edge held at the start, unless the edge is there and holds it. *)
Record deleting (st : State) (primal : string) (d : Deletion) : Prop := {
  del_named : edgesNamed (del_srg d);
  del_produced : edgesProduced (del_srg d) (del_repository d);
  del_evolves : evolves (m_GlobalSrg st) (del_srg d);
  del_marked : forall x, x ∈ deletedSubgraphs d \/ x = primal ->
    x ∈ deleteStack d \/ del_repository d !! x = None;
  del_links : forall name x, dependsOn (m_GlobalSrg st) name x ->
    x ∈ deleteStack d \/ del_repository d !! x = None \/ dependsOn (del_srg d) name x
}.

(** The nodes of [srg'] are those of [srg], but for their edge lists. *)
Definition nodesKept (srg srg' : SRGraph) : Prop :=
  m_NodeIDMap srg' = m_NodeIDMap srg /\
  m_Nodes (base srg') = m_Nodes (base srg) /\
  forall n, option_Forall2 sameNode (nodeStore (base srg) !! n) (nodeStore (base srg') !! n).

(** The nodes are well named, and [removable] holds the name of every
    node that no subgraph spawns. *)
Definition orphansMarked (srg : SRGraph) (removable : gset string) : Prop :=
  nodesNamed srg /\
  forall name x, srgNode srg name x -> m_SubgraphIDs (node_data x) = ∅ -> name ∈ removable.

(** The passes that the loop of [deleteSRG] may still need when every
    dependant of every edge is in [all]: one for each subgraph on the
    stack, and one for each subgraph of [all] that is not marked. *)
Definition passesLeft (all : gset string) (d : Deletion) : nat :=
  (length (deleteStack d) + base.size (all ∖ deletedSubgraphs d))%nat.

(** The edge map of the instance [subgraph] of [pattern] leads to edge
    objects that carry the name they are stored under and the tag of
    the edge that the pattern has under that name. *)
Definition copiesEdges (pattern subgraph : UTQLSubgraph) : Prop :=
  forall k e, m_Edges (graph subgraph) !! k = Some e ->
    exists x pe ped,
      edgeStore (graph subgraph) !! e = Some x /\ edge_Name x = k /\
      m_Edges (graph pattern) !! k = Some pe /\
      edgeStore (graph pattern) !! pe = Some ped /\
      m_Tag (edge_io (edge_data x)) = m_Tag (edge_io (edge_data ped)).

(** The subgraph ids that [applyDetectedPattern] will make for the
    pattern name [name] from the state [st] on are not in use. *)
Definition idsUnused (name : string) (st : State) : Prop :=
  forall k : Z, 0 <= k ->
    m_GraphRepository st !! (name +:+ pretty (patternApplicationID st + k)) = None.

End Manager.

(** A base SRG with one edge from [A] to [B], the pattern [inv] that
    derives the inverse of an edge, and the pattern [concat] that derives
    an edge from two edges in a row. *)
Module ManagerExamples.
Import AttributeValue Predicate Graph UTQL SRG Matching Manager.

Fixpoint addNodes (nodes : list (string * UTQLNode)) (g : Graph UTQLNode UTQLEdge)
    : Exc (Graph UTQLNode UTQLEdge) :=
  match nodes with
  | [] => Ret g
  | (name, data) :: more => r <-! Graph.addNode g name data ;; addNodes more (fst r)
  end.

Fixpoint addEdges (edges : list (string * (string * string) * Tag))
    (g : Graph UTQLNode UTQLEdge) : Exc (Graph UTQLNode UTQLEdge) :=
  match edges with
  | [] => Ret g
  | (name, (source, target), tag) :: more =>
      r <-! Graph.addEdgeByName g name source target (newUTQLEdge tag) ;;
      addEdges more (fst r)
  end.

(** The subgraph with the given nodes and edges, built through the
    interface of [Graph]. *)
Definition subgraphOf (id name : string) (nodes : list (string * UTQLNode))
    (edges : list (string * (string * string) * Tag)) : UTQLSubgraph :=
  match (g <-! addNodes nodes emptyGraph ;; addEdges edges g) with
  | Ret g => withGraph (emptySubgraph id name) g
  | _ => emptySubgraph id name
  end.

Definition outputNode (qualifiedName : string) : UTQLNode :=
  mkUTQLNode (freshInOut Output) (mkPA ∅) qualifiedName.

Definition baseAB : UTQLSubgraph :=
  subgraphOf "s" "base" [("A", outputNode "A"); ("B", outputNode "B")]
             [("e", ("A", "B"), Output)].

Definition invGraph : UTQLSubgraph :=
  subgraphOf "" "inv" [("X", newUTQLNode Input); ("Y", newUTQLNode Input)]
             [("in", ("X", "Y"), Input); ("out", ("Y", "X"), Output)].

Definition concatGraph : UTQLSubgraph :=
  subgraphOf "" "concat"
             [("X", newUTQLNode Input); ("Y", newUTQLNode Input); ("Z", newUTQLNode Input)]
             [("ab", ("X", "Y"), Input); ("bc", ("Y", "Z"), Input);
              ("ac", ("X", "Z"), Output)].

(** No pattern of the examples calls a numerical function. *)
Definition noFunction (f : FunctionType) (children : list AttributeExpression)
    (all : gmap string KeyValueAttributes) (sources : gset string) : Exc AttributeValue.t :=
  Throw "function not available".

(** A second stage that accepts every instance and supersedes nothing,
    which is what [decidePattern2] answers as long as no edge of the SRG
    has the end points of the new edge. *)
Definition accept (st : State) (p : Pattern) (m : EdgeMatching) : Exc (bool * list string) :=
  Ret (true, []).

Definition noPattern : Pattern := mkPattern "" "" (emptySubgraph "" "") [].

Definition patternOf (g : UTQLSubgraph) : Pattern :=
  match newPattern printNothing 10 g "client" with
  | Ret p => p
  | _ => noPattern
  end.

Definition inv : Pattern := patternOf invGraph.
Definition concat : Pattern := patternOf concatGraph.

(** The manager after [registerSRG( baseAB )]. *)
Definition registered : State :=
  match registerSRG initial baseAB "client" with
  | Ret st => st
  | _ => initial
  end.

Definition matchesOf (fuel : nat) (p : Pattern) (st : State) : list EdgeMatching :=
  match checkPattern strtodDigits printNothing noFunction fuel p (m_GlobalSrg st) with
  | Ret l => l
  | _ => []
  end.

(** The one matching of [inv] in [registered]. *)
Definition invMatch : EdgeMatching := default emptyMatching (head (matchesOf 20 inv registered)).

(** The manager after [applyPattern( inv )]: the SRG holds [A -> B] and
    the derived [B -> A]. *)
Definition withInverse : State :=
  match applyPattern strtodDigits printNothing noFunction accept 20 registered inv with
  | Ret pr => prog_state pr
  | _ => initial
  end.

Definition nothingDone (st : State) (p : Pattern) : Progress := mkProgress st p 0 [] [].

(** What [applyPattern( inv )] returns in [registered]. *)
Definition invApplied : Progress :=
  match applyPattern strtodDigits printNothing noFunction accept 20 registered inv with
  | Ret pr => pr
  | _ => nothingDone initial noPattern
  end.

(** The matchings of [concat] in [withInverse], and the first of them:
    [X], [Y], [Z] on [A], [B], [A]. *)
Definition concatMatches : list EdgeMatching := matchesOf 50 concat withInverse.

Definition selfMatch : EdgeMatching := default emptyMatching (head concatMatches).

(** What [applyPattern( concat )] returns in [withInverse]. *)
Definition concatApplied : Progress :=
  match applyPattern strtodDigits printNothing noFunction accept 50 withInverse concat with
  | Ret pr => pr
  | _ => nothingDone initial noPattern
  end.

(** The edge object of the SRG at an address. *)
Definition noEdge : GraphEdge SRGEdgeAttributes :=
  mkEdge (mkSRGEdge (mkKV ∅) (mkPA ∅) "" "" "" ∅) "" None None.

Definition srgEdgeOf (st : State) (e : EdgePtr) : GraphEdge SRGEdgeAttributes :=
  default noEdge (edgeStore (base (m_GlobalSrg st)) !! e).

(** Two registrations under the same subgraph id [s], and a registration
    without an id next to one with the id [t]. *)
Definition first : UTQLSubgraph :=
  subgraphOf "s" "first" [("A", outputNode "A"); ("B", outputNode "B")]
             [("e1", ("A", "B"), Output)].

Definition second : UTQLSubgraph :=
  subgraphOf "s" "second" [("C", outputNode "C"); ("D", outputNode "D")]
             [("e2", ("C", "D"), Output)].

Definition anonymous : UTQLSubgraph :=
  subgraphOf "" "anonymous" [("A", outputNode "A"); ("B", outputNode "B")]
             [("e", ("A", "B"), Output)].

Definition other : UTQLSubgraph :=
  subgraphOf "t" "other" [("C", outputNode "C"); ("D", outputNode "D")]
             [("f", ("C", "D"), Output)].

Definition registerAll (subgraphs : list UTQLSubgraph) : State :=
  foldl (fun st g => match registerSRG st g "client" with Ret st' => st' | _ => st end)
        initial subgraphs.

(** Two base SRGs, [A -> B] of [s] and [C -> D] of [t], and the inverse
    of either edge; then [s] is deleted. *)
Definition twoBases : State := registerAll [baseAB; other].

Definition twoInverses : State :=
  match applyPattern strtodDigits printNothing noFunction accept 50 twoBases inv with
  | Ret pr => prog_state pr
  | _ => initial
  end.

Definition afterDelete : State :=
  match deleteSRG twoInverses "s" with
  | Ret st => st
  | _ => initial
  end.

(** The entry of the repository under an id, the edge object of a
    subgraph at an address, and the node object of the SRG at an
    address. *)
Definition instanceOf (st : State) (id : string) : InstantiatedPattern :=
  default (mkInstance (emptySubgraph "" "") "") (m_GraphRepository st !! id).

Definition edgeOf (subgraph : UTQLSubgraph) (e : EdgePtr) : GraphEdge UTQLEdge :=
  default (mkEdge (newUTQLEdge Input) "" None None) (edgeStore (graph subgraph) !! e).

Definition srgNodeOf (st : State) (n : NodePtr) : GraphNode SRGNodeAttributes :=
  default (mkNode (mkSRGNode (mkKV ∅) (mkPA ∅) ∅) "" [] [])
          (nodeStore (base (m_GlobalSrg st)) !! n).

(** The edges of the SRG in the order of their names, each with its
    producing subgraph, its dependants and the names of its end points;
    and the nodes of the SRG, each with the subgraphs that spawn it. *)
Definition endName (st : State) (p : option NodePtr) : string :=
  match p with
  | Some n => node_Name (srgNodeOf st n)
  | None => ""
  end.

Definition edgeList (st : State)
    : list (string * string * list string * string * string) :=
  (fun it =>
     let x := srgEdgeOf st (snd it) in
     (fst it, m_SubgraphID (edge_data x), members (m_DependantSubgraphIDs (edge_data x)),
      endName st (m_Source x), endName st (m_Target x)))
  <$> entries (m_Edges (base (m_GlobalSrg st))).

Definition nodeList (st : State) : list (string * list string) :=
  (fun it => (fst it, members (m_SubgraphIDs (node_data (srgNodeOf st (snd it))))))
  <$> entries (m_Nodes (base (m_GlobalSrg st))).

(** [deleteSRG( "s" )] after the two registrations under [s], and
    [deleteSRG( "t" )] next to the registration without an id. *)
Definition duplicated : State := registerAll [first; second].

Definition afterDuplicate : State :=
  match deleteSRG duplicated "s" with
  | Ret st => st
  | _ => initial
  end.

Definition unnamed : State := registerAll [anonymous; other].

Definition afterUnnamed : State :=
  match deleteSRG unnamed "t" with
  | Ret st => st
  | _ => initial
  end.

(** A base SRG [s] with the single node [A], next to [t] with the edge
    [C -> D].  The pattern [link] derives, for an edge [X -> Y] and a
    further node [Z], the edge [Y -> Z]; the pattern [uses] derives, for
    an edge [X -> Y] and a further node [W], the edge [X -> W].  Neither
    derives an edge from a node to itself or next to an edge with the
    same end points, so [decidePattern2] accepts every instance below. *)
Definition lone : UTQLSubgraph :=
  subgraphOf "s" "lone" [("A", outputNode "A")] [].

Definition linkGraph : UTQLSubgraph :=
  subgraphOf "" "link"
             [("X", newUTQLNode Input); ("Y", newUTQLNode Input); ("Z", newUTQLNode Input)]
             [("in", ("X", "Y"), Input); ("out", ("Y", "Z"), Output)].

Definition usesGraph : UTQLSubgraph :=
  subgraphOf "" "uses"
             [("X", newUTQLNode Input); ("Y", newUTQLNode Input); ("W", newUTQLNode Input)]
             [("in", ("X", "Y"), Input); ("out", ("X", "W"), Output)].

Definition linkPattern : Pattern := patternOf linkGraph.
Definition usesPattern : Pattern := patternOf usesGraph.

Definition loneAndOther : State := registerAll [lone; other].

(** After [applyPattern( link )]: the instance [link2000] on [t:f] and
    the node [A], with the edge [link2000:out] from [D] to [A]. *)
Definition linked : State :=
  match applyPattern strtodDigits printNothing noFunction accept 50 loneAndOther linkPattern with
  | Ret pr => prog_state pr
  | _ => initial
  end.

(** After [applyPattern( uses )]: the instance [uses2001] on [t:f] and
    [A], with the edge from [C] to [A], and the instance [uses2002] on
    [link2000:out] and [C], with the edge from [D] to [C]. *)
Definition used : State :=
  match applyPattern strtodDigits printNothing noFunction accept 100 linked usesPattern with
  | Ret pr => prog_state pr
  | _ => initial
  end.

(** Then [s] is deleted. *)
Definition afterLone : State :=
  match deleteSRG used "s" with
  | Ret st => st
  | _ => initial
  end.

End ManagerExamples.

(** The attributes of a camera with id [S], and the same number written
    in two ways. *)
Module ValueExamples.
Import AttributeValue Predicate.

Definition cameraAttributes : KeyValueAttributes :=
  mkKV (<["type" := AttributeValue_string "camera"]>
          (<["id" := AttributeValue_string "S"]> ∅)).

Definition twelve : AttributeValue.t := AttributeValue_string "12".
Definition twelve' : AttributeValue.t := AttributeValue_string "012".

(** A [std::string] of four characters with a NUL in the third place:
    the digits 1 and 2, the NUL, and the letter x. *)
Definition twelveNULx : string :=
  String "1" (String "2" (String NUL (String "x" EmptyString))).

End ValueExamples.
(* ##################################################################### *)
(** * Properties                                                          *)
(* ##################################################################### *)

(** ** Iteration order and outcomes *)

Lemma elem_of_entries {A} (m : gmap string A) k v :
  (k, v) ∈ entries m <-> m !! k = Some v.
Proof.
  unfold entries. rewrite merge_sort_Permutation. apply elem_of_map_to_list.
Qed.

Lemma elem_of_members (s : gset string) x : x ∈ members s <-> x ∈ s.
Proof.
  unfold members. rewrite merge_sort_Permutation. apply elem_of_elements.
Qed.

Lemma bindExc_Ret {A B} (x : Exc A) (f : A -> Exc B) b :
  bindExc x f = Ret b -> exists a, x = Ret a /\ f a = Ret b.
Proof. destruct x; simpl; intros H; try discriminate. eauto. Qed.

Lemma deref_ptr_Ret {A} (h : gmap nat A) p x : deref_ptr h p = Ret x <-> h !! p = Some x.
Proof.
  unfold deref_ptr. destruct (h !! p); split; intros H; try discriminate; congruence.
Qed.

Lemma Forall2_Some_l {A} (R : relation A) (x : A) (o : option A) :
  option_Forall2 R (Some x) o -> exists y, o = Some y /\ R x y.
Proof. intros H. inversion H; subst. eauto. Qed.

Lemma Forall2_Some_r {A} (R : relation A) (y : A) (o : option A) :
  option_Forall2 R o (Some y) -> exists x, o = Some x /\ R x y.
Proof. intros H. inversion H; subst. eauto. Qed.

(** Split a hypothesis [x <-! e1 ;; e2 = Ret b] into the two returns. *)
Ltac bind_inv H :=
  let a := fresh "r" in
  let H1 := fresh H in
  apply bindExc_Ret in H; destruct H as (a & H1 & H).

Lemma bindExc_fuel {A B} (x : Exc A) (f : A -> Exc B) :
  x <> OutOfFuel -> (forall a, x = Ret a -> f a <> OutOfFuel) -> bindExc x f <> OutOfFuel.
Proof. destruct x; simpl; intros Hx Hf; try done. by apply Hf. Qed.

Lemma deref_ptr_fuel {A} (h : gmap nat A) p : deref_ptr h p <> OutOfFuel.
Proof. unfold deref_ptr. by destruct (h !! p). Qed.

(** A call that has no bounded loop in it does not run out of fuel. *)
Ltac fuel_free :=
  repeat first
    [ progress intros
    | progress cbv zeta
    | apply deref_ptr_fuel
    | apply bindExc_fuel
    | match goal with
      | |- Ret _ <> OutOfFuel => discriminate
      | |- Throw _ <> OutOfFuel => discriminate
      | |- Undefined <> OutOfFuel => discriminate
      | |- (if ?b then _ else _) <> OutOfFuel => destruct b
      | |- (match ?x with _ => _ end) <> OutOfFuel => destruct x
      end ].

(** From a lookup in a closed map to the list of its entries. *)
Ltac enum_lookup H :=
  apply elem_of_map_to_list in H; vm_compute in H;
  repeat (apply elem_of_cons in H as [H | H]; [injection H as ?; subst|]);
  try (apply elem_of_nil in H; destruct H).

Ltac enum_elem H :=
  vm_compute in H;
  repeat (apply elem_of_cons in H as [H | H]; [subst|]);
  try (apply elem_of_nil in H; destruct H).


Lemma Some_eq {A} (x y : A) : Some x = Some y -> x = y.
Proof. congruence. Qed.

(** The object [obj] that a lookup in a closed store has found. *)
Ltac known_object Hx obj :=
  match type of Hx with
  | ?l = Some ?x =>
      let Hk := fresh in
      let Heq := fresh in
      assert (l = Some obj) as Hk by (vm_compute; reflexivity);
      pose proof (Some_eq _ _ (eq_trans (eq_sym Hx) Hk)) as Heq;
      subst x; clear Hk
  end.


(* ===================================================================== *)
(** * Event queue: ordering and queue-length limits                       *)
(* ===================================================================== *)

Module EventQueueProps.
Import EventQueue EventQueueExamples.

(** ** Counting *)

Lemma countFor_cons r d l :
  countFor r (d :: l) = (if isFor r d then 1 else 0) + countFor r l.
Proof.
  unfold countFor. rewrite filter_cons.
  destruct (isFor r d) eqn:E.
  - rewrite decide_True by done. simpl length. lia.
  - rewrite decide_False by done. lia.
Qed.

Lemma isFor_Some r d : pReceiverInfo d = Some r -> isFor r d = true.
Proof. unfold isFor. intros ->. apply Nat.eqb_refl. Qed.

Lemma isFor_true r d : isFor r d = true -> pReceiverInfo d = Some r.
Proof.
  unfold isFor. destruct (pReceiverInfo d) as [r'|]; [|done].
  intros H. apply Nat.eqb_eq in H. by subst.
Qed.

(** The effect of [countUp] for event [e] on receiver [r]'s record. *)
Lemma countUp_lookup r e rs ri :
  rs !! r = Some ri ->
  exists ri', countUp (pReceiverInfo e) rs !! r = Some ri' /\
    nMaxQueueLength ri' = nMaxQueueLength ri /\
    nQueuedEvents ri' = nQueuedEvents ri + (if isFor r e then 1 else 0).
Proof.
  intros Hr. unfold countUp, isFor. destruct (pReceiverInfo e) as [r'|].
  - destruct (Nat.eqb r' r) eqn:E.
    + apply Nat.eqb_eq in E. subst r'. exists (incQueued ri).
      rewrite lookup_alter_eq, Hr. simpl. done.
    + apply Nat.eqb_neq in E. exists ri.
      rewrite lookup_alter_ne by done. split; [done|]. split; [done|lia].
  - exists ri. split; [done|]. split; [done|lia].
Qed.

(** The insertion loop adds, per receiver, the number of its events in the
    batch, and leaves the limits alone. *)
Lemma enqueueAll_counts r events : forall q rs ri,
  rs !! r = Some ri ->
  exists ri', snd (enqueueAll q rs events) !! r = Some ri' /\
    nMaxQueueLength ri' = nMaxQueueLength ri /\
    nQueuedEvents ri' = nQueuedEvents ri + countFor r events.
Proof.
  induction events as [|e es IH]; intros q rs ri Hr; simpl.
  - exists ri. unfold countFor. simpl. split; [done|]. split; [done|lia].
  - destruct (countUp_lookup r e rs ri Hr) as (ri1 & H1 & Hm1 & Hc1).
    destruct (IH (sortIn q e) _ ri1 H1) as (ri2 & H2 & Hm2 & Hc2).
    exists ri2. split; [done|]. split; [congruence|].
    rewrite countFor_cons. lia.
Qed.

(** Once receiver [r] is within its limit (or has none), the dropping loop
    removes none of its events and does not touch its record. *)
Lemma dropFront_within r : forall q rs ri,
  rs !! r = Some ri ->
  (0 <? nMaxQueueLength ri) && (nMaxQueueLength ri <? nQueuedEvents ri) = false ->
  countFor r (snd (dropFront q rs)) = 0 /\
  snd (fst (dropFront q rs)) !! r = Some ri.
Proof.
  induction q as [|d q IH]; intros rs ri Hr Hok; simpl.
  - done.
  - destruct (tooLong rs d) eqn:Htl; [|done].
    assert (Hne : isFor r d = false).
    { destruct (isFor r d) eqn:E; [|done].
      apply isFor_true in E. unfold tooLong in Htl. rewrite E, Hr in Htl. congruence. }
    assert (Hr' : countDown (pReceiverInfo d) rs !! r = Some ri).
    { unfold countDown. unfold isFor in Hne.
      destruct (pReceiverInfo d) as [r'|]; [|done].
      apply Nat.eqb_neq in Hne. by rewrite lookup_alter_ne. }
    destruct (IH _ ri Hr' Hok) as [Hc Hl].
    destruct (dropFront q (countDown (pReceiverInfo d) rs)) as [[q'' rs'] dr].
    simpl in *. rewrite countFor_cons, Hne. split; [lia|done].
Qed.

(** ** C1 *)

(** C1 (evaluation of the code at the failing input).  Events [e1] and
    [e2] go to the same receiver with the same priority 5, [e1] first; an
    event [ex] of priority 7 for another receiver is in the queue when
    [e2] is inserted, in the same batch or from an earlier one.  The scan
    from the front stops at the first element whose priority is not below
    5, which is [e1], so [e2] is inserted before [e1]: nothing is dropped
    and the worker invokes [e2] before [e1]. *)
Theorem queue_equal_priority_overtakes :
  snd (queue idle [e1; ex; e2]) = [] /\
  snd (worker 3 (fst (queue idle [e1; ex; e2]))) = [e2; e1; ex] /\
  snd (queue (fst (queue idle [e1; ex])) [e2]) = [] /\
  snd (worker 3 (fst (queue (fst (queue idle [e1; ex])) [e2]))) = [e2; e1; ex].
Proof. vm_compute. repeat split. Qed.

(** ** C2 *)

(** C2 (counterexample).  With limit [K = 0] the test
    [nMaxQueueLength > 0] fails, so the single event of the batch stays
    and the counter is 1.  With limit [K = 1] and an event of another
    receiver at the front, the loop stops at that front event: both
    events stay and the counter is 2. *)
Lemma queue_cap_counterexample :
  ~ dropsOneAndKeeps (fresh 0) 0%nat 0 [c1] /\
  ~ dropsOneAndKeeps (behind 1) 0%nat 1 [c1; c2].
Proof.
  split; intros [H _]; vm_compute in H; discriminate H.
Qed.

(** C2 (amended).  For a receiver with limit [K >= 1] and nothing queued,
    a batch with [K+1] events for it, after whose insertion the event at
    the front of the queue is one for this receiver: the call drops
    exactly one event of the receiver and its counter ends at [K]. *)
Theorem queue_cap_drops_one (s : State) (r : ptr) (ri : ReceiverInfo) (K : Z)
    (events : list QueueData) (d : QueueData) :
  1 <= K ->
  receivers s !! r = Some ri ->
  nMaxQueueLength ri = K ->
  nQueuedEvents ri = 0 ->
  countFor r events = K + 1 ->
  head (fst (enqueueAll (m_Queue s) (receivers s) events)) = Some d ->
  pReceiverInfo d = Some r ->
  dropsOneAndKeeps s r K events.
Proof.
  intros HK Hr Hmax Hcnt Hbatch Hhead Hd.
  unfold dropsOneAndKeeps, queue.
  destruct (enqueueAll_counts r events (m_Queue s) (receivers s) ri Hr)
    as (ri1 & H1 & Hm1 & Hc1).
  destruct (enqueueAll (m_Queue s) (receivers s) events) as [q1 rs1].
  simpl in Hhead, H1.
  destruct q1 as [|d' q1']; [done|]. simpl in Hhead. injection Hhead as ->.
  assert (Htl : tooLong rs1 d = true).
  { unfold tooLong. rewrite Hd, H1.
    apply andb_true_intro. split; [apply Z.ltb_lt|apply Z.ltb_lt]; lia. }
  simpl. rewrite Htl.
  assert (Hr' : countDown (pReceiverInfo d) rs1 !! r = Some (decQueued ri1)).
  { rewrite Hd. simpl. by rewrite lookup_alter_eq, H1. }
  assert (Hok : (0 <? nMaxQueueLength (decQueued ri1))
                && (nMaxQueueLength (decQueued ri1) <? nQueuedEvents (decQueued ri1)) = false).
  { simpl. apply andb_false_intro2. apply Z.ltb_ge. lia. }
  destruct (dropFront_within r q1' _ _ Hr' Hok) as [Hc Hl].
  destruct (dropFront q1' (countDown (pReceiverInfo d) rs1)) as [[q'' rs'] dr].
  simpl in *. rewrite countFor_cons, (isFor_Some r d Hd).
  split; [lia|]. unfold queuedFor. rewrite Hl. simpl. f_equal. lia.
Qed.

(** A limit of 2 and a batch of three events for the receiver. *)
Lemma queue_cap_drops_one_witness : dropsOneAndKeeps (fresh 2) 0%nat 2 [c1; c2; c3].
Proof.
  apply (queue_cap_drops_one (fresh 2) 0%nat (capped 2) 2 [c1; c2; c3] c1);
    [lia | reflexivity | reflexivity | reflexivity | reflexivity
    | reflexivity | reflexivity].
Defined.

End EventQueueProps.

(* ===================================================================== *)
(** * Attribute values: number classification                             *)
(* ===================================================================== *)

Module AttributeValueProps.
Import AttributeValue ValueExamples.

Lemma get_None s : forall n, String.get n s = None <-> (String.length s <= n)%nat.
Proof.
  induction s as [|c s IH]; intros n; simpl.
  - split; [lia|done].
  - destruct n as [|n]; simpl.
    + split; [done|lia].
    + rewrite IH. lia.
Qed.

(** A C string holds no NUL before its end. *)
Lemma c_str_get s : forall n c, String.get n (c_str s) = Some c -> c <> NUL.
Proof.
  induction s as [|c0 s IH]; intros n c; simpl.
  - done.
  - destruct (Ascii.eqb c0 NUL) eqn:E; simpl; [done|].
    destruct n as [|n].
    + intros [= <-]. intros ->. by rewrite Ascii.eqb_refl in E.
    + apply IH.
Qed.

(** [*endptr == 0] holds exactly at the end of the C string. *)
Lemma deref_NUL s n :
  (n <= String.length (c_str s))%nat ->
  Ascii.eqb (deref (c_str s) n) NUL = Nat.eqb n (String.length (c_str s)).
Proof.
  intros Hn. unfold deref.
  destruct (String.get n (c_str s)) as [c|] eqn:G.
  - assert (Hc := c_str_get _ _ _ G).
    assert (n <> String.length (c_str s)).
    { intros ->. assert (String.get (String.length (c_str s)) (c_str s) = None)
        by (apply get_None; lia). congruence. }
    rewrite (proj2 (Nat.eqb_neq _ _)) by done.
    by apply Ascii.eqb_neq.
  - apply get_None in G. rewrite Ascii.eqb_refl. symmetry. apply Nat.eqb_eq. lia.
Qed.

(** A string without NUL characters is its own C string. *)
Lemma c_str_id s :
  (forall n, String.get n s <> Some NUL) -> c_str s = s.
Proof.
  induction s as [|c s IH]; intros H; simpl; [done|].
  destruct (Ascii.eqb c NUL) eqn:E.
  - apply Ascii.eqb_eq in E. subst. by specialize (H O).
  - f_equal. apply IH. intros n. apply (H (S n)).
Qed.

Section Classification.

Variable strtod : string -> float * nat.
Variable printDouble : float -> string.

(** [strtod] leaves [endptr] inside the string it was given. *)
Hypothesis strtod_bound : forall cs, (snd (strtod cs) <= String.length cs)%nat.

Lemma checkNumber_string c s :
  checkNumber strtod printDouble (AttributeValue_string (String c s)) =
  mk None (String c s) (fst (strtod (c_str (String c s))))
     (if parsesFully strtod (String c s) then stateNumber else stateNoNumber).
Proof.
  unfold checkNumber, parsesFully.
  cbn [AttributeValue_string m_string String.length Nat.eqb m_node].
  pose proof (strtod_bound (c_str (String c s))) as Hb.
  pose proof (deref_NUL (String c s)) as Hd.
  remember (c_str (String c s)) as cs eqn:Hcs. clear Hcs.
  destruct (strtod cs) as [d n]. cbn [fst snd] in *.
  rewrite Hd by done.
  destruct (Nat.eqb n 0); cbn [orb negb andb]; [done|].
  by destruct (Nat.eqb n _).
Qed.

(** C10.  With a [strtod] that stays inside its argument:
    - a text value is a number exactly when the part of the text before
      its first NUL character (the C string that [strtod] is given) is
      not empty and the numeric parse consumes all of it; for a text
      without NUL characters that part is the text itself;
    - [getNumber] throws for every text that is empty or not fully
      numeric, and for the empty value, and returns the parsed double for
      a fully numeric text;
    - [getText] returns the text it was constructed from;
    - [isNumber] is false on every empty value. *)
Theorem attribute_number_classification :
  (forall s, fst (isNumber strtod printDouble (AttributeValue_string s))
             = parsesFully strtod s) /\
  (forall s, (forall n, String.get n s <> Some NUL) -> c_str s = s) /\
  (forall s, parsesFully strtod s = false ->
     returned (fst (getNumber strtod printDouble (AttributeValue_string s))) = false) /\
  returned (fst (getNumber strtod printDouble AttributeValue_empty)) = false /\
  (forall s, parsesFully strtod s = true ->
     fst (getNumber strtod printDouble (AttributeValue_string s))
     = Ret (fst (strtod (c_str s)))) /\
  (forall s, fst (getText printDouble (AttributeValue_string s)) = s) /\
  (forall a, m_contentState a = stateEmpty -> fst (isNumber strtod printDouble a) = false).
Proof.
  assert (Hempty : parsesFully strtod EmptyString = false).
  { unfold parsesFully. pose proof (strtod_bound (c_str EmptyString)) as Hb.
    simpl in *. by replace (snd (strtod EmptyString)) with O by lia. }
  repeat split.
  - intros [|c s]; [by rewrite Hempty|].
    unfold isNumber. cbn [AttributeValue_string m_contentState].
    rewrite checkNumber_string. simpl. by destruct (parsesFully strtod (String c s)).
  - apply c_str_id.
  - intros [|c s] Hp; [done|].
    unfold getNumber. cbn [AttributeValue_string m_contentState].
    rewrite checkNumber_string, Hp. done.
  - intros [|c s] Hp; [congruence|].
    unfold getNumber. cbn [AttributeValue_string m_contentState].
    rewrite checkNumber_string, Hp. done.
  - intros [|c s]; done.
  - intros a Ha. unfold isNumber. by rewrite Ha.
Qed.

End Classification.

Lemma readDigits_bound s : forall acc, (snd (readDigits acc s) <= String.length s)%nat.
Proof.
  induction s as [|c s IH]; intros acc; simpl; [lia|].
  destruct (digitValue c) as [d|]; simpl; [|lia].
  specialize (IH (acc * 10 + d)%float).
  destruct (readDigits (acc * 10 + d) s). simpl in *. lia.
Qed.

(** The classification on the digit reader: ["42"] is a number with value
    42, ["4x"] and the empty text are not. *)
Lemma attribute_number_classification_witness :
  fst (isNumber strtodDigits printNothing (AttributeValue_string "42")) = true /\
  fst (getNumber strtodDigits printNothing (AttributeValue_string "42")) = Ret 42%float /\
  returned (fst (getNumber strtodDigits printNothing (AttributeValue_string "4x"))) = false /\
  returned (fst (getNumber strtodDigits printNothing (AttributeValue_string ""))) = false.
Proof.
  pose proof (attribute_number_classification strtodDigits printNothing
                (fun cs => readDigits_bound cs 0%float))
    as (Hnum & _ & Hthrow & _ & Hget & _ & _).
  split; [rewrite Hnum; reflexivity|].
  split; [rewrite Hget; reflexivity|].
  split; apply Hthrow; reflexivity.
Defined.

(** C10 (counterexample).  The text of the four characters 1, 2, NUL, x
    is classified as a number, and [getNumber] returns 12 for it, although
    the numeric parse consumed two of its four characters: [checkNumber]
    tests [*endptr] on [c_str()], and finds the embedded NUL.  This holds
    for every [strtod] that reads the C string ["12"] to its end, and for
    the digit reader. *)
Lemma attribute_number_embedded_NUL_counterexample :
  String.length twelveNULx = 4%nat /\
  c_str twelveNULx = "12"%string /\
  snd (strtodDigits (c_str twelveNULx)) = 2%nat /\
  (forall (strtod : string -> float * nat) (printDouble : float -> string),
     snd (strtod "12"%string) = 2%nat ->
     fst (isNumber strtod printDouble (AttributeValue_string twelveNULx)) = true /\
     fst (getNumber strtod printDouble (AttributeValue_string twelveNULx))
     = Ret (fst (strtod "12"%string))) /\
  fst (isNumber strtodDigits printNothing (AttributeValue_string twelveNULx)) = true /\
  fst (getNumber strtodDigits printNothing (AttributeValue_string twelveNULx))
  = Ret 12%float.
Proof.
  split; [reflexivity|]. split; [reflexivity|]. split; [reflexivity|].
  split; [|split; reflexivity].
  intros strtod printDouble H.
  assert (E : c_str twelveNULx = "12"%string) by reflexivity.
  unfold isNumber, getNumber, checkNumber, twelveNULx in *.
  cbn [AttributeValue_string m_contentState m_string m_node
       String.length Nat.eqb].
  rewrite E.
  destruct (strtod "12"%string) as [d n]. cbn [fst snd] in *. subst n.
  split; reflexivity.
Qed.

End AttributeValueProps.

(* ===================================================================== *)
(** * Comparison predicates                                               *)
(* ===================================================================== *)

Module PredicateProps.
Import AttributeValue Predicate.

Section Compare.

Variable strtod : string -> float * nat.
Variable printDouble : float -> string.

(** [strtod] leaves [endptr] inside the string it was given. *)
Hypothesis strtod_bound : forall cs, (snd (strtod cs) <= String.length cs)%nat.

Local Abbreviation isNumber := (isNumber strtod printDouble).
Local Abbreviation getNumber := (getNumber strtod printDouble).
Local Abbreviation getText := (getText printDouble).
Local Abbreviation checkNumber := (checkNumber strtod printDouble).
Local Abbreviation doCompare := (doCompare strtod printDouble).

(** [checkNumber] fills in the text if it is missing, stores the parsed
    double and decides between [stateNumber] and [stateNoNumber]. *)
Lemma checkNumber_shape a :
  let a1 := if Nat.eqb (String.length (m_string a)) 0 then snd (getText a) else a in
  exists d st,
    checkNumber a = mk (m_node a1) (m_string a1) d st /\
    (st = stateNumber \/ st = stateNoNumber) /\
    (m_string a1 = EmptyString -> st = stateNoNumber).
Proof.
  intros a1. unfold AttributeValue.checkNumber. fold a1.
  pose proof (strtod_bound (c_str (m_string a1))) as Hb.
  destruct (strtod (c_str (m_string a1))) as [d n]. cbn [snd] in Hb.
  destruct (Nat.eqb n 0) eqn:En; cbn [orb].
  - eauto 6.
  - destruct (negb _); eexists _, _; (split; [reflexivity|]); (split; [eauto|]);
      intros Hs; rewrite Hs in Hb; cbn in Hb; apply Nat.eqb_neq in En; lia.
Qed.

Lemma checkNumber_state a :
  m_contentState (checkNumber a) = stateNumber \/
  m_contentState (checkNumber a) = stateNoNumber.
Proof.
  destruct (checkNumber_shape a) as (d & st & -> & H & _). exact H.
Qed.

(** After [isNumber] the state is settled: a second call changes nothing. *)
Lemma isNumber_settled a :
  isNumber (snd (isNumber a)) = (fst (isNumber a), snd (isNumber a)).
Proof.
  unfold AttributeValue.isNumber.
  destruct (m_contentState a) eqn:E; simpl; rewrite ?E; try done.
  destruct (checkNumber_state a) as [-> | ->]; done.
Qed.

(** [getNumber] returns the cached double of a number and throws for
    everything else. *)
Lemma getNumber_isNumber a :
  fst (getNumber a) =
  if fst (isNumber a) then Ret (m_double (snd (isNumber a)))
  else Throw ("Attribute is no number! (" ++ m_string (snd (isNumber a)) ++ ")").
Proof.
  unfold AttributeValue.getNumber, AttributeValue.isNumber.
  destruct (m_contentState a) eqn:E; simpl; rewrite ?E; try done.
  destruct (checkNumber_state a) as [-> | ->]; done.
Qed.

Lemma getNumber_settled a :
  fst (isNumber a) = true ->
  fst (getNumber (snd (isNumber a))) = Ret (m_double (snd (isNumber a))).
Proof.
  intros H. rewrite getNumber_isNumber, isNumber_settled. simpl. by rewrite H.
Qed.

(** Classifying a value does not change its text. *)
Lemma getText_isNumber a :
  fst (getText (snd (isNumber a))) = fst (getText a).
Proof.
  unfold AttributeValue.isNumber.
  destruct (m_contentState a) eqn:E; cbn [snd]; try done.
  destruct (checkNumber_shape a) as (d & st & -> & Hst & Hno).
  destruct a as [node str x st0]. cbn in E. subst st0.
  unfold AttributeValue.getText in *. cbn in *.
  destruct str as [|c str]; cbn in *.
  - destruct node as [nd|]; cbn in *.
    + destruct (xml_Value nd); cbn; [|done]. by rewrite Hno.
    + by rewrite Hno.
  - done.
Qed.

(** C7 (amended).  [==] and [!=] compare the two doubles when both
    operands are numbers; when the left operand is not a number they
    compare the two texts for equality; when only the left operand is a
    number the operands count as unequal.  [<], [<=], [>] and [>=] compare
    the two doubles when both operands are numbers, and throw otherwise. *)
Theorem doCompare_cases (ty : ComparisonType) (a b : AttributeValue.t) :
  doCompare ty a b = codeCompare strtod printDouble ty a b.
Proof.
  unfold Predicate.doCompare, Predicate.codeCompare.
  pose proof (getNumber_isNumber a) as Ga.
  pose proof (getNumber_isNumber b) as Gb.
  pose proof (getNumber_settled a) as Sa.
  pose proof (getNumber_settled b) as Sb.
  pose proof (getText_isNumber a) as Ta.
  destruct (isNumber a) as [na a1]. destruct (isNumber b) as [nb b1].
  cbn [fst snd] in *.
  destruct ty; destruct na; destruct nb; cbn [andb];
    rewrite ?Sa, ?Sb, ?Ga, ?Gb, ?Ta by done; reflexivity.
Qed.

End Compare.

(** The four outcomes on the digit reader: a numeric test, a textual
    equality, a number against a text, and an ordering of two texts. *)
Lemma doCompare_cases_witness :
  Predicate.doCompare strtodDigits printNothing less
    (AttributeValue_string "9") (AttributeValue_string "10") = Ret true /\
  Predicate.doCompare strtodDigits printNothing equals
    (AttributeValue_string "6D") (AttributeValue_string "6D") = Ret true /\
  Predicate.doCompare strtodDigits printNothing notEquals
    (AttributeValue_string "7") (AttributeValue_string "x") = Ret true /\
  returned (Predicate.doCompare strtodDigits printNothing less
    (AttributeValue_string "abc") (AttributeValue_string "abd")) = false.
Proof.
  pose proof (doCompare_cases strtodDigits printNothing
                (fun cs => AttributeValueProps.readDigits_bound cs 0%float)) as H.
  repeat split; rewrite H; reflexivity.
Defined.

(** C7 (counterexample): ["abc" < "abd"] holds for the texts, and neither
    operand is a number, yet the comparison throws instead of returning
    the lexicographic verdict.  Likewise for ["b" >= "a"]. *)
Lemma doCompare_text_order_counterexample :
  specCompare strtodDigits printNothing less
    (AttributeValue_string "abc") (AttributeValue_string "abd") = true /\
  Predicate.doCompare strtodDigits printNothing less
    (AttributeValue_string "abc") (AttributeValue_string "abd")
  <> Ret (specCompare strtodDigits printNothing less
            (AttributeValue_string "abc") (AttributeValue_string "abd")) /\
  Predicate.doCompare strtodDigits printNothing greaterEquals
    (AttributeValue_string "b") (AttributeValue_string "a")
  <> Ret (specCompare strtodDigits printNothing greaterEquals
            (AttributeValue_string "b") (AttributeValue_string "a")).
Proof.
  split; [reflexivity|]. split; vm_compute; discriminate.
Qed.

End PredicateProps.

(* ===================================================================== *)
(** * The generic graph: adding an edge under a name that is taken        *)
(* ===================================================================== *)

Module GraphProps.
Import Graph GraphExamples.

Lemma newPtr_fresh {A} (h : gmap nat A) : h !! newPtr h = None.
Proof. apply not_elem_of_dom. unfold newPtr. apply is_fresh. Qed.

Section AddEdge.

Context {NodeAttributes EdgeAttributes : Type}.
Implicit Types g : Graph NodeAttributes EdgeAttributes.

(** C9.  When [edgeName] is already bound in the edge map (and the edge
    map only holds pointers to existing edge objects, and [source] and
    [target] are existing nodes), [addEdge] returns without throwing; the
    edge map is unchanged, so [edgeName] still leads to the edge stored
    before; the new edge object is a different one, it is appended to the
    out-list of [source] and to the in-list of [target], and no name of
    the edge map leads to it. *)
Theorem addEdge_existing_name g (edgeName : string) (source target : NodePtr)
    (data : EdgeAttributes) (old : EdgePtr)
    (sn tn : GraphNode NodeAttributes) :
  edgesAllocated g ->
  m_Edges g !! edgeName = Some old ->
  nodeStore g !! source = Some sn ->
  nodeStore g !! target = Some tn ->
  exists g' newEdge,
    addEdge g edgeName source target data = Ret (g', newEdge) /\
    m_Edges g' = m_Edges g /\
    m_Edges g' !! edgeName = Some old /\
    newEdge <> old /\
    edgeStore g' !! newEdge = Some (mkEdge data edgeName (Some source) (Some target)) /\
    (exists sn', nodeStore g' !! source = Some sn' /\
                 m_OutEdges sn' = m_OutEdges sn ++ [newEdge]) /\
    (exists tn', nodeStore g' !! target = Some tn' /\
                 m_InEdges tn' = m_InEdges tn ++ [newEdge]) /\
    ~ reachableByName g' newEdge.
Proof.
  intros Halloc Hold Hs Ht.
  pose proof (newPtr_fresh (edgeStore g)) as Hfresh.
  assert (Hne : forall name, m_Edges g !! name <> Some (newPtr (edgeStore g))).
  { intros name Hn. destruct (Halloc _ _ Hn) as [x Hx].
    rewrite Hfresh in Hx. done. }
  set (new := newPtr (edgeStore g)) in *.
  assert (Ht1 : alter (pushOutEdge new) source (nodeStore g) !! target
                = Some (if decide (source = target) then pushOutEdge new tn else tn)).
  { destruct (decide (source = target)) as [->|Hd].
    - by rewrite lookup_alter_eq, Ht.
    - by rewrite lookup_alter_ne. }
  exists (mkGraph (alter (pushInEdge new) target
                     (alter (pushOutEdge new) source (nodeStore g)))
                  (<[new := mkEdge data edgeName (Some source) (Some target)]> (edgeStore g))
                  (m_Nodes g) (m_Edges g)), new.
  split.
  { unfold addEdge. fold new. rewrite Hold. unfold deref_ptr.
    rewrite Hs. cbn [bindExc]. rewrite Ht1. reflexivity. }
  cbn [m_Edges edgeStore nodeStore].
  split; [done|]. split; [done|].
  split; [intros E; by apply (Hne edgeName); rewrite Hold, E|].
  split; [by rewrite lookup_insert_eq|].
  split.
  - destruct (decide (source = target)) as [->|Hd].
    + rewrite lookup_alter_eq, Ht1.
      eexists; split; [reflexivity|]. simpl. by replace sn with tn by congruence.
    + rewrite lookup_alter_ne by done. rewrite lookup_alter_eq, Hs.
      eexists; split; [reflexivity|]. done.
  - split.
    + rewrite lookup_alter_eq, Ht1.
      eexists; split; [reflexivity|]. by destruct (decide _).
    + intros [name Hn]. by apply (Hne name).
Qed.

End AddEdge.

Lemma oneEdge_allocated : edgesAllocated oneEdge.
Proof.
  intros name p H. apply elem_of_dom.
  assert (Hp : p ∈ (map_to_list (m_Edges oneEdge)).*2).
  { apply list_elem_of_fmap. exists (name, p). split; [done|].
    by apply elem_of_map_to_list. }
  vm_compute in Hp. apply list_elem_of_singleton in Hp. subst p.
  vm_compute. set_solver.
Qed.

(** Adding ["s:e"] a second time to the graph that already has it. *)
Lemma addEdge_existing_name_witness :
  exists g' newEdge,
    addEdge oneEdge "s:e" 0%nat 1%nat tt = Ret (g', newEdge) /\
    m_Edges g' !! "s:e" = Some 0%nat /\
    newEdge <> 0%nat /\
    ~ reachableByName g' newEdge.
Proof.
  destruct (addEdge_existing_name oneEdge "s:e" 0%nat 1%nat tt 0%nat
              (mkNode tt "A" [] [0%nat]) (mkNode tt "B" [0%nat] [])
              oneEdge_allocated eq_refl eq_refl eq_refl)
    as (g' & e & H1 & _ & H3 & H4 & _ & _ & _ & H8).
  exists g', e. auto.
Defined.

End GraphProps.

(* ===================================================================== *)
(** * The generic graph: removal                                          *)
(* ===================================================================== *)

Module GraphRemovalProps.
Import Graph.

Lemma Forall2_alter {A} (R : relation A) `{!Reflexive R} (f : A -> A)
    (m : gmap nat A) (i : nat) :
  (forall x, m !! i = Some x -> R x (f x)) ->
  forall n, option_Forall2 R (m !! n) (alter f i m !! n).
Proof.
  intros Hf n. rewrite lookup_alter. destruct (decide (i = n)) as [->|]; [|done].
  destruct (m !! n) as [x|] eqn:Hx; simpl; constructor. by apply Hf.
Qed.

Lemma Forall2_insert {A} (R : relation A) `{!Reflexive R} (m : gmap nat A)
    (i : nat) (x y : A) :
  m !! i = Some x -> R x y ->
  forall n, option_Forall2 R (m !! n) (<[i := y]> m !! n).
Proof.
  intros Hx Hxy n. rewrite lookup_insert. destruct (decide (i = n)) as [<-|]; [|done].
  rewrite Hx. by constructor.
Qed.

Lemma Forall2_compose {A} (R : relation A) `{!Transitive R} (m1 m2 m3 : gmap nat A) :
  (forall n, option_Forall2 R (m1 !! n) (m2 !! n)) ->
  (forall n, option_Forall2 R (m2 !! n) (m3 !! n)) ->
  forall n, option_Forall2 R (m1 !! n) (m3 !! n).
Proof. intros H12 H23 n. by etrans. Qed.

Section Removal.

Context {NodeAttributes EdgeAttributes : Type}.
Implicit Types g : Graph NodeAttributes EdgeAttributes.

Global Instance sameNode_refl : Reflexive (@sameNode NodeAttributes).
Proof. by intros x. Qed.

Global Instance sameNode_trans : Transitive (@sameNode NodeAttributes).
Proof. intros x y z [? ?] [? ?]. split; congruence. Qed.

Global Instance sameEdge_refl : Reflexive (@sameEdge EdgeAttributes).
Proof. by intros x. Qed.

Global Instance sameEdge_trans : Transitive (@sameEdge EdgeAttributes).
Proof. intros x y z [? ?] [? ?]. split; congruence. Qed.

Global Instance remainder_refl : Reflexive (@remainder NodeAttributes EdgeAttributes).
Proof. intros g. by split. Qed.

Global Instance remainder_trans : Transitive (@remainder NodeAttributes EdgeAttributes).
Proof.
  intros g1 g2 g3 [? ? ? ?] [? ? ? ?]. split; try (by etrans).
  - by apply (Forall2_compose _ _ (edgeStore g2)).
  - by apply (Forall2_compose _ _ (nodeStore g2)).
Qed.

(** [removeEdge]: the entry under the name of the edge is erased, the
    edge object has its ends reset, and nodes change in their lists. *)
Lemma removeEdge_Ret g (edge : EdgePtr) g' :
  removeEdge g edge = Ret g' ->
  exists x,
    edgeStore g !! edge = Some x /\
    is_Some (m_Edges g !! edge_Name x) /\
    m_Edges g' = delete (edge_Name x) (m_Edges g) /\
    edgeStore g' = <[edge := resetEnds x]> (edgeStore g) /\
    m_Nodes g' = m_Nodes g /\
    (forall n, option_Forall2 sameNode (nodeStore g !! n) (nodeStore g' !! n)).
Proof.
  unfold removeEdge. intros H. bind_inv H. apply deref_ptr_Ret in H0.
  destruct (m_Edges g !! edge_Name r) as [p|] eqn:Hp; [|discriminate].
  injection H as <-. exists r. cbn [m_Edges edgeStore m_Nodes nodeStore].
  repeat split; try done.
  apply (Forall2_compose _ _
           (match m_Source r with
            | Some source => alter (eraseOutEdge edge) source (nodeStore g)
            | None => nodeStore g
            end)).
  - destruct (m_Source r); [|done]. by apply Forall2_alter.
  - destruct (m_Target r); [|done]. by apply Forall2_alter.
Qed.

Lemma removeEdge_remainder g (edge : EdgePtr) g' :
  removeEdge g edge = Ret g' -> remainder g g'.
Proof.
  intros (x & Hx & _ & HE & HS & HN & Hns)%removeEdge_Ret. split.
  - rewrite HE. apply delete_subseteq.
  - by rewrite HN.
  - rewrite HS. by apply (Forall2_insert _ _ _ x).
  - done.
Qed.

Lemma removeEdgesOf_remainder (pick : GraphNode NodeAttributes -> list EdgePtr)
    (n : NodePtr) : forall fuel g g',
  removeEdgesOf fuel pick g n = Ret g' -> remainder g g' /\ m_Nodes g' = m_Nodes g.
Proof.
  induction fuel as [|fuel IH]; intros g g' H; simpl in H; bind_inv H.
  - destruct (pick r); [|discriminate]. injection H as <-. done.
  - destruct (pick r); [injection H as <-; done|].
    bind_inv H. apply IH in H. destruct H as [Hrem HN].
    pose proof (removeEdge_remainder _ _ _ H1) as Hrem1.
    apply removeEdge_Ret in H1. destruct H1 as (x & _ & _ & _ & _ & HN1 & _).
    split; [by etrans|congruence].
Qed.

(** [removeNode]: the entry under the name of the node is erased, and
    with it go the entries of edges. *)
Lemma removeNode_Ret g (node : NodePtr) g' :
  removeNode g node = Ret g' ->
  exists nd,
    nodeStore g !! node = Some nd /\
    m_Nodes g' = delete (node_Name nd) (m_Nodes g) /\
    remainder g g'.
Proof.
  unfold removeNode. intros H. bind_inv H. apply deref_ptr_Ret in H0.
  bind_inv H. bind_inv H. bind_inv H. injection H as <-.
  apply removeEdgesOf_remainder in H1, H3.
  destruct H1 as [Hr1 HN1], H3 as [Hr3 HN3].
  exists r. split; [done|]. cbn [m_Nodes]. split; [congruence|].
  assert (remainder g r2) as Hr by (by etrans).
  destruct Hr as [? ? ? ?]. split; cbn [m_Edges m_Nodes edgeStore nodeStore]; try done.
  etrans; [apply delete_subseteq|done].
Qed.

End Removal.

End GraphRemovalProps.

(* ===================================================================== *)
(** * Event priorities follow the connections                             *)
(* ===================================================================== *)

Module DataflowNetworkProps.
Import DataflowNetwork DataflowNetworkExamples.

(** More fuel does not change the outcome of a search. *)
Lemma searchLoop_mono net : forall fuel fuel' st r,
  searchLoop fuel net st = Some r -> (fuel <= fuel')%nat ->
  searchLoop fuel' net st = Some r.
Proof.
  induction fuel as [|fuel IH]; intros fuel' st r H Hle.
  - destruct fuel'; simpl in *; destruct (search st); done.
  - destruct fuel' as [|fuel']; [lia|]. simpl in *.
    destruct (search st); [done|].
    destruct (searchStep net st); [|done..].
    apply IH; [done|lia].
Qed.

Section Assignment.

Variable net : Network.
Hypothesis Hwf : wellFormed net.
Variable level : string -> nat.
Hypothesis Hlayered : layered net 255 level.

Local Abbreviation registered := (registered net).
Local Abbreviation plevel := (plevel net level).
Local Abbreviation storeOk := (storeOk net).
Local Abbreviation ancestor := (ancestor net).
Local Abbreviation Up := (Up net).

Lemma plevel_registered id p : registered id p -> plevel p = level id.
Proof.
  intros H. destruct (wf_names net Hwf id p H) as (c & Hc & Hn).
  unfold DataflowNetwork.plevel. by rewrite Hc, Hn.
Qed.

Lemma registered_inj id1 id2 p : registered id1 p -> registered id2 p -> id1 = id2.
Proof.
  intros H1 H2.
  destruct (wf_names net Hwf _ _ H1) as (c1 & Hc1 & <-).
  destruct (wf_names net Hwf _ _ H2) as (c2 & Hc2 & <-).
  congruence.
Qed.

Lemma ancestor_level a p : ancestor a p -> (plevel p < plevel a)%nat.
Proof.
  intros (id & conn & Hp & Hin & Ha).
  rewrite (plevel_registered _ _ Hp), (plevel_registered _ _ Ha).
  apply (wf_in net Hwf) in Hin as [Hall <-].
  by apply Hlayered.
Qed.

Lemma ancestor_bound a p : ancestor a p -> (plevel a <= 255)%nat.
Proof.
  intros (id & conn & Hp & Hin & Ha).
  rewrite (plevel_registered _ _ Ha). apply Hlayered. by eexists.
Qed.

Lemma Up_snoc p x q y u : Up p x q y -> ancestor u q -> Up p x u (y - 1).
Proof.
  induction 1 as [p x | p x a q y Ha _ IH]; intros Hu.
  - eapply Up_step; [done|]. apply Up_here.
  - eapply Up_step; [done|]. by apply IH.
Qed.

Lemma Up_trans p x q y r z : Up p x q y -> Up q y r z -> Up p x r z.
Proof.
  induction 1 as [p x | p x a q y Ha _ IH]; intros Hr; [done|].
  eapply Up_step; [done|]. by apply IH.
Qed.

(** Priorities go down by one per level at most. *)
Lemma Up_bounds p x q y :
  Up p x q y -> y <= x /\ x + Z.of_nat (plevel p) <= y + Z.of_nat (plevel q).
Proof.
  induction 1 as [p x | p x a q y Ha _ [IH1 IH2]]; [lia|].
  apply ancestor_level in Ha. lia.
Qed.

(** In a layered network every in-connection leads to a registered
    component that is not being visited, so all of them are pushed
    (the last one on top). *)
Lemma pushAncestors_all vis prio : forall inConns stack,
  (forall conn, conn ∈ inConns ->
     exists a, registered (m_componentName (m_source conn)) a /\ a ∉ vis) ->
  exists ptrs,
    pushAncestors net vis prio inConns stack
      = Ret (reverse (mkInfo prio <$> ptrs) ++ stack) /\
    (forall a, a ∈ ptrs <->
       exists conn, conn ∈ inConns /\ registered (m_componentName (m_source conn)) a).
Proof.
  induction inConns as [|conn more IH]; intros stack Hall.
  - exists []. split; [done|]. intros a. split; [by intros ?%elem_of_nil|].
    by intros (c & ?%elem_of_nil & _).
  - destruct (Hall conn) as (a & Ha & Hvis); [by left|].
    destruct (IH (mkInfo prio a :: stack)) as (ptrs & Hpush & Hptrs).
    { intros c Hc. apply Hall. by right. }
    exists (a :: ptrs). split.
    + cbn [pushAncestors]. unfold DataflowNetwork.registered in Ha. rewrite Ha.
      rewrite bool_decide_eq_false_2 by done. rewrite Hpush.
      rewrite fmap_cons, reverse_cons. by rewrite <- app_assoc.
    + intros b. rewrite elem_of_cons, Hptrs. split.
      * intros [-> | (c & Hc & Hb)]; [exists conn; split; [by left|done]|].
        exists c. split; [by right|done].
      * intros (c & [-> | Hc]%elem_of_cons & Hb).
        -- left. unfold DataflowNetwork.registered in *. congruence.
        -- right. by exists c.
Qed.

Lemma prioOf_insert cs p c q :
  prioOf (<[p := c]> cs) q = if decide (p = q) then m_eventPriority c else prioOf cs q.
Proof.
  unfold prioOf. destruct (decide (p = q)) as [->|Hne].
  - by rewrite lookup_insert_eq.
  - by rewrite lookup_insert_ne.
Qed.

Lemma storeOk_insert cs p c c' :
  storeOk cs -> cs !! p = Some c -> m_name c' = m_name c -> storeOk (<[p := c']> cs).
Proof.
  intros Hok Hp Hn id q Hq. destruct (Hok id q Hq) as (cq & Hcq & Hnq).
  destruct (decide (p = q)) as [->|Hne].
  - exists c'. rewrite lookup_insert_eq. split; [done|]. congruence.
  - exists cq. by rewrite lookup_insert_ne.
Qed.

(** Working off stack entries.  When every entry of [items] has a
    priority below [n] and points to a registered component above
    everything in the visiting set, the search gets from
    [items ++ rest] down to [rest] in [k] passes, with the visiting set
    as before. *)
Lemma run_items : forall (n : nat) items rest V cs,
  storeOk cs ->
  (forall it, it ∈ items ->
     priority it < Z.of_nat n /\
     (exists id, registered id (pComponent it)) /\
     (forall w, w ∈ V -> (plevel w < plevel (pComponent it))%nat)) ->
  exists k cs',
    storeOk cs' /\ noHigher cs cs' /\ covers net items cs' /\ attained net items cs cs' /\
    forall fuel,
      searchLoop (k + fuel) net (mkSearch (items ++ rest) V cs)
      = searchLoop fuel net (mkSearch rest V cs').
Proof.
  induction n as [|n IHn]; (induction items as [|it items IHitems]; intros rest V cs Hok Hitems).
  1, 3: exists O, cs; split; [done|]; split; [by intros p; lia|]; split;
        [by intros it q y ?%elem_of_nil|]; split; [by intros q; left|done].
  - (* n = 0: the entry is a marker *)
    destruct (Hitems it) as (Hprio & _ & Hlev); [by left|].
    assert (Hneg : (priority it <? 0) = true) by (apply Z.ltb_lt; lia).
    assert (HV : V ∖ {[pComponent it]} = V).
    { apply set_eq. intros w. rewrite elem_of_difference, elem_of_singleton.
      split; [by intros [? _]|]. intros Hw. split; [done|].
      intros ->. specialize (Hlev _ Hw). lia. }
    destruct (IHitems rest V cs Hok) as (k & cs' & Hok' & Hno & Hcov & Hatt & Hrun).
    { intros it' Hit'. apply Hitems. by right. }
    exists (S k), cs'. split; [done|]. split; [done|]. split; [|split].
    + intros it' q y [-> | Hit']%elem_of_cons HUp Hy; [|by eapply Hcov].
      apply Up_bounds in HUp. lia.
    + intros q. destruct (Hatt q) as [Heq | (it' & y & Hit' & HUp & Hy & Heq)]; [by left|].
      right. exists it', y. split; [by right|done].
    + intros fuel. cbn [plus searchLoop search app]. unfold searchStep.
      cbn [search visiting store]. rewrite Hneg, HV. apply Hrun.
  - (* n > 0 *)
    destruct (Hitems it) as (Hprio & (id & Hreg) & Hlev); [by left|].
    destruct (priority it <? 0) eqn:Hneg.
    + (* a marker *)
      apply Z.ltb_lt in Hneg.
      assert (HV : V ∖ {[pComponent it]} = V).
      { apply set_eq. intros w. rewrite elem_of_difference, elem_of_singleton.
        split; [by intros [? _]|]. intros Hw. split; [done|].
        intros ->. specialize (Hlev _ Hw). lia. }
      destruct (IHitems rest V cs Hok) as (k & cs' & Hok' & Hno & Hcov & Hatt & Hrun).
      { intros it' Hit'. apply Hitems. by right. }
      exists (S k), cs'. split; [done|]. split; [done|]. split; [|split].
      * intros it' q y [-> | Hit']%elem_of_cons HUp Hy; [|by eapply Hcov].
        apply Up_bounds in HUp. lia.
      * intros q. destruct (Hatt q) as [Heq | (it' & y & Hit' & HUp & Hy & Heq)]; [by left|].
        right. exists it', y. split; [by right|done].
      * intros fuel. cbn [plus searchLoop search app]. unfold searchStep.
        cbn [search visiting store]. apply Z.ltb_lt in Hneg. rewrite Hneg, HV. apply Hrun.
    + (* a visit *)
      apply Z.ltb_ge in Hneg.
      set (p := pComponent it) in *. set (x := priority it) in *.
      destruct (Hok id p Hreg) as (c & Hc & Hname).
      set (cs1 := if x <? m_eventPriority c
                  then <[p := setEventPriority x c]> cs else cs).
      assert (Hok1 : storeOk cs1).
      { unfold cs1. destruct (x <? m_eventPriority c); [|done].
        by eapply storeOk_insert. }
      assert (Hp1 : prioOf cs1 p <= x).
      { unfold cs1. destruct (x <? m_eventPriority c) eqn:E.
        - rewrite prioOf_insert, decide_True by done. simpl. lia.
        - apply Z.ltb_ge in E. unfold prioOf. by rewrite Hc. }
      assert (Hno1 : noHigher cs cs1).
      { intros q. unfold cs1. destruct (x <? m_eventPriority c) eqn:E; [|lia].
        apply Z.ltb_lt in E. rewrite prioOf_insert.
        destruct (decide (p = q)) as [<-|]; [|lia].
        unfold prioOf at 1. rewrite Hc. simpl. lia. }
      assert (Hatt1 : forall q, prioOf cs1 q = prioOf cs q \/ (q = p /\ prioOf cs1 q = x)).
      { intros q. unfold cs1. destruct (x <? m_eventPriority c); [|by left].
        rewrite prioOf_insert. destruct (decide (p = q)) as [<-|]; [|by left].
        right. done. }
      assert (HpV : p ∉ V) by (intros Hw; specialize (Hlev _ Hw); lia).
      destruct (pushAncestors_all ({[p]} ∪ V) (x - 1) (inConnections net (m_name c))
                  (mkInfo (-1) p :: items ++ rest))
        as (ptrs & Hpush & Hptrs).
      { intros conn Hconn. rewrite Hname in Hconn.
        pose proof Hconn as Hin.
        apply (wf_in net Hwf) in Hin as [Hall Hdst].
        destruct (wf_source net Hwf conn Hall) as [a Ha].
        exists a. split; [done|].
        assert (Hanc : ancestor a p) by (exists id, conn; done).
        apply ancestor_level in Hanc.
        intros [->%elem_of_singleton | Hw]%elem_of_union; [lia|].
        specialize (Hlev _ Hw). lia. }
      assert (Hanc : forall a, a ∈ ptrs <-> ancestor a p).
      { intros a. rewrite Hptrs. rewrite Hname. split.
        - intros (conn & Hconn & Ha). by exists id, conn.
        - intros (id' & conn & Hreg' & Hconn & Ha).
          rewrite (registered_inj _ _ _ Hreg Hreg'). by exists conn. }
      destruct (IHn (reverse (mkInfo (x - 1) <$> ptrs)) (mkInfo (-1) p :: items ++ rest)
                    ({[p]} ∪ V) cs1 Hok1)
        as (ka & csa & Hoka & Hnoa & Hcova & Hatta & Hruna).
      { intros it' Hit'. apply elem_of_reverse, list_elem_of_fmap in Hit' as (a & -> & Ha).
        cbn [priority pComponent]. apply Hanc in Ha.
        split; [lia|]. split.
        - destruct Ha as (_ & conn & _ & _ & Ha). by eexists.
        - apply ancestor_level in Ha.
          intros w [->%elem_of_singleton | Hw]%elem_of_union; [done|].
          specialize (Hlev _ Hw). lia. }
      assert (HV : ({[p]} ∪ V) ∖ {[p]} = V).
      { apply set_eq. intros w.
        rewrite elem_of_difference, elem_of_union, elem_of_singleton.
        split; [by intros [[?|?] ?]|]. intros Hw. split; [by right|]. by intros ->. }
      destruct (IHitems rest V csa Hoka) as (k & cs' & Hok' & Hno & Hcov & Hatt & Hrun).
      { intros it' Hit'. apply Hitems. by right. }
      exists (S (ka + S k)), cs'. split; [done|]. split; [|split; [|split]].
      * intros q. specialize (Hno q). specialize (Hnoa q). specialize (Hno1 q). lia.
      * intros it' q y [-> | Hit']%elem_of_cons HUp Hy; [|by eapply Hcov].
        fold p x in HUp. specialize (Hno q). specialize (Hnoa q).
        inversion HUp as [ | ? ? a ? ? Ha HUp']; subst.
        -- lia.
        -- assert (prioOf csa q <= y); [|lia].
           apply (Hcova (mkInfo (x - 1) a)); [|done|done].
           apply elem_of_reverse, list_elem_of_fmap. exists a. split; [done|]. by apply Hanc.
      * intros q.
        destruct (Hatt q) as [Heq | (it' & y & Hit' & HUp & Hy & Heq)];
          [|right; exists it', y; split; [by right|done]].
        destruct (Hatta q) as [Heqa | (it' & y & Hit' & HUp & Hy & Heqa)].
        -- destruct (Hatt1 q) as [Heq1 | [-> Heq1]]; [left; congruence|].
           right. exists it, x. split; [by left|]. split; [apply Up_here|].
           split; [done|congruence].
        -- right. exists it, y. split; [by left|].
           apply elem_of_reverse, list_elem_of_fmap in Hit' as (a & -> & Ha).
           cbn [priority pComponent] in HUp. split; [|split; [done|congruence]].
           eapply Up_step; [by apply Hanc|done].
      * intros fuel. cbn [plus searchLoop search app]. unfold searchStep.
        cbn [search visiting store]. fold x p.
        rewrite (proj2 (Z.ltb_ge x 0)) by done.
        unfold deref_ptr. rewrite Hc. cbn [bindExc]. rewrite Hpush. cbn [bindExc].
        fold cs1. rewrite <- Nat.add_assoc. rewrite Hruna.
        cbn [plus searchLoop search]. unfold searchStep.
        cbn [search visiting store priority pComponent].
        replace (-1 <? 0) with true by done. rewrite HV. apply Hrun.
Qed.

(** "clear all event priorities" leaves every registered component with
    priority 255, under its name. *)
Lemma clear_fold (l : list (string * nat)) : forall (cs : gmap nat Component) (p : nat),
  foldl (fun cs it => alter (setEventPriority DFN_MAX_PATHLENGTH) (snd it) cs) cs l !! p
  = (if decide (p ∈ l.*2) then setEventPriority DFN_MAX_PATHLENGTH else id) <$> cs !! p.
Proof.
  induction l as [|it l IH]; intros cs p; cbn [foldl].
  - rewrite decide_False by (by intros ?%elem_of_nil). by destruct (cs !! p).
  - rewrite IH, fmap_cons.
    destruct (decide (it.2 = p)) as [<-|Hne].
    + rewrite lookup_alter_eq. rewrite (decide_True (P := it.2 ∈ it.2 :: l.*2)) by by left.
      destruct (cs !! it.2); [|by destruct (decide _)].
      by destruct (decide _).
    + rewrite lookup_alter_ne by done.
      destruct (decide (p ∈ l.*2)) as [Hin|Hnin].
      * by rewrite decide_True by by right.
      * rewrite decide_False; [done|]. intros [?|?]%elem_of_cons; done.
Qed.

Lemma clearPriorities_spec :
  storeOk (clearPriorities net) /\
  forall id p, registered id p -> prioOf (clearPriorities net) p = 255.
Proof.
  assert (H : forall id p, registered id p ->
            exists c, components net !! p = Some c /\ m_name c = id /\
              clearPriorities net !! p = Some (setEventPriority DFN_MAX_PATHLENGTH c)).
  { intros id p Hreg. destruct (wf_names net Hwf id p Hreg) as (c & Hc & Hn).
    exists c. split; [done|]. split; [done|].
    unfold clearPriorities. rewrite clear_fold, Hc.
    rewrite decide_True; [done|].
    apply list_elem_of_fmap. exists (id, p). split; [done|]. by apply elem_of_entries. }
  split.
  - intros id p Hreg. destruct (H id p Hreg) as (c & _ & Hn & Hc).
    eexists. split; [done|done].
  - intros id p Hreg. destruct (H id p Hreg) as (c & _ & _ & Hc).
    unfold DataflowNetwork.prioOf. by rewrite Hc.
Qed.

(** The searches from the sinks among [its], one after the other. *)
Lemma searchFromSinks_ok cs0 : forall its done cs,
  storeOk cs ->
  (forall d, d ∈ done -> priority d = 255) ->
  covers net done cs ->
  attained net done cs0 cs ->
  (forall it, it ∈ its -> registered it.1 it.2) ->
  exists fuel cs' done',
    (forall fuel', (fuel <= fuel')%nat -> searchFromSinks fuel' net its cs = Some (Ret cs')) /\
    storeOk cs' /\
    (forall d, d ∈ done' -> priority d = 255) /\
    (forall d, d ∈ done -> d ∈ done') /\
    (forall it, it ∈ its -> outConnections net it.1 = [] -> mkInfo 255 it.2 ∈ done') /\
    covers net done' cs' /\
    attained net done' cs0 cs'.
Proof.
  induction its as [|it its IH]; intros done cs Hok Hdone Hcov Hatt Hits.
  - exists O, cs, done. split; [done|]. split; [done|]. split; [done|]. split; [done|].
    split; [by intros it ?%elem_of_nil|done].
  - assert (Hits' : forall it', it' ∈ its -> registered it'.1 it'.2)
      by (intros it' ?; apply Hits; by right).
    destruct (outConnections net it.1) as [|conn conns] eqn:Hout.
    + (* a sink *)
      destruct (run_items 256 [mkInfo 255 it.2] [] ∅ cs Hok)
        as (k & cs1 & Hok1 & Hno1 & Hcov1 & Hatt1 & Hrun1).
      { intros it' ->%list_elem_of_singleton. cbn [priority pComponent].
        split; [lia|]. split; [exists it.1; apply Hits; by left|].
        by intros w ?%not_elem_of_empty. }
      destruct (IH (done ++ [mkInfo 255 it.2]) cs1 Hok1)
        as (fuel & cs' & done' & Hrun & Hok' & Hdone' & Hsub & Hsinks & Hcov' & Hatt').
      { intros d [Hd | ->%list_elem_of_singleton]%elem_of_app; [by apply Hdone|done]. }
      { intros d q y [Hd | ->%list_elem_of_singleton]%elem_of_app HUp Hy.
        - specialize (Hcov d q y Hd HUp Hy). specialize (Hno1 q). lia.
        - apply (Hcov1 (mkInfo 255 it.2)); [by left|done|done]. }
      { intros q.
        destruct (Hatt1 q) as [Heq | (d & y & ->%list_elem_of_singleton & HUp & Hy & Heq)].
        - destruct (Hatt q) as [Heq0 | (d & y & Hd & HUp & Hy & Heq0)]; [left; congruence|].
          right. exists d, y. rewrite elem_of_app. split; [by left|].
          split; [done|]. split; [done|congruence].
        - right. exists (mkInfo 255 it.2), y. rewrite elem_of_app.
          split; [right; by left|done]. }
      { done. }
      exists (Nat.max k fuel), cs', done'.
      split.
      { intros fuel' Hf. cbn [searchFromSinks]. rewrite Hout. unfold DFN_MAX_PATHLENGTH.
        replace fuel' with (k + (fuel' - k))%nat at 1 by lia.
        specialize (Hrun1 (fuel' - k)%nat). cbn [app] in Hrun1. rewrite Hrun1.
        replace (searchLoop (fuel' - k) net (mkSearch [] ∅ cs1)) with (Some (Ret cs1))
          by (by destruct (fuel' - k)%nat).
        apply Hrun. lia. }
      split; [done|]. split; [done|].
      split; [intros d Hd; apply Hsub; rewrite elem_of_app; by left|].
      split; [|done].
      intros it' [-> | Hit']%elem_of_cons Ho; [|by apply Hsinks].
      apply Hsub. rewrite elem_of_app. right. by left.
    + (* not a sink *)
      destruct (IH done cs Hok Hdone Hcov Hatt Hits')
        as (fuel & cs' & done' & Hrun & Hok' & Hdone' & Hsub & Hsinks & Hcov' & Hatt').
      exists fuel, cs', done'. split.
      { intros fuel' Hf. cbn [searchFromSinks]. rewrite Hout. by apply Hrun. }
      split; [done|]. split; [done|]. split; [done|]. split; [|done].
      intros it' [-> | Hit']%elem_of_cons Ho; [congruence|by apply Hsinks].
Qed.

(** Every registered component lies upstream of some sink. *)
Lemma reach_sink : forall (n : nat) id p,
  (level id <= n)%nat -> registered id p ->
  exists sid s y, registered sid s /\ outConnections net sid = [] /\ Up s 255 p y.
Proof.
  induction n as [|n IH]; intros id p Hlev Hreg;
    (destruct (outConnections net id) as [|conn conns] eqn:Hout;
      [exists id, p, 255; split; [done|]; split; [done|apply Up_here]|]).
  all: assert (Hconn : conn ∈ outConnections net id) by (rewrite Hout; by left).
  all: apply (wf_out net Hwf) in Hconn as [Hall Hsrc].
  all: pose proof (proj1 Hlayered conn Hall) as Hlt; rewrite Hsrc in Hlt.
  - exfalso. lia.
  - destruct (wf_destination net Hwf conn Hall) as [pw Hw].
    destruct (IH (m_componentName (m_destination conn)) pw ltac:(lia) Hw) as (sid & s & y & Hs & Hso & HUp).
    exists sid, s, (y - 1). split; [done|]. split; [done|].
    eapply Up_snoc; [done|].
    exists (m_componentName (m_destination conn)), conn. split; [done|].
    split; [by apply (wf_in net Hwf)|]. by rewrite Hsrc.
Qed.

End Assignment.

(** C8 (amended).  Let every registered id lead to a component whose
    name is that id, both ends of every connection be registered ids, and
    the in- and out-maps index the connections by destination and by
    source ([wellFormed]).  If the network is acyclic with no path of more
    than 255 connections (its components fit on levels 0 to 255, every
    connection leading down), then [assignEventPriorities] returns, and
    afterwards the source of every connection has a strictly smaller
    event priority than its destination. *)
Theorem assignEventPriorities_orders_connections (net : Network) (level : string -> nat) :
  wellFormed net ->
  layered net 255 level ->
  exists fuel net',
    (forall fuel', (fuel <= fuel')%nat ->
       assignEventPriorities fuel' net = Some (Ret net')) /\
    forall conn, conn ∈ m_allConnections net -> ordersConnection net' conn.
Proof.
  intros Hwf Hlayered.
  destruct (clearPriorities_spec net Hwf) as [Hok0 H255].
  destruct (searchFromSinks_ok net Hwf level Hlayered (clearPriorities net)
              (entries (m_componentIDMap net)) [] (clearPriorities net) Hok0)
    as (fuel & cs' & done' & Hrun & Hok' & Hdone' & _ & Hsinks & Hcov' & Hatt').
  { by intros d ?%elem_of_nil. }
  { by intros d q y ?%elem_of_nil. }
  { intros q. by left. }
  { intros [id p] Hit. by apply elem_of_entries in Hit. }
  eexists fuel, _. split.
  { intros fuel' Hf. unfold assignEventPriorities. by rewrite (Hrun fuel' Hf). }
  intros conn Hall.
  destruct (wf_source net Hwf conn Hall) as [pu Hu].
  destruct (wf_destination net Hwf conn Hall) as [pv Hv].
  destruct (Hok' _ _ Hu) as (cu & Hcu & _). destruct (Hok' _ _ Hv) as (cv & Hcv & _).
  exists (m_eventPriority cu), (m_eventPriority cv).
  unfold eventPriorityOf. cbn [m_componentIDMap components].
  rewrite Hu, Hv. cbn. rewrite Hcu, Hcv. cbn. split; [done|]. split; [done|].
  assert (Hanc : ancestor net pu pv).
  { exists (m_componentName (m_destination conn)), conn. split; [done|].
    split; [by apply (wf_in net Hwf)|done]. }
  assert (Hpu : (plevel net level pu <= 255)%nat) by (by eapply ancestor_bound).
  assert (Hstep : forall s y, mkInfo 255 s ∈ done' -> Up net s 255 pv y ->
            m_eventPriority cu <= y - 1).
  { intros s y Hs HUp.
    assert (HUp' : Up net s 255 pu (y - 1)) by (by eapply Up_snoc).
    pose proof (Up_bounds net Hwf level Hlayered _ _ _ _ HUp') as [_ Hb].
    pose proof (Hcov' (mkInfo 255 s) pu (y - 1) Hs HUp' ltac:(lia)) as Hc.
    unfold prioOf in Hc. by rewrite Hcu in Hc. }
  destruct (Hatt' pv) as [Heq | (d & y & Hd & HUp & Hy & Heq)].
  - rewrite (H255 _ _ Hv) in Heq. unfold prioOf in Heq. rewrite Hcv in Heq.
    destruct (reach_sink net Hwf level Hlayered 255
                (m_componentName (m_destination conn)) pv)
      as (sid & s & y & Hs & Hso & HUp);
      [by apply Hlayered; eexists|done|].
    assert (Hin : mkInfo 255 s ∈ done').
    { apply (Hsinks (sid, s)); [by apply elem_of_entries|done]. }
    pose proof (Up_bounds net Hwf level Hlayered _ _ _ _ HUp) as [Hle _].
    specialize (Hstep s y Hin HUp). lia.
  - unfold prioOf in Heq. rewrite Hcv in Heq.
    pose proof (Hdone' d Hd) as Hd255. destruct d as [dp ds]. cbn in *. subst dp.
    specialize (Hstep ds y Hd HUp). lia.
Qed.

Lemma chain1_wellFormed : wellFormed (chain 1).
Proof.
  split.
  - intros id p H. enum_lookup H; eexists; split; vm_compute; reflexivity.
  - intros conn H. enum_elem H. by eexists.
  - intros conn H. enum_elem H. by eexists.
  - intros name conn. split.
    + unfold inConnections. intros H.
      destruct (m_inConnectionMap (chain 1) !! name) as [l|] eqn:E;
        [|by apply elem_of_nil in H].
      enum_lookup E. cbn in H. enum_elem H. split; [by left|done].
    + intros [H <-]. enum_elem H. vm_compute. by left.
  - intros name conn. split.
    + unfold outConnections. intros H.
      destruct (m_outConnectionMap (chain 1) !! name) as [l|] eqn:E;
        [|by apply elem_of_nil in H].
      enum_lookup E. cbn in H. enum_elem H. split; [by left|done].
    + intros [H <-]. enum_elem H. vm_compute. by left.
Qed.

Lemma chain1_layered : layered (chain 1) 255 (chainLevel 1).
Proof.
  split.
  - intros conn H. enum_elem H. vm_compute. lia.
  - intros id [p H]. enum_lookup H; vm_compute; lia.
Qed.

(** The two-component chain [c0 -> c1]: the source ends below the sink. *)
Lemma assignEventPriorities_orders_connections_witness :
  exists fuel net',
    (forall fuel', (fuel <= fuel')%nat ->
       assignEventPriorities fuel' (chain 1) = Some (Ret net')) /\
    ordersConnection net' (link 0).
Proof.
  destruct (assignEventPriorities_orders_connections (chain 1) (chainLevel 1)
              chain1_wellFormed chain1_layered) as (fuel & net' & Hrun & Hall).
  exists fuel, net'. split; [exact Hrun|]. apply Hall. vm_compute. by left.
Defined.

(** The chain [c0 -> c1 -> ... -> c256] is acyclic and [c256] is its
    only sink.  The search reaches [c1] with priority 0 and pushes [c0]
    with priority -1, which is the marker for "remove from the visiting
    set": [c0] is never visited and keeps priority 255, above the 0 of
    [c1]. *)
Lemma deep_chain_priorities :
  match assignEventPriorities 600 (chain 256) with
  | Some (Ret net') => (eventPriorityOf net' (compName 0), eventPriorityOf net' (compName 1))
  | _ => (None, None)
  end = (Some 255, Some 0).
Proof. vm_compute. reflexivity. Qed.

Lemma deep_chain_unordered :
  exists net',
    assignEventPriorities 600 (chain 256) = Some (Ret net') /\
    link 0 ∈ m_allConnections (chain 256) /\
    eventPriorityOf net' (compName 0) = Some 255 /\
    eventPriorityOf net' (compName 1) = Some 0 /\
    ~ ordersConnection net' (link 0).
Proof.
  pose proof deep_chain_priorities as H.
  destruct (assignEventPriorities 600 (chain 256)) as [[net'| | |]|]; try discriminate H.
  injection H as H0 H1.
  exists net'. split; [done|]. split.
  { unfold chain. cbn [m_allConnections]. apply list_elem_of_fmap.
    exists O. split; [done|]. apply elem_of_seq. lia. }
  split; [done|]. split; [done|].
  intros (pu & pv & Hu & Hv & Hlt).
  change (m_componentName (m_source (link 0))) with (compName 0) in Hu.
  change (m_componentName (m_destination (link 0))) with (compName 1) in Hv.
  rewrite H0 in Hu. rewrite H1 in Hv.
  injection Hu as <-. injection Hv as <-. lia.
Qed.

(** The network [aliased]: [createComponent] has registered the component
    named [x] under the ids [x] and [y], and [a] is connected to [y].
    [connectComponents] files the connection under the id [y], the search
    reads the in-connections under the name [x] of the component it
    visits: [a] is never reached. *)
Lemma aliased_maps :
  m_componentIDMap aliased
  = <["y" := 1%nat]> (<["x" := 1%nat]> (<["a" := 0%nat]> ∅)) /\
  components aliased
  = <[1%nat := mkComponent "x" 0]> (<[0%nat := mkComponent "a" 0]> ∅) /\
  m_inConnectionMap aliased = {["y" := [intoAlias]]} /\
  m_outConnectionMap aliased = {["a" := [intoAlias]]} /\
  m_allConnections aliased = [intoAlias].
Proof. split_and!; vm_compute; reflexivity. Qed.

Lemma aliased_priorities :
  match assignEventPriorities 10 aliased with
  | Some (Ret net') => (eventPriorityOf net' "a", eventPriorityOf net' "y")
  | _ => (None, None)
  end = (Some 255, Some 255).
Proof. vm_compute. reflexivity. Qed.

Lemma aliased_unordered :
  m_componentIDMap aliased !! "y" = Some 1%nat /\
  components aliased !! 1%nat = Some (mkComponent "x" 0) /\
  (forall conn, conn ∈ m_allConnections aliased ->
     is_Some (m_componentIDMap aliased !! m_componentName (m_source conn))) /\
  (forall conn, conn ∈ m_allConnections aliased ->
     is_Some (m_componentIDMap aliased !! m_componentName (m_destination conn))) /\
  (forall name conn, conn ∈ inConnections aliased name <->
     conn ∈ m_allConnections aliased /\ m_componentName (m_destination conn) = name) /\
  (forall name conn, conn ∈ outConnections aliased name <->
     conn ∈ m_allConnections aliased /\ m_componentName (m_source conn) = name) /\
  layered aliased 255 aliasLevel /\
  exists net',
    assignEventPriorities 10 aliased = Some (Ret net') /\
    intoAlias ∈ m_allConnections aliased /\
    eventPriorityOf net' "a" = Some 255 /\
    eventPriorityOf net' "y" = Some 255 /\
    ~ ordersConnection net' intoAlias.
Proof.
  destruct aliased_maps as (Hids & Hcs & Hin & Hout & Hall).
  split; [by rewrite Hids|]. split; [by rewrite Hcs|].
  split; [|split; [|split; [|split; [|split]]]].
  - intros conn H. rewrite Hall in H. apply list_elem_of_singleton in H as ->.
    rewrite Hids. by eexists.
  - intros conn H. rewrite Hall in H. apply list_elem_of_singleton in H as ->.
    rewrite Hids. by eexists.
  - intros name conn. unfold inConnections. rewrite Hin, Hall.
    destruct (decide (name = "y"%string)) as [->|Hne].
    + rewrite lookup_singleton_eq. cbn [default from_option id].
      rewrite list_elem_of_singleton. split; [by intros ->|by intros [-> _]].
    + rewrite lookup_singleton_ne by done. cbn [default from_option id].
      rewrite list_elem_of_singleton. split; [by intros ?%elem_of_nil|].
      intros [-> H]. by destruct Hne.
  - intros name conn. unfold outConnections. rewrite Hout, Hall.
    destruct (decide (name = "a"%string)) as [->|Hne].
    + rewrite lookup_singleton_eq. cbn [default from_option id].
      rewrite list_elem_of_singleton. split; [by intros ->|by intros [-> _]].
    + rewrite lookup_singleton_ne by done. cbn [default from_option id].
      rewrite list_elem_of_singleton. split; [by intros ?%elem_of_nil|].
      intros [-> H]. by destruct Hne.
  - split.
    + intros conn H. rewrite Hall in H. apply list_elem_of_singleton in H as ->.
      vm_compute. lia.
    + intros id _. unfold aliasLevel. destruct (String.eqb id "a"); lia.
  - pose proof aliased_priorities as H.
    destruct (assignEventPriorities 10 aliased) as [[net'| | |]|]; try discriminate H.
    injection H as H0 H1.
    exists net'. split; [done|].
    split; [rewrite Hall; by apply list_elem_of_singleton|].
    split; [done|]. split; [done|].
    intros (pu & pv & Hu & Hv & Hlt).
    change (m_componentName (m_source intoAlias)) with "a"%string in Hu.
    change (m_componentName (m_destination intoAlias)) with "y"%string in Hv.
    rewrite H0 in Hu. rewrite H1 in Hv.
    injection Hu as <-. injection Hv as <-. lia.
Qed.

(** C8 (counterexample).  Two acyclic networks in which every component
    is reachable from a sink and a connection is not ordered.

    The first is the chain [c0 -> c1 -> ... -> c256], which is well
    formed: [c0] keeps priority 255, above the 0 of [c1].

    The second is [aliased], with a single connection [a -> y]:
    [createComponent] has registered the component named [x] under the
    ids [x] and [y].  Both ends of the connection are registered, and the
    connection maps index the connections as [connectComponents] left
    them, but the id [y] leads to a component of another name; [a] and
    [y] both end with priority 255. *)
Lemma assignEventPriorities_counterexample :
  (exists net',
     assignEventPriorities 600 (chain 256) = Some (Ret net') /\
     link 0 ∈ m_allConnections (chain 256) /\
     eventPriorityOf net' (compName 0) = Some 255 /\
     eventPriorityOf net' (compName 1) = Some 0 /\
     ~ ordersConnection net' (link 0)) /\
  (m_componentIDMap aliased !! "y" = Some 1%nat /\
   components aliased !! 1%nat = Some (mkComponent "x" 0) /\
   (forall conn, conn ∈ m_allConnections aliased ->
      is_Some (m_componentIDMap aliased !! m_componentName (m_source conn))) /\
   (forall conn, conn ∈ m_allConnections aliased ->
      is_Some (m_componentIDMap aliased !! m_componentName (m_destination conn))) /\
   (forall name conn, conn ∈ inConnections aliased name <->
      conn ∈ m_allConnections aliased /\ m_componentName (m_destination conn) = name) /\
   (forall name conn, conn ∈ outConnections aliased name <->
      conn ∈ m_allConnections aliased /\ m_componentName (m_source conn) = name) /\
   layered aliased 255 aliasLevel /\
   exists net',
     assignEventPriorities 10 aliased = Some (Ret net') /\
     intoAlias ∈ m_allConnections aliased /\
     eventPriorityOf net' "a" = Some 255 /\
     eventPriorityOf net' "y" = Some 255 /\
     ~ ordersConnection net' intoAlias).
Proof. split; [exact deep_chain_unordered | exact aliased_unordered]. Qed.

End DataflowNetworkProps.

(* ===================================================================== *)
(** * The matcher: nodes looked up by id                                  *)
(* ===================================================================== *)

Module MatchingProps.
Import AttributeValue Predicate Graph UTQL SRG Matching MatchingExamples.

Section IdLookup.

Variable strtod : string -> float * nat.
Variable printDouble : float -> string.
Variable evaluateFunction :
  FunctionType -> list AttributeExpression -> gmap string KeyValueAttributes ->
  gset string -> Exc AttributeValue.t.

(** A "match node" step with a required id, on a pattern node that is not
    matched yet: the matching is extended with the SRG node of that id as
    soon as the id is registered.  The predicates of the pattern node do
    not occur in the result. *)
Lemma checkStep_id_lookup (p : Pattern) (srg : SRGraph) (popped : EdgeMatching)
    (step : SearchPlanElement) (N n : NodePtr) (pv : GraphNode UTQLNode) :
  0 <= m_iSearchPlanStep popped ->
  m_searchPlan p !! Z.to_nat (m_iSearchPlanStep popped) = Some step ->
  m_pEdge step = None ->
  m_pNode step = Some N ->
  m_sId step <> "" ->
  nodeAt (m_Graph p) N = Ret pv ->
  isPatternVertexMatched popped N = false ->
  m_NodeIDMap srg !! m_sId step = Some n ->
  checkStep strtod printDouble evaluateFunction p srg popped
  = Ret (Pushed [addMatchedVertex
                   (withStep popped (m_iSearchPlanStep popped + 1)) N n]).
Proof.
  intros Hi Hstep Hedge Hnode Hid Hpv Hun Hn.
  unfold checkStep.
  assert (Hlt : (Z.to_nat (m_iSearchPlanStep popped) < length (m_searchPlan p))%nat)
    by (eapply lookup_lt_Some; eassumption).
  rewrite (proj2 (Z.eqb_neq _ _)) by lia.
  rewrite Hstep, Hedge, Hnode. cbn [locked bindExc]. rewrite Hpv. cbn [bindExc].
  replace (isPatternVertexMatched (withStep popped (m_iSearchPlanStep popped + 1)) N)
    with false by (symmetry; exact Hun).
  rewrite (proj2 (String.eqb_neq _ _)) by done.
  unfold SRG.hasNode, SRG.getNode. rewrite Hn.
  rewrite bool_decide_eq_true_2 by (by eexists). reflexivity.
Qed.

End IdLookup.

(** C6 (evaluation of the code at the failing input).  The query has the
    single input node [N] with the predicate [id=='S' && type=='camera'];
    its search plan is the one step "match node [N] with required id
    [S]".  The SRG node [S] has type [marker], so the predicate of [N] is
    false on it.  [checkPattern] nevertheless returns one matching, in
    which [N] is bound to [S]. *)
Theorem checkPattern_id_node_skips_predicates :
  exists p pv sn m,
    query = Ret p /\
    m_searchPlan p = [planNode 0%nat "S"] /\
    nodeAt (m_Graph p) 0%nat = Ret pv /\
    m_predicateList (node_io (node_data pv)) = [cameraS] /\
    SRG.getNode world "S" = Ret 0%nat /\
    srgNodeAt world 0%nat = Ret sn /\
    isVertexCompatible strtodDigits printNothing noFunctions pv sn = false /\
    checkPattern strtodDigits printNothing noFunctions 10 p world = Ret [m] /\
    getCorrespondingSrgVertex m 0%nat = Ret 0%nat.
Proof.
  do 4 eexists.
  split; [vm_compute; reflexivity|].
  split; [reflexivity|].
  split; [vm_compute; reflexivity|].
  split; [reflexivity|].
  split; [reflexivity|].
  split; [vm_compute; reflexivity|].
  split; [vm_compute; reflexivity|].
  split; [vm_compute; reflexivity|].
  reflexivity.
Qed.

End MatchingProps.

(* ===================================================================== *)
(** * The SRG manager: what deletion leaves of the edges                  *)
(* ===================================================================== *)

Module DeleteEvolution.
Import AttributeValue Predicate Graph UTQL SRG Matching Manager ManagerExamples.
Import GraphRemovalProps.

Global Instance survives_refl : Reflexive survives.
Proof. by intros x. Qed.

Global Instance survives_trans : Transitive survives.
Proof.
  intros x y z (? & ? & ? & ?) (? & ? & ? & ?).
  repeat split; try congruence. by etrans.
Qed.

Global Instance evolves_refl : Reflexive evolves.
Proof. intros srg. by split. Qed.

Global Instance evolves_trans : Transitive evolves.
Proof.
  intros a b c [? ?] [? ?]. split; [by etrans|].
  by apply (Forall2_compose _ _ (edgeStore (base b))).
Qed.

Lemma evolves_sameSources (srg srg' : SRGraph) : evolves srg srg' -> sameSources srg srg'.
Proof.
  intros [_ H] e x Hx. specialize (H e). rewrite Hx in H.
  apply Forall2_Some_l in H. destruct H as (y & Hy & _ & _ & Hs & _). by exists y.
Qed.

(** ** What the steps of [deleteSRG] do to the edges *)

Lemma updateEdge_evolves (f : SRGEdgeAttributes -> SRGEdgeAttributes)
    (e : EdgePtr) (srg : SRGraph) :
  (forall x, survives x (onEdgeData f x)) -> evolves srg (updateEdge f e srg).
Proof.
  intros Hf. split; [done|]. unfold updateEdge. cbn [base withBase edgeStore setEdges].
  by apply Forall2_alter.
Qed.

Lemma updateNode_evolves (f : SRGNodeAttributes -> SRGNodeAttributes)
    (n : NodePtr) (srg : SRGraph) :
  evolves srg (updateNode f n srg).
Proof. by split. Qed.

Lemma remainder_evolves (srg : SRGraph) g :
  remainder (base srg) g -> evolves srg (withBase srg g).
Proof.
  intros [HE _ HS _]. split; [done|]. intros e. cbn [base withBase].
  destruct (HS e) as [x y Hxy|]; constructor. destruct Hxy as [Hd Hn].
  repeat split; try done; by rewrite Hd.
Qed.

Lemma removeEdgeByName_Ret {A B} (g : Graph A B) (edgeName : string) g' :
  removeEdgeByName g edgeName = Ret g' ->
  exists e, m_Edges g !! edgeName = Some e /\ removeEdge g e = Ret g'.
Proof.
  unfold removeEdgeByName, getEdge. intros H. bind_inv H.
  destruct (m_Edges g !! edgeName) as [e|]; [|discriminate].
  injection H0 as <-. by exists e.
Qed.

Lemma unlinkInput_evolves (subgraphID : string) (ed : GraphEdge UTQLEdge)
    (srg srg' : SRGraph) :
  unlinkInput subgraphID ed srg = Ret srg' -> evolves srg srg'.
Proof.
  unfold unlinkInput. intros H. destruct (Graph.hasEdge _ _); [|by injection H as <-].
  bind_inv H. bind_inv H. injection H as <-. apply updateEdge_evolves.
  intros x. repeat split; try done. simpl.
  intros d Hd. apply elem_of_difference in Hd. tauto.
Qed.

Lemma deleteEdges_evolves (subgraphID : string) (subgraph : UTQLSubgraph) :
  forall edges srg stack deleted r,
    deleteEdges subgraphID subgraph edges srg stack deleted = Ret r -> evolves srg (fst r).
Proof.
  induction edges as [|[name pe] edges IH]; intros srg stack deleted r H; simpl in H.
  { by injection H as <-. }
  bind_inv H. bind_inv H.
  assert (evolves srg r1) as H01.
  { destruct (isInput _); [by eapply unlinkInput_evolves|by injection H1 as <-]. }
  destruct (isOutput _); [|by etrans; [|eapply IH]].
  bind_inv H. bind_inv H. bind_inv H. apply IH in H.
  apply removeEdgeByName_Ret in H4. destruct H4 as (e & _ & Hrem).
  apply removeEdge_remainder, remainder_evolves in Hrem.
  etrans; [exact H01|]. by etrans.
Qed.

Lemma deleteNodes_edges (subgraphID : string) (subgraph : UTQLSubgraph) :
  forall nodes srg removable r,
    deleteNodes subgraphID subgraph nodes srg removable = Ret r ->
    m_Edges (base (fst r)) = m_Edges (base srg) /\
    edgeStore (base (fst r)) = edgeStore (base srg).
Proof.
  induction nodes as [|[name pn] nodes IH]; intros srg removable r H; simpl in H.
  { by injection H as <-. }
  bind_inv H. destruct (negb (isOutput _)); [by eapply IH|].
  destruct (negb (SRG.hasNode _ _)); [discriminate|].
  bind_inv H. bind_inv H. by apply IH in H.
Qed.

Lemma deleteStep_evolves (subgraphID : string) (d d' : Deletion) :
  deleteStep subgraphID d = Ret d' -> evolves (del_srg d) (del_srg d').
Proof.
  unfold deleteStep. intros H. destruct (del_repository d !! subgraphID); [|by injection H as <-].
  bind_inv H. bind_inv H. injection H as <-. cbn [del_srg].
  apply deleteEdges_evolves in H0. apply deleteNodes_edges in H1. destruct H1 as [HE HS].
  destruct H0 as [? ?]. split; [by rewrite HE|]. intros e. by rewrite HS.
Qed.

Lemma deleteLoop_evolves : forall fuel d d',
  deleteLoop fuel d = Ret d' -> evolves (del_srg d) (del_srg d').
Proof.
  induction fuel as [|fuel IH]; intros d d' H; simpl in H;
    destruct (deleteStack d) as [|top below]; try discriminate; try (by injection H as <-).
  bind_inv H. apply deleteStep_evolves in H0. apply IH in H. cbn [del_srg] in H0. by etrans.
Qed.

Lemma removeNode_evolves (srg : SRGraph) (id : string) (srg' : SRGraph) :
  SRG.removeNode srg id = Ret srg' -> evolves srg srg'.
Proof.
  unfold SRG.removeNode. intros H. destruct (SRG.hasNode srg id); [|discriminate].
  bind_inv H. injection H as <-.
  unfold removeNodeByName in H0. bind_inv H0. apply removeNode_Ret in H0.
  destruct H0 as (nd & _ & _ & Hrem).
  destruct (remainder_evolves srg _ Hrem) as [? ?]. by split.
Qed.

Lemma removeNodes_evolves : forall names srg srg',
  removeNodes names srg = Ret srg' -> evolves srg srg'.
Proof.
  induction names as [|name names IH]; intros srg srg' H; simpl in H.
  { by injection H as <-. }
  bind_inv H. apply removeNode_evolves in H0. apply IH in H. by etrans.
Qed.

(** [deleteSRG] removes edges from the edge map and dependants from edge
    objects, and changes nothing else about the edges. *)
Lemma deleteSRG_evolves (st : State) (id : string) (st' : State) :
  deleteSRG st id = Ret st' -> evolves (m_GlobalSrg st) (m_GlobalSrg st').
Proof.
  unfold deleteSRG. intros H. bind_inv H. bind_inv H. injection H as <-.
  apply deleteLoop_evolves in H0. apply removeNodes_evolves in H1.
  cbn [del_srg m_GlobalSrg] in *. by etrans.
Qed.

End DeleteEvolution.

(* ===================================================================== *)
(** * The SRG manager: information sources of derived edges               *)
(* ===================================================================== *)

Module SourcesProps.
Import AttributeValue Predicate Graph UTQL SRG Matching Manager ManagerExamples.
Import GraphProps DeleteEvolution.

Global Instance sameSources_refl : Reflexive sameSources.
Proof. intros srg e x Hx. eauto. Qed.

Global Instance sameSources_trans : Transitive sameSources.
Proof.
  intros a b c Hab Hbc e x Hx.
  destruct (Hab e x Hx) as (y & Hy & Hxy). destruct (Hbc e y Hy) as (z & Hz & Hyz).
  exists z. split; [done|congruence].
Qed.

(** An update of attributes that leaves the sources alone. *)
Lemma updateEdge_sameSources (f : SRGEdgeAttributes -> SRGEdgeAttributes)
    (e : EdgePtr) (srg : SRGraph) :
  (forall x, informationSources (f x) = informationSources x) ->
  sameSources srg (updateEdge f e srg).
Proof.
  intros Hf e' x Hx. unfold updateEdge. cbn [base withBase edgeStore setEdges].
  rewrite lookup_alter. destruct (decide (e = e')) as [->|]; [|eauto].
  rewrite Hx. simpl. eexists. split; [done|]. apply Hf.
Qed.

(** [addEdge] allocates the edge at a new address. *)
Lemma addEdge_Ret {A B} (g : Graph A B) (edgeName : string) (source target : NodePtr)
    (data : B) g' (e : EdgePtr) :
  addEdge g edgeName source target data = Ret (g', e) ->
  edgeStore g !! e = None /\
  edgeStore g' = <[e := mkEdge data edgeName (Some source) (Some target)]> (edgeStore g) /\
  m_Nodes g' = m_Nodes g /\
  forall name e', m_Edges g' !! name = Some e' -> m_Edges g !! name = Some e' \/ e' = e.
Proof.
  unfold addEdge. intros H. bind_inv H. bind_inv H. injection H as <- <-.
  split; [apply newPtr_fresh|]. split; [done|]. split; [done|].
  cbn [m_Edges]. intros name e' He'.
  destruct (m_Edges g !! edgeName) eqn:Hold; [by left|].
  apply lookup_insert_Some in He'. destruct He' as [[_ <-]|[_ ?]]; [by right|by left].
Qed.

Section Sources.

Variable strtod : string -> float * nat.
Variable printDouble : float -> string.
Variable evaluateFunction :
  FunctionType -> list AttributeExpression -> gmap string KeyValueAttributes ->
  gset string -> Exc AttributeValue.t.

(** The first loop of [expandMatchingAttributes] adds the sources of the
    matched input edges, and nothing else. *)
Lemma expandInputEdges_sources (pattern : UTQLSubgraph) (srg : SRGraph) :
  forall edges m m',
    expandInputEdges pattern srg edges m = Ret m' ->
    m_edgeForwardMap m' = m_edgeForwardMap m /\
    forall s, s ∈ m_informationSources m' <->
              s ∈ m_informationSources m \/
              inputSourceIn pattern srg (m_edgeForwardMap m) edges s.
Proof.
  induction edges as [|[name pe] edges IH]; intros m m' H; simpl in H.
  { injection H as <-. split; [done|]. intros s. split; [by left|].
    intros [?|(? & ? & ? & ? & ? & Hin & _)]; [done|]. by apply elem_of_nil in Hin. }
  bind_inv H. apply deref_ptr_Ret in H0.
  destruct (isInput (edge_io (edge_data r))) eqn:Hio.
  - bind_inv H. bind_inv H. apply deref_ptr_Ret in H2.
    unfold getCorrespondingSrgEdge in H1.
    destruct (m_edgeForwardMap m !! pe) as [f|] eqn:Hf; [|discriminate].
    injection H1 as <-.
    apply IH in H. cbn [setExpansion m_edgeForwardMap m_informationSources] in H.
    destruct H as [Hfwd Hs]. split; [done|]. intros s. rewrite Hs, elem_of_union. split.
    + intros [[?|Hnew]|(n & e & x & g & y & Hin & ?)].
      * by left.
      * right. exists name, pe, r, f, r1. split; [left|]. done.
      * right. exists n, e, x, g, y. split; [by right|done].
    + intros [?|(n & e & x & g & y & Hin & Hx & Hi & Hg & Hy & Hsy)]; [by left; left|].
      apply elem_of_cons in Hin. destruct Hin as [Heq|Hin].
      * injection Heq as -> ->. left. right.
        unfold edgeAt in H0. replace r1 with y by congruence. done.
      * right. exists n, e, x, g, y. done.
  - apply IH in H. destruct H as [Hfwd Hs]. split; [done|]. intros s. rewrite Hs. split.
    + intros [?|(n & e & x & g & y & Hin & ?)]; [by left|].
      right. exists n, e, x, g, y. split; [by right|done].
    + intros [?|(n & e & x & g & y & Hin & Hx & Hi & ?)]; [by left|].
      apply elem_of_cons in Hin. destruct Hin as [Heq|Hin].
      * injection Heq as -> ->. unfold edgeAt in H0. congruence.
      * right. exists n, e, x, g, y. done.
Qed.

(** The other three loops leave the sources and the edge map alone. *)
Lemma expandInputNodes_sources (pattern : UTQLSubgraph) : forall nodes m m',
  expandInputNodes pattern nodes m = Ret m' ->
  m_edgeForwardMap m' = m_edgeForwardMap m /\
  m_informationSources m' = m_informationSources m.
Proof.
  induction nodes as [|[name pn] nodes IH]; intros m m' H; simpl in H.
  { by injection H as <-. }
  bind_inv H. destruct (isInput _); [|by apply IH].
  bind_inv H. by apply IH in H.
Qed.

Lemma expandOutputEdges_sources (pattern : UTQLSubgraph) (c : EvaluationContext) :
  forall edges m m',
    expandOutputEdges strtod printDouble evaluateFunction pattern c edges m = Ret m' ->
    m_edgeForwardMap m' = m_edgeForwardMap m /\
    m_informationSources m' = m_informationSources m.
Proof.
  induction edges as [|[name pe] edges IH]; intros m m' H; simpl in H.
  { by injection H as <-. }
  bind_inv H. destruct (isOutput _); [|by apply IH].
  bind_inv H. by apply IH in H.
Qed.

Lemma expandOutputNodes_sources (pattern : UTQLSubgraph) (c : EvaluationContext) :
  forall nodes m m',
    expandOutputNodes strtod printDouble evaluateFunction pattern c nodes m = Ret m' ->
    m_edgeForwardMap m' = m_edgeForwardMap m /\
    m_informationSources m' = m_informationSources m.
Proof.
  induction nodes as [|[name pn] nodes IH]; intros m m' H; simpl in H.
  { by injection H as <-. }
  bind_inv H. destruct (isOutput _); [|by apply IH].
  bind_inv H. by apply IH in H.
Qed.

(** [expandMatchingAttributes] leaves in [m_informationSources] the
    union of the sources of the matched input edges. *)
Lemma expandMatchingAttributes_sources (p : Pattern) (srg : SRGraph) (m m' : EdgeMatching) :
  expandMatchingAttributes strtod printDouble evaluateFunction p srg m = Ret m' ->
  m_edgeForwardMap m' = m_edgeForwardMap m /\
  forall s, s ∈ m_informationSources m' <-> matchedSource srg p m s.
Proof.
  unfold expandMatchingAttributes. intros H. bind_inv H. bind_inv H. bind_inv H.
  apply expandInputEdges_sources in H0. apply expandInputNodes_sources in H1.
  apply expandOutputEdges_sources in H2. apply expandOutputNodes_sources in H.
  cbn [setExpansion m_edgeForwardMap m_informationSources] in H0.
  destruct H0 as [F0 S0], H1 as [F1 S1], H2 as [F2 S2], H as [F3 S3].
  split; [congruence|]. intros s. rewrite S3, S2, S1, S0. split.
  - intros [Hs|(n & e & x & f & y & Hin & ?)]; [by apply elem_of_empty in Hs|].
    exists n, e, x, f, y. split; [|done]. by apply elem_of_entries in Hin.
  - intros (n & e & x & f & y & Hin & ?). right.
    exists n, e, x, f, y. split; [|done]. by apply elem_of_entries.
Qed.

(** A successful first loop has found every input edge matched to an
    edge object of the SRG. *)
Lemma expandInputEdges_matched (pattern : UTQLSubgraph) (srg : SRGraph) :
  forall edges m m',
    expandInputEdges pattern srg edges m = Ret m' ->
    forall name pe x,
      (name, pe) ∈ edges ->
      edgeStore (graph pattern) !! pe = Some x ->
      isInput (edge_io (edge_data x)) = true ->
      exists f, m_edgeForwardMap m !! pe = Some f /\
                is_Some (edgeStore (base srg) !! f).
Proof.
  induction edges as [|[name pe] edges IH]; intros m m' H n e x Hin Hx Hi; simpl in H.
  { by apply elem_of_nil in Hin. }
  bind_inv H. apply deref_ptr_Ret in H0. unfold edgeAt in H0.
  apply elem_of_cons in Hin. destruct Hin as [Heq|Hin].
  - injection Heq as -> ->. replace r with x in * by congruence. rewrite Hi in H.
    bind_inv H. bind_inv H. apply deref_ptr_Ret in H2.
    unfold getCorrespondingSrgEdge in H1.
    destruct (m_edgeForwardMap m !! pe) as [f|] eqn:Hf; [|discriminate].
    injection H1 as <-. exists f. split; [done|]. by eexists.
  - destruct (isInput (edge_io (edge_data r))).
    + bind_inv H. bind_inv H. by apply (IH _ _ H n e x).
    + by apply (IH _ _ H n e x).
Qed.

Lemma expandMatchingAttributes_matched (p : Pattern) (srg : SRGraph) (m m' : EdgeMatching) :
  expandMatchingAttributes strtod printDouble evaluateFunction p srg m = Ret m' ->
  forall name pe x,
    m_Edges (graph (m_Graph p)) !! name = Some pe ->
    edgeStore (graph (m_Graph p)) !! pe = Some x ->
    isInput (edge_io (edge_data x)) = true ->
    exists f, m_edgeForwardMap m !! pe = Some f /\
              is_Some (edgeStore (base srg) !! f).
Proof.
  unfold expandMatchingAttributes. intros H name pe x Hn Hx Hi. bind_inv H.
  apply (expandInputEdges_matched _ _ _ _ _ H0 name pe x); try done.
  by apply elem_of_entries.
Qed.

Lemma instanciateNodes_kept (srg : SRGraph) : forall nodes i i',
  instanciateNodes srg nodes i = Ret i' -> kept i i'.
Proof.
  induction nodes as [|[name pn] nodes IH]; intros i i' H; simpl in H.
  { by injection H as <-. }
  bind_inv H. bind_inv H. bind_inv H. bind_inv H.
  destruct (isOutput _); apply IH in H; exact H.
Qed.

Lemma instanciateEdges_kept (srg : SRGraph) : forall edges i i',
  instanciateEdges srg edges i = Ret i' -> kept i i'.
Proof.
  induction edges as [|[name pe] edges IH]; intros i i' H; simpl in H.
  { by injection H as <-. }
  bind_inv H. bind_inv H. bind_inv H. bind_inv H. bind_inv H.
  apply IH in H. destruct H as (S2 & F2 & E2 & T2).
  assert (kept i r2) as (S1 & F1 & E1 & T1).
  { destruct (isInput _); [|by injection H3 as <-].
    bind_inv H3. bind_inv H3. bind_inv H3. bind_inv H3. by injection H3 as <-. }
  assert (kept r2 r3) as (S3 & F3 & E3 & T3).
  { destruct (isOutput _); [|by injection H4 as <-].
    bind_inv H4. by injection H4 as <-. }
  repeat split; congruence.
Qed.

Lemma instanciatePattern_kept (p : Pattern) (srg : SRGraph) (m : EdgeMatching)
    (i : Instantiation) :
  instanciatePattern p srg m = Ret i ->
  m_informationSources (inst_matching i) = m_informationSources m /\
  m_edgeForwardMap (inst_matching i) = m_edgeForwardMap m /\
  m_Edges (graph (inst_pattern i)) = m_Edges (graph (m_Graph p)) /\
  edgeStore (graph (inst_pattern i)) = edgeStore (graph (m_Graph p)).
Proof.
  unfold instanciatePattern. intros H. bind_inv H.
  apply instanciateNodes_kept in H0. apply instanciateEdges_kept in H.
  destruct H0 as (? & ? & ? & ?), H as (? & ? & ? & ?).
  cbn [inst_matching inst_pattern] in *. repeat split; congruence.
Qed.

(** The loop of [applyDetectedPattern]: the sources of the edge objects
    that were there stay, and each new edge is a new object with the
    sources of the matching. *)
Lemma insertOutputs_sources (p : Pattern) (subgraph : UTQLSubgraph) (m : EdgeMatching) :
  forall edges srg inserted srg' inserted',
    insertOutputs p subgraph m edges srg inserted = Ret (srg', inserted') ->
    sameSources srg srg' /\
    exists new, inserted' = inserted ++ new /\
      forall e, e ∈ new ->
        exists x, edgeStore (base srg') !! e = Some x /\
                  informationSources (edge_data x) = m_informationSources m.
Proof.
  induction edges as [|[name pe] edges IH]; intros srg inserted srg' inserted' H; simpl in H.
  { injection H as <- <-. split; [done|]. exists []. split; [by rewrite app_nil_r|].
    intros e He. by apply elem_of_nil in He. }
  bind_inv H. destruct (isInput _).
  { bind_inv H. bind_inv H. apply IH in H. destruct H as (Hs & new & -> & Hnew).
    split; [|by exists new].
    etrans; [|exact Hs]. by apply updateEdge_sameSources. }
  destruct (isOutput _); [|by apply IH].
  repeat bind_inv H. destruct r6 as [g e]. apply addEdge_Ret in H7.
  destruct H7 as (Hfresh & Hstore & _). cbn [fst snd] in H.
  apply IH in H. destruct H as (Hs & new & -> & Hnew).
  set (stamp := fun x => setPatternName (pattern_Name p)
                           (setInformationSources (m_informationSources m) x)) in *.
  assert (exists x, edgeStore (base (updateEdge stamp e (withBase srg g))) !! e = Some x /\
                    informationSources (edge_data x) = m_informationSources m) as (x & Hx & Hsx).
  { unfold updateEdge. cbn [base withBase edgeStore setEdges].
    rewrite lookup_alter_eq, Hstore, lookup_insert_eq. simpl. by eexists. }
  split.
  - intros e' y Hy. apply Hs.
    unfold updateEdge. cbn [base withBase edgeStore setEdges].
    rewrite lookup_alter_ne, Hstore, lookup_insert_ne; [done| |]; congruence.
  - exists (e :: new). split; [by rewrite <- app_assoc|].
    intros e' [->|He']%elem_of_cons; [|by apply Hnew].
    destruct (Hs e x Hx) as (x' & Hx' & Hsx'). exists x'. split; [done|congruence].
Qed.

(** The loop of [applyDetectedPattern] adds to the edge map only edges
    that it lists as inserted. *)
Lemma insertOutputs_new (p : Pattern) (subgraph : UTQLSubgraph) (m : EdgeMatching) :
  forall edges srg inserted srg' inserted',
    insertOutputs p subgraph m edges srg inserted = Ret (srg', inserted') ->
    (forall e, e ∈ inserted -> e ∈ inserted') /\
    forall name e, m_Edges (base srg') !! name = Some e ->
      m_Edges (base srg) !! name = Some e \/ e ∈ inserted'.
Proof.
  induction edges as [|[name pe] edges IH]; intros srg inserted srg' inserted' H;
    cbn [insertOutputs] in H.
  { injection H as <- <-. split; [done|]. by left. }
  bind_inv H. destruct (isInput _).
  { bind_inv H. bind_inv H. by apply IH in H. }
  destruct (isOutput _); [|by apply IH].
  repeat bind_inv H. destruct r6 as [g e]. apply addEdge_Ret in H7.
  destruct H7 as (_ & _ & _ & Hmap). cbn [fst snd] in H.
  apply IH in H. destruct H as [Hmono Hnew]. split.
  - intros e' He'. apply Hmono, elem_of_app. by left.
  - intros n e' He'. destruct (Hnew n e' He') as [Hold|?]; [|by right].
    destruct (Hmap n e' Hold) as [?| ->]; [by left|].
    right. apply Hmono, elem_of_app. right. left.
Qed.

(** [applyDetectedPattern]. *)
Lemma applyDetectedPattern_sources (st : State) (p : Pattern) (m : EdgeMatching)
    (a : Application) :
  applyDetectedPattern st p m = Ret a ->
  sameSources (m_GlobalSrg st) (m_GlobalSrg (app_state a)) /\
  sameEdges p (app_pattern a) /\
  forall e, e ∈ app_inserted a ->
    exists x, edgeStore (base (m_GlobalSrg (app_state a))) !! e = Some x /\
              informationSources (edge_data x) = m_informationSources m.
Proof.
  unfold applyDetectedPattern. intros H. bind_inv H. bind_inv H. injection H as <-.
  apply instanciatePattern_kept in H0. destruct H0 as (HS & _ & HE & HT).
  destruct r0 as [srg' inserted]. apply insertOutputs_sources in H1.
  destruct H1 as (Hs & new & Hnew & Hall). cbn [app_state app_pattern app_inserted
    m_GlobalSrg fst snd]. split; [done|]. split; [done|].
  simpl in Hnew. subst inserted. intros e He.
  destruct (Hall e He) as (x & Hx & Hsx). exists x. split; [done|congruence].
Qed.

Variable decidePattern2 : State -> Pattern -> EdgeMatching -> Exc (bool * list string).

Local Abbreviation applyMatching :=
  (Manager.applyMatching strtod printDouble evaluateFunction decidePattern2).
Local Abbreviation applyMatchings :=
  (Manager.applyMatchings strtod printDouble evaluateFunction decidePattern2).
Local Abbreviation applyPattern :=
  (Manager.applyPattern strtod printDouble evaluateFunction decidePattern2).

(** Where the matched edges are objects of the SRG, the union of their
    sources is the same in every SRG that has kept the sources. *)
Lemma matchedSource_sameSources (srg srg' : SRGraph) (p : Pattern) (m : EdgeMatching)
    (inserted : list EdgePtr) (s : string) :
  recorded srg p m inserted -> sameSources srg srg' ->
  matchedSource srg p m s <-> matchedSource srg' p m s.
Proof.
  intros [Hall _] Hsame. split.
  - intros (n & pe & x & f & y & Hn & Hx & Hi & Hf & Hy & Hs).
    destruct (Hsame f y Hy) as (y' & Hy' & Hyy').
    exists n, pe, x, f, y'. repeat split; try done. by rewrite Hyy'.
  - intros (n & pe & x & f & y' & Hn & Hx & Hi & Hf & Hy' & Hs).
    destruct (Hall n pe x Hn Hx Hi) as (f0 & Hf0 & y & Hy).
    replace f0 with f in * by congruence.
    destruct (Hsame f y Hy) as (y'' & Hy'' & Hyy').
    exists n, pe, x, f, y. repeat split; try done.
    rewrite <- Hyy'. by replace y'' with y' by congruence.
Qed.

Lemma recorded_sameSources (srg srg' : SRGraph) (p : Pattern) (m : EdgeMatching)
    (inserted : list EdgePtr) :
  recorded srg p m inserted -> sameSources srg srg' -> recorded srg' p m inserted.
Proof.
  intros Hrec Hsame. pose proof Hrec as [Hall Hins]. split.
  - intros n pe x Hn Hx Hi. destruct (Hall n pe x Hn Hx Hi) as (f & Hf & y & Hy).
    destruct (Hsame f y Hy) as (y' & Hy' & _). exists f. split; [done|]. by exists y'.
  - intros e He. destruct (Hins e He) as (x & Hx & Hs).
    destruct (Hsame e x Hx) as (x' & Hx' & Hxx'). exists x'. split; [done|].
    intros s. rewrite Hxx', Hs. by apply (matchedSource_sameSources _ _ _ _ inserted).
Qed.

Lemma sameEdges_trans (p1 p2 p3 : Pattern) :
  sameEdges p1 p2 -> sameEdges p2 p3 -> sameEdges p1 p3.
Proof. intros [? ?] [? ?]. split; congruence. Qed.

Lemma recorded_sameEdges (srg : SRGraph) (p p' : Pattern) (m : EdgeMatching)
    (inserted : list EdgePtr) :
  sameEdges p' p -> recorded srg p m inserted -> recorded srg p' m inserted.
Proof.
  intros [HE HS] [Hall Hins]. split.
  - intros n pe x Hn Hx Hi. rewrite <- HE in Hn. rewrite <- HS in Hx. by apply (Hall n pe x).
  - intros e He. destruct (Hins e He) as (x & Hx & Hs). exists x. split; [done|].
    intros s. rewrite Hs. unfold matchedSource. by rewrite HE, HS.
Qed.

(** One pass of the loop of [applyPattern] that applies its matching. *)
Lemma applyMatching_recorded (st : State) (p : Pattern) (m : EdgeMatching)
    (a : Application) (supersedes : list string) :
  applyMatching st p m = Ret (Applied a supersedes) ->
  sameSources (m_GlobalSrg st) (m_GlobalSrg (app_state a)) /\
  sameEdges p (app_pattern a) /\
  recorded (m_GlobalSrg (app_state a)) p m (app_inserted a).
Proof.
  unfold Manager.applyMatching. intros H. bind_inv H.
  destruct (negb r); [discriminate|]. bind_inv H. bind_inv H.
  destruct (negb (fst r1)); [discriminate|]. bind_inv H. injection H as <- _.
  pose proof (expandMatchingAttributes_matched _ _ _ _ H1) as Hall.
  apply expandMatchingAttributes_sources in H1. destruct H1 as [_ Hsrc].
  apply applyDetectedPattern_sources in H3. destruct H3 as (Hsame & Hedges & Hins).
  split; [done|]. split; [done|].
  assert (recorded (m_GlobalSrg st) p m []) as Hpre.
  { split; [done|]. intros e He. by apply elem_of_nil in He. }
  split; [by apply (recorded_sameSources _ _ _ _ _ Hpre)|].
  intros e He. destruct (Hins e He) as (x & Hx & Hsx). exists x. split; [done|].
  intros s. rewrite Hsx, Hsrc. by apply (matchedSource_sameSources _ _ _ _ []).
Qed.

(** The loop over the matches keeps what is on record and adds the
    matchings it applies. *)
Lemma applyMatchings_recorded (p : Pattern) : forall matches pr pr',
  applyMatchings matches pr = Ret pr' ->
  sameEdges p (prog_pattern pr) ->
  (forall m inserted, (m, inserted) ∈ prog_inserted pr ->
     recorded (m_GlobalSrg (prog_state pr)) p m inserted) ->
  sameEdges p (prog_pattern pr') /\
  (forall m inserted, (m, inserted) ∈ prog_inserted pr' ->
     recorded (m_GlobalSrg (prog_state pr')) p m inserted).
Proof.
  induction matches as [|it matches IH]; intros pr pr' H Hedges Hrec; simpl in H.
  { by injection H as <-. }
  bind_inv H. destruct r as [|a supersedes]; [by apply (IH pr)|].
  apply applyMatching_recorded in H0. destruct H0 as (Hsame & He & Hnew).
  apply IH in H; [done| |]; cbn [prog_pattern prog_state prog_inserted].
  - by apply (sameEdges_trans _ (prog_pattern pr)).
  - intros m inserted [Hold|Hlast]%elem_of_app.
    + by apply (recorded_sameSources (m_GlobalSrg (prog_state pr))); [apply Hrec|].
    + apply list_elem_of_singleton in Hlast. injection Hlast as -> ->.
      by apply (recorded_sameEdges _ (prog_pattern pr)).
Qed.

Lemma deleteSuperseded_evolves : forall ids st st',
  deleteSuperseded ids st = Ret st' -> evolves (m_GlobalSrg st) (m_GlobalSrg st').
Proof.
  induction ids as [|id ids IH]; intros st st' H; simpl in H.
  { by injection H as <-. }
  destruct (m_GraphRepository st !! id); [|by apply IH].
  bind_inv H. destruct (r =? 1); [|by apply IH].
  bind_inv H. apply deleteSRG_evolves in H1. apply IH in H. by etrans.
Qed.

(** The passes of the loop add to the edge map only edges that are on
    record as inserted. *)
Lemma applyMatchings_new : forall matches pr pr',
  applyMatchings matches pr = Ret pr' ->
  (forall x, x ∈ prog_inserted pr -> x ∈ prog_inserted pr') /\
  forall name e, m_Edges (base (m_GlobalSrg (prog_state pr'))) !! name = Some e ->
    m_Edges (base (m_GlobalSrg (prog_state pr))) !! name = Some e \/
    exists m inserted, (m, inserted) ∈ prog_inserted pr' /\ e ∈ inserted.
Proof.
  induction matches as [|it matches IH]; intros pr pr' H; cbn [Manager.applyMatchings] in H.
  { injection H as <-. split; [done|]. by left. }
  bind_inv H. destruct r as [|a supersedes]; [by apply IH|].
  apply IH in H. cbn [prog_inserted prog_state] in H. destruct H as [Hmono Hnew].
  split; [intros x Hx; apply Hmono, elem_of_app; by left|].
  intros name e He. destruct (Hnew name e He) as [Hold|?]; [|by right].
  unfold Manager.applyMatching in H0. bind_inv H0.
  destruct (negb r); [discriminate|]. bind_inv H0. bind_inv H0.
  destruct (negb (fst r1)); [discriminate|]. bind_inv H0. injection H0 as <- _.
  unfold applyDetectedPattern in H4. bind_inv H4. bind_inv H4. injection H4 as <-.
  cbn [app_state app_inserted m_GlobalSrg] in *. destruct r4 as [srg' inserted].
  apply insertOutputs_new in H5. destruct H5 as [_ Hins].
  destruct (Hins name e Hold) as [?|Hin]; [by left|].
  right. exists it, inserted. split; [|done].
  apply Hmono, elem_of_app. right. left.
Qed.

(** C3.  When [applyPattern] returns, take any matching that it has
    instantiated and any SRG edge that was inserted for that instance:
    the edge is an object of the SRG, and its set of information sources
    is the union of the sets of the SRG edges matched to the input edges
    of the pattern.  These are all the edges that the call has added: an
    edge of the edge map was there before the call, or it was inserted
    for one of the instantiated matchings. *)
Theorem applyPattern_information_sources (fuel : nat) (st : State) (p : Pattern)
    (pr : Progress) :
  applyPattern fuel st p = Ret pr ->
  (forall matching inserted e,
     (matching, inserted) ∈ prog_inserted pr ->
     e ∈ inserted ->
     exists x,
       edgeStore (base (m_GlobalSrg (prog_state pr))) !! e = Some x /\
       forall s, s ∈ informationSources (edge_data x) <->
                 matchedSource (m_GlobalSrg (prog_state pr)) p matching s) /\
  (forall name e,
     m_Edges (base (m_GlobalSrg (prog_state pr))) !! name = Some e ->
     m_Edges (base (m_GlobalSrg st)) !! name = Some e \/
     exists matching inserted, (matching, inserted) ∈ prog_inserted pr /\ e ∈ inserted).
Proof.
  unfold Manager.applyPattern. intros H.
  bind_inv H. bind_inv H. bind_inv H. injection H as <-.
  cbn [prog_inserted prog_state] in *.
  apply deleteSuperseded_evolves in H2. split.
  - intros matching inserted e Hin He.
    apply (applyMatchings_recorded p) in H1; cbn [prog_pattern prog_inserted].
    + destruct H1 as [_ Hrec]. apply evolves_sameSources in H2.
      destruct (recorded_sameSources _ _ _ _ _ (Hrec _ _ Hin) H2) as [_ Hins].
      by apply Hins.
    + done.
    + intros m i Hm. by apply elem_of_nil in Hm.
  - intros name e He. destruct H2 as [Hsub _].
    apply (lookup_weaken _ _ _ _ He) in Hsub.
    apply applyMatchings_new in H1. destruct H1 as [_ Hnew].
    by apply (Hnew name e).
Qed.

End Sources.

(** [applyPattern( inv )] on the SRG with the one edge [s:e]: one
    matching is instantiated, and one edge is inserted for it. *)
Lemma invApplied_run :
  applyPattern strtodDigits printNothing noFunction accept 20 registered inv = Ret invApplied.
Proof. vm_compute. reflexivity. Qed.

Lemma invApplied_inserted :
  prog_inserted invApplied = [(invMatch, [1%nat])] /\
  informationSources (edge_data (srgEdgeOf (prog_state invApplied) 0)) = {["s:e"]} /\
  informationSources (edge_data (srgEdgeOf (prog_state invApplied) 1)) = {["s:e"]}.
Proof. split; [|split]; vm_compute; reflexivity. Qed.

(** The theorem at that run: the inserted edge has the sources of the
    edge matched to the input edge of [inv]. *)
Lemma applyPattern_information_sources_witness :
  exists x,
    applyPattern strtodDigits printNothing noFunction accept 20 registered inv
      = Ret invApplied /\
    (invMatch, [1%nat]) ∈ prog_inserted invApplied /\
    edgeStore (base (m_GlobalSrg (prog_state invApplied))) !! 1%nat = Some x /\
    forall s, s ∈ informationSources (edge_data x) <->
              matchedSource (m_GlobalSrg (prog_state invApplied)) inv invMatch s.
Proof.
  assert ((invMatch, [1%nat]) ∈ prog_inserted invApplied) as Hin.
  { rewrite (proj1 invApplied_inserted). left. }
  destruct (applyPattern_information_sources strtodDigits printNothing noFunction accept
              20 registered inv invApplied invApplied_run) as [Hsources _].
  destruct (Hsources invMatch [1%nat] 1%nat Hin) as (x & Hx & Hs).
  - left.
  - exists x. split; [exact invApplied_run|]. split; [exact Hin|]. split; [exact Hx|exact Hs].
Defined.

End SourcesProps.

(* ===================================================================== *)
(** * The SRG manager: first stage of acceptance                          *)
(* ===================================================================== *)

Module AcceptanceProps.
Import AttributeValue Predicate Graph UTQL SRG Matching Manager ManagerExamples.
Import DeleteEvolution SourcesProps.

(** A map with two keys has more than one entry. *)
Lemma two_entries {A} (m : gmap nat A) i j x y :
  m !! i = Some x -> m !! j = Some y -> i <> j -> (1 < base.size m)%nat.
Proof.
  intros Hi Hj Hij.
  rewrite <- (insert_delete_id m i x Hi).
  rewrite map_size_insert_None by apply lookup_delete_eq.
  assert (delete i m !! j = Some y) as Hj' by (by rewrite lookup_delete_ne).
  rewrite <- (insert_delete_id _ j y Hj').
  rewrite map_size_insert_None by apply lookup_delete_eq. lia.
Qed.

Section Disjoint.

Variable srg : SRGraph.

Local Abbreviation apart := (Manager.apart srg).

Lemma disjointFromOthers_spec (it : EdgePtr * EdgePtr) (others : list (EdgePtr * EdgePtr)) :
  is_Some (edgeStore (base srg) !! snd it) ->
  Forall (fun o => is_Some (edgeStore (base srg) !! snd o)) others ->
  exists b, disjointFromOthers srg it others = Ret b /\
    (b = true -> forall o, o ∈ others -> fst it <> fst o -> apart (snd it) (snd o)).
Proof.
  intros [a Ha] Hall. induction Hall as [|o others [b Hb] Hall IH].
  - exists true. split; [done|]. intros _ o Ho. by apply elem_of_nil in Ho.
  - destruct IH as (r & Hr & Hdis). simpl.
    destruct (Nat.eqb_spec (fst it) (fst o)) as [Heq|Hne].
    { exists r. split; [done|]. intros Ht o' [->|Ho']%elem_of_cons; [done|]. by apply Hdis. }
    unfold srgEdgeAt. rewrite (proj2 (deref_ptr_Ret _ _ _) Ha). simpl.
    destruct (members (informationSources (edge_data a))) as [|s0 rest] eqn:Hm.
    { exists r. split; [done|]. intros Ht o' [->|Ho']%elem_of_cons; [|by apply Hdis].
      intros _ x y s Hx _ Hs. rewrite Ha in Hx. injection Hx as <-.
      apply elem_of_members in Hs. rewrite Hm in Hs. by apply elem_of_nil in Hs. }
    rewrite (proj2 (deref_ptr_Ret _ _ _) Hb). simpl.
    match goal with
    | |- context [bool_decide (s0 ∈ ?S) || existsb ?f rest] =>
        change (bool_decide (s0 ∈ S) || existsb f rest) with (existsb f (s0 :: rest));
        destruct (existsb f (s0 :: rest)) eqn:Hex
    end.
    { exists false. split; [done|]. discriminate. }
    exists r. split; [done|]. intros Ht o' [->|Ho']%elem_of_cons; [|by apply Hdis].
    intros _ x y s Hx Hy Hs Hs'. rewrite Ha in Hx. rewrite Hb in Hy.
    injection Hx as <-. injection Hy as <-.
    apply not_true_iff_false in Hex. apply Hex. apply existsb_exists.
    exists s. split; [|by apply bool_decide_eq_true].
    apply list_elem_of_In. rewrite <- Hm. by apply elem_of_members.
Qed.

Lemma allDisjoint_spec (all : list (EdgePtr * EdgePtr)) :
  Forall (fun o => is_Some (edgeStore (base srg) !! snd o)) all ->
  forall its, its ⊆ all ->
  exists b, allDisjoint srg its all = Ret b /\
    (b = true -> forall it o, it ∈ its -> o ∈ all -> fst it <> fst o -> apart (snd it) (snd o)).
Proof.
  intros Hall. induction its as [|it its IH]; intros Hsub.
  - exists true. split; [done|]. intros _ it o Hit. by apply elem_of_nil in Hit.
  - assert (it ∈ all) as Hit by (apply Hsub; left).
    assert (is_Some (edgeStore (base srg) !! snd it)) as Hsome.
    { rewrite Forall_forall in Hall. by apply Hall. }
    destruct (disjointFromOthers_spec it all Hsome Hall) as (b & Hb & Hdis).
    simpl. rewrite Hb. simpl. destruct b.
    + destruct IH as (r & Hr & Hrest).
      { intros x Hx. apply Hsub. by right. }
      exists r. split; [done|].
      intros Ht it' o [->|Hit']%elem_of_cons Ho; [by apply Hdis|by apply Hrest].
    + exists false. split; [done|]. discriminate.
Qed.

End Disjoint.

Section Stage1.

Variable strtod : string -> float * nat.
Variable printDouble : float -> string.
Variable evaluateFunction :
  FunctionType -> list AttributeExpression -> gmap string KeyValueAttributes ->
  gset string -> Exc AttributeValue.t.
Variable decidePattern2 : State -> Pattern -> EdgeMatching -> Exc (bool * list string).

Local Abbreviation checkStep := (Matching.checkStep strtod printDouble evaluateFunction).
Local Abbreviation checkLoop := (Matching.checkLoop strtod printDouble evaluateFunction).
Local Abbreviation checkPattern := (Matching.checkPattern strtod printDouble evaluateFunction).
Local Abbreviation applyMatching :=
  (Manager.applyMatching strtod printDouble evaluateFunction decidePattern2).
Local Abbreviation applyMatchings :=
  (Manager.applyMatchings strtod printDouble evaluateFunction decidePattern2).
Local Abbreviation applyPattern :=
  (Manager.applyPattern strtod printDouble evaluateFunction decidePattern2).

(** ** The matcher matches edge objects of the SRG *)

Lemma addMatchedEdge_allocated (pattern : UTQLSubgraph) (srg : SRGraph)
    (m m' : EdgeMatching) (e f : EdgePtr) :
  addMatchedEdge pattern srg m e f = Ret m' ->
  matchedAllocated srg m -> matchedAllocated srg m'.
Proof.
  unfold addMatchedEdge. intros H Hm. bind_inv H. bind_inv H. apply deref_ptr_Ret in H1.
  bind_inv H. bind_inv H. bind_inv H. bind_inv H. injection H as <-.
  unfold matchedAllocated. cbn [withMaps m_edgeForwardMap].
  apply map_Forall_insert_2; [by eexists|done].
Qed.

Lemma tryEdges_allocated (p : Pattern) (srg : SRGraph) (state : EdgeMatching)
    (pEdge : EdgePtr) (pe : GraphEdge UTQLEdge) (fixedEnd : option NodePtr)
    (farEnd : GraphEdge SRGEdgeAttributes -> option NodePtr) (endsFree : bool) :
  matchedAllocated srg state ->
  forall candidates l,
    tryEdges strtod printDouble evaluateFunction p srg state pEdge pe fixedEnd farEnd
             endsFree candidates = Ret l ->
    Forall (matchedAllocated srg) l.
Proof.
  intros Hstate. induction candidates as [|c candidates IH]; intros l H; cbn [tryEdges] in H.
  { injection H as <-. constructor. }
  bind_inv H. bind_inv H. destruct (r0 || negb _); [by apply IH|].
  bind_inv H. bind_inv H. injection H as <-. constructor; [|by apply IH].
  by apply (addMatchedEdge_allocated _ _ _ _ _ _ H2).
Qed.

Lemma tryNodes_allocated (srg : SRGraph) (state : EdgeMatching) (pVertex : NodePtr)
    (pv : GraphNode UTQLNode) :
  matchedAllocated srg state ->
  forall candidates l,
    tryNodes strtod printDouble evaluateFunction srg state pVertex pv candidates = Ret l ->
    Forall (matchedAllocated srg) l.
Proof.
  intros Hstate. induction candidates as [|[k n] candidates IH]; intros l H;
    cbn [tryNodes] in H.
  { injection H as <-. constructor. }
  bind_inv H. bind_inv H. destruct (_ || _); injection H as <-; [by apply IH|].
  constructor; [done|by apply IH].
Qed.

Lemma checkStep_allocated (p : Pattern) (srg : SRGraph) (popped : EdgeMatching)
    (pass : Pass) :
  matchedAllocated srg popped ->
  checkStep p srg popped = Ret pass -> passAllocated srg pass.
Proof.
  intros Hpopped H. unfold Matching.checkStep in H.
  assert (matchedAllocated srg (withStep popped (m_iSearchPlanStep popped + 1))) as Hstate
    by done.
  set (state := withStep popped (m_iSearchPlanStep popped + 1)) in *. clearbody state.
  destruct (_ =? _); [by injection H as <-|].
  destruct (m_searchPlan p !! _) as [step|]; [|discriminate].
  destruct (m_pEdge step) as [pEdge|].
  - bind_inv H. bind_inv H. bind_inv H.
    destruct (isPatternVertexMatched state r0).
    + bind_inv H. bind_inv H. bind_inv H. bind_inv H. injection H as <-.
      by apply (tryEdges_allocated _ _ _ _ _ _ _ _ Hstate _ _ H6).
    + destruct (isPatternVertexMatched state r1).
      * bind_inv H. bind_inv H. bind_inv H. injection H as <-.
        by apply (tryEdges_allocated _ _ _ _ _ _ _ _ Hstate _ _ H5).
      * bind_inv H. injection H as <-.
        by apply (tryEdges_allocated _ _ _ _ _ _ _ _ Hstate _ _ H3).
  - bind_inv H. bind_inv H.
    destruct (isPatternVertexMatched state r).
    + bind_inv H. bind_inv H. destruct (isVertexCompatible _ _ _ _ _); injection H as <-.
      * by constructor.
      * constructor.
    + destruct (String.eqb _ _).
      * bind_inv H. injection H as <-.
        by apply (tryNodes_allocated _ _ _ _ Hstate _ _ H2).
      * destruct (SRG.hasNode _ _); [|injection H as <-; constructor].
        bind_inv H. injection H as <-. by constructor.
Qed.

Lemma checkLoop_allocated (p : Pattern) (srg : SRGraph) : forall fuel stack detected l,
  Forall (matchedAllocated srg) stack ->
  Forall (matchedAllocated srg) detected ->
  checkLoop fuel p srg stack detected = Ret l ->
  Forall (matchedAllocated srg) l.
Proof.
  induction fuel as [|fuel IH]; intros stack detected l Hstack Hdet H;
    cbn [Matching.checkLoop] in H; destruct stack as [|top below]; try discriminate;
    try (by injection H as <-).
  bind_inv H. apply Forall_cons in Hstack. destruct Hstack as [Htop Hbelow].
  apply checkStep_allocated in H0; [|done].
  destruct r as [m|pushed]; simpl in H0; apply IH in H; try done.
  - apply Forall_app. split; [done|]. by constructor.
  - apply Forall_app. split; [|done]. by apply Forall_reverse.
Qed.

Lemma checkPattern_allocated (fuel : nat) (p : Pattern) (srg : SRGraph)
    (matches : list EdgeMatching) :
  checkPattern fuel p srg = Ret matches -> Forall (matchedAllocated srg) matches.
Proof.
  unfold Matching.checkPattern. apply checkLoop_allocated; [|constructor].
  constructor; [|constructor]. unfold matchedAllocated. apply map_Forall_empty.
Qed.

(** ** The first stage rejects *)

(** Two distinct matched SRG edges of [m] have a source in common. *)
Lemma decidePattern1_shared (srg : SRGraph) (m : EdgeMatching)
    (e1 e2 f1 f2 : EdgePtr) (x1 x2 : GraphEdge SRGEdgeAttributes) (source : string) :
  matchedAllocated srg m ->
  m_edgeForwardMap m !! e1 = Some f1 ->
  m_edgeForwardMap m !! e2 = Some f2 ->
  f1 <> f2 ->
  edgeStore (base srg) !! f1 = Some x1 ->
  edgeStore (base srg) !! f2 = Some x2 ->
  source ∈ informationSources (edge_data x1) ->
  source ∈ informationSources (edge_data x2) ->
  (1 < base.size (m_edgeForwardMap m))%nat /\ decidePattern1 srg m = Ret false.
Proof.
  intros Hall H1 H2 Hf Hx1 Hx2 Hs1 Hs2.
  assert (e1 <> e2) as He by congruence.
  pose proof (two_entries _ _ _ _ _ H1 H2 He) as Hsize. split; [done|].
  unfold decidePattern1.
  replace (1 <? Z.of_nat (base.size (m_edgeForwardMap m))) with true
    by (symmetry; apply Z.ltb_lt; lia).
  destruct (allDisjoint_spec srg (map_to_list (m_edgeForwardMap m)))
    with (its := map_to_list (m_edgeForwardMap m)) as (b & Hb & Hdis).
  { apply Forall_forall. intros [e f] Hin%elem_of_map_to_list. by apply (Hall e f). }
  { done. }
  rewrite Hb. destruct b; [|done]. exfalso.
  apply (Hdis eq_refl (e1, f1) (e2, f2)) with (x := x1) (y := x2) (s := source);
    try done; by apply elem_of_map_to_list.
Qed.

(** What is on record as inserted was inserted by a pass of the loop
    that applied its matching, in a state that has the sources of the
    state the loop started in. *)
Lemma applyMatchings_inserted : forall matches pr pr',
  applyMatchings matches pr = Ret pr' ->
  forall m inserted, (m, inserted) ∈ prog_inserted pr' ->
    (m, inserted) ∈ prog_inserted pr \/
    exists st p a supersedes,
      sameSources (m_GlobalSrg (prog_state pr)) (m_GlobalSrg st) /\
      applyMatching st p m = Ret (Applied a supersedes).
Proof.
  induction matches as [|it matches IH]; intros pr pr' H m inserted Hin;
    cbn [Manager.applyMatchings] in H.
  { injection H as <-. by left. }
  bind_inv H. destruct r as [|a supersedes]; [by apply (IH pr pr')|].
  pose proof (applyMatching_recorded _ _ _ _ _ _ _ _ _ H0) as (Hsame & _ & _).
  destruct (IH _ _ H m inserted Hin) as [Hold|(st & p & a' & s' & Hs & Ha)];
    cbn [prog_inserted prog_state] in *.
  - apply elem_of_app in Hold. destruct Hold as [?|Hlast]; [by left|].
    apply list_elem_of_singleton in Hlast. injection Hlast as -> ->.
    right. exists (prog_state pr), (prog_pattern pr), a, supersedes. done.
  - right. exists st, p, a', s'. split; [by etrans|done].
Qed.

(** C5.  Let [applyPattern] return, and take a matching [m] among those
    that the matcher finds for the pattern.  If two distinct SRG edges
    [f1] and [f2] that [m] matches have an information source in common,
    then [m] has more than one matched edge, [decidePattern1] returns
    [false] for it, and nothing is on record as inserted for [m]: the
    pass of the loop for [m] was a [continue]. *)
Theorem stage1_rejects_shared_source (fuel : nat) (st : State) (p : Pattern)
    (matches : list EdgeMatching) (pr : Progress) (m : EdgeMatching)
    (e1 e2 f1 f2 : EdgePtr) (x1 x2 : GraphEdge SRGEdgeAttributes) (source : string) :
  checkPattern fuel p (m_GlobalSrg st) = Ret matches ->
  applyPattern fuel st p = Ret pr ->
  m ∈ matches ->
  m_edgeForwardMap m !! e1 = Some f1 ->
  m_edgeForwardMap m !! e2 = Some f2 ->
  f1 <> f2 ->
  edgeStore (base (m_GlobalSrg st)) !! f1 = Some x1 ->
  edgeStore (base (m_GlobalSrg st)) !! f2 = Some x2 ->
  source ∈ informationSources (edge_data x1) ->
  source ∈ informationSources (edge_data x2) ->
  (1 < base.size (m_edgeForwardMap m))%nat /\
  decidePattern1 (m_GlobalSrg st) m = Ret false /\
  forall inserted, (m, inserted) ∉ prog_inserted pr.
Proof.
  intros Hmatches Hrun Hm H1 H2 Hf Hx1 Hx2 Hs1 Hs2.
  pose proof (checkPattern_allocated _ _ _ _ Hmatches) as Hall.
  rewrite Forall_forall in Hall. specialize (Hall m Hm).
  destruct (decidePattern1_shared _ _ _ _ _ _ _ _ _ Hall H1 H2 Hf Hx1 Hx2 Hs1 Hs2)
    as [Hsize Hd].
  split; [done|]. split; [done|]. intros inserted Hin.
  unfold Manager.applyPattern in Hrun. bind_inv Hrun. bind_inv Hrun. bind_inv Hrun.
  injection Hrun as <-. cbn [prog_inserted] in Hin.
  destruct (applyMatchings_inserted _ _ _ Hrun1 m inserted Hin)
    as [Hnil|(st' & p' & a & supersedes & Hsame & Ha)]; cbn [prog_inserted prog_state] in *.
  { by apply elem_of_nil in Hnil. }
  destruct (Hsame f1 x1 Hx1) as (y1 & Hy1 & Hxy1).
  destruct (Hsame f2 x2 Hx2) as (y2 & Hy2 & Hxy2).
  assert (matchedAllocated (m_GlobalSrg st') m) as Hall'.
  { intros e f Hef. destruct (Hall e f Hef) as [x Hx].
    destruct (Hsame f x Hx) as (y & Hy & _). by exists y. }
  destruct (decidePattern1_shared (m_GlobalSrg st') m e1 e2 f1 f2 y1 y2 source)
    as [_ Hd']; try done; try congruence.
  unfold Manager.applyMatching in Ha. rewrite Hd' in Ha. discriminate Ha.
Qed.

End Stage1.

(** The self-match of [concat] on [A -> B] and the derived [B -> A]:
    the pattern edges 0 and 1 are matched to the SRG edges 0 ([s:e]) and
    1 ([inv2000:out]), which both have the source [s:e]. *)
Lemma selfMatch_edges :
  checkPattern strtodDigits printNothing noFunction 50 concat (m_GlobalSrg withInverse)
    = Ret concatMatches /\
  selfMatch ∈ concatMatches /\
  m_edgeForwardMap selfMatch !! 0%nat = Some 0%nat /\
  m_edgeForwardMap selfMatch !! 1%nat = Some 1%nat.
Proof.
  split; [vm_compute; reflexivity|]. split; [vm_compute; left|].
  split; vm_compute; reflexivity.
Qed.

Lemma withInverse_edges :
  (fst <$> entries (m_Edges (base (m_GlobalSrg withInverse)))) = ["inv2000:out"; "s:e"] /\
  edgeStore (base (m_GlobalSrg withInverse)) !! 0%nat = Some (srgEdgeOf withInverse 0) /\
  edgeStore (base (m_GlobalSrg withInverse)) !! 1%nat = Some (srgEdgeOf withInverse 1) /\
  "s:e" ∈ informationSources (edge_data (srgEdgeOf withInverse 0)) /\
  "s:e" ∈ informationSources (edge_data (srgEdgeOf withInverse 1)).
Proof.
  split; [vm_compute; reflexivity|]. split; [vm_compute; reflexivity|].
  split; [vm_compute; reflexivity|].
  split; refine (bool_decide_unpack _ _); vm_compute; exact I.
Qed.

Lemma concat_applied :
  applyPattern strtodDigits printNothing noFunction accept 50 withInverse concat
    = Ret concatApplied /\
  prog_state concatApplied = withInverse /\
  prog_inserted concatApplied = [].
Proof.
  split; [vm_compute; reflexivity|]. split; vm_compute; reflexivity.
Qed.

(** The theorem at that matching: nothing is inserted for it, and
    [applyPattern] leaves the SRG as it is, with its two edges, none of
    them from [A] to [A]. *)
Lemma stage1_rejects_shared_source_witness :
  applyPattern strtodDigits printNothing noFunction accept 50 withInverse concat
    = Ret concatApplied /\
  selfMatch ∈ concatMatches /\
  decidePattern1 (m_GlobalSrg withInverse) selfMatch = Ret false /\
  (forall inserted, (selfMatch, inserted) ∉ prog_inserted concatApplied) /\
  prog_state concatApplied = withInverse /\
  (fst <$> entries (m_Edges (base (m_GlobalSrg withInverse)))) = ["inv2000:out"; "s:e"].
Proof.
  destruct selfMatch_edges as (Hmatches & Hin & Hm0 & Hm1).
  destruct withInverse_edges as (Hnames & Hx0 & Hx1 & Hs0 & Hs1).
  destruct concat_applied as (Hrun & Hstate & _).
  destruct (stage1_rejects_shared_source strtodDigits printNothing noFunction accept
              50 withInverse concat concatMatches concatApplied selfMatch
              0%nat 1%nat 0%nat 1%nat
              (srgEdgeOf withInverse 0) (srgEdgeOf withInverse 1) "s:e"
              Hmatches Hrun Hin Hm0 Hm1 ltac:(lia) Hx0 Hx1 Hs0 Hs1) as (_ & Hd & Hnone).
  split; [exact Hrun|]. split; [exact Hin|]. split; [exact Hd|].
  split; [exact Hnone|]. split; [exact Hstate|exact Hnames].
Defined.

End AcceptanceProps.

(* ===================================================================== *)
(** * The SRG manager: deletion                                           *)
(* ===================================================================== *)

Module DeleteProps.
Import AttributeValue Predicate Graph UTQL SRG Matching Manager ManagerExamples.
Import GraphRemovalProps DeleteEvolution.

(** ** Edges *)

(** After the loop over the dependants of an edge, each of them is
    marked, and what is newly marked is on the stack. *)
Lemma markDependants_spec : forall dependants stack deleted,
  (forall d, d ∈ snd (markDependants dependants stack deleted) <->
             d ∈ deleted \/ d ∈ dependants) /\
  (forall d, d ∈ fst (markDependants dependants stack deleted) <->
             d ∈ stack \/ (d ∈ dependants /\ d ∉ deleted)).
Proof.
  induction dependants as [|h more IH]; intros stack deleted; simpl.
  { split; intros d; rewrite elem_of_nil; tauto. }
  destruct (decide (h ∈ deleted)) as [Hh|Hh].
  - rewrite bool_decide_eq_true_2 by done. destruct (IH stack deleted) as [H1 H2].
    split; intros d; rewrite ?H1, ?H2, elem_of_cons.
    + split; [tauto|]. intros [?|[->|?]]; tauto.
    + split; [tauto|]. intros [?|[[->|?] ?]]; tauto.
  - rewrite bool_decide_eq_false_2 by done.
    destruct (IH (h :: stack) ({[h]} ∪ deleted)) as [H1 H2].
    split; intros d; rewrite ?H1, ?H2, !elem_of_cons, ?elem_of_union, ?elem_of_singleton.
    + tauto.
    + destruct (decide (d = h)) as [->|]; tauto.
Qed.

Lemma evolves_edgesNamed (srg srg' : SRGraph) :
  evolves srg srg' -> edgesNamed srg -> edgesNamed srg'.
Proof.
  intros [HE HS] Hn name e He.
  destruct (Hn name e (lookup_weaken _ _ _ _ He HE)) as (x & Hx & Hname).
  specialize (HS e). rewrite Hx in HS. apply Forall2_Some_l in HS.
  destruct HS as (y & Hy & Hxy & _). exists y. split; [done|congruence].
Qed.

(** An edge of what is left was an edge before. *)
Lemma srgEdge_evolves (srg srg' : SRGraph) (name : string)
    (x' : GraphEdge SRGEdgeAttributes) :
  evolves srg srg' -> srgEdge srg' name x' ->
  exists x, srgEdge srg name x /\ survives x x'.
Proof.
  intros [HE HS] (e & He & Hx'). specialize (HS e). rewrite Hx' in HS.
  apply Forall2_Some_r in HS. destruct HS as (x & Hx & Hxx').
  exists x. split; [|done]. exists e. split; [|done]. by apply (lookup_weaken _ _ _ _ He).
Qed.

Lemma unlinkInput_spec (subgraphID : string) (ed : GraphEdge UTQLEdge)
    (srg srg' : SRGraph) :
  unlinkInput subgraphID ed srg = Ret srg' ->
  m_Edges (base srg') = m_Edges (base srg) /\
  forall name d, dependsOn srg name d -> d = subgraphID \/ dependsOn srg' name d.
Proof.
  unfold unlinkInput. intros H. destruct (Graph.hasEdge _ _).
  2:{ injection H as <-. split; [done|]. by right. }
  bind_inv H. bind_inv H. injection H as <-. split; [done|].
  intros name d (x & (e & He & Hx) & Hd).
  destruct (decide (d = subgraphID)) as [|Hne]; [by left|]. right.
  unfold dependsOn, srgEdge, updateEdge. cbn [base withBase setEdges m_Edges edgeStore].
  destruct (decide (r = e)) as [->|Hre].
  - eexists. split; [exists e; split; [done|]; by rewrite lookup_alter_eq, Hx|].
    simpl. apply elem_of_difference. split; [done|]. by rewrite elem_of_singleton.
  - exists x. split; [|done]. exists e. split; [done|]. by rewrite lookup_alter_ne.
Qed.

Lemma removeEdgeByName_spec (srg : SRGraph) (edgeName : string) g :
  edgesNamed srg ->
  removeEdgeByName (base srg) edgeName = Ret g ->
  exists e x,
    m_Edges (base srg) !! edgeName = Some e /\
    edgeStore (base srg) !! e = Some x /\
    m_Edges g = delete edgeName (m_Edges (base srg)) /\
    edgeStore g = <[e := resetEnds x]> (edgeStore (base srg)) /\
    m_Nodes g = m_Nodes (base srg) /\
    (forall n, option_Forall2 sameNode (nodeStore (base srg) !! n) (nodeStore g !! n)).
Proof.
  intros Hn (e & He & Hrem)%removeEdgeByName_Ret.
  apply removeEdge_Ret in Hrem. destruct Hrem as (x & Hx & _ & HE & HS & HN & Hns).
  destruct (Hn _ _ He) as (x0 & Hx0 & Hname). replace x0 with x in * by congruence.
  exists e, x. rewrite Hname in HE. done.
Qed.

(** The loop over the edges of the subgraph that is being deleted. *)
Lemma deleteEdges_spec (subgraphID : string) (subgraph : UTQLSubgraph) :
  forall edges srg stack deleted srg' stack' deleted',
    deleteEdges subgraphID subgraph edges srg stack deleted = Ret (srg', (stack', deleted')) ->
    edgesNamed srg ->
    (forall d, d ∈ stack -> d ∈ stack') /\
    (forall d, d ∈ deleted -> d ∈ deleted') /\
    (forall d, d ∈ deleted' -> d ∈ deleted \/ d ∈ stack') /\
    (forall name d, dependsOn srg name d ->
       d = subgraphID \/ d ∈ deleted' \/ dependsOn srg' name d) /\
    (forall k pe x, (k, pe) ∈ edges ->
       edgeStore (graph subgraph) !! pe = Some x ->
       isOutput (edge_io (edge_data x)) = true ->
       m_Edges (base srg') !! srgEdgeName subgraphID (edge_Name x) = None).
Proof.
  induction edges as [|[k0 pe0] edges IH];
    intros srg stack deleted srg' stack' deleted' H Hnamed; simpl in H.
  { injection H as <- <- <-. split; [done|]. split; [done|]. split; [by left|].
    split; [intros name d Hd; by right; right|].
    intros k pe x Hin. by apply elem_of_nil in Hin. }
  bind_inv H. apply deref_ptr_Ret in H0. unfold edgeAt in H0. bind_inv H.
  assert (evolves srg r0 /\ m_Edges (base r0) = m_Edges (base srg) /\
          forall name d, dependsOn srg name d -> d = subgraphID \/ dependsOn r0 name d)
    as (Hev1 & HE1 & Hdep1).
  { destruct (isInput _).
    - split; [by eapply unlinkInput_evolves|]. by eapply unlinkInput_spec.
    - injection H1 as <-. split; [done|]. split; [done|]. by right. }
  pose proof (evolves_edgesNamed _ _ Hev1 Hnamed) as Hnamed1.
  destruct (isOutput (edge_io (edge_data r))) eqn:Hout.
  2:{ destruct (IH _ _ _ _ _ _ H Hnamed1) as (Hs & Hm & Hd & Hl & Hrm).
      split; [done|]. split; [done|]. split; [done|]. split.
      - intros name d Hdep. destruct (Hdep1 name d Hdep) as [?|Hdep']; [by left|].
        by apply Hl.
      - intros k pe x [Heq|Hin]%elem_of_cons Hx Hox; [|by apply (Hrm k pe x)].
        injection Heq as -> ->. congruence. }
  bind_inv H. bind_inv H. apply deref_ptr_Ret in H3. unfold srgEdgeAt in H3. bind_inv H.
  set (edgeName := srgEdgeName subgraphID (edge_Name r)) in *.
  destruct (removeEdgeByName_spec _ _ _ Hnamed1 H4)
    as (e & x & He & Hx & HE2 & HS2 & _ & _).
  unfold Graph.getEdge in H2. rewrite He in H2. injection H2 as <-.
  replace r2 with x in * by congruence.
  destruct (markDependants_spec (members (m_DependantSubgraphIDs (edge_data x)))
              stack deleted) as [Hmark Hpush].
  set (marked := markDependants (members (m_DependantSubgraphIDs (edge_data x)))
                   stack deleted) in *.
  assert (evolves r0 (withBase r0 r3)) as Hev2.
  { apply removeEdgeByName_Ret in H4. destruct H4 as (e' & _ & Hrem).
    by apply removeEdge_remainder, remainder_evolves in Hrem. }
  pose proof (evolves_edgesNamed _ _ Hev2 Hnamed1) as Hnamed2.
  pose proof (deleteEdges_evolves _ _ _ _ _ _ _ H) as Hev3. cbn [fst] in Hev3.
  destruct (IH _ _ _ _ _ _ H Hnamed2) as (Hs & Hm & Hd & Hl & Hrm).
  split; [|split; [|split; [|split]]].
  - intros d Hd0. apply Hs, Hpush. by left.
  - intros d Hd0. apply Hm, Hmark. by left.
  - intros d Hd0. destruct (Hd d Hd0) as [Hd1|?]; [|by right].
    apply Hmark in Hd1. destruct Hd1 as [?|Hd1]; [by left|].
    destruct (decide (d ∈ deleted)); [by left|]. right. apply Hs, Hpush. by right.
  - intros name d Hdep. destruct (Hdep1 name d Hdep) as [?|Hdep']; [by left|].
    destruct Hdep' as (y & (e0 & He0 & Hy) & Hdy).
    destruct (decide (name = edgeName)) as [->|Hne].
    + right. left. replace e0 with e in * by congruence.
      replace y with x in * by congruence.
      apply Hm, Hmark. right. by apply elem_of_members.
    + apply Hl. unfold dependsOn, srgEdge. cbn [base withBase]. rewrite HE2, HS2.
      destruct (decide (e = e0)) as [->|Hee].
      * exists (resetEnds x). split; [exists e0; split;
          [by rewrite lookup_delete_ne|by rewrite lookup_insert_eq]|].
        by replace x with y by congruence.
      * exists y. split; [|done]. exists e0.
        split; [by rewrite lookup_delete_ne|by rewrite lookup_insert_ne].
  - intros k pe y [Heq|Hin]%elem_of_cons Hy Hoy; [|by apply (Hrm k pe y)].
    injection Heq as -> ->. replace y with r in * by congruence. fold edgeName.
    destruct (m_Edges (base srg') !! edgeName) as [e1|] eqn:He1; [|done]. exfalso.
    destruct Hev3 as [HE3 _].
    apply (lookup_weaken _ _ _ _ He1) in HE3. cbn [base withBase] in HE3.
    by rewrite HE2, lookup_delete_eq in HE3.
Qed.

Lemma srgEdge_functional (srg : SRGraph) (name : string)
    (x y : GraphEdge SRGEdgeAttributes) :
  srgEdge srg name x -> srgEdge srg name y -> x = y.
Proof. intros (e & He & Hx) (e' & He' & Hy). congruence. Qed.

(** A pass of the loop keeps what holds between the passes. *)
Lemma deleteStep_keeps (st : State) (primal subgraphID : string) (srg : SRGraph)
    (repository : gmap string InstantiatedPattern) (below : list string)
    (deleted removable : gset string) (d' : Deletion) :
  deleting st primal (mkDeletion srg repository (subgraphID :: below) deleted removable) ->
  deleteStep subgraphID (mkDeletion srg repository below deleted removable) = Ret d' ->
  deleting st primal d'.
Proof.
  intros [Hnamed Hprod Hev Hmarked Hlinks] H.
  cbn [del_srg del_repository deleteStack deletedSubgraphs] in *.
  unfold deleteStep in H. cbn [del_srg del_repository deleteStack deletedSubgraphs
    removableNodes] in H.
  destruct (repository !! subgraphID) as [inst|] eqn:Hinst.
  2:{ injection H as <-. split; cbn [del_srg del_repository deleteStack deletedSubgraphs];
        try done.
      - intros x Hx. destruct (Hmarked x Hx) as [[->|?]%elem_of_cons|?]; tauto.
      - intros name x Hx. destruct (Hlinks name x Hx) as [[->|?]%elem_of_cons|?]; tauto. }
  bind_inv H. bind_inv H. injection H as <-.
  destruct r as [srg1 [stack1 deleted1]]. destruct r0 as [srg2 removable2].
  cbn [fst snd] in *.
  pose proof (deleteEdges_evolves _ _ _ _ _ _ _ H0) as Hev1. cbn [fst] in Hev1.
  destruct (deleteEdges_spec _ _ _ _ _ _ _ _ _ H0 Hnamed) as (Hs & Hm & Hd & Hl & Hrm).
  apply deleteNodes_edges in H1. cbn [fst] in H1. destruct H1 as [HE2 HS2].
  assert (evolves srg1 srg2) as Hev2.
  { split; [by rewrite HE2|]. intros e. by rewrite HS2. }
  assert (evolves srg srg2) as Hev12 by (by etrans).
  assert (forall x, x ∈ deleted1 \/ x = primal ->
            x ∈ stack1 \/ delete subgraphID repository !! x = None) as Hmarked'.
  { intros x Hx. rewrite lookup_delete_None.
    destruct (decide (subgraphID = x)) as [|Hne]; [tauto|].
    assert (x ∈ deleted \/ x = primal -> x ∈ stack1 \/ repository !! x = None) as Hold.
    { intros Hx'. destruct (Hmarked x Hx') as [[->|?]%elem_of_cons|?]; [done| |tauto].
      left. by apply Hs. }
    destruct Hx as [Hx|Hx]; [|tauto].
    destruct (Hd x Hx); tauto. }
  split; cbn [del_srg del_repository deleteStack deletedSubgraphs].
  - by apply (evolves_edgesNamed srg).
  - intros name x' Hx'.
    destruct (srgEdge_evolves _ _ _ _ Hev12 Hx') as (x & Hx & _ & Hsub & _).
    destruct (Hprod name x Hx) as (inst0 & l & Hrepo & Hout & Hname).
    rewrite Hsub. exists inst0, l. split; [|done].
    rewrite lookup_delete_ne; [done|]. intros Heq. rewrite <- Heq in *.
    replace inst0 with inst in * by congruence.
    destruct Hout as (k & e & y & Hk & Hy & Hoy & Hl').
    apply elem_of_entries in Hk.
    pose proof (Hrm k e y Hk Hy Hoy) as Hnone. rewrite Hl', <- Hname in Hnone.
    destruct Hx' as (e' & He' & _). rewrite HE2 in He'. congruence.
  - by etrans.
  - done.
  - intros name x Hx. destruct (decide (subgraphID = x)) as [<-|Hne].
    { right. left. apply lookup_delete_eq. }
    destruct (Hlinks name x Hx) as [[->|?]%elem_of_cons|[?|Hdep]]; [done| | |].
    + left. by apply Hs.
    + right. left. by rewrite lookup_delete_ne.
    + destruct (Hl name x Hdep) as [?|[Hin|Hdep1]]; [done| |].
      * destruct (Hmarked' x (or_introl Hin)); tauto.
      * right. right. unfold dependsOn, srgEdge in *. by rewrite HE2, HS2.
Qed.

Lemma deleteLoop_keeps (st : State) (primal : string) : forall fuel d d',
  deleting st primal d -> deleteLoop fuel d = Ret d' ->
  deleting st primal d' /\ deleteStack d' = [].
Proof.
  induction fuel as [|fuel IH]; intros d d' Hinv H; simpl in H;
    destruct (deleteStack d) as [|top below] eqn:Hstack; try discriminate;
    try (injection H as <-; done).
  bind_inv H. apply (IH r); [|done].
  apply (deleteStep_keeps st primal top (del_srg d) (del_repository d) below
           (deletedSubgraphs d) (removableNodes d)); [|done].
  destruct d. cbn [deleteStack] in Hstack. by subst.
Qed.

(** When the loop is over, the subgraphs that go with [primal] are gone
    from the repository. *)
Lemma doomed_gone (st : State) (primal : string) (d : Deletion) :
  deleting st primal d -> deleteStack d = [] ->
  forall s, doomed st primal s -> del_repository d !! s = None.
Proof.
  intros [Hnamed Hprod Hev Hmarked Hlinks] Hstack. rewrite Hstack in *.
  induction 1 as [|s name dd x Hs IH Hx Hsub Hdd].
  - destruct (Hmarked primal) as [Hin|?]; [by right| |done]. by apply elem_of_nil in Hin.
  - destruct (Hlinks name dd) as [Hin|[?|(x' & Hx' & _)]]; [by exists x| |done|].
    { by apply elem_of_nil in Hin. }
    exfalso.
    destruct (srgEdge_evolves _ _ _ _ Hev Hx') as (x0 & Hx0 & _ & Hsub0 & _).
    rewrite (srgEdge_functional _ _ _ _ Hx0 Hx) in Hsub0.
    destruct (Hprod name x' Hx') as (inst & l & Hrepo & _). congruence.
Qed.

(** The edges that are left after [deleteSRG] are produced by subgraphs
    that do not go with the deleted one. *)
Lemma deleteSRG_edges (st : State) (primal : string) (st' : State) :
  edgesNamed (m_GlobalSrg st) ->
  edgesProduced (m_GlobalSrg st) (m_GraphRepository st) ->
  deleteSRG st primal = Ret st' ->
  forall name x, srgEdge (m_GlobalSrg st') name x ->
    ~ doomed st primal (m_SubgraphID (edge_data x)).
Proof.
  intros Hnamed Hprod H name x Hx Hdoomed. unfold deleteSRG in H.
  bind_inv H. bind_inv H. injection H as <-. cbn [m_GlobalSrg] in Hx.
  apply (deleteLoop_keeps st primal) in H0.
  2:{ split; cbn [del_srg del_repository deleteStack deletedSubgraphs]; try done.
      - intros y [Hin| ->]; [by apply elem_of_empty in Hin|]. left. left.
      - intros n y Hy. by right; right. }
  destruct H0 as [Hinv Hstack].
  pose proof (doomed_gone _ _ _ Hinv Hstack _ Hdoomed) as Hgone.
  apply removeNodes_evolves in H1.
  destruct (srgEdge_evolves _ _ _ _ H1 Hx) as (x1 & Hx1 & _ & Hsub & _).
  destruct (del_produced _ _ _ Hinv name x1 Hx1) as (inst & l & Hrepo & _). congruence.
Qed.

(** ** Nodes *)

Global Instance nodesKept_refl : Reflexive nodesKept.
Proof. intros srg. by split. Qed.

Global Instance nodesKept_trans : Transitive nodesKept.
Proof.
  intros a b c (? & ? & ?) (? & ? & ?). split; [congruence|]. split; [congruence|].
  by apply (Forall2_compose _ _ (nodeStore (base b))).
Qed.

Lemma orphansMarked_kept (srg srg' : SRGraph) (removable : gset string) :
  nodesKept srg srg' -> orphansMarked srg removable -> orphansMarked srg' removable.
Proof.
  intros (HI & HN & HS) [[Hreg Hnamed] Horphans]. split; [split|].
  - congruence.
  - intros name n Hn. rewrite HN in Hn. destruct (Hnamed name n Hn) as (x & Hx & Hname).
    specialize (HS n). rewrite Hx in HS. apply Forall2_Some_l in HS.
    destruct HS as (y & Hy & _ & Hxy). exists y. split; [done|congruence].
  - intros name x' (n & Hn & Hx') Hempty. rewrite HN in Hn.
    specialize (HS n). rewrite Hx' in HS. apply Forall2_Some_r in HS.
    destruct HS as (x & Hx & Hd & _). apply (Horphans name x); [by exists n|congruence].
Qed.

Lemma unlinkInput_nodesKept (subgraphID : string) (ed : GraphEdge UTQLEdge)
    (srg srg' : SRGraph) :
  unlinkInput subgraphID ed srg = Ret srg' -> nodesKept srg srg'.
Proof.
  unfold unlinkInput. intros H. destruct (Graph.hasEdge _ _); [|by injection H as <-].
  bind_inv H. bind_inv H. by injection H as <-.
Qed.

Lemma deleteEdges_nodesKept (subgraphID : string) (subgraph : UTQLSubgraph) :
  forall edges srg stack deleted r,
    deleteEdges subgraphID subgraph edges srg stack deleted = Ret r -> nodesKept srg (fst r).
Proof.
  induction edges as [|[name pe] edges IH]; intros srg stack deleted r H; simpl in H.
  { by injection H as <-. }
  bind_inv H. bind_inv H.
  assert (nodesKept srg r1) as H01.
  { destruct (isInput _); [by eapply unlinkInput_nodesKept|by injection H1 as <-]. }
  destruct (isOutput _); [|by etrans; [|eapply IH]].
  bind_inv H. bind_inv H. bind_inv H. apply IH in H.
  apply removeEdgeByName_Ret in H4. destruct H4 as (e & _ & Hrem).
  apply removeEdge_Ret in Hrem. destruct Hrem as (x & _ & _ & _ & _ & HN & HS).
  etrans; [exact H01|]. etrans; [|exact H]. by split.
Qed.

(** The loop over the nodes of the subgraph that is being deleted. *)
Lemma deleteNodes_orphans (subgraphID : string) (subgraph : UTQLSubgraph) :
  forall nodes srg removable r,
    deleteNodes subgraphID subgraph nodes srg removable = Ret r ->
    orphansMarked srg removable -> orphansMarked (fst r) (snd r).
Proof.
  induction nodes as [|[k pn] nodes IH]; intros srg removable r H Hinv; simpl in H.
  { by injection H as <-. }
  bind_inv H. destruct (negb (isOutput _)); [by eapply IH|].
  destruct (negb (SRG.hasNode _ _)); [discriminate|].
  bind_inv H. bind_inv H. apply deref_ptr_Ret in H2. unfold srgNodeAt in H2.
  unfold SRG.getNode in H1.
  destruct (m_NodeIDMap srg !! m_QualifiedName (node_data r0)) as [n|] eqn:Hq; [|discriminate].
  injection H1 as <-. apply IH in H; [done|]. clear IH H.
  destruct Hinv as [[Hreg Hnamed] Horphans].
  set (q := m_QualifiedName (node_data r0)) in *.
  set (remaining := m_SubgraphIDs (node_data r2) ∖ {[subgraphID]}).
  unfold orphansMarked, nodesNamed, srgNode, updateNode.
  cbn [base withBase setNodes m_NodeIDMap m_Nodes nodeStore].
  split; [split; [done|]|].
  - intros name n' Hn'. destruct (Hnamed name n' Hn') as (x & Hx & Hname).
    rewrite lookup_alter. destruct (decide (n = n')) as [->|]; [|by exists x].
    rewrite Hx. simpl. eexists. split; [done|]. done.
  - intros name x' (n' & Hn' & Hx') Hempty. rewrite lookup_alter in Hx'.
    destruct (decide (n = n')) as [<-|Hne].
    + rewrite H2 in Hx'. injection Hx' as <-. simpl in Hempty.
      rewrite bool_decide_eq_true_2 by done.
      rewrite Hreg in Hq.
      destruct (Hnamed name n Hn') as (x & Hx & Hname).
      destruct (Hnamed q n Hq) as (y & Hy & Hname').
      apply elem_of_union. left. apply elem_of_singleton. congruence.
    + assert (name ∈ removable) as Hin by (apply (Horphans name x'); [by exists n'|done]).
      destruct (bool_decide _); [|done]. apply elem_of_union. by right.
Qed.

Lemma deleteStep_orphans (subgraphID : string) (d d' : Deletion) :
  deleteStep subgraphID d = Ret d' ->
  orphansMarked (del_srg d) (removableNodes d) ->
  orphansMarked (del_srg d') (removableNodes d').
Proof.
  unfold deleteStep. intros H Hinv.
  destruct (del_repository d !! subgraphID); [|by injection H as <-].
  bind_inv H. bind_inv H. injection H as <-. cbn [del_srg removableNodes].
  apply (deleteNodes_orphans _ _ _ _ _ _ H1).
  apply (orphansMarked_kept (del_srg d)); [|done].
  by apply (deleteEdges_nodesKept _ _ _ _ _ _ _ H0).
Qed.

Lemma deleteLoop_orphans : forall fuel d d',
  deleteLoop fuel d = Ret d' ->
  orphansMarked (del_srg d) (removableNodes d) ->
  orphansMarked (del_srg d') (removableNodes d').
Proof.
  induction fuel as [|fuel IH]; intros d d' H Hinv; simpl in H;
    destruct (deleteStack d) as [|top below]; try discriminate;
    try (injection H as <-; done).
  bind_inv H. apply (IH r); [done|]. by apply (deleteStep_orphans _ _ _ H0).
Qed.

(** [SRGraph::removeNode] takes the node of that name out of both maps. *)
Lemma removeNode_spec (srg : SRGraph) (id : string) (srg' : SRGraph) :
  SRG.removeNode srg id = Ret srg' -> nodesNamed srg ->
  nodesNamed srg' /\
  forall name x', srgNode srg' name x' ->
    name <> id /\ exists x, srgNode srg name x /\ node_data x' = node_data x.
Proof.
  unfold SRG.removeNode. intros H [Hreg Hnamed].
  destruct (SRG.hasNode srg id); [|discriminate].
  bind_inv H. injection H as <-. unfold removeNodeByName, Graph.getNode in H0.
  bind_inv H0. destruct (m_Nodes (base srg) !! id) as [n|] eqn:Hn; [|discriminate].
  injection H1 as <-. apply removeNode_Ret in H0.
  destruct H0 as (nd & Hnd & HN & [_ _ _ HS]).
  destruct (Hnamed id n Hn) as (x & Hx & Hname). replace x with nd in * by congruence.
  rewrite Hname in HN.
  unfold nodesNamed, srgNode. cbn [base m_NodeIDMap]. rewrite HN.
  split; [split; [congruence|]|].
  - intros name n' [Hne Hn']%lookup_delete_Some.
    destruct (Hnamed name n' Hn') as (y & Hy & Hname').
    specialize (HS n'). rewrite Hy in HS. apply Forall2_Some_l in HS.
    destruct HS as (y' & Hy' & _ & Hyy'). exists y'. split; [done|congruence].
  - intros name x' (n' & [Hne Hn']%lookup_delete_Some & Hx'). split; [done|].
    specialize (HS n'). rewrite Hx' in HS. apply Forall2_Some_r in HS.
    destruct HS as (y & Hy & Hd & _). exists y. split; [by exists n'|done].
Qed.

(** Once the marked nodes are removed, every node is spawned. *)
Lemma removeNodes_spawned : forall names srg srg',
  removeNodes names srg = Ret srg' -> nodesNamed srg ->
  (forall name x, srgNode srg name x -> m_SubgraphIDs (node_data x) = ∅ -> name ∈ names) ->
  nodesSpawned srg'.
Proof.
  induction names as [|id names IH]; intros srg srg' H Hnamed Horphans; simpl in H.
  { injection H as <-. intros name x Hx Hempty.
    by apply (elem_of_nil name), (Horphans name x). }
  bind_inv H. destruct (removeNode_spec _ _ _ H0 Hnamed) as [Hnamed' Hleft].
  apply (IH r); [done|done|].
  intros name x' Hx' Hempty. destruct (Hleft name x' Hx') as (Hne & x & Hx & Hd).
  rewrite Hd in Hempty. pose proof (Horphans name x Hx Hempty) as Hin.
  apply elem_of_cons in Hin. by destruct Hin.
Qed.

(** No node is left after [deleteSRG] that no subgraph spawns. *)
Lemma deleteSRG_nodes (st : State) (primal : string) (st' : State) :
  nodesNamed (m_GlobalSrg st) -> nodesSpawned (m_GlobalSrg st) ->
  deleteSRG st primal = Ret st' ->
  nodesSpawned (m_GlobalSrg st').
Proof.
  intros Hnamed Hspawned H. unfold deleteSRG in H.
  bind_inv H. bind_inv H. injection H as <-. cbn [m_GlobalSrg].
  apply deleteLoop_orphans in H0; cbn [del_srg removableNodes].
  2:{ split; [done|]. intros name x Hx Hempty. by destruct (Hspawned name x Hx). }
  destruct H0 as [Hnamed' Horphans].
  apply (removeNodes_spawned _ _ _ H1 Hnamed').
  intros name x Hx Hempty. apply elem_of_members. by apply (Horphans name x).
Qed.

(** ** The loop of [deleteSRG] ends within [deletePasses] passes *)

Lemma removeEdge_fuel {A B} (g : Graph A B) (e : EdgePtr) : removeEdge g e <> OutOfFuel.
Proof. unfold removeEdge. fuel_free. Qed.

Lemma removeEdgesOf_fuel {A B} (pick : GraphNode A -> list EdgePtr) (n : NodePtr) :
  forall fuel (g : Graph A B), removeEdgesOf fuel pick g n <> OutOfFuel.
Proof.
  induction fuel as [|fuel IH]; intros g; cbn [removeEdgesOf]; fuel_free;
    try apply removeEdge_fuel.
  apply IH.
Qed.

Lemma removeNode_fuel (srg : SRGraph) (id : string) : SRG.removeNode srg id <> OutOfFuel.
Proof.
  unfold SRG.removeNode, removeNodeByName, Graph.getNode, Graph.removeNode.
  fuel_free; apply removeEdgesOf_fuel.
Qed.

Lemma removeNodes_fuel : forall names srg, removeNodes names srg <> OutOfFuel.
Proof.
  induction names as [|name names IH]; intros srg; cbn [removeNodes]; fuel_free.
  - apply removeNode_fuel.
  - apply IH.
Qed.

Lemma deleteEdges_fuel (subgraphID : string) (subgraph : UTQLSubgraph) :
  forall edges srg stack deleted,
    deleteEdges subgraphID subgraph edges srg stack deleted <> OutOfFuel.
Proof.
  induction edges as [|[k pe] edges IH]; intros srg stack deleted; cbn [deleteEdges]; [done|].
  unfold edgeAt, unlinkInput, srgEdgeAt, Graph.getEdge, removeEdgeByName, Graph.getEdge.
  fuel_free; try apply removeEdge_fuel; apply IH.
Qed.

Lemma deleteNodes_fuel (subgraphID : string) (subgraph : UTQLSubgraph) :
  forall nodes srg removable,
    deleteNodes subgraphID subgraph nodes srg removable <> OutOfFuel.
Proof.
  induction nodes as [|[k pn] nodes IH]; intros srg removable; cbn [deleteNodes]; [done|].
  unfold nodeAt, srgNodeAt, SRG.getNode. fuel_free; apply IH.
Qed.

Lemma deleteStep_fuel (subgraphID : string) (d : Deletion) :
  deleteStep subgraphID d <> OutOfFuel.
Proof.
  unfold deleteStep. fuel_free; [apply deleteEdges_fuel|apply deleteNodes_fuel].
Qed.

Lemma elem_of_allDependants (srg : SRGraph) (d : string) :
  d ∈ allDependants srg <->
  exists e x, edgeStore (base srg) !! e = Some x /\ d ∈ m_DependantSubgraphIDs (edge_data x).
Proof.
  unfold allDependants. rewrite elem_of_union_list. split.
  - intros (X & HX & Hd). apply list_elem_of_fmap in HX. destruct HX as ([e x] & -> & Hin).
    apply elem_of_map_to_list in Hin. by exists e, x.
  - intros (e & x & Hx & Hd). exists (m_DependantSubgraphIDs (edge_data x)). split; [|done].
    apply list_elem_of_fmap. exists (e, x). split; [done|]. by apply elem_of_map_to_list.
Qed.

Lemma evolves_allDependants (srg srg' : SRGraph) :
  evolves srg srg' -> allDependants srg' ⊆ allDependants srg.
Proof.
  intros [_ HS] d (e & x' & Hx' & Hd)%elem_of_allDependants.
  specialize (HS e). rewrite Hx' in HS. apply Forall2_Some_r in HS.
  destruct HS as (x & Hx & _ & _ & _ & Hsub). apply elem_of_allDependants.
  exists e, x. split; [done|]. by apply Hsub.
Qed.

(** Each push takes a subgraph out of those that are not marked. *)
Lemma markDependants_passes (all : gset string) : forall dependants stack deleted,
  (forall d, d ∈ dependants -> d ∈ all) ->
  (length (fst (markDependants dependants stack deleted))
   + base.size (all ∖ snd (markDependants dependants stack deleted))
   = length stack + base.size (all ∖ deleted))%nat.
Proof.
  induction dependants as [|h more IH]; intros stack deleted Hall; simpl; [done|].
  assert (forall d, d ∈ more -> d ∈ all) as Hmore by (intros d Hd; apply Hall; by right).
  destruct (decide (h ∈ deleted)) as [Hh|Hh].
  - rewrite bool_decide_eq_true_2 by done. by apply IH.
  - rewrite bool_decide_eq_false_2 by done. rewrite IH by done.
    assert (all ∖ deleted = {[h]} ∪ all ∖ ({[h]} ∪ deleted)) as ->.
    { apply set_eq. intros x.
      rewrite elem_of_union, !elem_of_difference, elem_of_union, elem_of_singleton.
      destruct (decide (x = h)) as [->|]; [|tauto].
      split; [tauto|]. intros _. split; [|done]. apply Hall. left. }
    rewrite (size_union ({[h]} : gset string) (all ∖ ({[h]} ∪ deleted))).
    + rewrite size_singleton. simpl. lia.
    + intros x Hx%elem_of_singleton [_ Hn]%elem_of_difference. subst x.
      apply Hn, elem_of_union. left. by apply elem_of_singleton.
Qed.

Lemma deleteEdges_passes (all : gset string) (subgraphID : string)
    (subgraph : UTQLSubgraph) :
  forall edges srg stack deleted r,
    deleteEdges subgraphID subgraph edges srg stack deleted = Ret r ->
    allDependants srg ⊆ all ->
    (length (fst (snd r)) + base.size (all ∖ snd (snd r))
     = length stack + base.size (all ∖ deleted))%nat.
Proof.
  induction edges as [|[k pe] edges IH]; intros srg stack deleted r H Hall; simpl in H.
  { by injection H as <-. }
  bind_inv H. bind_inv H.
  assert (evolves srg r1) as Hev1.
  { destruct (isInput _); [by eapply unlinkInput_evolves|by injection H1 as <-]. }
  pose proof (evolves_allDependants _ _ Hev1) as Hsub1.
  destruct (isOutput _).
  2:{ apply (IH _ _ _ _ H). by etrans. }
  bind_inv H. bind_inv H. apply deref_ptr_Ret in H3. unfold srgEdgeAt in H3. bind_inv H.
  apply IH in H.
  - rewrite H. apply markDependants_passes. intros d Hd%elem_of_members.
    apply Hall, Hsub1, elem_of_allDependants. by exists r2, r3.
  - apply removeEdgeByName_Ret in H4. destruct H4 as (e & _ & Hrem).
    apply removeEdge_remainder, remainder_evolves, evolves_allDependants in Hrem.
    etrans; [exact Hrem|]. by etrans.
Qed.

Lemma deleteStep_passes (all : gset string) (subgraphID : string) (d d' : Deletion) :
  deleteStep subgraphID d = Ret d' ->
  allDependants (del_srg d) ⊆ all ->
  passesLeft all d' = passesLeft all d /\ allDependants (del_srg d') ⊆ all.
Proof.
  intros H Hall. split.
  - unfold deleteStep in H. destruct (del_repository d !! subgraphID); [|by injection H as <-].
    bind_inv H. bind_inv H. injection H as <-.
    by apply (deleteEdges_passes all) in H0.
  - apply deleteStep_evolves, evolves_allDependants in H. by etrans.
Qed.

Lemma deleteLoop_fuel (all : gset string) : forall fuel d,
  (passesLeft all d <= fuel)%nat -> allDependants (del_srg d) ⊆ all ->
  deleteLoop fuel d <> OutOfFuel.
Proof.
  induction fuel as [|fuel IH]; intros d Hfuel Hall; unfold passesLeft in Hfuel; simpl;
    destruct (deleteStack d) as [|top below] eqn:Hstack; try done.
  { simpl in Hfuel. lia. }
  apply bindExc_fuel; [apply deleteStep_fuel|]. intros d' Hd'.
  apply (deleteStep_passes all) in Hd'; [|done]. destruct Hd' as [Hpasses Hall'].
  apply IH; [|done]. rewrite Hpasses. unfold passesLeft. simpl in *. lia.
Qed.

(** [deleteSRG] does not stop for lack of fuel: [deletePasses] is enough
    for its loop. *)
Lemma deleteSRG_fuel (st : State) (primal : string) : deleteSRG st primal <> OutOfFuel.
Proof.
  unfold deleteSRG. apply bindExc_fuel.
  - apply (deleteLoop_fuel (allDependants (m_GlobalSrg st))); [|done].
    unfold passesLeft, deletePasses. cbn [deleteStack deletedSubgraphs length].
    rewrite difference_empty_L. lia.
  - fuel_free. apply removeNodes_fuel.
Qed.

(** X28.  Let the SRG and the repository be consistent when
    [deleteSRG( id )] is called.  The call does not stop for lack of
    fuel, and when it returns, no edge of the SRG is left whose producing
    subgraph is [id] or, transitively, a subgraph that an edge produced
    by such a subgraph lists in [m_DependantSubgraphIDs]; and no node of
    the SRG is left whose set of spawning subgraphs is empty.  (Edges
    that go only because a node they are attached to is removed are not
    followed to their dependants.) *)
Theorem deleteSRG_consistent (st : State) (id : string) :
  consistent st ->
  deleteSRG st id <> OutOfFuel /\
  forall st', deleteSRG st id = Ret st' ->
    (forall name x, srgEdge (m_GlobalSrg st') name x ->
       ~ doomed st id (m_SubgraphID (edge_data x))) /\
    (forall name x, srgNode (m_GlobalSrg st') name x ->
       m_SubgraphIDs (node_data x) <> ∅).
Proof.
  intros [Hnamed Hproduced Hnodes Hspawned]. split; [apply deleteSRG_fuel|].
  intros st' H. split.
  - by apply (deleteSRG_edges st id st').
  - by apply (deleteSRG_nodes st id st').
Qed.

(** Consistency of a closed state, by going through its edges and nodes. *)
Ltac closed_consistent st :=
  split;
  [ intros name e He;
    enum_lookup He; eexists; (split; [vm_compute; reflexivity|reflexivity])
  | intros name x (e & He & Hx); enum_lookup He;
    [ > match type of Hx with
        | _ !! ?e = _ => known_object Hx (srgEdgeOf st e)
        end;
        match goal with
        | |- context [srgEdgeOf ?st' ?e] =>
            exists (instanceOf st' (m_SubgraphID (edge_data (srgEdgeOf st' e)))),
                   (m_LocalName (edge_data (srgEdgeOf st' e)))
        end;
        (split; [vm_compute; reflexivity|]); (split; [|vm_compute; reflexivity]);
        match goal with
        | |- outputEdge ?g ?l =>
            exists l, (default 0%nat (m_Edges (graph g) !! l)),
                   (edgeOf g (default 0%nat (m_Edges (graph g) !! l)))
        end;
        (split; [vm_compute; reflexivity|]); (split; [vm_compute; reflexivity|]);
        (split; vm_compute; reflexivity) .. ]
  | split; [vm_compute; reflexivity|];
    intros name n Hn;
    enum_lookup Hn; eexists; (split; [vm_compute; reflexivity|reflexivity])
  | intros name x (n & Hn & Hx); enum_lookup Hn;
    [ > match type of Hx with
        | _ !! ?n = _ => known_object Hx (srgNodeOf st n)
        end;
        intros Hempty; apply (f_equal elements) in Hempty; vm_compute in Hempty;
        discriminate Hempty .. ] ].

(** The state with the two base SRGs and their inverses is consistent. *)
Lemma twoInverses_consistent : consistent twoInverses.
Proof. closed_consistent twoInverses. Qed.

(** Deleting [s] there takes [s:e] and its inverse with it, and the
    nodes [A] and [B]. *)
Lemma twoInverses_deleted :
  deleteSRG twoInverses "s" = Ret afterDelete /\
  (fst <$> entries (m_Edges (base (m_GlobalSrg twoInverses))))
    = ["inv2000:out"; "inv2001:out"; "s:e"; "t:f"] /\
  (fst <$> entries (m_Edges (base (m_GlobalSrg afterDelete)))) = ["inv2000:out"; "t:f"] /\
  (fst <$> entries (m_Nodes (base (m_GlobalSrg afterDelete)))) = ["C"; "D"].
Proof.
  split; [vm_compute; reflexivity|]. split; [vm_compute; reflexivity|].
  split; vm_compute; reflexivity.
Qed.

(** The theorem at that deletion. *)
Lemma deleteSRG_consistent_witness :
  consistent twoInverses /\
  deleteSRG twoInverses "s" = Ret afterDelete /\
  (fst <$> entries (m_Edges (base (m_GlobalSrg afterDelete)))) = ["inv2000:out"; "t:f"] /\
  (forall name x, srgEdge (m_GlobalSrg afterDelete) name x ->
     ~ doomed twoInverses "s" (m_SubgraphID (edge_data x))) /\
  (forall name x, srgNode (m_GlobalSrg afterDelete) name x ->
     m_SubgraphIDs (node_data x) <> ∅).
Proof.
  destruct twoInverses_deleted as (Hrun & _ & Hleft & _).
  destruct (deleteSRG_consistent twoInverses "s" twoInverses_consistent) as [_ Hpost].
  destruct (Hpost afterDelete Hrun) as [Hedges Hnodes].
  split; [exact twoInverses_consistent|]. split; [exact Hrun|]. split; [exact Hleft|].
  split; [exact Hedges|exact Hnodes].
Defined.

(** Without that condition edges and nodes are left.  After two
    registrations under the id [s], [deleteSRG( "s" )] returns and leaves
    the edge [s:e1] of the first, whose producing subgraph is [s]; and
    with a registration under the empty id, whose nodes no subgraph
    spawns, [deleteSRG( "t" )] returns and leaves these nodes. *)
Lemma deleteSRG_inconsistent_leftovers :
  (exists st' x,
     deleteSRG duplicated "s" = Ret st' /\
     srgEdge (m_GlobalSrg st') "s:e1" x /\
     m_SubgraphID (edge_data x) = "s" /\
     doomed duplicated "s" (m_SubgraphID (edge_data x))) /\
  (exists st' x,
     deleteSRG unnamed "t" = Ret st' /\
     srgNode (m_GlobalSrg st') "A" x /\
     m_SubgraphIDs (node_data x) = ∅).
Proof.
  split.
  - assert (m_SubgraphID (edge_data (srgEdgeOf afterDuplicate 0)) = "s") as Hs
      by (vm_compute; reflexivity).
    exists afterDuplicate, (srgEdgeOf afterDuplicate 0).
    split; [vm_compute; reflexivity|].
    split; [exists 0%nat; split; vm_compute; reflexivity|].
    split; [exact Hs|].
    exact (eq_ind_r (doomed duplicated "s") (doomed_primal duplicated "s") Hs).
  - exists afterUnnamed, (srgNodeOf afterUnnamed 0).
    split; [vm_compute; reflexivity|].
    split; [exists 0%nat; split; vm_compute; reflexivity|].
    vm_compute. reflexivity.
Qed.

(** The state [used] is built by [registerSRG] and [applyPattern] alone,
    and is consistent. *)
Lemma used_consistent : consistent used.
Proof. closed_consistent used. Qed.

(** What the SRG of a state holds: every edge with its producing
    subgraph, its dependants and its end points, and every node with the
    subgraphs that spawn it. *)
Lemma used_srg :
  edgeList used
  = [("link2000:out", "link2000", ["uses2002"], "D", "A");
     ("t:f", "t", ["link2000"; "uses2001"], "C", "D");
     ("uses2001:out", "uses2001", [], "C", "A");
     ("uses2002:out", "uses2002", [], "D", "C")] /\
  nodeList used = [("A", ["s"]); ("C", ["t"]); ("D", ["t"])] /\
  (fst <$> entries (m_GraphRepository used))
  = ["link2000"; "s"; "t"; "uses2001"; "uses2002"].
Proof. split_and!; vm_compute; reflexivity. Qed.

Lemma afterLone_srg :
  deleteSRG used "s" = Ret afterLone /\
  edgeList afterLone
  = [("t:f", "t", ["link2000"; "uses2001"], "C", "D");
     ("uses2002:out", "uses2002", [], "D", "C")] /\
  nodeList afterLone = [("C", ["t"]); ("D", ["t"])] /\
  (fst <$> entries (m_GraphRepository afterLone))
  = ["link2000"; "t"; "uses2001"; "uses2002"].
Proof. split_and!; vm_compute; reflexivity. Qed.

(** C4 (evaluation of the code at the failing input).  The base SRG [s]
    has the single node [A], the base SRG [t] the edge [t:f] from [C] to
    [D].  [applyPattern( link )] adds the instance [link2000] with the
    edge [link2000:out] from [D] to [A]; [applyPattern( uses )] adds
    [uses2001] with an edge from [C] to [A], and [uses2002], whose input
    edge is [link2000:out], with the edge [uses2002:out] from [D] to [C].
    The state is consistent, and [link2000:out] lists [uses2002] as a
    dependant.

    [deleteSRG( "s" )] returns.  It takes [s] off the spawning set of
    [A], which becomes empty, and removes [A] with the edges attached to
    it, among them [link2000:out].  The edge [uses2002:out] is left, and
    its producing subgraph [uses2002] declared the removed edge
    [link2000:out] as an input.  The repository still holds [link2000]
    and [uses2001], whose output edges went with [A]: a later
    [deleteSRG( "t" )] reaches [uses2001] as a dependant of [t:f], does
    not find its edge and throws. *)
Theorem deleteSRG_leaves_dependant_of_removed_edge :
  consistent used /\
  edgeList used
  = [("link2000:out", "link2000", ["uses2002"], "D", "A");
     ("t:f", "t", ["link2000"; "uses2001"], "C", "D");
     ("uses2001:out", "uses2001", [], "C", "A");
     ("uses2002:out", "uses2002", [], "D", "C")] /\
  nodeList used = [("A", ["s"]); ("C", ["t"]); ("D", ["t"])] /\
  (exists e x,
     m_Edges (graph (instance_graph (instanceOf used "uses2002"))) !! "in" = Some e /\
     edgeStore (graph (instance_graph (instanceOf used "uses2002"))) !! e = Some x /\
     isInput (edge_io (edge_data x)) = true /\
     m_EdgeReference (edge_data x) = mkEdgeReference "link2000" "out") /\
  dependsOn (m_GlobalSrg used) "link2000:out" "uses2002" /\
  deleteSRG used "s" = Ret afterLone /\
  m_Edges (base (m_GlobalSrg afterLone)) !! "link2000:out" = None /\
  (exists x,
     srgEdge (m_GlobalSrg afterLone) "uses2002:out" x /\
     m_SubgraphID (edge_data x) = "uses2002") /\
  (exists e x,
     m_GraphRepository afterLone !! "uses2002" = m_GraphRepository used !! "uses2002" /\
     m_Edges (graph (instance_graph (instanceOf afterLone "uses2002"))) !! "in" = Some e /\
     edgeStore (graph (instance_graph (instanceOf afterLone "uses2002"))) !! e = Some x /\
     m_EdgeReference (edge_data x) = mkEdgeReference "link2000" "out") /\
  edgeList afterLone
  = [("t:f", "t", ["link2000"; "uses2001"], "C", "D");
     ("uses2002:out", "uses2002", [], "D", "C")] /\
  nodeList afterLone = [("C", ["t"]); ("D", ["t"])] /\
  (fst <$> entries (m_GraphRepository afterLone))
  = ["link2000"; "t"; "uses2001"; "uses2002"] /\
  deleteSRG afterLone "t" = Throw "Trying to get a non present edge uses2001:out".
Proof.
  destruct used_srg as (Hedges & Hnodes & _).
  destruct afterLone_srg as (Hrun & Hedges' & Hnodes' & Hrepo').
  split; [exact used_consistent|]. split; [exact Hedges|]. split; [exact Hnodes|].
  split.
  { exists (default 0%nat
              (m_Edges (graph (instance_graph (instanceOf used "uses2002"))) !! "in")),
           (edgeOf (instance_graph (instanceOf used "uses2002"))
              (default 0%nat
                 (m_Edges (graph (instance_graph (instanceOf used "uses2002"))) !! "in"))).
    split_and!; vm_compute; reflexivity. }
  split.
  { exists (srgEdgeOf used
              (default 0%nat (m_Edges (base (m_GlobalSrg used)) !! "link2000:out"))).
    split.
    - exists (default 0%nat (m_Edges (base (m_GlobalSrg used)) !! "link2000:out")).
      split; vm_compute; reflexivity.
    - apply elem_of_elements. vm_compute. by left. }
  split; [exact Hrun|]. split; [vm_compute; reflexivity|].
  split.
  { exists (srgEdgeOf afterLone
              (default 0%nat (m_Edges (base (m_GlobalSrg afterLone)) !! "uses2002:out"))).
    split; [|vm_compute; reflexivity].
    exists (default 0%nat (m_Edges (base (m_GlobalSrg afterLone)) !! "uses2002:out")).
    split; vm_compute; reflexivity. }
  split.
  { exists (default 0%nat
              (m_Edges (graph (instance_graph (instanceOf afterLone "uses2002"))) !! "in")),
           (edgeOf (instance_graph (instanceOf afterLone "uses2002"))
              (default 0%nat
                 (m_Edges (graph (instance_graph (instanceOf afterLone "uses2002"))) !! "in"))).
    split_and!; vm_compute; reflexivity. }
  split; [exact Hedges'|]. split; [exact Hnodes'|]. split; [exact Hrepo'|].
  vm_compute. reflexivity.
Qed.

End DeleteProps.

(* ===================================================================== *)
(** * The order of [std::string]                                          *)
(* ===================================================================== *)

(** [operator<] of [std::string] compares character codes
    lexicographically; these are the facts about it that the ordered
    containers of the code rely on. *)
Module StringOrder.

Lemma ascii_compare_refl c : Ascii.compare c c = Eq.
Proof. unfold Ascii.compare. apply N.compare_refl. Qed.

Lemma ascii_compare_Lt_trans a b c :
  Ascii.compare a b = Lt -> Ascii.compare b c = Lt -> Ascii.compare a c = Lt.
Proof. unfold Ascii.compare. rewrite !N.compare_lt_iff. lia. Qed.

Lemma compare_refl s : String.compare s s = Eq.
Proof. induction s as [|c s IH]; [done|]. simpl. by rewrite ascii_compare_refl. Qed.

Lemma compare_Lt_trans : forall a b c,
  String.compare a b = Lt -> String.compare b c = Lt -> String.compare a c = Lt.
Proof.
  induction a as [|x a IH]; intros [|y b] [|z c]; simpl; try done.
  destruct (Ascii.compare x y) eqn:Exy; [|  |done].
  - apply Ascii.compare_eq_iff in Exy. subst y.
    destruct (Ascii.compare x z); [apply IH|done|done].
  - destruct (Ascii.compare y z) eqn:Eyz; [| |done].
    + apply Ascii.compare_eq_iff in Eyz. subst z. by rewrite Exy.
    + by rewrite (ascii_compare_Lt_trans _ _ _ Exy Eyz).
Qed.

Lemma ltb_irrefl s : String.ltb s s = false.
Proof. unfold String.ltb. by rewrite compare_refl. Qed.

Lemma ltb_trans a b c :
  String.ltb a b = true -> String.ltb b c = true -> String.ltb a c = true.
Proof.
  unfold String.ltb. intros H1 H2.
  destruct (String.compare a b) eqn:E1; try done.
  destruct (String.compare b c) eqn:E2; try done.
  by rewrite (compare_Lt_trans _ _ _ E1 E2).
Qed.

(** Exactly one of [a < b], [a = b], [b < a]. *)
Lemma ltb_trichotomy a b :
  String.ltb a b = false -> String.ltb b a = false -> a = b.
Proof.
  unfold String.ltb. rewrite (String.compare_antisym a b).
  destruct (String.compare b a) eqn:E; simpl; try done.
  intros _ _. symmetry. by apply String.compare_eq_iff.
Qed.

Lemma leb_ltb a b : String.leb a b = negb (String.ltb b a).
Proof.
  unfold String.leb, String.ltb. rewrite (String.compare_antisym b a).
  by destruct (String.compare a b).
Qed.

Lemma leb_trans a b c :
  String.leb a b = true -> String.leb b c = true -> String.leb a c = true.
Proof.
  unfold String.leb. intros H1 H2.
  destruct (String.compare a b) eqn:E1; try done.
  - apply String.compare_eq_iff in E1. by subst.
  - destruct (String.compare b c) eqn:E2; try done.
    + apply String.compare_eq_iff in E2. subst. by rewrite E1.
    + by rewrite (compare_Lt_trans _ _ _ E1 E2).
Qed.

Global Instance stringLe_trans : Transitive stringLe.
Proof. intros a b c. apply leb_trans. Qed.

Global Instance stringLe_total : Total stringLe.
Proof. intros a b. apply String.leb_total. Qed.

Lemma members_sorted (s : gset string) : StronglySorted stringLe (members s).
Proof. apply StronglySorted_merge_sort; apply _. Qed.

(** A string is not below its prefixes, and whatever lies between a
    string and one of its extensions is an extension too. *)
Lemma prefix_leb : forall q s, String.prefix q s = true -> String.leb q s = true.
Proof.
  unfold String.leb. induction q as [|x q IH]; intros [|y s]; simpl; try done.
  destruct (Ascii.ascii_dec x y) as [->|]; [|done].
  rewrite ascii_compare_refl. apply IH.
Qed.

Lemma prefix_between : forall q s t,
  String.leb q s = true -> String.leb s t = true ->
  String.prefix q t = true -> String.prefix q s = true.
Proof.
  unfold String.leb.
  induction q as [|x q IH]; intros [|y s] [|z t]; simpl; try done.
  destruct (Ascii.ascii_dec x z) as [->|]; [|done].
  destruct (Ascii.compare z y) eqn:Ezy; [| |done].
  - apply Ascii.compare_eq_iff in Ezy. subst y.
    rewrite ascii_compare_refl. destruct (Ascii.ascii_dec z z); [|done]. apply IH.
  - rewrite Ascii.compare_antisym, Ezy. done.
Qed.

Lemma prefix_length : forall q s,
  String.prefix q s = true -> (String.length q <= String.length s)%nat.
Proof.
  induction q as [|x q IH]; intros [|y s]; simpl; try done; try lia.
  destruct (Ascii.ascii_dec x y); [|done]. intros H. apply IH in H. lia.
Qed.

End StringOrder.

(* ===================================================================== *)
(** * Attribute maps, value equality and predicates                       *)
(* ===================================================================== *)

Module ValueProps.
Import AttributeValue Predicate StringOrder.

(** ** [std::set::lower_bound] *)

Lemma head_filter_sorted {A} (R : relation A) (P : A -> bool) (l : list A) :
  StronglySorted R l ->
  match head (List.filter P l) with
  | Some x => x ∈ l /\ P x = true /\ forall y, y ∈ l -> P y = true -> x = y \/ R x y
  | None => forall y, y ∈ l -> P y = false
  end.
Proof.
  induction 1 as [|a l Hs IH Hall]; simpl.
  - intros y Hy. by apply elem_of_nil in Hy.
  - destruct (P a) eqn:Pa; simpl.
    + split; [left|]. split; [done|]. intros y Hy _.
      apply elem_of_cons in Hy as [->|Hy]; [by left|right].
      rewrite Forall_forall in Hall. by apply Hall.
    + destruct (head (List.filter P l)) as [x|].
      * destruct IH as (Hx & Px & Hmin). split; [by right|]. split; [done|].
        intros y Hy Py. apply elem_of_cons in Hy as [->|Hy]; [congruence|by apply Hmin].
      * intros y Hy. apply elem_of_cons in Hy as [->|Hy]; [done|by apply IH].
Qed.

(** [lower_bound] finds the least element that is not below the query. *)
Lemma lower_bound_spec (sources : gset string) (query : string) :
  match lower_bound sources query with
  | Some it => it ∈ sources /\ String.leb query it = true /\
               forall s, s ∈ sources -> String.leb query s = true -> String.leb it s = true
  | None => forall s, s ∈ sources -> String.leb query s = false
  end.
Proof.
  unfold lower_bound.
  pose proof (head_filter_sorted stringLe (fun x => String.leb query x) (members sources)
                (members_sorted sources)) as H.
  destruct (head _) as [it|].
  - destruct H as (Hit & Hq & Hmin). split; [by apply elem_of_members|]. split; [done|].
    intros s Hs Hqs. destruct (Hmin s) as [->|Hle]; [by apply elem_of_members|done| |done].
    unfold String.leb. by rewrite compare_refl.
  - intros s Hs. apply H. by apply elem_of_members.
Qed.

Section Predicates.

Variable strtod : string -> float * nat.
Variable printDouble : float -> string.
Variable evaluateFunction :
  FunctionType -> list AttributeExpression -> gmap string KeyValueAttributes ->
  gset string -> Exc AttributeValue.t.

Local Abbreviation evaluate := (evaluate strtod printDouble evaluateFunction).
Local Abbreviation evaluateExpression := (evaluateExpression strtod printDouble evaluateFunction).

(** X1.  In the context of an SRG edge, [inSourceSet( q )] evaluates its
    argument and returns true exactly when some information source of
    the edge starts with the text of the argument: the one element that
    [lower_bound] looks at decides for the whole set. *)
Theorem inSourceSet_finds_prefix (child : AttributeExpression)
    (kv : KeyValueAttributes) (pa : PatternAttributes) :
  evaluate (PredicateFunction child) (LocalContext kv pa) =
  (v <-! evaluateExpression child (LocalContext kv pa) ;;
   Ret (bool_decide (set_Exists
          (fun s => String.prefix (fst (getText printDouble v)) s = true)
          (m_InformationSources pa)))).
Proof.
  cbn [Predicate.evaluate]. destruct (evaluateExpression child _) as [v| | |]; try done.
  cbn [bindExc]. set (query := fst (getText printDouble v)).
  pose proof (lower_bound_spec (m_InformationSources pa) query) as H.
  destruct (lower_bound _ _) as [it|]; f_equal; symmetry.
  - destruct H as (Hit & Hq & Hmin). unfold startsWith.
    destruct (String.prefix query it) eqn:Hp.
    + rewrite (proj2 (Nat.leb_le _ _)) by by apply prefix_length.
      apply bool_decide_eq_true. by exists it.
    + rewrite andb_false_r. apply bool_decide_eq_false. intros (s & Hs & Hps).
      assert (String.prefix query it = true); [|congruence].
      apply (prefix_between query it s); [done| |done].
      apply Hmin; [done|]. by apply prefix_leb.
  - apply bool_decide_eq_false. intros (s & Hs & Hps).
    apply prefix_leb in Hps. rewrite (H s Hs) in Hps. done.
Qed.

(** X2.  The pairs that [getConjunctiveEqualities] extracts are
    necessary conditions: where the predicate evaluates to true, every
    extracted pair stems from a conjunct [attribute == constant] that
    evaluates to true in the same context. *)
Theorem conjunctive_equalities_hold (p : Predicate) (c : EvaluationContext)
    (name literal : string) :
  evaluate p c = Ret true ->
  (name, literal) ∈ getConjunctiveEqualities printDouble p ->
  exists nodeEdge value,
    literal = fst (getText printDouble value) /\
    evaluate (PredicateCompare equals (AttributeExpressionAttribute nodeEdge name)
                               (AttributeExpressionConstant value)) c = Ret true.
Proof.
  induction p as [p IH|p1 IH1 p2 IH2|p1 IH1 p2 IH2|ty e1 e2|e]; intros Hev Hin;
    cbn [getConjunctiveEqualities] in Hin; try by apply elem_of_nil in Hin.
  - cbn [Predicate.evaluate] in Hev. bind_inv Hev. destruct r; [|done].
    apply elem_of_app in Hin as [Hin|Hin]; [by apply IH1|by apply IH2].
  - destruct ty; try by apply elem_of_nil in Hin.
    destruct e1 as [|nodeEdge n| | |]; try by apply elem_of_nil in Hin.
    destruct e2 as [value| | | |]; try by apply elem_of_nil in Hin.
    apply list_elem_of_singleton in Hin. injection Hin as -> ->.
    by exists nodeEdge, value.
Qed.

End Predicates.

Lemma conjunctive_equalities_hold_witness :
  exists nodeEdge value,
    "S" = fst (getText printNothing value) /\
    Predicate.evaluate strtodDigits printNothing noFunctions
      (PredicateCompare equals (AttributeExpressionAttribute nodeEdge "id")
                        (AttributeExpressionConstant value))
      (LocalContext ValueExamples.cameraAttributes (mkPA ∅)) = Ret true.
Proof.
  apply (conjunctive_equalities_hold strtodDigits printNothing noFunctions
           MatchingExamples.cameraS
           (LocalContext ValueExamples.cameraAttributes (mkPA ∅)) "id" "S").
  - vm_compute. reflexivity.
  - left.
Defined.

(** ** [KeyValueAttributes::mergeAttributes] *)

Lemma foldl_setAttribute (l : list (string * AttributeValue.t)) :
  NoDup l.*1 -> forall kv,
  m_Values (foldl (fun acc e => setAttribute acc (fst e) (snd e)) kv l)
  = list_to_map l ∪ m_Values kv.
Proof.
  induction l as [|[k v] l IH]; intros Hnd kv.
  - cbn. by rewrite (left_id_L ∅ (∪)).
  - rewrite fmap_cons in Hnd. apply NoDup_cons in Hnd as [Hk Hnd].
    cbn [foldl fst snd]. rewrite IH by done. cbn [setAttribute m_Values].
    rewrite list_to_map_cons, <- insert_union_l. symmetry. apply insert_union_r.
    by apply not_elem_of_list_to_map_1.
Qed.

(** X3.  [mergeAttributes( x )] is the union of the two attribute maps
    in which the attributes of [x] win: a key of [x] gets the value it
    has in [x], and every other key keeps what it had. *)
Theorem mergeAttributes_union (kv x : KeyValueAttributes) :
  m_Values (mergeAttributes kv x) = m_Values x ∪ m_Values kv.
Proof.
  unfold mergeAttributes, entries.
  assert (Hperm : merge_sort keyLe (map_to_list (m_Values x)) ≡ₚ map_to_list (m_Values x))
    by apply merge_sort_Permutation.
  assert (Hnd : NoDup (merge_sort keyLe (map_to_list (m_Values x))).*1).
  { rewrite Hperm. apply NoDup_fst_map_to_list. }
  rewrite foldl_setAttribute by done. f_equal.
  rewrite (list_to_map_proper _ _ Hnd Hperm). apply list_to_map_to_list.
Qed.

(** ** [AttributeValue::operator==] *)

Lemma SFcompare_Eq_sym a b :
  SpecFloat.SFcompare a b = Some Eq -> SpecFloat.SFcompare b a = Some Eq.
Proof.
  destruct a as [sa|sa| |sa ma ea], b as [sb|sb| |sb mb eb]; simpl; try done;
    try (destruct sa, sb; done); try (destruct sa; done); try (destruct sb; done).
  fold (Pos.compare ma mb). fold (Pos.compare mb ma).
  destruct sa, sb; try done.
  - destruct (Z.compare ea eb) eqn:E; try done.
    apply Z.compare_eq in E. subst. rewrite Z.compare_refl.
    rewrite (Pos.compare_antisym ma mb). by destruct (Pos.compare ma mb).
  - destruct (Z.compare ea eb) eqn:E; try done.
    apply Z.compare_eq in E. subst. rewrite Z.compare_refl.
    rewrite (Pos.compare_antisym ma mb). by destruct (Pos.compare ma mb).
Qed.

(** [==] on doubles is symmetric. *)
Lemma float_eqb_sym x y : PrimFloat.eqb x y = PrimFloat.eqb y x.
Proof.
  rewrite !FloatAxioms.eqb_spec. unfold SpecFloat.SFeqb.
  destruct (SpecFloat.SFcompare (FloatOps.Prim2SF x) (FloatOps.Prim2SF y))
    as [[| |]|] eqn:E1.
  - by rewrite (SFcompare_Eq_sym _ _ E1).
  - destruct (SpecFloat.SFcompare (FloatOps.Prim2SF y) (FloatOps.Prim2SF x))
      as [[| |]|] eqn:E2; try done.
    apply SFcompare_Eq_sym in E2. congruence.
  - destruct (SpecFloat.SFcompare (FloatOps.Prim2SF y) (FloatOps.Prim2SF x))
      as [[| |]|] eqn:E2; try done.
    apply SFcompare_Eq_sym in E2. congruence.
  - destruct (SpecFloat.SFcompare (FloatOps.Prim2SF y) (FloatOps.Prim2SF x))
      as [[| |]|] eqn:E2; try done.
    apply SFcompare_Eq_sym in E2. congruence.
Qed.

Section Equality.

Variable strtod : string -> float * nat.
Variable printDouble : float -> string.

(** [strtod] leaves [endptr] inside the string it was given. *)
Hypothesis strtod_bound : forall cs, (snd (strtod cs) <= String.length cs)%nat.

Local Abbreviation isNumber := (isNumber strtod printDouble).
Local Abbreviation getText := (getText printDouble).
Local Abbreviation equal := (equal strtod printDouble).

(** Without an XML node on the left, [==] is: both are numbers with equal
    doubles, or the texts are equal. *)
Lemma equal_text a b :
  m_node a = None ->
  equal a b =
  fst (isNumber a) && fst (isNumber b)
    && PrimFloat.eqb (m_double (snd (isNumber a))) (m_double (snd (isNumber b)))
  || String.eqb (fst (getText a)) (fst (getText b)).
Proof.
  intros Ha. unfold AttributeValue.equal. rewrite Ha.
  pose proof (PredicateProps.getText_isNumber strtod printDouble strtod_bound a) as Ta.
  pose proof (PredicateProps.getText_isNumber strtod printDouble strtod_bound b) as Tb.
  destruct (isNumber a) as [na a1]. cbn [fst snd] in *.
  destruct na; cbn [andb orb].
  - destruct (isNumber b) as [nb b1]. cbn [fst snd] in *.
    rewrite Ta, Tb. by destruct (nb && _).
  - by rewrite Ta.
Qed.

(** X4.  [AttributeValue::operator==] is reflexive, and it is symmetric
    between two values that hold no XML node.  (A value with an XML node
    on the left is compared by the address of the node alone.) *)
Theorem equal_reflexive_symmetric (a b : AttributeValue.t) :
  equal a a = true /\
  (m_node a = None -> m_node b = None -> equal a b = equal b a).
Proof.
  split.
  - destruct (m_node a) as [n|] eqn:Ha.
    + unfold AttributeValue.equal. rewrite Ha. cbn. apply Nat.eqb_refl.
    + rewrite equal_text by done. rewrite String.eqb_refl. apply orb_true_r.
  - intros Ha Hb. rewrite !equal_text by done.
    rewrite (float_eqb_sym (m_double (snd (isNumber a)))).
    rewrite (String.eqb_sym (fst (getText a))).
    by rewrite (andb_comm (fst (isNumber a))).
Qed.

End Equality.

(** ["12"] and ["012"] are equal as numbers, from either side. *)
Lemma equal_reflexive_symmetric_witness :
  AttributeValue.equal strtodDigits printNothing ValueExamples.twelve ValueExamples.twelve'
  = AttributeValue.equal strtodDigits printNothing ValueExamples.twelve' ValueExamples.twelve.
Proof.
  exact (proj2 (equal_reflexive_symmetric strtodDigits printNothing
                  (fun cs => AttributeValueProps.readDigits_bound cs 0%float)
                  ValueExamples.twelve ValueExamples.twelve')
               eq_refl eq_refl).
Defined.

End ValueProps.

(* ===================================================================== *)
(** * Event queue: order, conservation and the event counters             *)
(* ===================================================================== *)

Module QueueProps.
Import EventQueue EventQueueExamples EventQueueProps.

Global Instance byPriority_trans : Transitive byPriority.
Proof. unfold byPriority. intros a b c. lia. Qed.

(** ** The insertion keeps the queue in priority order *)

Lemma insertScan_Permutation x : forall q, insertScan q x ≡ₚ x :: q.
Proof.
  induction q as [|y q IH]; simpl; [done|].
  destruct (priority y <? priority x)%N; [|done].
  rewrite IH. apply Permutation_swap.
Qed.

Lemma sortIn_Permutation q x : sortIn q x ≡ₚ x :: q.
Proof.
  unfold sortIn. destruct (last q) as [b|] eqn:E.
  - destruct (priority b <=? priority x)%N.
    + by rewrite Permutation_app_comm.
    + apply insertScan_Permutation.
  - apply last_None in E. by subst.
Qed.

Lemma insertScan_sorted x : forall q,
  StronglySorted byPriority q -> StronglySorted byPriority (insertScan q x).
Proof.
  induction q as [|y q IH]; intros Hs; simpl.
  - repeat constructor.
  - apply StronglySorted_inv in Hs as [Hq Hy].
    destruct (priority y <? priority x)%N eqn:E.
    + constructor; [by apply IH|]. rewrite insertScan_Permutation.
      constructor; [|done]. apply N.ltb_lt in E. unfold byPriority. lia.
    + apply N.ltb_ge in E. constructor; [by constructor|].
      constructor; [done|]. eapply Forall_impl; [exact Hy|].
      intros z Hz. unfold byPriority in *. lia.
Qed.

Lemma sorted_last q b :
  StronglySorted byPriority q -> last q = Some b -> Forall (fun y => byPriority y b) q.
Proof.
  induction 1 as [|y q Hs IH Hy]; intros Hl; [done|].
  destruct q as [|z q].
  - injection Hl as <-. constructor; [|done]. unfold byPriority. lia.
  - change (last (y :: z :: q)) with (last (z :: q)) in Hl.
    constructor; [|by apply IH].
    rewrite Forall_forall in Hy. apply Hy. apply last_Some_elem_of. exact Hl.
Qed.

Lemma sortIn_sorted q x :
  StronglySorted byPriority q -> StronglySorted byPriority (sortIn q x).
Proof.
  intros Hs. unfold sortIn. destruct (last q) as [b|] eqn:E.
  - destruct (priority b <=? priority x)%N eqn:Hb; [|by apply insertScan_sorted].
    apply N.leb_le in Hb. pose proof (sorted_last q b Hs E) as Hall.
    apply StronglySorted_app_2; [|done|repeat constructor].
    intros y z Hy Hz. apply list_elem_of_singleton in Hz. subst z.
    rewrite Forall_forall in Hall. specialize (Hall y Hy). unfold byPriority in *. lia.
  - repeat constructor.
Qed.

Lemma enqueueAll_sorted events : forall q rs,
  StronglySorted byPriority q -> StronglySorted byPriority (fst (enqueueAll q rs events)).
Proof.
  induction events as [|e es IH]; intros q rs Hs; simpl; [done|].
  by apply IH, sortIn_sorted.
Qed.

Lemma enqueueAll_Permutation events : forall q rs,
  fst (enqueueAll q rs events) ≡ₚ q ++ events.
Proof.
  induction events as [|e es IH]; intros q rs; simpl.
  - by rewrite app_nil_r.
  - rewrite IH, sortIn_Permutation. apply Permutation_middle.
Qed.

(** The dropping loop splits the queue into the dropped front and the
    rest. *)
Lemma dropFront_split : forall q rs,
  q = snd (dropFront q rs) ++ fst (fst (dropFront q rs)).
Proof.
  induction q as [|d q IH]; intros rs; simpl; [done|].
  destruct (tooLong rs d); [|done].
  specialize (IH (countDown (pReceiverInfo d) rs)).
  destruct (dropFront q _) as [[q' rs'] dropped]. simpl in *. by f_equal.
Qed.

Lemma queue_parts s events :
  m_Queue (fst (queue s events))
  = fst (fst (dropFront (fst (enqueueAll (m_Queue s) (receivers s) events))
                        (snd (enqueueAll (m_Queue s) (receivers s) events)))) /\
  snd (queue s events)
  = snd (dropFront (fst (enqueueAll (m_Queue s) (receivers s) events))
                   (snd (enqueueAll (m_Queue s) (receivers s) events))) /\
  receivers (fst (queue s events))
  = snd (fst (dropFront (fst (enqueueAll (m_Queue s) (receivers s) events))
                        (snd (enqueueAll (m_Queue s) (receivers s) events)))).
Proof.
  unfold queue. destruct (enqueueAll _ _ _) as [q1 rs1]. cbn [fst snd].
  by destruct (dropFront q1 rs1) as [[q2 rs2] dropped].
Qed.

Lemma queue_Permutation s events :
  snd (queue s events) ++ m_Queue (fst (queue s events)) ≡ₚ m_Queue s ++ events.
Proof.
  destruct (queue_parts s events) as (-> & -> & _).
  rewrite <- dropFront_split. apply enqueueAll_Permutation.
Qed.

(** X5.  [queue] keeps the queue in dispatch order: if the priorities
    of the queued events never go down from front to back before the
    call, they do not afterwards, however the batch is ordered. *)
Theorem queue_keeps_priority_order (s : State) (events : list QueueData) :
  StronglySorted byPriority (m_Queue s) ->
  StronglySorted byPriority (m_Queue (fst (queue s events))).
Proof.
  intros Hs. destruct (queue_parts s events) as (-> & _ & _).
  pose proof (enqueueAll_sorted events (m_Queue s) (receivers s) Hs) as H1.
  pose proof (dropFront_split (fst (enqueueAll (m_Queue s) (receivers s) events))
                (snd (enqueueAll (m_Queue s) (receivers s) events))) as Hsplit.
  rewrite Hsplit in H1. by apply StronglySorted_app_1_r in H1.
Qed.

Lemma queue_keeps_priority_order_witness :
  StronglySorted byPriority (m_Queue (fst (queue idle [e1; ex; e2]))).
Proof.
  apply (queue_keeps_priority_order idle [e1; ex; e2]). constructor.
Defined.

(** X6.  [queue] neither invents nor loses an event: the events it
    drops, together with the events it leaves in the queue, are, up to
    order, the events that were queued and the events of the batch. *)
Theorem queue_conserves_events (s : State) (events : list QueueData) :
  snd (queue s events) ++ m_Queue (fst (queue s events)) ≡ₚ m_Queue s ++ events.
Proof. apply queue_Permutation. Qed.

(** ** The counters *)

Lemma countDown_lookup r d rs ri :
  rs !! r = Some ri ->
  exists ri', countDown (pReceiverInfo d) rs !! r = Some ri' /\
    nMaxQueueLength ri' = nMaxQueueLength ri /\
    nQueuedEvents ri' = nQueuedEvents ri - (if isFor r d then 1 else 0).
Proof.
  intros Hr. unfold countDown, isFor. destruct (pReceiverInfo d) as [r'|].
  - destruct (Nat.eqb r' r) eqn:E.
    + apply Nat.eqb_eq in E. subst r'. exists (decQueued ri).
      rewrite lookup_alter_eq, Hr. simpl. done.
    + apply Nat.eqb_neq in E. exists ri.
      rewrite lookup_alter_ne by done. split; [done|]. split; [done|lia].
  - exists ri. split; [done|]. split; [done|lia].
Qed.

Lemma countDown_None r d rs :
  rs !! r = None -> countDown (pReceiverInfo d) rs !! r = None.
Proof.
  intros Hr. unfold countDown. destruct (pReceiverInfo d) as [r'|]; [|done].
  destruct (decide (r' = r)) as [->|]; [|by rewrite lookup_alter_ne].
  by rewrite lookup_alter_eq, Hr.
Qed.

Lemma countUp_None r d rs :
  rs !! r = None -> countUp (pReceiverInfo d) rs !! r = None.
Proof.
  intros Hr. unfold countUp. destruct (pReceiverInfo d) as [r'|]; [|done].
  destruct (decide (r' = r)) as [->|]; [|by rewrite lookup_alter_ne].
  by rewrite lookup_alter_eq, Hr.
Qed.

Lemma enqueueAll_None r events : forall q rs,
  rs !! r = None -> snd (enqueueAll q rs events) !! r = None.
Proof.
  induction events as [|e es IH]; intros q rs Hr; simpl; [done|].
  by apply IH, countUp_None.
Qed.

Lemma countFor_app r l1 l2 : countFor r (l1 ++ l2) = countFor r l1 + countFor r l2.
Proof.
  unfold countFor. rewrite filter_app, length_app. lia.
Qed.

Lemma countFor_Permutation r l1 l2 : l1 ≡ₚ l2 -> countFor r l1 = countFor r l2.
Proof. unfold countFor. by intros ->. Qed.

(** The dropping loop takes off a receiver's counter what it drops of the
    receiver's events. *)
Lemma dropFront_counts r : forall q rs,
  match rs !! r with
  | Some ri =>
      exists ri', snd (fst (dropFront q rs)) !! r = Some ri' /\
        nMaxQueueLength ri' = nMaxQueueLength ri /\
        nQueuedEvents ri' = nQueuedEvents ri - countFor r (snd (dropFront q rs))
  | None => snd (fst (dropFront q rs)) !! r = None
  end.
Proof.
  induction q as [|d q IH]; intros rs; simpl.
  - destruct (rs !! r) as [ri|] eqn:Hr; [|done].
    exists ri. unfold countFor. simpl. split; [done|]. split; [done|lia].
  - destruct (tooLong rs d).
    + specialize (IH (countDown (pReceiverInfo d) rs)).
      destruct (rs !! r) as [ri|] eqn:Hr.
      * destruct (countDown_lookup r d rs ri Hr) as (ri1 & H1 & Hm1 & Hc1).
        rewrite H1 in IH. destruct IH as (ri2 & H2 & Hm2 & Hc2).
        destruct (dropFront q _) as [[q' rs'] dropped]. simpl in *.
        exists ri2. split; [done|]. split; [congruence|].
        rewrite countFor_cons. lia.
      * rewrite (countDown_None r d rs Hr) in IH.
        by destruct (dropFront q _) as [[q' rs'] dropped].
    + simpl. destruct (rs !! r) as [ri|] eqn:Hr; [|done].
      exists ri. unfold countFor. simpl. split; [done|]. split; [done|lia].
Qed.

Lemma step_parts s :
  threadFunction_step s =
  match m_State s, m_Queue s with
  | state_running, d :: q' =>
      (mkState q' (countDown (pReceiverInfo d) (receivers s)) state_running,
       if tooLong (receivers s) d then None else Some d)
  | state_stopping, _ => (mkState (m_Queue s) (receivers s) state_stopped, None)
  | _, _ => (s, None)
  end.
Proof.
  unfold threadFunction_step. destruct (m_State s), (m_Queue s) as [|d q]; try done.
  by destruct (tooLong _ _).
Qed.

Lemma step_counted s : counted s -> counted (fst (threadFunction_step s)).
Proof.
  intros Hc. rewrite step_parts.
  destruct (m_State s) eqn:Es, (m_Queue s) as [|d q] eqn:Eq; try done;
    try (intros r ri Hr; cbn in Hr |- *; rewrite <- ?Eq; by apply Hc).
  intros r ri' Hr. cbn in Hr |- *.
  destruct (receivers s !! r) as [ri|] eqn:Hri.
  - destruct (countDown_lookup r d _ ri Hri) as (ri1 & H1 & _ & Hc1).
    rewrite H1 in Hr. injection Hr as <-. rewrite Hc1, (Hc r ri Hri), Eq, countFor_cons. lia.
  - by rewrite (countDown_None r d _ Hri) in Hr.
Qed.

Lemma queue_counted s events : counted s -> counted (fst (queue s events)).
Proof.
  intros Hc r ri' Hr.
  destruct (queue_parts s events) as (Hq & Hd & Hrs).
  pose proof (queue_Permutation s events) as Hperm.
  apply (countFor_Permutation r) in Hperm. rewrite !countFor_app in Hperm.
  rewrite Hrs in Hr. rewrite Hd in Hperm.
  pose proof (dropFront_counts r (fst (enqueueAll (m_Queue s) (receivers s) events))
                (snd (enqueueAll (m_Queue s) (receivers s) events))) as Hdrop.
  destruct (receivers s !! r) as [ri|] eqn:Hri.
  + destruct (enqueueAll_counts r events (m_Queue s) (receivers s) ri Hri)
      as (ri1 & H1 & _ & Hc1).
    rewrite H1 in Hdrop. destruct Hdrop as (ri2 & H2 & _ & Hc2).
    rewrite H2 in Hr. injection Hr as <-.
    rewrite Hc2, Hc1, (Hc r ri Hri). lia.
  + rewrite (enqueueAll_None r events _ _ Hri) in Hdrop. congruence.
Qed.

Lemma worker_counted : forall n s, counted s -> counted (fst (worker n s)).
Proof.
  induction n as [|n IH]; intros s Hc; [done|].
  cbn [worker]. pose proof (step_counted s Hc) as H1.
  destruct (threadFunction_step s) as [s1 o]. cbn [fst] in H1.
  specialize (IH s1 H1). by destruct (worker n s1) as [s2 l].
Qed.

(** X7.  [queue] and the worker keep the books: if the counter
    [nQueuedEvents] of every receiver is the number of its events in the
    queue, this is still so after a call of [queue], dropped events
    included, and after any number of passes of [threadFunction]. *)
Theorem queue_and_worker_keep_counters (s : State) :
  counted s ->
  (forall events, counted (fst (queue s events))) /\
  (forall n, counted (fst (worker n s))).
Proof.
  intros Hc. split.
  - intros events. by apply queue_counted.
  - intros n. by apply worker_counted.
Qed.

Lemma idle_counted : counted idle.
Proof.
  intros r ri Hr. enum_lookup Hr; reflexivity.
Qed.

Lemma queue_and_worker_keep_counters_witness :
  counted (fst (queue idle [e1; ex; e2])) /\
  counted (fst (worker 2 idle)).
Proof.
  destruct (queue_and_worker_keep_counters idle idle_counted) as [Hq Hw].
  split; [apply (Hq [e1; ex; e2])|apply (Hw 2%nat)].
Defined.

(** ** Taking events off the queue *)

Lemma countDown_same d rs r : sameReceiver (rs !! r) (countDown (pReceiverInfo d) rs !! r).
Proof.
  unfold countDown. destruct (pReceiverInfo d) as [p|].
  - destruct (decide (p = r)) as [->|].
    + rewrite lookup_alter_eq. destruct (rs !! r); by constructor.
    + rewrite lookup_alter_ne by done. destruct (rs !! r); by constructor.
  - destruct (rs !! r); by constructor.
Qed.

Lemma dispatchLoop_counts r : forall q rs,
  match rs !! r with
  | Some ri =>
      exists ri', fst (dispatchLoop q rs) !! r = Some ri' /\
        nMaxQueueLength ri' = nMaxQueueLength ri /\
        nQueuedEvents ri' = nQueuedEvents ri - countFor r q
  | None => fst (dispatchLoop q rs) !! r = None
  end.
Proof.
  induction q as [|d q IH]; intros rs; cbn [dispatchLoop].
  - destruct (rs !! r) as [ri|] eqn:Hr; [|done].
    exists ri. unfold countFor. simpl. split; [done|]. split; [done|lia].
  - specialize (IH (countDown (pReceiverInfo d) rs)).
    destruct (rs !! r) as [ri|] eqn:Hr.
    + destruct (countDown_lookup r d rs ri Hr) as (ri1 & H1 & Hm1 & Hc1).
      rewrite H1 in IH. destruct IH as (ri2 & H2 & Hm2 & Hc2).
      destruct (dispatchLoop q _) as [rs' l]. cbn [fst] in *.
      exists ri2. split; [done|]. split; [congruence|]. rewrite countFor_cons. lia.
    + rewrite (countDown_None r d rs Hr) in IH.
      by destruct (dispatchLoop q _) as [rs' l].
Qed.

Lemma clear_counts r : forall q rs,
  match rs !! r with
  | Some ri =>
      exists ri', foldl (fun rs d => countDown (pReceiverInfo d) rs) rs q !! r = Some ri' /\
        nQueuedEvents ri' = nQueuedEvents ri - countFor r q
  | None => foldl (fun rs d => countDown (pReceiverInfo d) rs) rs q !! r = None
  end.
Proof.
  induction q as [|d q IH]; intros rs; cbn [foldl].
  - destruct (rs !! r) as [ri|] eqn:Hr; [|done].
    exists ri. unfold countFor. simpl. split; [done|lia].
  - specialize (IH (countDown (pReceiverInfo d) rs)).
    destruct (rs !! r) as [ri|] eqn:Hr.
    + destruct (countDown_lookup r d rs ri Hr) as (ri1 & H1 & Hm1 & Hc1).
      rewrite H1 in IH. destruct IH as (ri2 & H2 & Hc2).
      exists ri2. split; [done|]. rewrite countFor_cons. lia.
    + by rewrite (countDown_None r d rs Hr) in IH.
Qed.

(** X8.  [clear] and [dispatchNow] leave an empty queue, and if the
    counters were right before, every counter is zero afterwards. *)
Theorem clear_and_dispatchNow_empty (s : State) :
  counted s ->
  (m_Queue (clear s) = [] /\ nothingQueued (clear s)) /\
  (m_Queue (fst (dispatchNow s)) = [] /\ nothingQueued (fst (dispatchNow s))).
Proof.
  intros Hc. split; (split; [first [done|unfold dispatchNow; by destruct (dispatchLoop _ _)]|]).
  - intros r ri' Hr. cbn in Hr.
    pose proof (clear_counts r (m_Queue s) (receivers s)) as H.
    destruct (receivers s !! r) as [ri|] eqn:Hri; [|congruence].
    destruct H as (ri2 & H2 & Hc2). rewrite H2 in Hr. injection Hr as <-.
    rewrite Hc2, (Hc r ri Hri). lia.
  - intros r ri' Hr. unfold dispatchNow in Hr.
    pose proof (dispatchLoop_counts r (m_Queue s) (receivers s)) as H.
    destruct (dispatchLoop _ _) as [rs' l]. cbn in Hr, H.
    destruct (receivers s !! r) as [ri|] eqn:Hri; [|congruence].
    destruct H as (ri2 & H2 & _ & Hc2). rewrite H2 in Hr. injection Hr as <-.
    rewrite Hc2, (Hc r ri Hri). lia.
Qed.

Lemma waiting_counted : counted waiting.
Proof. apply (queue_counted idle _ idle_counted). Qed.

Lemma clear_and_dispatchNow_empty_witness :
  (m_Queue (clear waiting) = [] /\ nothingQueued (clear waiting)) /\
  (m_Queue (fst (dispatchNow waiting)) = [] /\ nothingQueued (fst (dispatchNow waiting))).
Proof.
  apply (clear_and_dispatchNow_empty waiting waiting_counted).
Defined.

(** ** [removeComponent] *)

Lemma keeps_same f rs1 rs2 d :
  (forall r, sameReceiver (rs1 !! r) (rs2 !! r)) -> keeps f rs2 d = keeps f rs1 d.
Proof.
  intros H. unfold keeps. destruct (pReceiverInfo d) as [p|]; [|done].
  destruct (H p) as [x y [Hp _]|]; [|done]. by rewrite Hp.
Qed.

Lemma keeps_Some f (rs : gmap ptr ReceiverInfo) d (p : ptr) ri :
  pReceiverInfo d = Some p -> rs !! p = Some ri -> keeps f rs d = negb (f (pPort ri)).
Proof. intros Hd Hr. unfold keeps. by rewrite Hd, Hr. Qed.

Lemma removeEvents_spec f r : forall q rs q' rs',
  removeEvents f q rs = Ret (q', rs') ->
  q' = List.filter (keeps f rs) q /\
  (forall p, sameReceiver (rs !! p) (rs' !! p)) /\
  match rs !! r with
  | Some ri =>
      exists ri', rs' !! r = Some ri' /\
        nQueuedEvents ri' = nQueuedEvents ri - (countFor r q - countFor r q')
  | None => rs' !! r = None
  end.
Proof.
  induction q as [|d q IH]; intros rs q' rs' H; cbn [removeEvents] in H.
  - injection H as <- <-. split; [done|]. split.
    + intros p. destruct (rs !! p); by constructor.
    + destruct (rs !! r) as [ri|]; [|done]. exists ri. split; [done|]. lia.
  - assert (Hkeep : forall q1 rs1, removeEvents f q rs = Ret (q1, rs1) ->
              keeps f rs d = true -> isFor r d = isFor r d ->
              d :: q1 = List.filter (keeps f rs) (d :: q) /\
              (forall p, sameReceiver (rs !! p) (rs1 !! p)) /\
              match rs !! r with
              | Some ri =>
                  exists ri', rs1 !! r = Some ri' /\
                    nQueuedEvents ri' = nQueuedEvents ri - (countFor r (d :: q) - countFor r (d :: q1))
              | None => rs1 !! r = None
              end).
    { intros q1 rs1 H1 Hk _. destruct (IH _ _ _ H1) as (-> & Hsame & Hcount).
      split; [by cbn [List.filter]; rewrite Hk|]. split; [done|].
      destruct (rs !! r) as [ri|]; [|done]. destruct Hcount as (ri' & ? & ?).
      exists ri'. split; [done|]. rewrite !countFor_cons. lia. }
    destruct (pReceiverInfo d) as [p|] eqn:Hd.
    + bind_inv H. apply deref_ptr_Ret in H0. change (rs !! p = Some r0) in H0.
      destruct (f (pPort r0)) eqn:Hf.
      * destruct (IH _ _ _ H) as (-> & Hsame & Hcount). clear Hkeep.
        assert (Hstep : forall x, sameReceiver (rs !! x) (alter decQueued p rs !! x)).
        { intros x. pose proof (countDown_same d rs x) as Hx. by rewrite Hd in Hx. }
        split; [|split].
        -- assert (Hk : keeps f rs d = false) by (by rewrite (keeps_Some f rs d p r0 Hd H0), Hf).
           cbn [List.filter]. rewrite Hk.
           apply filter_ext. intros x. by apply keeps_same.
        -- intros x. specialize (Hstep x). specialize (Hsame x).
           destruct Hstep as [a b [? ?]|]; [|done].
           inversion Hsame as [b' c [? ?]|]; subst. constructor. split; congruence.
        -- destruct (decide (p = r)) as [->|Hne].
           ++ rewrite lookup_alter_eq, H0 in Hcount. cbn in Hcount. rewrite H0.
              destruct Hcount as (ri' & ? & Hn). exists ri'. split; [done|].
              rewrite countFor_cons, (isFor_Some r d Hd). lia.
           ++ rewrite lookup_alter_ne in Hcount by done.
              destruct (rs !! r) as [ri|]; [|done].
              destruct Hcount as (ri' & ? & Hn). exists ri'. split; [done|].
              rewrite countFor_cons. unfold isFor. rewrite Hd.
              rewrite (proj2 (Nat.eqb_neq p r)) by done. lia.
      * bind_inv H. destruct r1 as [q1 rs1]. injection H as <- <-.
        apply Hkeep; [done| |done]. by rewrite (keeps_Some f rs d p r0 Hd H0), Hf.
    + bind_inv H. destruct r0 as [q1 rs1]. injection H as <- <-.
      apply Hkeep; [done| |done]. unfold keeps. by rewrite Hd.
Qed.

(** X9.  [removeComponent] takes out exactly the events whose receiver
    has a port of the component, keeps the others in their order, and
    keeps the counters right. *)
Theorem removeComponent_removes_its_events (ofComponent : string -> bool) (s s' : State) :
  counted s ->
  removeComponent ofComponent s = Ret s' ->
  m_Queue s' = List.filter (keeps ofComponent (receivers s)) (m_Queue s) /\
  counted s'.
Proof.
  intros Hc H. unfold removeComponent in H. bind_inv H. destruct r as [q' rs'].
  injection H as <-. cbn [m_Queue receivers fst snd].
  split; [by destruct (removeEvents_spec ofComponent 0%nat _ _ _ _ H0)|].
  intros r ri' Hr. cbn in Hr |- *.
  destruct (removeEvents_spec ofComponent r _ _ _ _ H0) as (_ & _ & Hcount).
  destruct (receivers s !! r) as [ri|] eqn:Hri; [|congruence].
  destruct Hcount as (ri2 & H2 & Hc2). rewrite H2 in Hr. injection Hr as <-.
  rewrite Hc2, (Hc r ri Hri). lia.
Qed.

Lemma removeComponent_removes_its_events_witness :
  exists s',
    removeComponent ofSink waiting = Ret s' /\
    m_Queue s' = [ex] /\ counted s'.
Proof.
  eexists. split; [vm_compute; reflexivity|].
  refine (removeComponent_removes_its_events ofSink waiting _ waiting_counted _).
  vm_compute. reflexivity.
Defined.

(** ** Receivers without a limit *)

Lemma tooLong_unlimited (rs : gmap ptr ReceiverInfo) (r : ptr) ri d :
  rs !! r = Some ri -> nMaxQueueLength ri <= 0 -> isFor r d = true -> tooLong rs d = false.
Proof.
  intros Hr Hm Hd. apply isFor_true in Hd. unfold tooLong. rewrite Hd, Hr.
  by rewrite (proj2 (Z.ltb_ge 0 _)).
Qed.

Lemma eventsFor_cons r d l :
  eventsFor r (d :: l) = if isFor r d then d :: eventsFor r l else eventsFor r l.
Proof. done. Qed.

Lemma dropFront_unlimited r : forall q rs ri,
  rs !! r = Some ri -> nMaxQueueLength ri <= 0 ->
  eventsFor r (snd (dropFront q rs)) = [].
Proof.
  induction q as [|d q IH]; intros rs ri Hr Hm; cbn [dropFront]; [done|].
  destruct (tooLong rs d) eqn:Htl; [|done].
  destruct (countDown_lookup r d rs ri Hr) as (ri1 & H1 & Hm1 & _).
  specialize (IH _ ri1 H1 ltac:(lia)).
  destruct (dropFront q _) as [[q' rs'] dropped]. cbn [snd] in *.
  rewrite eventsFor_cons, IH. destruct (isFor r d) eqn:Hd; [|done].
  by rewrite (tooLong_unlimited rs r ri d Hr Hm Hd) in Htl.
Qed.

Lemma dispatchLoop_unlimited r : forall q rs ri,
  rs !! r = Some ri -> nMaxQueueLength ri <= 0 ->
  eventsFor r (snd (dispatchLoop q rs)) = eventsFor r q.
Proof.
  induction q as [|d q IH]; intros rs ri Hr Hm; cbn [dispatchLoop]; [done|].
  destruct (countDown_lookup r d rs ri Hr) as (ri1 & H1 & Hm1 & _).
  specialize (IH _ ri1 H1 ltac:(lia)).
  destruct (dispatchLoop q _) as [rs' l]. cbn [snd] in *.
  rewrite (eventsFor_cons r d q). destruct (isFor r d) eqn:Hd.
  - rewrite (tooLong_unlimited rs r ri d Hr Hm Hd), eventsFor_cons, Hd. by f_equal.
  - destruct (tooLong rs d); [done|]. by rewrite eventsFor_cons, Hd.
Qed.

(** X10.  A receiver without a limit ([nMaxQueueLength <= 0]) loses no
    event: [queue] drops none of its events, and [dispatchNow] invokes
    all its queued events, in queue order. *)
Theorem unlimited_receiver_loses_nothing (s : State) (r : ptr) (ri : ReceiverInfo) :
  receivers s !! r = Some ri ->
  nMaxQueueLength ri <= 0 ->
  (forall events, eventsFor r (snd (queue s events)) = []) /\
  eventsFor r (snd (dispatchNow s)) = eventsFor r (m_Queue s).
Proof.
  intros Hr Hm. split.
  - intros events. destruct (queue_parts s events) as (_ & -> & _).
    destruct (enqueueAll_counts r events (m_Queue s) (receivers s) ri Hr)
      as (ri1 & H1 & Hm1 & _).
    apply (dropFront_unlimited r _ _ ri1 H1). lia.
  - unfold dispatchNow.
    pose proof (dispatchLoop_unlimited r (m_Queue s) (receivers s) ri Hr Hm) as H.
    by destruct (dispatchLoop _ _).
Qed.

Lemma unlimited_receiver_loses_nothing_witness :
  (forall events, eventsFor 0%nat (snd (queue waiting events)) = []) /\
  eventsFor 0%nat (snd (dispatchNow waiting)) = eventsFor 0%nat (m_Queue waiting).
Proof.
  apply (unlimited_receiver_loses_nothing waiting 0%nat (incQueued (incQueued rcvA))).
  - vm_compute. reflexivity.
  - vm_compute. discriminate.
Defined.

(** ** The worker *)

Lemma step_idle s :
  m_State s <> state_running ->
  snd (threadFunction_step s) = None /\
  m_Queue (fst (threadFunction_step s)) = m_Queue s /\
  receivers (fst (threadFunction_step s)) = receivers s /\
  m_State (fst (threadFunction_step s))
  = match m_State s with state_stopping => state_stopped | st => st end.
Proof.
  intros Hs. rewrite step_parts.
  destruct (m_State s) eqn:Es; [done| | |]; destruct (m_Queue s) eqn:Eq; cbn;
    rewrite ?Es, ?Eq; done.
Qed.

(** X11.  The worker thread takes events off the queue only while the
    state is [state_running]: in any other state no number of passes
    invokes an event or changes the queue or a counter.  The first pass
    acknowledges a stop request ([state_stopping] becomes
    [state_stopped]); otherwise the state stays what it is.  A queue
    that is not running keeps its events and their counters. *)
Theorem worker_waits_unless_running (s : State) (n : nat) :
  m_State s <> state_running ->
  snd (worker n s) = [] /\
  m_Queue (fst (worker n s)) = m_Queue s /\
  receivers (fst (worker n s)) = receivers s /\
  m_State (fst (worker n s))
  = match n, m_State s with
    | S _, state_stopping => state_stopped
    | _, st => st
    end.
Proof.
  revert s. induction n as [|n IH]; intros s Hs.
  { cbn. by destruct (m_State s). }
  cbn [worker]. destruct (step_idle s Hs) as (Ho & Hq & Hr & Hst).
  destruct (threadFunction_step s) as [s1 o]. cbn [fst snd] in *. subst o.
  assert (Hs1 : m_State s1 <> state_running).
  { rewrite Hst. by destruct (m_State s). }
  specialize (IH s1 Hs1). destruct (worker n s1) as [s2 l2]. cbn [fst snd] in *.
  destruct IH as (Hl & Hq2 & Hr2 & Hst2).
  split; [done|]. split; [congruence|]. split; [congruence|].
  rewrite Hst2, Hst. by destruct n, (m_State s).
Qed.

(** The theorem at a stop request with three events waiting. *)
Lemma worker_waits_unless_running_witness :
  snd (worker 2 (stop_request waiting)) = [] /\
  m_Queue (fst (worker 2 (stop_request waiting))) = m_Queue (stop_request waiting) /\
  receivers (fst (worker 2 (stop_request waiting))) = receivers (stop_request waiting) /\
  m_State (fst (worker 2 (stop_request waiting)))
  = match 2%nat, m_State (stop_request waiting) with
    | S _, state_stopping => state_stopped
    | _, st => st
    end.
Proof.
  apply (worker_waits_unless_running (stop_request waiting) 2).
  vm_compute. discriminate.
Defined.

End QueueProps.

(* ===================================================================== *)
(** * The generic graph: links between maps, nodes and edges              *)
(* ===================================================================== *)

Module GraphLinkProps.
Import Graph GraphExamples GraphProps GraphRemovalProps.

(** ** [eraseFirst] on a list without repetitions *)

Lemma eraseFirst_notin (e : nat) : forall l, e ∉ l -> eraseFirst e l = l.
Proof.
  induction l as [|x l IH]; intros H; simpl; [done|].
  apply not_elem_of_cons in H as [Hx Hl].
  rewrite (proj2 (Nat.eqb_neq x e)) by done. by rewrite IH.
Qed.

Lemma eraseFirst_snoc (e : nat) l : e ∉ l -> eraseFirst e (l ++ [e]) = l.
Proof.
  induction l as [|x l IH]; intros H; simpl.
  - by rewrite Nat.eqb_refl.
  - apply not_elem_of_cons in H as [Hx Hl].
    rewrite (proj2 (Nat.eqb_neq x e)) by done. by rewrite IH.
Qed.

Lemma elem_of_eraseFirst (e e' : nat) : forall l,
  NoDup l -> e' ∈ eraseFirst e l <-> e' ∈ l /\ e' <> e.
Proof.
  induction l as [|x l IH]; intros Hnd; simpl.
  - split; [by intros ?%elem_of_nil|by intros [?%elem_of_nil _]].
  - apply NoDup_cons in Hnd as [Hx Hnd]. destruct (Nat.eqb x e) eqn:E.
    + apply Nat.eqb_eq in E. subst x. rewrite elem_of_cons. split.
      * intros H. split; [by right|]. by intros ->.
      * by intros [[->|?] ?].
    + apply Nat.eqb_neq in E. rewrite !elem_of_cons, IH by done. split.
      * intros [->|[? ?]]; [by split; [left|]|by split; [right|]].
      * intros [[->|?] ?]; [by left|by right].
Qed.

Lemma NoDup_eraseFirst (e : nat) : forall l, NoDup l -> NoDup (eraseFirst e l).
Proof.
  induction l as [|x l IH]; intros Hnd; simpl; [done|].
  apply NoDup_cons in Hnd as [Hx Hnd]. destruct (Nat.eqb x e); [done|].
  apply NoDup_cons. split; [|by apply IH].
  rewrite elem_of_eraseFirst by done. by intros [? _].
Qed.

Section Links.

Context {NodeAttributes EdgeAttributes : Type}.
Implicit Types g : Graph NodeAttributes EdgeAttributes.

(** ** What the operations do to the stores *)

Lemma addNode_Ret g (nodeName : string) data g' (n : NodePtr) :
  addNode g nodeName data = Ret (g', n) ->
  m_Nodes g !! nodeName = None /\
  nodeStore g !! n = None /\
  nodeStore g' = <[n := mkNode data nodeName [] []]> (nodeStore g) /\
  m_Nodes g' = <[nodeName := n]> (m_Nodes g) /\
  edgeStore g' = edgeStore g /\ m_Edges g' = m_Edges g.
Proof.
  unfold addNode. destruct (m_Nodes g !! nodeName); [done|].
  intros [= <- <-]. split; [done|]. split; [apply newPtr_fresh|done].
Qed.

Lemma addEdge_nodes g (edgeName : string) (source target : NodePtr) data g' (e : EdgePtr) :
  addEdge g edgeName source target data = Ret (g', e) ->
  edgeStore g !! e = None /\
  edgeStore g' = <[e := mkEdge data edgeName (Some source) (Some target)]> (edgeStore g) /\
  m_Nodes g' = m_Nodes g /\
  m_Edges g' = match m_Edges g !! edgeName with
               | Some _ => m_Edges g
               | None => <[edgeName := e]> (m_Edges g)
               end /\
  is_Some (nodeStore g !! source) /\ is_Some (nodeStore g !! target) /\
  forall k, nodeStore g' !! k = withEdge e source target k <$> nodeStore g !! k.
Proof.
  unfold addEdge. intros H. bind_inv H. bind_inv H. injection H as <- <-.
  apply deref_ptr_Ret in H0, H1.
  split; [apply newPtr_fresh|]. do 3 (split; [done|]).
  split; [by rewrite H0|]. split.
  { destruct (decide (source = target)) as [->|].
    - by rewrite H0.
    - rewrite lookup_alter_ne in H1 by done. by rewrite H1. }
  clear H0 H1. intros k. cbn [nodeStore]. unfold withEdge.
  destruct (decide (k = target)) as [Ht|Ht]; destruct (decide (k = source)) as [Hs|Hs];
    subst; repeat (rewrite lookup_alter_eq || rewrite lookup_alter_ne by congruence);
    destruct (nodeStore g !! _) as [[d nm ins outs]|]; cbn; rewrite ?app_nil_r; done.
Qed.

Lemma removeEdge_nodes g (edge : EdgePtr) g' :
  removeEdge g edge = Ret g' ->
  exists x,
    edgeStore g !! edge = Some x /\
    is_Some (m_Edges g !! edge_Name x) /\
    m_Edges g' = delete (edge_Name x) (m_Edges g) /\
    edgeStore g' = <[edge := resetEnds x]> (edgeStore g) /\
    m_Nodes g' = m_Nodes g /\
    forall k, nodeStore g' !! k
              = withoutEdge edge (m_Source x) (m_Target x) k <$> nodeStore g !! k.
Proof.
  unfold removeEdge. intros H. bind_inv H. apply deref_ptr_Ret in H0.
  destruct (m_Edges g !! edge_Name r) as [p|] eqn:Hp; [|discriminate].
  injection H as <-. exists r. cbn [m_Edges edgeStore m_Nodes nodeStore].
  split; [done|]. split; [by rewrite Hp|]. do 3 (split; [done|]).
  intros k. unfold withoutEdge.
  destruct (m_Source r) as [s|], (m_Target r) as [t|];
    repeat match goal with
           | |- context [decide (?a = ?b)] => destruct (decide (a = b)) as [[= ->]|]
           end;
    repeat (rewrite lookup_alter_eq || rewrite lookup_alter_ne by congruence);
    destruct (nodeStore g !! _) as [[d nm ins outs]|]; cbn; done.
Qed.

(** ** The operations keep the graph well linked *)

Lemma emptyGraph_linked : linked (@emptyGraph NodeAttributes EdgeAttributes).
Proof. split; intros *; cbn; by rewrite lookup_empty. Qed.

Lemma addNode_linked g nodeName data g' n :
  linked g -> addNode g nodeName data = Ret (g', n) -> linked g'.
Proof.
  intros [Hn He Ho Hi Hod Hid] (Hnew & Hfresh & HS & HN & HES & HE)%addNode_Ret.
  assert (Hold : forall k nd, nodeStore g !! k = Some nd -> nodeStore g' !! k = Some nd).
  { intros k nd Hk. rewrite HS, lookup_insert_ne; [done|]. congruence. }
  assert (Hinv : forall k nd, nodeStore g' !! k = Some nd ->
            nodeStore g !! k = Some nd \/ (m_InEdges nd = [] /\ m_OutEdges nd = [])).
  { intros k nd Hk. rewrite HS in Hk. apply lookup_insert_Some in Hk as [[_ <-]|[_ ?]]; auto. }
  split; rewrite ?HES, ?HE.
  - intros name p Hp. rewrite HN in Hp. apply lookup_insert_Some in Hp as [[<- <-]|[_ Hp]].
    + exists (mkNode data nodeName [] []). by rewrite HS, lookup_insert_eq.
    + destruct (Hn _ _ Hp) as (nd & Hnd & ?). exists nd. split; [by apply Hold|done].
  - intros name e Hx. destruct (He _ _ Hx) as (x & s & t & sn & tn & ? & ? & ? & ? & ? & ? & ? & ?).
    exists x, s, t, sn, tn. repeat (split; [first [done|by apply Hold]|]). done.
  - intros k nd e Hk Hin. destruct (Hinv _ _ Hk) as [Hk'|[_ Hnil]].
    + by apply (Ho k nd).
    + rewrite Hnil in Hin. by apply elem_of_nil in Hin.
  - intros k nd e Hk Hin. destruct (Hinv _ _ Hk) as [Hk'|[Hnil _]].
    + by apply (Hi k nd).
    + rewrite Hnil in Hin. by apply elem_of_nil in Hin.
  - intros k nd Hk. destruct (Hinv _ _ Hk) as [Hk'|[_ Hnil]].
    + by apply (Hod k).
    + rewrite Hnil. constructor.
  - intros k nd Hk. destruct (Hinv _ _ Hk) as [Hk'|[Hnil _]].
    + by apply (Hid k).
    + rewrite Hnil. constructor.
Qed.

Lemma withEdge_lookup g g' (e : EdgePtr) (s t k : NodePtr) nd' :
  (forall k, nodeStore g' !! k = withEdge e s t k <$> nodeStore g !! k) ->
  nodeStore g' !! k = Some nd' ->
  exists nd, nodeStore g !! k = Some nd /\ nd' = withEdge e s t k nd.
Proof.
  intros HS Hk. rewrite HS in Hk. destruct (nodeStore g !! k) as [nd|]; [|done].
  injection Hk as <-. by exists nd.
Qed.

Lemma addEdge_linked g edgeName source target data g' e :
  linked g -> m_Edges g !! edgeName = None ->
  addEdge g edgeName source target data = Ret (g', e) -> linked g'.
Proof.
  intros [Hn He Ho Hi Hod Hid] Hname H.
  destruct (addEdge_nodes _ _ _ _ _ _ _ H) as (Hfresh & HES & HN & HE & [sn Hsn] & [tn Htn] & HS).
  rewrite Hname in HE.
  assert (Hne : forall e' x', edgeStore g !! e' = Some x' -> e' <> e) by (intros; congruence).
  assert (Hkeep : forall e' x', edgeStore g !! e' = Some x' -> edgeStore g' !! e' = Some x').
  { intros e' x' Hx. rewrite HES, lookup_insert_ne; [done|]. intros <-. congruence. }
  assert (Hnew : edgeStore g' !! e = Some (mkEdge data edgeName (Some source) (Some target)))
    by (by rewrite HES, lookup_insert_eq).
  split.
  - intros name p Hp. rewrite HN in Hp. destruct (Hn _ _ Hp) as (nd & Hnd & ?).
    exists (withEdge e source target p nd). by rewrite HS, Hnd.
  - intros name e' Hx. rewrite HE in Hx.
    apply lookup_insert_Some in Hx as [[<- <-]|[Hnm Hx]].
    + eexists _, source, target, _, _. split; [exact Hnew|].
      do 3 (split; [done|]). rewrite !HS, Hsn, Htn. cbn [fmap option_fmap option_map].
      split; [done|]. split.
      { cbn. rewrite decide_True by done. apply elem_of_app. right. left. }
      split; [done|]. cbn. rewrite decide_True by done. apply elem_of_app. right. left.
    + destruct (He _ _ Hx) as (x & s & t & sn' & tn' & Hx' & ? & ? & ? & Hs & ? & Ht & ?).
      exists x, s, t, (withEdge e source target s sn'), (withEdge e source target t tn').
      split; [by apply (Hkeep e')|]. do 3 (split; [done|]).
      rewrite !HS, Hs, Ht. split; [done|]. split; [by apply elem_of_app; left|].
      split; [done|]. by apply elem_of_app; left.
  - intros k nd' e' Hk Hin.
    destruct (withEdge_lookup _ _ _ _ _ _ _ HS Hk) as (nd & Hnd & ->).
    cbn in Hin. apply elem_of_app in Hin as [Hin|Hin].
    + destruct (Ho _ _ _ Hnd Hin) as (x & Hx & ? & Hm). exists x.
      split; [by apply Hkeep|]. split; [done|]. rewrite HE, lookup_insert_ne; [done|].
      intros Heq. rewrite <- Heq in Hm. congruence.
    + destruct (decide (k = source)) as [->|]; [|by apply elem_of_nil in Hin].
      apply list_elem_of_singleton in Hin. subst e'.
      eexists. split; [exact Hnew|]. split; [done|]. cbn. by rewrite HE, lookup_insert_eq.
  - intros k nd' e' Hk Hin.
    destruct (withEdge_lookup _ _ _ _ _ _ _ HS Hk) as (nd & Hnd & ->).
    cbn in Hin. apply elem_of_app in Hin as [Hin|Hin].
    + destruct (Hi _ _ _ Hnd Hin) as (x & Hx & ? & Hm). exists x.
      split; [by apply Hkeep|]. split; [done|]. rewrite HE, lookup_insert_ne; [done|].
      intros Heq. rewrite <- Heq in Hm. congruence.
    + destruct (decide (k = target)) as [->|]; [|by apply elem_of_nil in Hin].
      apply list_elem_of_singleton in Hin. subst e'.
      eexists. split; [exact Hnew|]. split; [done|]. cbn. by rewrite HE, lookup_insert_eq.
  - intros k nd' Hk.
    destruct (withEdge_lookup _ _ _ _ _ _ _ HS Hk) as (nd & Hnd & ->). cbn.
    apply NoDup_app. split; [by apply (Hod k)|]. split.
    + intros e' Hin Hin'. destruct (decide (k = source)); [|by apply elem_of_nil in Hin'].
      apply list_elem_of_singleton in Hin'. subst e'.
      destruct (Ho _ _ _ Hnd Hin) as (x & Hx & _). by apply (Hne e x).
    + destruct (decide (k = source)); [apply NoDup_singleton|constructor].
  - intros k nd' Hk.
    destruct (withEdge_lookup _ _ _ _ _ _ _ HS Hk) as (nd & Hnd & ->). cbn.
    apply NoDup_app. split; [by apply (Hid k)|]. split.
    + intros e' Hin Hin'. destruct (decide (k = target)); [|by apply elem_of_nil in Hin'].
      apply list_elem_of_singleton in Hin'. subst e'.
      destruct (Hi _ _ _ Hnd Hin) as (x & Hx & _). by apply (Hne e x).
    + destruct (decide (k = target)); [apply NoDup_singleton|constructor].
Qed.

Lemma withoutEdge_lookup g g' (e : EdgePtr) (s t : option NodePtr) (k : NodePtr) nd' :
  (forall k, nodeStore g' !! k = withoutEdge e s t k <$> nodeStore g !! k) ->
  nodeStore g' !! k = Some nd' ->
  exists nd, nodeStore g !! k = Some nd /\ nd' = withoutEdge e s t k nd.
Proof.
  intros HS Hk. rewrite HS in Hk. destruct (nodeStore g !! k) as [nd|]; [|done].
  injection Hk as <-. by exists nd.
Qed.

Lemma elem_of_withoutEdge_out (e e' : EdgePtr) s t (k : NodePtr)
    (nd : GraphNode NodeAttributes) :
  NoDup (m_OutEdges nd) ->
  e' ∈ m_OutEdges (withoutEdge e s t k nd) <-> e' ∈ m_OutEdges nd /\ (s = Some k -> e' <> e).
Proof.
  intros Hnd. cbn. destruct (decide (s = Some k)).
  - rewrite elem_of_eraseFirst by done. split; intros [? ?]; (split; [done|auto]).
  - split; [intros ?; split; [done|intros; done]|by intros [? _]].
Qed.

Lemma elem_of_withoutEdge_in (e e' : EdgePtr) s t (k : NodePtr)
    (nd : GraphNode NodeAttributes) :
  NoDup (m_InEdges nd) ->
  e' ∈ m_InEdges (withoutEdge e s t k nd) <-> e' ∈ m_InEdges nd /\ (t = Some k -> e' <> e).
Proof.
  intros Hnd. cbn. destruct (decide (t = Some k)).
  - rewrite elem_of_eraseFirst by done. split; intros [? ?]; (split; [done|auto]).
  - split; [intros ?; split; [done|intros; done]|by intros [? _]].
Qed.

Lemma removeEdge_returns g (e : EdgePtr) x :
  edgeStore g !! e = Some x -> is_Some (m_Edges g !! edge_Name x) ->
  exists g', removeEdge g e = Ret g'.
Proof.
  intros Hx [p Hp]. unfold removeEdge, deref_ptr. rewrite Hx. cbn. rewrite Hp. eauto.
Qed.

Lemma removeEdge_linked g (e : EdgePtr) x g' :
  linked g -> edgeStore g !! e = Some x -> m_Edges g !! edge_Name x = Some e ->
  removeEdge g e = Ret g' ->
  linked g' /\
  m_Nodes g' = m_Nodes g /\
  m_Edges g' = delete (edge_Name x) (m_Edges g) /\
  (forall e', e' <> e -> edgeStore g' !! e' = edgeStore g !! e') /\
  (forall k, nodeStore g' !! k = withoutEdge e (m_Source x) (m_Target x) k <$> nodeStore g !! k).
Proof.
  intros [Hn He Ho Hi Hod Hid] Hx Hmap H.
  destruct (removeEdge_nodes _ _ _ H) as (x0 & Hx0 & _ & HE & HES & HN & HS).
  assert (x0 = x) by congruence. subst x0.
  assert (Hkeep : forall e', e' <> e -> edgeStore g' !! e' = edgeStore g !! e').
  { intros e' Hne. by rewrite HES, lookup_insert_ne. }
  assert (Hother : forall e' x', edgeStore g !! e' = Some x' ->
            m_Edges g !! edge_Name x' = Some e' -> e' <> e -> edge_Name x' <> edge_Name x).
  { intros e' x' Hx' Hm Hne Heq. rewrite Heq in Hm. congruence. }
  split; [|done]. split.
  - intros name p Hp. rewrite HN in Hp. destruct (Hn _ _ Hp) as (nd & Hnd & ?).
    eexists. by rewrite HS, Hnd.
  - intros name e' Hm. rewrite HE in Hm. apply lookup_delete_Some in Hm as [Hnm Hm].
    destruct (He _ _ Hm) as (x' & s & t & sn & tn & Hx' & Hname & ? & ? & Hs & ? & Ht & ?).
    assert (e' <> e) by (intros ->; congruence).
    exists x', s, t, (withoutEdge e (m_Source x) (m_Target x) s sn),
           (withoutEdge e (m_Source x) (m_Target x) t tn).
    split; [by rewrite Hkeep|]. do 3 (split; [done|]).
    rewrite !HS, Hs, Ht. split; [done|].
    split; [apply elem_of_withoutEdge_out; [by apply (Hod s)|done]|].
    split; [done|]. apply elem_of_withoutEdge_in; [by apply (Hid t)|done].
  - intros k nd' e' Hk Hin.
    destruct (withoutEdge_lookup _ _ _ _ _ _ _ HS Hk) as (nd & Hnd & ->).
    apply elem_of_withoutEdge_out in Hin as [Hin Hne]; [|by apply (Hod k)].
    destruct (Ho _ _ _ Hnd Hin) as (x' & Hx' & Hsrc & Hm).
    assert (e' <> e) by (intros ->; apply Hne; congruence).
    exists x'. split; [by rewrite Hkeep|]. split; [done|].
    rewrite HE, lookup_delete_ne; [done|]. apply not_eq_sym. by apply (Hother e').
  - intros k nd' e' Hk Hin.
    destruct (withoutEdge_lookup _ _ _ _ _ _ _ HS Hk) as (nd & Hnd & ->).
    apply elem_of_withoutEdge_in in Hin as [Hin Hne]; [|by apply (Hid k)].
    destruct (Hi _ _ _ Hnd Hin) as (x' & Hx' & Htgt & Hm).
    assert (e' <> e) by (intros ->; apply Hne; congruence).
    exists x'. split; [by rewrite Hkeep|]. split; [done|].
    rewrite HE, lookup_delete_ne; [done|]. apply not_eq_sym. by apply (Hother e').
  - intros k nd' Hk.
    destruct (withoutEdge_lookup _ _ _ _ _ _ _ HS Hk) as (nd & Hnd & ->). cbn.
    destruct (decide _); [apply NoDup_eraseFirst|]; by apply (Hod k).
  - intros k nd' Hk.
    destruct (withoutEdge_lookup _ _ _ _ _ _ _ HS Hk) as (nd & Hnd & ->). cbn.
    destruct (decide _); [apply NoDup_eraseFirst|]; by apply (Hid k).
Qed.

(** ** The loops of [removeNode] *)

(** One pass of a loop of [removeNode]: the first edge of the list is an
    edge of the graph, its removal returns, and the list loses it. *)
Lemma removeHead (pick : GraphNode NodeAttributes -> list EdgePtr) g (n : NodePtr) nd
    (e : EdgePtr) rest :
  pick = m_OutEdges \/ pick = m_InEdges ->
  linked g -> nodeStore g !! n = Some nd -> pick nd = e :: rest ->
  exists g1 nd1 x,
    removeEdge g e = Ret g1 /\ linked g1 /\
    edgeStore g !! e = Some x /\ m_Edges g !! edge_Name x = Some e /\
    m_Nodes g1 = m_Nodes g /\
    m_Edges g1 = delete (edge_Name x) (m_Edges g) /\
    (forall e', e' <> e -> edgeStore g1 !! e' = edgeStore g !! e') /\
    nodeStore g1 !! n = Some nd1 /\ pick nd1 = rest /\ node_Name nd1 = node_Name nd.
Proof.
  intros Hpick Hl Hnd Hlist.
  assert (Hin : e ∈ pick nd) by (rewrite Hlist; left).
  assert (Hstep : forall x, edgeStore g !! e = Some x -> m_Edges g !! edge_Name x = Some e ->
            pick (withoutEdge e (m_Source x) (m_Target x) n nd) = rest ->
            exists g1 nd1 x,
              removeEdge g e = Ret g1 /\ linked g1 /\
              edgeStore g !! e = Some x /\ m_Edges g !! edge_Name x = Some e /\
              m_Nodes g1 = m_Nodes g /\
              m_Edges g1 = delete (edge_Name x) (m_Edges g) /\
              (forall e', e' <> e -> edgeStore g1 !! e' = edgeStore g !! e') /\
              nodeStore g1 !! n = Some nd1 /\ pick nd1 = rest /\ node_Name nd1 = node_Name nd).
  { intros x Hx Hm Hrest.
    destruct (removeEdge_returns g e x Hx) as [g1 H1]; [by rewrite Hm|].
    destruct (removeEdge_linked g e x g1 Hl Hx Hm H1) as (Hl1 & HN & HE & HES & HS).
    exists g1, (withoutEdge e (m_Source x) (m_Target x) n nd), x.
    do 7 (split; [done|]). split; [by rewrite HS, Hnd|]. by split. }
  destruct Hpick as [Hp | Hp]; rewrite Hp in Hlist, Hin, Hstep |- *.
  - destruct (lk_out g Hl _ _ _ Hnd Hin) as (x & Hx & Hsrc & Hm).
    apply (Hstep x Hx Hm). cbn. rewrite decide_True by done.
    rewrite Hlist. cbn. by rewrite Nat.eqb_refl.
  - destruct (lk_in g Hl _ _ _ Hnd Hin) as (x & Hx & Htgt & Hm).
    apply (Hstep x Hx Hm). cbn. rewrite decide_True by done.
    rewrite Hlist. cbn. by rewrite Nat.eqb_refl.
Qed.

Lemma removeEdgesOf_linked (pick : GraphNode NodeAttributes -> list EdgePtr) (n : NodePtr) :
  pick = m_OutEdges \/ pick = m_InEdges ->
  forall fuel g nd,
    linked g -> nodeStore g !! n = Some nd -> (length (pick nd) <= fuel)%nat ->
    exists g' nd',
      removeEdgesOf fuel pick g n = Ret g' /\ linked g' /\
      m_Nodes g' = m_Nodes g /\
      nodeStore g' !! n = Some nd' /\ pick nd' = [] /\ node_Name nd' = node_Name nd /\
      (forall name e, m_Edges g' !! name = Some e <->
                      m_Edges g !! name = Some e /\ e ∉ pick nd) /\
      (forall e, e ∉ pick nd -> edgeStore g' !! e = edgeStore g !! e).
Proof.
  intros Hpick. induction fuel as [|fuel IH]; intros g nd Hl Hnd Hlen.
  - destruct (pick nd) as [|e rest] eqn:Hlist; [|cbn in Hlen; lia].
    exists g, nd. cbn. unfold deref_ptr. rewrite Hnd. cbn. rewrite Hlist.
    do 6 (split; [done|]). split; [|done].
    intros name e. split; [intros ?; split; [done|by intros ?%elem_of_nil]|by intros [? _]].
  - destruct (pick nd) as [|e rest] eqn:Hlist.
    + exists g, nd. cbn. unfold deref_ptr. rewrite Hnd. cbn. rewrite Hlist.
      do 6 (split; [done|]). split; [|done].
      intros name e. split; [intros ?; split; [done|by intros ?%elem_of_nil]|by intros [? _]].
    + destruct (removeHead pick g n nd e rest Hpick Hl Hnd Hlist)
        as (g1 & nd1 & x & H1 & Hl1 & Hx & Hm & HN1 & HE1 & HES1 & Hnd1 & Hlist1 & Hname1).
      destruct (IH g1 nd1 Hl1 Hnd1) as (g' & nd' & H' & Hl' & HN' & Hnd' & Hnil & Hname' & HE' & HES').
      { rewrite Hlist1. cbn in Hlen. lia. }
      exists g', nd'. split.
      { cbn [removeEdgesOf]. unfold deref_ptr at 1. rewrite Hnd. cbn [bindExc].
        rewrite Hlist, H1. exact H'. }
      split; [done|]. split; [congruence|]. split; [done|]. split; [done|].
      split; [congruence|]. split.
      * intros name e'. rewrite HE', Hlist1, HE1, lookup_delete_Some, not_elem_of_cons.
        split.
        -- intros [[Hnm Hm'] Hrest]. split; [done|]. split; [|done].
           intros ->. destruct (lk_edges g Hl _ _ Hm') as (x' & _ & _ & _ & _ & Hx' & Hn' & _).
           congruence.
        -- intros [Hm' [Hne Hrest]]. split; [|done]. split; [|done].
           intros Heq. rewrite Heq in Hm. congruence.
      * intros e' Hnot. apply not_elem_of_cons in Hnot as [Hne Hrest].
        rewrite HES' by (by rewrite Hlist1). by apply HES1.
Qed.

(** [removeNode] on a well linked graph: it returns, the graph stays
    well linked, the node's name is erased, and the edge map loses the
    edges that start or end at the node and no others. *)
Lemma removeNode_linked g (n : NodePtr) nd :
  linked g -> nodeStore g !! n = Some nd ->
  exists g',
    removeNode g n = Ret g' /\ linked g' /\
    m_Nodes g' = delete (node_Name nd) (m_Nodes g) /\
    (forall name e, m_Edges g' !! name = Some e <->
       m_Edges g !! name = Some e /\
       exists x, edgeStore g !! e = Some x /\ ~ incident n x).
Proof.
  intros Hl Hnd.
  destruct (removeEdgesOf_linked m_OutEdges n (or_introl eq_refl) _ g nd Hl Hnd (le_n _))
    as (g1 & nd1 & H1 & Hl1 & HN1 & Hnd1 & Hnil1 & Hname1 & HE1 & HES1).
  destruct (removeEdgesOf_linked m_InEdges n (or_intror eq_refl) _ g1 nd1 Hl1 Hnd1 (le_n _))
    as (g2 & nd2 & H2 & Hl2 & HN2 & Hnd2 & Hnil2 & Hname2 & HE2 & HES2).
  eexists. split.
  { unfold removeNode, deref_ptr. rewrite Hnd. cbn [bindExc]. rewrite H1. cbn [bindExc].
    rewrite Hnd1. cbn [bindExc]. rewrite H2. cbn [bindExc]. reflexivity. }
  split; [|split].
  - destruct Hl2 as [Hn He Ho Hi Hod Hid]. split; cbn [m_Nodes m_Edges nodeStore edgeStore]; try done.
    intros name p Hp. apply lookup_delete_Some in Hp as [_ Hp]. by apply Hn.
  - cbn [m_Nodes]. congruence.
  - cbn [m_Edges]. intros name e. rewrite HE2, HE1. split.
    + intros [[Hm Hout] Hin].
      destruct (lk_edges g Hl _ _ Hm) as (x & s & t & sn & tn & Hx & _ & Hs & Ht & Hsn & Hes & Htn & Het).
      split; [done|]. exists x. split; [done|]. intros [Hsrc|Htgt].
      * apply Hout. assert (s = n) by congruence. subst s. congruence.
      * apply Hin. assert (Hm1 : m_Edges g1 !! name = Some e) by (by apply HE1).
        destruct (lk_edges g1 Hl1 _ _ Hm1) as (x1 & s1 & t1 & sn1 & tn1 & Hx1 & _ & _ & Ht1 & _ & _ & Htn1 & Het1).
        rewrite (HES1 e Hout), Hx in Hx1. injection Hx1 as <-.
        assert (t1 = n) by congruence. subst t1. congruence.
    + intros [Hm (x & Hx & Hinc)].
      assert (Hout : e ∉ m_OutEdges nd).
      { intros Hin. destruct (lk_out g Hl _ _ _ Hnd Hin) as (x' & Hx' & Hsrc & _).
        apply Hinc. left. congruence. }
      split; [by split|]. intros Hin.
      destruct (lk_in g1 Hl1 _ _ _ Hnd1 Hin) as (x1 & Hx1 & Htgt & _).
      rewrite (HES1 e Hout), Hx in Hx1. injection Hx1 as <-. apply Hinc. by right.
Qed.

Lemma assembled_linked g : assembled g -> linked g.
Proof.
  induction 1 as [|g nodeName data g' n _ IH H|g edgeName source target data g' e _ IH Hname H
                  |g e g' _ IH (x & Hx & Hm) H|g n g' _ IH H].
  - apply emptyGraph_linked.
  - by apply (addNode_linked g nodeName data g' n).
  - apply (addEdge_linked g edgeName source target data g' e); [done| |done].
    unfold hasEdge in Hname. apply bool_decide_eq_false in Hname.
    by apply eq_None_not_Some.
  - by destruct (removeEdge_linked g e x g' IH Hx Hm H).
  - pose proof H as H'. apply removeNode_Ret in H' as (nd & Hnd & _).
    destruct (removeNode_linked g n nd IH Hnd) as (g2 & H2 & Hl2 & _). congruence.
Qed.

(** X12.  Every graph that is assembled through the interface, without
    adding an edge under a name that is in use, is well linked: the
    maps, the end points of the edges and the edge lists of the nodes
    agree, and no list holds an edge twice. *)
Theorem assembled_graph_is_linked g : assembled g -> linked g.
Proof. apply assembled_linked. Qed.

(** X13.  Removing a node of a well linked graph returns (the two
    loops over the edge lists end), leaves the graph well linked, erases
    the name of the node, and takes out of the edge map exactly the
    edges that start or end at the node. *)
Theorem removeNode_removes_incident_edges g (n : NodePtr) nd :
  linked g -> nodeStore g !! n = Some nd ->
  exists g',
    removeNode g n = Ret g' /\ linked g' /\
    m_Nodes g' = delete (node_Name nd) (m_Nodes g) /\
    (forall name e, m_Edges g' !! name = Some e <->
       m_Edges g !! name = Some e /\
       exists x, edgeStore g !! e = Some x /\ ~ incident n x).
Proof. apply removeNode_linked. Qed.

(** X14.  Adding an edge under an unused name and removing it again
    gives back the graph: the two maps and every node are as before, and
    only the edge object stays behind, with its end points reset. *)
Theorem addEdge_removeEdge_restores g edgeName (source target : NodePtr) data g1 (e : EdgePtr) :
  linked g -> m_Edges g !! edgeName = None ->
  addEdge g edgeName source target data = Ret (g1, e) ->
  removeEdge g1 e
  = Ret (setEdges g (<[e := mkEdge data edgeName None None]> (edgeStore g))).
Proof.
  intros Hl Hname H.
  destruct (addEdge_nodes _ _ _ _ _ _ _ H) as (Hfresh & HES & HN & HE & _ & _ & HS).
  rewrite Hname in HE.
  assert (Hx : edgeStore g1 !! e = Some (mkEdge data edgeName (Some source) (Some target)))
    by (by rewrite HES, lookup_insert_eq).
  destruct (removeEdge_returns g1 e _ Hx) as [g2 H2].
  { cbn. by rewrite HE, lookup_insert_eq. }
  rewrite H2. f_equal.
  destruct (removeEdge_nodes _ _ _ H2) as (x & Hx' & _ & HE2 & HES2 & HN2 & HS2).
  rewrite Hx in Hx'. injection Hx' as <-. cbn in HE2, HES2, HS2.
  destruct g as [ns es nm em], g2 as [ns2 es2 nm2 em2]. cbn in *. unfold setEdges. cbn.
  f_equal.
  - apply map_eq. intros k. rewrite HS2, HS. destruct (ns !! k) as [nd|] eqn:Hk; [|done].
    cbn. f_equal. destruct nd as [d name ins outs]. unfold withoutEdge, withEdge. cbn.
    f_equal.
    + destruct (decide (k = target)) as [->|].
      * rewrite decide_True by done. apply eraseFirst_snoc. intros Hin.
        destruct (lk_in _ Hl _ _ _ Hk Hin) as (x' & Hx' & _). cbn in Hx'. congruence.
      * rewrite decide_False by congruence. apply app_nil_r.
    + destruct (decide (k = source)) as [->|].
      * rewrite decide_True by done. apply eraseFirst_snoc. intros Hin.
        destruct (lk_out _ Hl _ _ _ Hk Hin) as (x' & Hx' & _). cbn in Hx'. congruence.
      * rewrite decide_False by congruence. apply app_nil_r.
  - rewrite HES2, HES. apply insert_insert_eq.
  - congruence.
  - rewrite HE2, HE. apply delete_insert_id. done.
Qed.

End Links.

Lemma twoNodes_assembled : assembled twoNodes.
Proof.
  unfold twoNodes.
  destruct (addNode emptyGraph "A" ()) as [[g1 a]| | |] eqn:H1; try apply assembled_empty.
  cbn [bindExc fst snd].
  destruct (addNode g1 "B" ()) as [[g2 b]| | |] eqn:H2; try apply assembled_empty.
  apply (assembled_addNode g1 "B" () g2 b); [|done].
  apply (assembled_addNode emptyGraph "A" () g1 a); [apply assembled_empty|done].
Qed.

Lemma twoNodes_edge : addEdge twoNodes "s:e" 0%nat 1%nat tt = Ret (oneEdge, 0%nat).
Proof. vm_compute. reflexivity. Qed.

Lemma oneEdge_assembled : assembled oneEdge.
Proof.
  apply (assembled_addEdge twoNodes "s:e" 0%nat 1%nat tt oneEdge 0%nat).
  - apply twoNodes_assembled.
  - vm_compute. reflexivity.
  - apply twoNodes_edge.
Qed.

Lemma assembled_graph_is_linked_witness : linked oneEdge.
Proof. apply (assembled_graph_is_linked oneEdge oneEdge_assembled). Defined.

Lemma removeNode_removes_incident_edges_witness :
  exists g',
    removeNode oneEdge 0%nat = Ret g' /\ linked g' /\
    m_Nodes g' = delete "A" (m_Nodes oneEdge) /\
    (forall name e, m_Edges g' !! name = Some e <->
       m_Edges oneEdge !! name = Some e /\
       exists x, edgeStore oneEdge !! e = Some x /\ ~ incident 0%nat x).
Proof.
  apply (removeNode_removes_incident_edges oneEdge 0%nat (mkNode tt "A" [] [0%nat])).
  - apply (assembled_linked oneEdge oneEdge_assembled).
  - vm_compute. reflexivity.
Defined.

Lemma addEdge_removeEdge_restores_witness :
  removeEdge oneEdge 0%nat
  = Ret (setEdges twoNodes (<[0%nat := mkEdge tt "s:e" None None]> (edgeStore twoNodes))).
Proof.
  apply (addEdge_removeEdge_restores twoNodes "s:e" 0%nat 1%nat tt oneEdge 0%nat).
  - apply (assembled_linked twoNodes twoNodes_assembled).
  - vm_compute. reflexivity.
  - apply twoNodes_edge.
Defined.

End GraphLinkProps.

(* ===================================================================== *)
(** * The dataflow network: the connection sets                           *)
(* ===================================================================== *)

Module WiringProps.
Import DataflowNetwork DataflowNetworkExamples StringOrder.

(** ** The order of the connections *)

Section Lexicographic.

Context {A B : Type}.
Variable lt1 : A -> A -> bool.
Variable lt2 : B -> B -> bool.

Hypothesis irrefl1 : forall a, lt1 a a = false.
Hypothesis trans1 : forall a b c, lt1 a b = true -> lt1 b c = true -> lt1 a c = true.
Hypothesis total1 : forall a b, lt1 a b = false -> lt1 b a = false -> a = b.
Hypothesis irrefl2 : forall a, lt2 a a = false.
Hypothesis trans2 : forall a b c, lt2 a b = true -> lt2 b c = true -> lt2 a c = true.
Hypothesis total2 : forall a b, lt2 a b = false -> lt2 b a = false -> a = b.

Local Abbreviation lex := (lex lt1 lt2).

Lemma asym1 a b : lt1 a b = true -> lt1 b a = false.
Proof.
  intros H. destruct (lt1 b a) eqn:E; [|done].
  pose proof (irrefl1 a) as Hi. by rewrite (trans1 _ _ _ H E) in Hi.
Qed.

Lemma lex_irrefl a1 a2 : lex a1 a2 a1 a2 = false.
Proof. unfold lex. by rewrite irrefl1, irrefl2. Qed.

Lemma lex_cases a1 a2 x1 x2 :
  lex a1 a2 x1 x2 = true <-> lt1 a1 x1 = true \/ (a1 = x1 /\ lt2 a2 x2 = true).
Proof.
  unfold lex. destruct (lt1 a1 x1) eqn:E1; cbn.
  - split; [by left|done].
  - destruct (lt1 x1 a1) eqn:E2; cbn.
    + split; [done|]. intros [?|[-> _]]; [done|]. by rewrite irrefl1 in E2.
    + split; [intros ?; right; split; [by apply total1|done]|]. by intros [?|[_ ?]].
Qed.

Lemma lex_trans a1 a2 b1 b2 c1 c2 :
  lex a1 a2 b1 b2 = true -> lex b1 b2 c1 c2 = true -> lex a1 a2 c1 c2 = true.
Proof.
  rewrite !lex_cases. intros [H1|[-> H1]] [H2|[-> H2]].
  - left. by apply (trans1 _ b1).
  - by left.
  - by left.
  - right. split; [done|]. by apply (trans2 _ b2).
Qed.

Lemma lex_total a1 a2 x1 x2 :
  lex a1 a2 x1 x2 = false -> lex x1 x2 a1 a2 = false -> a1 = x1 /\ a2 = x2.
Proof.
  unfold lex. destruct (lt1 a1 x1) eqn:E1; cbn; [done|].
  destruct (lt1 x1 a1) eqn:E2; cbn; [done|].
  intros H1 H2. split; [by apply total1|by apply total2].
Qed.

End Lexicographic.

Lemma sideLt_lex a x :
  sideLt a x = lex String.ltb String.ltb (m_componentName a) (m_portName a)
                   (m_componentName x) (m_portName x).
Proof. done. Qed.

Lemma sideLt_irrefl a : sideLt a a = false.
Proof. rewrite sideLt_lex. apply lex_irrefl; apply ltb_irrefl. Qed.

Lemma sideLt_trans a b c : sideLt a b = true -> sideLt b c = true -> sideLt a c = true.
Proof.
  rewrite !sideLt_lex.
  apply lex_trans; first [apply ltb_irrefl|apply ltb_trans|apply ltb_trichotomy].
Qed.

Lemma sideLt_total a b : sideLt a b = false -> sideLt b a = false -> a = b.
Proof.
  rewrite !sideLt_lex. intros H1 H2.
  destruct (lex_total String.ltb String.ltb ltb_trichotomy ltb_trichotomy _ _ _ _ H1 H2).
  destruct a, b. cbn in *. by subst.
Qed.

Lemma connectionLt_lex a x :
  connectionLt a x = lex sideLt sideLt (m_source a) (m_destination a)
                         (m_source x) (m_destination x).
Proof. done. Qed.

Lemma connectionLt_irrefl a : connectionLt a a = false.
Proof. rewrite connectionLt_lex. apply lex_irrefl; apply sideLt_irrefl. Qed.

Lemma connectionLt_trans a b c :
  connectionLt a b = true -> connectionLt b c = true -> connectionLt a c = true.
Proof.
  rewrite !connectionLt_lex.
  apply lex_trans; first [apply sideLt_irrefl|apply sideLt_trans|apply sideLt_total].
Qed.

Lemma connectionLt_total a b :
  connectionLt a b = false -> connectionLt b a = false -> a = b.
Proof.
  rewrite !connectionLt_lex. intros H1 H2.
  destruct (lex_total sideLt sideLt sideLt_total sideLt_total _ _ _ _ H1 H2).
  destruct a, b. cbn in *. by subst.
Qed.

(** X15.  [operator<] of [DataflowNetworkConnection] is a strict total
    order, as the ordered containers that hold connections require: no
    connection is less than itself, the relation is transitive, and two
    connections of which neither is less are the same connection. *)
Theorem connectionLt_strict_total_order :
  (forall a, connectionLt a a = false) /\
  (forall a b c, connectionLt a b = true -> connectionLt b c = true -> connectionLt a c = true) /\
  (forall a b, connectionLt a b = false -> connectionLt b a = false -> a = b).
Proof.
  split; [exact connectionLt_irrefl|]. split; [exact connectionLt_trans|exact connectionLt_total].
Qed.

Lemma connectionLt_strict_total_order_witness : connectionLt (link 0) (link 2) = true.
Proof.
  apply (proj1 (proj2 connectionLt_strict_total_order) (link 0) (link 1) (link 2));
    vm_compute; reflexivity.
Defined.

(** ** The sets *)

Global Instance isSet_order_trans : Transitive (fun a b => connectionLt a b = true).
Proof. intros a b c. apply connectionLt_trans. Qed.

Lemma equivalent_eq a b : equivalent a b = true <-> a = b.
Proof.
  unfold equivalent. split.
  - intros [H1 H2]%andb_prop. apply connectionLt_total; by apply negb_true_iff.
  - intros ->. by rewrite connectionLt_irrefl.
Qed.

Lemma setFind_spec s c : setFind s c = true <-> c ∈ s.
Proof.
  unfold setFind. rewrite existsb_exists. split.
  - intros (x & Hx & ->%equivalent_eq). by apply list_elem_of_In.
  - intros Hc. exists c. split; [by apply list_elem_of_In|by apply equivalent_eq].
Qed.

Lemma setFind_false s c : setFind s c = false <-> c ∉ s.
Proof.
  rewrite <- setFind_spec. destruct (setFind s c); split; done.
Qed.

Lemma elem_of_setInsert c x : forall s, x ∈ setInsert s c <-> x = c \/ x ∈ s.
Proof.
  induction s as [|y s IH]; cbn.
  - rewrite list_elem_of_singleton. split; [by left|]. intros [?|?%elem_of_nil]; done.
  - destruct (connectionLt c y) eqn:E1; [by rewrite elem_of_cons|].
    destruct (connectionLt y c) eqn:E2.
    + rewrite !elem_of_cons, IH. tauto.
    + rewrite (connectionLt_total _ _ E1 E2), elem_of_cons. tauto.
Qed.

Lemma setInsert_isSet c : forall s, isSet s -> isSet (setInsert s c).
Proof.
  unfold isSet. induction s as [|y s IH]; intros Hs; cbn.
  - repeat constructor.
  - apply StronglySorted_inv in Hs as [Hs Hy].
    destruct (connectionLt c y) eqn:E1.
    + constructor; [by constructor|]. constructor; [done|].
      eapply Forall_impl; [exact Hy|]. intros z Hz. by apply (connectionLt_trans _ y).
    + destruct (connectionLt y c) eqn:E2; [|by constructor].
      constructor; [by apply IH|].
      apply Forall_forall. intros z [->|Hz]%elem_of_setInsert; [done|].
      rewrite Forall_forall in Hy. by apply Hy.
Qed.

Lemma isSet_NoDup s : isSet s -> NoDup s.
Proof.
  unfold isSet. induction 1 as [|y s Hs IH Hy]; constructor; [|done].
  intros Hin. rewrite Forall_forall in Hy. specialize (Hy y Hin).
  by rewrite connectionLt_irrefl in Hy.
Qed.

Lemma elem_of_setErase c x : forall s,
  isSet s -> x ∈ setErase s c <-> x ∈ s /\ x <> c.
Proof.
  induction s as [|y s IH]; intros Hs; cbn [setErase setInsert length].
  - split; [by intros ?%elem_of_nil|by intros [?%elem_of_nil _]].
  - pose proof (isSet_NoDup _ Hs) as Hnd. apply NoDup_cons in Hnd as [Hy _].
    apply StronglySorted_inv in Hs as [Hs _].
    destruct (equivalent c y) eqn:E.
    + apply equivalent_eq in E. subst y. rewrite elem_of_cons. split.
      * intros Hx. split; [by right|]. by intros ->.
      * by intros [[->|?] ?].
    + assert (c <> y) by (intros Heq; apply equivalent_eq in Heq; congruence).
      rewrite !elem_of_cons, IH by done. split.
      * intros [->|[? ?]]; [split; [by left|done]|split; [by right|done]].
      * intros [[->|?] ?]; [by left|by right].
Qed.

Lemma setErase_isSet c : forall s, isSet s -> isSet (setErase s c).
Proof.
  induction s as [|y s IH]; intros Hs; cbn [setErase setInsert length]; [done|].
  pose proof Hs as Hs'. apply StronglySorted_inv in Hs' as [Hs1 Hy].
  destruct (equivalent c y); [done|].
  constructor; [by apply IH|].
  apply Forall_forall. intros z [Hz _]%elem_of_setErase; [|done].
  rewrite Forall_forall in Hy. by apply Hy.
Qed.

Lemma setErase_notin c : forall s, c ∉ s -> setErase s c = s.
Proof.
  induction s as [|y s IH]; intros Hc; cbn [setErase setInsert length]; [done|].
  apply not_elem_of_cons in Hc as [Hy Hs].
  destruct (equivalent c y) eqn:E; [by apply equivalent_eq in E|].
  by rewrite IH.
Qed.

Lemma setErase_setInsert c : forall s, c ∉ s -> setErase (setInsert s c) c = s.
Proof.
  induction s as [|y s IH]; intros Hc; cbn [setErase setInsert length].
  - by rewrite (proj2 (equivalent_eq c c)).
  - apply not_elem_of_cons in Hc as [Hy Hs].
    destruct (connectionLt c y) eqn:E1.
    + cbn [setErase setInsert length]. by rewrite (proj2 (equivalent_eq c c)).
    + destruct (connectionLt y c) eqn:E2.
      * cbn [setErase setInsert length]. destruct (equivalent c y) eqn:E; [by apply equivalent_eq in E|].
        by rewrite IH.
      * by destruct Hy; apply connectionLt_total.
Qed.

Lemma setErase_length c s : c ∈ s -> isSet s -> S (length (setErase s c)) = length s.
Proof.
  induction s as [|y s IH]; intros Hc Hs; cbn [setErase setInsert length]; [by apply elem_of_nil in Hc|].
  destruct (equivalent c y) eqn:E; [done|].
  apply elem_of_cons in Hc as [->|Hc]; [by rewrite (proj2 (equivalent_eq y y)) in E|].
  apply StronglySorted_inv in Hs as [Hs _]. cbn [setErase setInsert length]. by rewrite IH.
Qed.

(** ** The index kept by [connectComponents] and [disconnectComponents] *)

Lemma lookup_updated (m : gmap string (list DataflowNetworkConnection)) k v name :
  default [] (<[k := v]> m !! name) = if decide (k = name) then v else default [] (m !! name).
Proof.
  destruct (decide (k = name)) as [->|].
  - by rewrite lookup_insert_eq.
  - by rewrite lookup_insert_ne.
Qed.

(** The network after [connection] was entered into the three
    containers, and after it was taken out. *)
Lemma indexed_insert net conn :
  indexed net -> conn ∉ m_allConnections net ->
  indexed (withConnections net
    (<[m_componentName (m_destination conn) :=
         setInsert (inConnections net (m_componentName (m_destination conn))) conn]>
       (m_inConnectionMap net))
    (<[m_componentName (m_source conn) :=
         setInsert (outConnections net (m_componentName (m_source conn))) conn]>
       (m_outConnectionMap net))
    (setInsert (m_allConnections net) conn)).
Proof.
  intros [Hall Hins Houts Hin Hout] Hnew.
  split; unfold inConnections, outConnections in *; cbn [withConnections m_allConnections
    m_inConnectionMap m_outConnectionMap].
  - by apply setInsert_isSet.
  - intros name. rewrite lookup_updated. destruct (decide _); [by apply setInsert_isSet|done].
  - intros name. rewrite lookup_updated. destruct (decide _); [by apply setInsert_isSet|done].
  - intros name c. rewrite lookup_updated, elem_of_setInsert.
    destruct (decide _) as [<-|Hne].
    + rewrite elem_of_setInsert, Hin. split.
      * intros [->|[? ?]]; [by split; [left|]|by split; [right|]].
      * intros [[->|?] ?]; [by left|by right].
    + rewrite Hin. split.
      * intros [? ?]. by split; [right|].
      * intros [[->|?] ?]; [done|by split].
  - intros name c. rewrite lookup_updated, elem_of_setInsert.
    destruct (decide _) as [<-|Hne].
    + rewrite elem_of_setInsert, Hout. split.
      * intros [->|[? ?]]; [by split; [left|]|by split; [right|]].
      * intros [[->|?] ?]; [by left|by right].
    + rewrite Hout. split.
      * intros [? ?]. by split; [right|].
      * intros [[->|?] ?]; [done|by split].
Qed.

Lemma indexed_erase net conn :
  indexed net ->
  indexed (withConnections net
    (<[m_componentName (m_destination conn) :=
         setErase (inConnections net (m_componentName (m_destination conn))) conn]>
       (m_inConnectionMap net))
    (<[m_componentName (m_source conn) :=
         setErase (outConnections net (m_componentName (m_source conn))) conn]>
       (m_outConnectionMap net))
    (setErase (m_allConnections net) conn)).
Proof.
  intros [Hall Hins Houts Hin Hout].
  split; unfold inConnections, outConnections in *; cbn [withConnections m_allConnections
    m_inConnectionMap m_outConnectionMap].
  - by apply setErase_isSet.
  - intros name. rewrite lookup_updated. destruct (decide _); [by apply setErase_isSet|done].
  - intros name. rewrite lookup_updated. destruct (decide _); [by apply setErase_isSet|done].
  - intros name c. rewrite lookup_updated, (elem_of_setErase conn c _ Hall).
    destruct (decide _) as [<-|Hne].
    + rewrite (elem_of_setErase conn c _ (Hins _)), Hin. tauto.
    + rewrite Hin. split; [|tauto].
      intros [? ?]. split; [|done]. split; [done|]. by intros ->.
  - intros name c. rewrite lookup_updated, (elem_of_setErase conn c _ Hall).
    destruct (decide _) as [<-|Hne].
    + rewrite (elem_of_setErase conn c _ (Houts _)), Hout. tauto.
    + rewrite Hout. split; [|tauto].
      intros [? ?]. split; [|done]. split; [done|]. by intros ->.
Qed.

(** With the same components and a set of connections whose ends are
    registered, an indexed network is well formed. *)
Lemma wellFormed_connections net net' :
  wellFormed net -> indexed net' ->
  components net' = components net ->
  m_componentIDMap net' = m_componentIDMap net ->
  (forall c, c ∈ m_allConnections net' ->
     c ∈ m_allConnections net \/
     (is_Some (m_componentIDMap net !! m_componentName (m_source c)) /\
      is_Some (m_componentIDMap net !! m_componentName (m_destination c)))) ->
  wellFormed net'.
Proof.
  intros [Hn Hs Hd _ _] [_ _ _ Hin Hout] Hc Hid Hsub. split; rewrite ?Hc, ?Hid; try done.
  - intros c Hin'. destruct (Hsub c Hin') as [?|[? _]]; [by apply Hs|done].
  - intros c Hin'. destruct (Hsub c Hin') as [?|[_ ?]]; [by apply Hd|done].
Qed.

Section Wiring.

Variable PortState : Type.
Variable m_PortMap : nat -> gmap string nat.
Variable connect : nat -> nat -> PortState -> Exc PortState.
Variable disconnect : nat -> nat -> PortState -> Exc PortState.

Local Abbreviation connectComponents :=
  (connectComponents PortState m_PortMap connect disconnect).
Local Abbreviation disconnectComponents :=
  (disconnectComponents PortState m_PortMap disconnect).
Local Abbreviation disconnectAll := (disconnectAll PortState m_PortMap disconnect).
Local Abbreviation disconnectComponent := (disconnectComponent PortState m_PortMap disconnect).
Local Abbreviation dropComponent := (dropComponent PortState m_PortMap disconnect).

Lemma getPortPair_Ret net conn pp :
  getPortPair m_PortMap net conn = Ret pp ->
  is_Some (m_componentIDMap net !! m_componentName (m_source conn)) /\
  is_Some (m_componentIDMap net !! m_componentName (m_destination conn)).
Proof.
  unfold getPortPair, componentByName. intros H.
  destruct (m_componentIDMap net !! m_componentName (m_source conn)); [|done].
  destruct (m_componentIDMap net !! m_componentName (m_destination conn)); [|done].
  done.
Qed.

Lemma connectComponents_Ret net ps conn net' ps' :
  connectComponents net ps conn = Ret (net', ps') ->
  (conn ∉ m_allConnections net) /\
  is_Some (m_componentIDMap net !! m_componentName (m_source conn)) /\
  is_Some (m_componentIDMap net !! m_componentName (m_destination conn)) /\
  net' = withConnections net
    (<[m_componentName (m_destination conn) :=
         setInsert (inConnections net (m_componentName (m_destination conn))) conn]>
       (m_inConnectionMap net))
    (<[m_componentName (m_source conn) :=
         setInsert (outConnections net (m_componentName (m_source conn))) conn]>
       (m_outConnectionMap net))
    (setInsert (m_allConnections net) conn).
Proof.
  unfold DataflowNetwork.connectComponents. intros H.
  destruct (setFind (m_allConnections net) conn) eqn:Hf; [done|].
  apply setFind_false in Hf. bind_inv H. bind_inv H. injection H as <- _.
  by destruct (getPortPair_Ret _ _ _ H0).
Qed.

Lemma disconnectComponents_Ret net ps conn net' ps' :
  disconnectComponents net ps conn = Ret (net', ps') ->
  conn ∈ m_allConnections net /\
  net' = withConnections net
    (<[m_componentName (m_destination conn) :=
         setErase (inConnections net (m_componentName (m_destination conn))) conn]>
       (m_inConnectionMap net))
    (<[m_componentName (m_source conn) :=
         setErase (outConnections net (m_componentName (m_source conn))) conn]>
       (m_outConnectionMap net))
    (setErase (m_allConnections net) conn).
Proof.
  unfold DataflowNetwork.disconnectComponents. intros H.
  destruct (setFind (m_allConnections net) conn) eqn:Hf; [|done].
  apply setFind_spec in Hf. cbn [negb] in H. bind_inv H. bind_inv H. bind_inv H.
  by injection H as <- _.
Qed.

(** X16.  [connectComponents] refuses a connection that is in
    [m_allConnections].  When it returns, both components are
    registered and the connection was not there before; it is now in the
    three containers, which stay sets and keep indexing
    [m_allConnections] by destination and by source, and a well formed
    network stays well formed. *)
Theorem connectComponents_enters_connection net ps conn :
  indexed net ->
  (conn ∈ m_allConnections net -> exists msg, connectComponents net ps conn = Throw msg) /\
  (forall net' ps', connectComponents net ps conn = Ret (net', ps') ->
     (conn ∉ m_allConnections net) /\
     is_Some (m_componentIDMap net !! m_componentName (m_source conn)) /\
     is_Some (m_componentIDMap net !! m_componentName (m_destination conn)) /\
     indexed net' /\
     (forall c, c ∈ m_allConnections net' <-> c = conn \/ c ∈ m_allConnections net) /\
     (wellFormed net -> wellFormed net')).
Proof.
  intros Hix. split.
  - intros Hin. apply setFind_spec in Hin. unfold DataflowNetwork.connectComponents.
    rewrite Hin. eauto.
  - intros net' ps' H. destruct (connectComponents_Ret _ _ _ _ _ H) as (Hnew & Hs & Hd & ->).
    do 3 (split; [done|]). split; [by apply indexed_insert|].
    split; [intros c; apply elem_of_setInsert|].
    intros Hwf. apply (wellFormed_connections net); [done|by apply indexed_insert|done|done|].
    intros c [->|?]%elem_of_setInsert; [by right|by left].
Qed.

(** X17.  Disconnecting a connection that was just made restores the
    connection sets: [m_allConnections] and the sets of every component
    in the two maps are what they were. *)
Theorem connect_disconnect_restores net ps conn net1 ps1 net2 ps2 :
  indexed net ->
  connectComponents net ps conn = Ret (net1, ps1) ->
  disconnectComponents net1 ps1 conn = Ret (net2, ps2) ->
  m_allConnections net2 = m_allConnections net /\
  (forall name, inConnections net2 name = inConnections net name) /\
  (forall name, outConnections net2 name = outConnections net name).
Proof.
  intros Hix H1 H2.
  destruct (connectComponents_Ret _ _ _ _ _ H1) as (Hnew & _ & _ & ->).
  destruct (disconnectComponents_Ret _ _ _ _ _ H2) as (_ & ->).
  unfold inConnections, outConnections.
  cbn [withConnections m_allConnections m_inConnectionMap m_outConnectionMap].
  split; [by apply setErase_setInsert|]. split.
  - intros name. rewrite lookup_updated. destruct (decide _) as [<-|Hne].
    + rewrite lookup_insert_eq. cbn. apply setErase_setInsert.
      intros Hin. apply (ix_in net Hix) in Hin. by destruct Hin.
    + by rewrite lookup_insert_ne.
  - intros name. rewrite lookup_updated. destruct (decide _) as [<-|Hne].
    + rewrite lookup_insert_eq. cbn. apply setErase_setInsert.
      intros Hin. apply (ix_out net Hix) in Hin. by destruct Hin.
    + by rewrite lookup_insert_ne.
Qed.

(** ** [disconnectComponent] and [dropComponent] *)

(** The exceptions of the ports are exceptions of the program. *)
Hypothesis disconnect_fuel : forall a b ps, disconnect a b ps <> OutOfFuel.

Lemma disconnectComponents_fuel net ps conn :
  disconnectComponents net ps conn <> OutOfFuel.
Proof.
  unfold DataflowNetwork.disconnectComponents, getPortPair, componentByName, getPortByName.
  destruct (negb _); [done|].
  destruct (m_componentIDMap net !! _) as [src|]; [|done].
  destruct (m_componentIDMap net !! _) as [dst|]; [|done]. cbn [bindExc].
  unfold deref_ptr. destruct (components net !! src); [|done]. cbn [bindExc].
  destruct (m_PortMap src !! _) as [sp|]; [|done]. cbn [bindExc].
  destruct (components net !! dst); [|done]. cbn [bindExc].
  destruct (m_PortMap dst !! _) as [dp|]; [|done]. cbn [bindExc fst snd].
  pose proof (disconnect_fuel dp sp ps) as H1.
  destruct (disconnect dp sp ps) as [ps1| | |]; try done. cbn [bindExc].
  pose proof (disconnect_fuel sp dp ps1) as H2.
  by destruct (disconnect sp dp ps1).
Qed.

Lemma disconnectAll_spec (which : Network -> list DataflowNetworkConnection)
    (endOf : DataflowNetworkConnection -> string) (name : string) :
  (forall net, indexed net ->
     forall c, c ∈ which net <-> c ∈ m_allConnections net /\ endOf c = name) ->
  forall fuel net ps,
    indexed net -> (length (m_allConnections net) < fuel)%nat ->
    disconnectAll fuel which net ps <> OutOfFuel /\
    forall net' ps', disconnectAll fuel which net ps = Ret (net', ps') ->
      indexed net' /\ which net' = [] /\
      components net' = components net /\
      m_componentIDMap net' = m_componentIDMap net /\
      (forall c, c ∈ m_allConnections net' <-> c ∈ m_allConnections net /\ endOf c <> name).
Proof.
  intros Hwhich. induction fuel as [|fuel IH]; intros net ps Hix Hlen; [lia|].
  cbn [DataflowNetwork.disconnectAll].
  destruct (which net) as [|conn rest] eqn:Hw.
  - split; [done|]. intros net' ps' [= <- <-]. do 4 (split; [done|]).
    intros c. split; [|by intros [? _]]. intros Hc. split; [done|]. intros He.
    assert (c ∈ which net) as Hin by (by apply Hwhich). rewrite Hw in Hin.
    by apply elem_of_nil in Hin.
  - assert (conn ∈ which net) as Hin by (rewrite Hw; left).
    apply (Hwhich net Hix) in Hin as [Hall Hend].
    pose proof (disconnectComponents_fuel net ps conn) as Hf.
    destruct (disconnectComponents net ps conn) as [[net1 ps1]| | |] eqn:H1; try done.
    cbn [bindExc fst snd].
    destruct (disconnectComponents_Ret _ _ _ _ _ H1) as (_ & Hnet1).
    assert (Hix1 : indexed net1) by (rewrite Hnet1; by apply indexed_erase).
    assert (Hall1 : m_allConnections net1 = setErase (m_allConnections net) conn)
      by (by rewrite Hnet1).
    assert (Hlen1 : (length (m_allConnections net1) < fuel)%nat).
    { rewrite Hall1. pose proof (setErase_length conn _ Hall (ix_all net Hix)). lia. }
    destruct (IH net1 ps1 Hix1 Hlen1) as [Hfuel Hret]. split; [done|].
    intros net' ps' H'. destruct (Hret net' ps' H') as (Hix' & Hnil & Hc & Hid & Hchar).
    split; [done|]. split; [done|]. split; [by rewrite Hc, Hnet1|].
    split; [by rewrite Hid, Hnet1|].
    intros c. rewrite Hchar, Hall1, (elem_of_setErase conn c _ (ix_all net Hix)). split.
    + by intros [[? ?] ?].
    + intros [? ?]. split; [|done]. split; [done|]. by intros ->.
Qed.

Lemma indexed_same net net' :
  indexed net ->
  m_allConnections net' = m_allConnections net ->
  (forall name, inConnections net' name = inConnections net name) ->
  (forall name, outConnections net' name = outConnections net name) ->
  indexed net'.
Proof.
  intros [Hall Hins Houts Hin Hout] Ha Hi Ho. split; intros *; rewrite ?Ha, ?Hi, ?Ho; auto.
Qed.

Lemma delete_empty (m : gmap string (list DataflowNetworkConnection)) name n :
  default [] (m !! name) = [] -> default [] (delete name m !! n) = default [] (m !! n).
Proof.
  intros Hnil. destruct (decide (name = n)) as [<-|].
  - by rewrite lookup_delete_eq, Hnil.
  - by rewrite lookup_delete_ne.
Qed.

(** [disconnectComponent]: the loops end, and what is left are the
    connections that do not touch the component. *)
Lemma disconnectComponent_spec net ps name :
  indexed net ->
  disconnectComponent net ps name <> OutOfFuel /\
  forall net' ps', disconnectComponent net ps name = Ret (net', ps') ->
    indexed net' /\
    components net' = components net /\
    m_componentIDMap net' = m_componentIDMap net /\
    (forall c, c ∈ m_allConnections net' <-> c ∈ m_allConnections net /\ ~ touches name c).
Proof.
  intros Hix. unfold DataflowNetwork.disconnectComponent.
  set (phase1 := if bool_decide (is_Some (m_inConnectionMap net !! name)) then _ else _).
  assert (H1 : phase1 <> OutOfFuel /\
            forall net1 ps1, phase1 = Ret (net1, ps1) ->
              indexed net1 /\ components net1 = components net /\
              m_componentIDMap net1 = m_componentIDMap net /\
              (forall c, c ∈ m_allConnections net1 <->
                 c ∈ m_allConnections net /\ m_componentName (m_destination c) <> name)).
  { subst phase1. destruct (bool_decide _) eqn:Hkey.
    - destruct (disconnectAll_spec (fun n => inConnections n name)
                  (fun c => m_componentName (m_destination c)) name
                  (fun n Hn c => ix_in n Hn name c)
                  (S (length (m_allConnections net))) net ps Hix (Nat.lt_succ_diag_r _))
        as [Hfuel Hret].
      destruct (disconnectAll _ _ net ps) as [[netA psA]| | |]; try done.
      split; [done|]. cbn [bindExc fst snd]. intros net1 ps1 [= <- <-].
      destruct (Hret netA psA eq_refl) as (HixA & Hnil & Hc & Hid & Hchar).
      split; [|done].
      apply (indexed_same netA); [done|done| |done].
      intros n. unfold inConnections. cbn. by apply delete_empty.
    - split; [done|]. intros net1 ps1 [= <- <-]. do 3 (split; [done|]).
      intros c. split; [|by intros [? _]]. intros Hc. split; [done|]. intros Hd.
      assert (c ∈ inConnections net name) as Hin by (by apply (ix_in net Hix)).
      unfold inConnections in Hin. apply bool_decide_eq_false in Hkey.
      apply eq_None_not_Some in Hkey. rewrite Hkey in Hin. by apply elem_of_nil in Hin. }
  destruct H1 as [Hf1 Hr1]. destruct phase1 as [[net1 ps1]| | |]; try done.
  cbn [bindExc fst snd]. destruct (Hr1 net1 ps1 eq_refl) as (Hix1 & Hc1 & Hid1 & Hchar1).
  assert (Hfinal : forall c,
            (c ∈ m_allConnections net1 /\ m_componentName (m_source c) <> name) <->
            (c ∈ m_allConnections net /\ ~ touches name c)).
  { intros c. rewrite Hchar1. unfold touches. tauto. }
  destruct (bool_decide (is_Some (m_outConnectionMap net1 !! name))) eqn:Hkey.
  - destruct (disconnectAll_spec (fun n => outConnections n name)
                (fun c => m_componentName (m_source c)) name
                (fun n Hn c => ix_out n Hn name c)
                (S (length (m_allConnections net1))) net1 ps1 Hix1 (Nat.lt_succ_diag_r _))
      as [Hfuel Hret].
    destruct (disconnectAll _ _ net1 ps1) as [[netB psB]| | |]; try done.
    split; [done|]. cbn [bindExc fst snd]. intros net' ps' [= <- <-].
    destruct (Hret netB psB eq_refl) as (HixB & Hnil & Hc & Hid & Hchar).
    split.
    { apply (indexed_same netB); [done|done|done|].
      intros n. unfold outConnections. cbn. by apply delete_empty. }
    split; [cbn; congruence|]. split; [cbn; congruence|].
    intros c. cbn [withConnections m_allConnections]. rewrite Hchar. by apply (Hfinal c).
  - split; [done|]. intros net' ps' [= <- <-]. do 3 (split; [done|]).
    intros c. rewrite <- (Hfinal c). split; [|by intros [? _]].
    intros Hc. split; [done|]. intros Hs.
    assert (c ∈ outConnections net1 name) as Hin by (by apply (ix_out net1 Hix1)).
    unfold outConnections in Hin. apply bool_decide_eq_false in Hkey.
    apply eq_None_not_Some in Hkey. rewrite Hkey in Hin. by apply elem_of_nil in Hin.
Qed.

(** X18.  [disconnectComponent( name )] on indexed connection sets:
    its two loops end, and when it returns, the connections left are
    exactly those that have the component at neither end; the sets stay
    indexed and a well formed network stays well formed. *)
Theorem disconnectComponent_isolates net ps name :
  indexed net ->
  disconnectComponent net ps name <> OutOfFuel /\
  forall net' ps', disconnectComponent net ps name = Ret (net', ps') ->
    indexed net' /\
    (forall c, c ∈ m_allConnections net' <-> c ∈ m_allConnections net /\ ~ touches name c) /\
    (wellFormed net -> wellFormed net').
Proof.
  intros Hix. destruct (disconnectComponent_spec net ps name Hix) as [Hfuel Hret].
  split; [done|]. intros net' ps' H.
  destruct (Hret net' ps' H) as (Hix' & Hc & Hid & Hchar).
  split; [done|]. split; [done|]. intros Hwf.
  apply (wellFormed_connections net); try done.
  intros c [? _]%Hchar. by left.
Qed.

(** X19.  [dropComponent( name )] throws for a name that is not
    registered.  When it returns, the name is no longer registered, no
    connection that touches the component is left, every other
    connection is, and a well formed network stays well formed. *)
Theorem dropComponent_removes_component net ps name :
  indexed net ->
  (m_componentIDMap net !! name = None -> exists msg, dropComponent net ps name = Throw msg) /\
  forall net' ps', dropComponent net ps name = Ret (net', ps') ->
    m_componentIDMap net' = delete name (m_componentIDMap net) /\
    indexed net' /\
    (forall c, c ∈ m_allConnections net' <-> c ∈ m_allConnections net /\ ~ touches name c) /\
    (wellFormed net -> wellFormed net').
Proof.
  intros Hix. unfold DataflowNetwork.dropComponent. split.
  - intros ->. eauto.
  - intros net' ps' H. destruct (m_componentIDMap net !! name) as [p|] eqn:Hp; [|done].
    bind_inv H. destruct r as [netA psA]. injection H as <- <-. cbn [fst snd] in *.
    destruct (disconnectComponent_spec net ps name Hix) as [_ Hret].
    destruct (Hret netA psA H0) as (HixA & Hc & Hid & Hchar).
    split; [cbn; by rewrite Hid|]. split.
    { apply (indexed_same netA); done. }
    split; [done|]. intros [Hn Hs Hd Hin Hout]. destruct HixA as [_ _ _ HinA HoutA].
    split; cbn [components m_componentIDMap m_allConnections]; try done.
    + intros id q [_ Hq]%lookup_delete_Some. rewrite Hc. apply Hn. by rewrite <- Hid.
    + intros c [Hall Ht]%Hchar. rewrite lookup_delete_ne, Hid; [by apply Hs|].
      intros Heq. apply Ht. by left.
    + intros c [Hall Ht]%Hchar. rewrite lookup_delete_ne, Hid; [by apply Hd|].
      intros Heq. apply Ht. by right.
Qed.

End Wiring.

(** ** The chain [c0 -> c1] and a connection back *)

Lemma chain1_indexed : indexed (chain 1).
Proof.
  pose proof DataflowNetworkProps.chain1_wellFormed as [_ _ _ Hin Hout].
  split; [| | |exact Hin|exact Hout].
  - repeat constructor.
  - intros name. unfold inConnections.
    destruct (m_inConnectionMap (chain 1) !! name) as [l|] eqn:E; [|constructor].
    enum_lookup E. repeat constructor.
  - intros name. unfold outConnections.
    destruct (m_outConnectionMap (chain 1) !! name) as [l|] eqn:E; [|constructor].
    enum_lookup E. repeat constructor.
Qed.

Lemma looped_run :
  connectComponents unit plainPorts plainConnect plainConnect (chain 1) tt back
  = Ret (looped, tt).
Proof. vm_compute. reflexivity. Qed.

Lemma looped_indexed : indexed looped.
Proof.
  destruct (connectComponents_Ret unit plainPorts plainConnect plainConnect _ _ _ _ _ looped_run)
    as (Hnew & _ & _ & ->).
  apply indexed_insert; [apply chain1_indexed|exact Hnew].
Qed.

Lemma plainConnect_fuel (a b : nat) (ps : unit) : plainConnect a b ps <> OutOfFuel.
Proof. discriminate. Qed.

Lemma connectComponents_enters_connection_witness :
  (back ∉ m_allConnections (chain 1)) /\
  is_Some (m_componentIDMap (chain 1) !! m_componentName (m_source back)) /\
  is_Some (m_componentIDMap (chain 1) !! m_componentName (m_destination back)) /\
  indexed looped /\
  (forall c, c ∈ m_allConnections looped <-> c = back \/ c ∈ m_allConnections (chain 1)) /\
  (wellFormed (chain 1) -> wellFormed looped).
Proof.
  exact (proj2 (connectComponents_enters_connection unit plainPorts plainConnect plainConnect
                  (chain 1) tt back chain1_indexed) looped tt looped_run).
Defined.

Lemma connect_disconnect_restores_witness :
  m_allConnections unlooped = m_allConnections (chain 1) /\
  (forall name, inConnections unlooped name = inConnections (chain 1) name) /\
  (forall name, outConnections unlooped name = outConnections (chain 1) name).
Proof.
  apply (connect_disconnect_restores unit plainPorts plainConnect plainConnect
           (chain 1) tt back looped tt unlooped tt chain1_indexed looped_run).
  vm_compute. reflexivity.
Defined.

Lemma disconnectComponent_isolates_witness :
  indexed isolated /\
  (forall c, c ∈ m_allConnections isolated <->
             c ∈ m_allConnections looped /\ ~ touches (compName 1) c) /\
  (wellFormed looped -> wellFormed isolated).
Proof.
  apply (proj2 (disconnectComponent_isolates unit plainPorts plainConnect plainConnect_fuel
                  looped tt (compName 1) looped_indexed) isolated tt).
  vm_compute. reflexivity.
Defined.

Lemma dropComponent_removes_component_witness :
  m_componentIDMap dropped = delete (compName 1) (m_componentIDMap looped) /\
  indexed dropped /\
  (forall c, c ∈ m_allConnections dropped <->
             c ∈ m_allConnections looped /\ ~ touches (compName 1) c) /\
  (wellFormed looped -> wellFormed dropped).
Proof.
  apply (proj2 (dropComponent_removes_component unit plainPorts plainConnect plainConnect_fuel
                  looped tt (compName 1) looped_indexed) dropped tt).
  vm_compute. reflexivity.
Defined.

End WiringProps.

(* ===================================================================== *)
(** * The matcher: what a returned matching guarantees                    *)
(* ===================================================================== *)

Module MatcherProps.
Import AttributeValue Predicate Graph UTQL SRG Matching MatchingExamples.

Section Sound.

Variable strtod : string -> float * nat.
Variable printDouble : float -> string.
Variable evaluateFunction :
  FunctionType -> list AttributeExpression -> gmap string KeyValueAttributes ->
  gset string -> Exc AttributeValue.t.

Local Abbreviation checkStep := (Matching.checkStep strtod printDouble evaluateFunction).
Local Abbreviation checkLoop := (Matching.checkLoop strtod printDouble evaluateFunction).
Local Abbreviation checkPattern := (Matching.checkPattern strtod printDouble evaluateFunction).
Local Abbreviation tryEdges := (Matching.tryEdges strtod printDouble evaluateFunction).
Local Abbreviation tryNodes := (Matching.tryNodes strtod printDouble evaluateFunction).
Local Abbreviation isEdgeCompatible :=
  (Matching.isEdgeCompatible strtod printDouble evaluateFunction).
Local Abbreviation matchedUpTo := (Matching.matchedUpTo strtod printDouble evaluateFunction).
Local Abbreviation onStack := (Matching.onStack strtod printDouble evaluateFunction).
Local Abbreviation passSound := (Matching.passSound strtod printDouble evaluateFunction).

Variable p : Pattern.
Variable srg : SRGraph.

(** The plan up to and including an edge step. *)
Lemma take_edge_step (i : nat) step (e : EdgePtr) :
  m_searchPlan p !! i = Some step -> m_pEdge step = Some e ->
  omap m_pEdge (take (S i) (m_searchPlan p))
  = omap m_pEdge (take i (m_searchPlan p)) ++ [e].
Proof.
  intros Hi He. rewrite (take_S_r _ _ _ Hi), omap_app. cbn. by rewrite He.
Qed.

Lemma take_node_step (i : nat) step :
  m_searchPlan p !! i = Some step -> m_pEdge step = None ->
  omap m_pEdge (take (S i) (m_searchPlan p)) = omap m_pEdge (take i (m_searchPlan p)).
Proof.
  intros Hi He. rewrite (take_S_r _ _ _ Hi), omap_app. cbn. rewrite He. apply app_nil_r.
Qed.

(** With a plan that names no edge twice, the edge of step [i] is not
    among the edges of the steps before. *)
Lemma edge_step_new (i : nat) step (e : EdgePtr) :
  NoDup (planEdges p) ->
  m_searchPlan p !! i = Some step -> m_pEdge step = Some e ->
  e ∉ omap m_pEdge (take i (m_searchPlan p)).
Proof.
  intros Hnd Hi He Hin. unfold planEdges in Hnd.
  rewrite <- (take_drop (S i) (m_searchPlan p)), omap_app in Hnd.
  apply NoDup_app in Hnd as [Hnd _].
  rewrite (take_edge_step i step e Hi He) in Hnd.
  apply NoDup_app in Hnd as (_ & Hdis & _). apply (Hdis e Hin). left.
Qed.

(** The matching with the same maps and another step counter. *)
Lemma matchedUpTo_withStep i m z :
  matchedUpTo p srg i m -> matchedUpTo p srg i (withStep m z).
Proof. intros [? ? ?]. by split. Qed.

Lemma matchedUpTo_vertex i m (u v : NodePtr) :
  matchedUpTo p srg i m -> matchedUpTo p srg i (addMatchedVertex m u v).
Proof. intros [? ? ?]. by split. Qed.

Lemma addMatchedEdge_sound (i : nat) step (state m' : EdgeMatching) (e f : EdgePtr) pe se :
  matchedUpTo p srg i state ->
  m_searchPlan p !! i = Some step -> m_pEdge step = Some e ->
  edgeAt (m_Graph p) e = Ret pe -> srgEdgeAt srg f = Ret se ->
  isEdgeCompatible pe se = true ->
  isSrgEdgeMatched state f = false ->
  addMatchedEdge (m_Graph p) srg state e f = Ret m' ->
  matchedUpTo p srg (S i) m' /\ m_iSearchPlanStep m' = m_iSearchPlanStep state.
Proof.
  intros [Hdom Hcomp Hinv] Hi He Hpe Hse Hc Hfree H.
  apply deref_ptr_Ret in Hpe, Hse.
  unfold addMatchedEdge in H. repeat bind_inv H. injection H as <-.
  split; [|done]. split; cbn [withMaps m_edgeForwardMap m_edgeBackwardMap].
  - intros e'. rewrite (take_edge_step i step e Hi He), elem_of_app, list_elem_of_singleton.
    rewrite <- Hdom. destruct (decide (e = e')) as [->|Hne].
    + rewrite lookup_insert_eq. split; [by right|by eexists].
    + rewrite lookup_insert_ne by done. split; [by left|]. intros [?|?]; [done|congruence].
  - intros e' f' Hl. cbn [withMaps m_edgeForwardMap] in Hl.
    apply lookup_insert_Some in Hl as [[<- <-]|[_ Hl]].
    + by exists pe, se.
    + by apply Hcomp.
  - intros Hnd. specialize (Hinv Hnd).
    assert (Hfwd : m_edgeForwardMap state !! e = None).
    { apply eq_None_not_Some. rewrite Hdom. by apply (edge_step_new i step). }
    assert (Hbwd : m_edgeBackwardMap state !! f = None).
    { unfold isSrgEdgeMatched in Hfree. apply bool_decide_eq_false in Hfree.
      by apply eq_None_not_Some. }
    intros e' f'. cbn [withMaps m_edgeForwardMap m_edgeBackwardMap].
    rewrite !lookup_insert_Some. split.
    + intros [[<- <-]|[Hne Hl]]; [by left|]. right. split; [|by apply Hinv].
      intros <-. apply Hinv in Hl. congruence.
    + intros [[<- <-]|[Hne Hl]]; [by left|]. right. split; [|by apply Hinv].
      intros <-. apply Hinv in Hl. congruence.
Qed.

Lemma tryEdges_sound (i : nat) step (state : EdgeMatching) (pEdge : EdgePtr)
    (pe : GraphEdge UTQLEdge) (fixedEnd : option NodePtr)
    (farEnd : GraphEdge SRGEdgeAttributes -> option NodePtr) (endsFree : bool) :
  matchedUpTo p srg i state ->
  m_iSearchPlanStep state = Z.of_nat (S i) ->
  (S i <= length (m_searchPlan p))%nat ->
  m_searchPlan p !! i = Some step -> m_pEdge step = Some pEdge ->
  edgeAt (m_Graph p) pEdge = Ret pe ->
  forall candidates l,
    tryEdges p srg state pEdge pe fixedEnd farEnd endsFree candidates = Ret l ->
    Forall (onStack p srg) l.
Proof.
  intros Hstate Hstep Hlen Hi He Hpe.
  induction candidates as [|c candidates IH]; intros l H; cbn [Matching.tryEdges] in H.
  { injection H as <-. constructor. }
  bind_inv H. bind_inv H.
  destruct (r0 || negb _) eqn:Hskip; [by apply IH|].
  apply orb_false_elim in Hskip as [Hr0 Hc]. apply negb_false_iff in Hc. subst r0.
  bind_inv H. bind_inv H. injection H as <-. constructor; [|by apply IH].
  assert (Hfree : isSrgEdgeMatched state c = false).
  { destruct (isSrgEdgeMatched state c); [by injection H1|done]. }
  destruct (addMatchedEdge_sound i step state r0 pEdge c pe r Hstate Hi He Hpe H0 Hc Hfree H2)
    as [Hm Hs].
  exists (S i). split; [congruence|]. by split.
Qed.

Lemma tryNodes_sound (i : nat) (state : EdgeMatching) (pVertex : NodePtr)
    (pv : GraphNode UTQLNode) :
  onStack p srg state ->
  forall candidates l,
    tryNodes srg state pVertex pv candidates = Ret l -> Forall (onStack p srg) l.
Proof.
  intros Hstate. induction candidates as [|[k n] candidates IH]; intros l H;
    cbn [Matching.tryNodes] in H.
  { injection H as <-. constructor. }
  bind_inv H. bind_inv H. destruct (_ || _); injection H as <-; [by apply IH|].
  constructor; [|by apply IH].
  destruct Hstate as (j & ? & ? & ?). exists j. split; [done|]. split; [done|].
  by apply matchedUpTo_vertex.
Qed.

Lemma checkStep_sound (popped : EdgeMatching) (pass : Pass) :
  onStack p srg popped -> checkStep p srg popped = Ret pass -> passSound p srg pass.
Proof.
  intros (i & Hstep & Hlen & Hpopped) H. unfold Matching.checkStep in H.
  rewrite Hstep in H.
  assert (Hstate : matchedUpTo p srg i (withStep popped (Z.of_nat i + 1)))
    by (by apply matchedUpTo_withStep).
  assert (Hs : m_iSearchPlanStep (withStep popped (Z.of_nat i + 1)) = Z.of_nat (S i))
    by (cbn; lia).
  set (state := withStep popped (Z.of_nat i + 1)) in *. clearbody state.
  destruct (Z.of_nat i =? _) eqn:Hend.
  { injection H as <-. apply Z.eqb_eq, Nat2Z.inj in Hend.
    unfold Matching.passSound. by rewrite <- Hend. }
  apply Z.eqb_neq in Hend. rewrite Nat2Z.id in H.
  destruct (m_searchPlan p !! i) as [step|] eqn:Hi; [|discriminate].
  assert (Hlen' : (S i <= length (m_searchPlan p))%nat).
  { apply lookup_lt_Some in Hi. lia. }
  destruct (m_pEdge step) as [pEdge|] eqn:He.
  - bind_inv H. bind_inv H. bind_inv H.
    destruct (isPatternVertexMatched state r0).
    + bind_inv H. bind_inv H. bind_inv H. bind_inv H. injection H as <-.
      by apply (tryEdges_sound i step state pEdge r _ _ _ Hstate Hs Hlen' Hi He H0 _ _ H6).
    + destruct (isPatternVertexMatched state r1).
      * bind_inv H. bind_inv H. bind_inv H. injection H as <-.
        by apply (tryEdges_sound i step state pEdge r _ _ _ Hstate Hs Hlen' Hi He H0 _ _ H5).
      * bind_inv H. injection H as <-.
        by apply (tryEdges_sound i step state pEdge r _ _ _ Hstate Hs Hlen' Hi He H0 _ _ H3).
  - assert (Hnext : onStack p srg state).
    { exists (S i). split; [done|]. split; [done|].
      destruct Hstate as [Hdom ? ?]. split; [|done|done].
      intros e. rewrite (take_node_step i step Hi He). apply Hdom. }
    bind_inv H. bind_inv H.
    destruct (isPatternVertexMatched state r).
    + bind_inv H. bind_inv H. destruct (isVertexCompatible _ _ _ _ _); injection H as <-.
      * by constructor.
      * constructor.
    + destruct (String.eqb _ _).
      * bind_inv H. injection H as <-.
        by apply (tryNodes_sound i state _ _ Hnext _ _ H2).
      * destruct (SRG.hasNode _ _); [|injection H as <-; constructor].
        bind_inv H. injection H as <-. constructor; [|constructor].
        destruct Hnext as (j & ? & ? & ?). exists j. split; [done|]. split; [done|].
        by apply matchedUpTo_vertex.
Qed.

Lemma checkLoop_sound : forall fuel stack detected l,
  Forall (onStack p srg) stack ->
  Forall (matchedUpTo p srg (length (m_searchPlan p))) detected ->
  checkLoop fuel p srg stack detected = Ret l ->
  Forall (matchedUpTo p srg (length (m_searchPlan p))) l.
Proof.
  induction fuel as [|fuel IH]; intros stack detected l Hstack Hdet H;
    cbn [Matching.checkLoop] in H; destruct stack as [|top below]; try discriminate;
    try (by injection H as <-).
  bind_inv H. apply Forall_cons in Hstack. destruct Hstack as [Htop Hbelow].
  apply checkStep_sound in H0; [|done].
  destruct r as [m|pushed]; simpl in H0; apply IH in H; try done.
  - apply Forall_app. split; [done|]. by constructor.
  - apply Forall_app. split; [|done]. by apply Forall_reverse.
Qed.

(** X20.  Every matching that [checkPattern] returns has matched all
    edges of the search plan and no others; each matched pair is a
    pattern edge and an SRG edge object on which every predicate of the
    pattern edge evaluates to true; and if the plan names no edge twice,
    the forward and the backward edge map are inverse to each other, so
    that different pattern edges are matched to different SRG edges. *)
Theorem checkPattern_matches_edges_soundly (fuel : nat) (matches : list EdgeMatching)
    (m : EdgeMatching) :
  checkPattern fuel p srg = Ret matches ->
  m ∈ matches ->
  (forall e, is_Some (m_edgeForwardMap m !! e) <-> e ∈ planEdges p) /\
  edgesCompatible strtod printDouble evaluateFunction p srg m /\
  (NoDup (planEdges p) -> inverseMaps m).
Proof.
  intros H Hm. unfold Matching.checkPattern in H.
  apply checkLoop_sound in H; [|constructor; [|constructor]|constructor].
  - rewrite Forall_forall in H. destruct (H m Hm) as [Hdom Hcomp Hinv].
    split; [|done]. intros e. rewrite Hdom. unfold planEdges. by rewrite firstn_all.
  - exists O. split; [done|]. split; [lia|]. split.
    + intros e. cbn. rewrite lookup_empty. split; [by intros [? ?]|by intros ?%elem_of_nil].
    + intros e f Hl. cbn in Hl. by rewrite lookup_empty in Hl.
    + intros _ e f. cbn. by rewrite !lookup_empty.
Qed.

End Sound.

(** The self-match of [concat] on [A -> B] and the derived [B -> A]. *)
Lemma checkPattern_matches_edges_soundly_witness :
  (forall e, is_Some (m_edgeForwardMap ManagerExamples.selfMatch !! e)
             <-> e ∈ planEdges ManagerExamples.concat) /\
  edgesCompatible strtodDigits printNothing ManagerExamples.noFunction ManagerExamples.concat
    (Manager.m_GlobalSrg ManagerExamples.withInverse) ManagerExamples.selfMatch /\
  (NoDup (planEdges ManagerExamples.concat) -> inverseMaps ManagerExamples.selfMatch).
Proof.
  destruct AcceptanceProps.selfMatch_edges as (Hmatches & Hin & _).
  exact (checkPattern_matches_edges_soundly strtodDigits printNothing
           ManagerExamples.noFunction ManagerExamples.concat
           (Manager.m_GlobalSrg ManagerExamples.withInverse) 50
           ManagerExamples.concatMatches ManagerExamples.selfMatch Hmatches Hin).
Defined.

(** ** The search plan *)

Section Plan.

Variable printDouble : float -> string.
Variable g : UTQLSubgraph.

Lemma omap_snoc_node (l : list SearchPlanElement) (n : NodePtr) (sId : string) :
  omap m_pEdge (l ++ [planNode n sId]) = omap m_pEdge l.
Proof. rewrite omap_app. apply app_nil_r. Qed.

Lemma omap_snoc_edge (l : list SearchPlanElement) (e : EdgePtr) :
  omap m_pEdge (l ++ [planEdge e]) = omap m_pEdge l ++ [e].
Proof. by rewrite omap_app. Qed.

(** A state with the same planned edges and the same or more names. *)
Lemma planned_same (st st' : PlanState) :
  planned g st ->
  omap m_pEdge (plan st') = omap m_pEdge (plan st) ->
  matchedEdges st ⊆ matchedEdges st' ->
  planned g st'.
Proof.
  intros [Hnd Hin] Hplan Hsub. split; rewrite Hplan; [done|].
  intros e He. destruct (Hin e He) as (ed & ? & ? & ?). exists ed.
  split; [done|]. split; [by apply Hsub|done].
Qed.

(** A further edge whose name was not matched. *)
Lemma planned_edge (st : PlanState) (e : EdgePtr) ed stack nodes :
  planned g st ->
  edgeStore (graph g) !! e = Some ed ->
  isInput (edge_io (edge_data ed)) = true ->
  edge_Name ed ∉ matchedEdges st ->
  planned g (mkPlan (plan st ++ [planEdge e]) stack
                    ({[edge_Name ed]} ∪ matchedEdges st) nodes).
Proof.
  intros [Hnd Hin] Hed Hinput Hnew. split; cbn [plan matchedEdges]; rewrite omap_snoc_edge.
  - apply NoDup_app. split; [done|]. split; [|apply NoDup_singleton].
    intros e' He' Heq%list_elem_of_singleton. subst e'.
    destruct (Hin e He') as (ed' & Hed' & Hname & _). congruence.
  - intros e' [He'|Heq%list_elem_of_singleton]%elem_of_app; [|subst e'].
    + destruct (Hin e' He') as (ed' & ? & ? & ?). exists ed'.
      split; [done|]. split; [|done]. apply elem_of_union. by right.
    + exists ed. split; [done|]. split; [|done]. apply elem_of_union. left.
      by apply elem_of_singleton.
Qed.

Lemma findIdNodes_planned : forall nodes st first st' first',
  planned g st ->
  findIdNodes printDouble g nodes st first = Ret (st', first') ->
  planned g st' /\ matchedEdges st' = matchedEdges st.
Proof.
  induction nodes as [|[name n] nodes IH]; intros st first st' first' Hst H;
    cbn [findIdNodes] in H.
  { by injection H as <- _. }
  bind_inv H. destruct (isInput _); [|by apply IH in H].
  destruct (m_predicateList _) as [|front rest]; [by apply IH in H|].
  apply IH in H.
  - destruct H as [? ->]. split; [done|]. by destruct (idEquality _).
  - destruct (idEquality _); [|done].
    apply (planned_same st); [done|apply omap_snoc_node|done].
Qed.

Lemma startWithEdge_planned (Hnames : edgesByName g) : forall edges st st',
  planned g st -> matchedEdges st = ∅ ->
  (forall name e, (name, e) ∈ edges -> m_Edges (graph g) !! name = Some e) ->
  startWithEdge g edges st = Ret st' -> planned g st'.
Proof.
  induction edges as [|[name e] edges IH]; intros st st' Hst Hempty Hsub H;
    cbn [startWithEdge] in H.
  { by injection H as <-. }
  bind_inv H. apply deref_ptr_Ret in H0.
  destruct (isInput _) eqn:Hinput.
  - repeat bind_inv H. injection H as <-.
    destruct (Hnames name e) as (ed & Hed & Hname); [apply Hsub; left|].
    unfold edgeAt in *. assert (ed = r) by congruence. subst ed. rewrite <- Hname.
    apply planned_edge; [done|done|done|]. rewrite Hempty. apply not_elem_of_empty.
  - apply (IH st); [done|done| |done]. intros n' e' Hin. apply Hsub. by right.
Qed.

Lemma followEdges_planned (other : GraphEdge UTQLEdge -> option NodePtr) :
  forall edges st st',
    planned g st -> followEdges g other edges st = Ret st' -> planned g st'.
Proof.
  induction edges as [|e edges IH]; intros st st' Hst H; cbn [followEdges] in H.
  { by injection H as <-. }
  bind_inv H. apply deref_ptr_Ret in H0.
  destruct (isInput _ && _) eqn:Hcond; [|by apply IH in H].
  apply andb_prop in Hcond as [Hinput Hnew]. apply negb_true_iff in Hnew.
  apply bool_decide_eq_false in Hnew.
  bind_inv H. bind_inv H.
  pose proof (planned_edge st e r) as Hstep.
  destruct (bool_decide (node_Name r1 ∈ matchedNodes st)).
  - apply IH in H; [done|]. by apply Hstep.
  - apply IH in H; [done|].
    destruct (m_predicateList _).
    + by apply Hstep.
    + apply (planned_same (mkPlan (plan st ++ [planEdge e]) (r0 :: nodeStack st)
               ({[edge_Name r]} ∪ matchedEdges st) ({[node_Name r1]} ∪ matchedNodes st)));
        [by apply Hstep|apply omap_snoc_node|done].
Qed.

Lemma drainStack_planned : forall fuel st st',
  planned g st -> drainStack fuel g st = Ret st' -> planned g st'.
Proof.
  induction fuel as [|fuel IH]; intros st st' Hst H; cbn [drainStack] in H.
  - destruct (nodeStack st); [by injection H as <-|done].
  - destruct (nodeStack st) as [|pNode below] eqn:Hs; [by injection H as <-|].
    repeat bind_inv H. apply IH in H; [done|].
    apply followEdges_planned in H3; [done|].
    apply followEdges_planned in H1; [done|].
    by apply (planned_same st).
Qed.

Lemma nextUnmatched_planned : forall nodes st st',
  planned g st -> nextUnmatched g nodes st = Ret st' -> planned g st'.
Proof.
  induction nodes as [|[name n] nodes IH]; intros st st' Hst H; cbn [nextUnmatched] in H.
  { by injection H as <-. }
  bind_inv H. destruct (isInput _ && _); [|by apply IH in H].
  injection H as <-. apply (planned_same st); [done|apply omap_snoc_node|done].
Qed.

Lemma planLoop_planned : forall fuel st st',
  planned g st -> planLoop fuel g st = Ret st' -> planned g st'.
Proof.
  induction fuel as [|fuel IH]; intros st st' Hst H; cbn [planLoop] in H; [done|].
  bind_inv H. bind_inv H.
  apply drainStack_planned in H0; [|done].
  apply nextUnmatched_planned in H1; [|done].
  destruct (nodeStack r0); [by injection H as <-|by apply IH in H].
Qed.

(** X21.  The search plan that the constructor of [Pattern] builds for
    a pattern graph whose edge map leads to edges of the same name:
    it names no edge twice, and every edge it names is an input edge of
    the pattern. *)
Theorem newPattern_plans_each_edge_once (fuel : nat) (clientId : string) (p : Pattern) :
  edgesByName g ->
  newPattern printDouble fuel g clientId = Ret p ->
  NoDup (planEdges p) /\
  forall e, e ∈ planEdges p ->
    exists ed, edgeStore (graph g) !! e = Some ed /\
               isInput (edge_io (edge_data ed)) = true.
Proof.
  intros Hnames H. unfold newPattern in H.
  assert (Hstart : planned g (mkPlan [] [] ∅ ∅)).
  { split; cbn; [constructor|]. by intros e ?%elem_of_nil. }
  assert (Hend : forall st, planned g st ->
            NoDup (omap m_pEdge (plan st)) /\
            forall e, e ∈ omap m_pEdge (plan st) ->
              exists ed, edgeStore (graph g) !! e = Some ed /\
                         isInput (edge_io (edge_data ed)) = true).
  { intros st [Hnd Hin]. split; [done|]. intros e He.
    destruct (Hin e He) as (ed & ? & _ & ?). by exists ed. }
  destruct (nodesOf g) as [|first rest] eqn:Hnodes.
  { injection H as <-. unfold planEdges. cbn. split; [constructor|].
    by intros e ?%elem_of_nil. }
  bind_inv H. destruct r as [st pFirst].
  destruct (findIdNodes_planned _ _ _ _ _ Hstart H0) as [Hst Hedges].
  bind_inv H. bind_inv H. injection H as <-. unfold planEdges. cbn [m_searchPlan].
  apply Hend. apply (planLoop_planned fuel r r0); [|done].
  destruct (nodeStack st) eqn:Hstack.
  - destruct pFirst as [n|].
    + bind_inv H1. injection H1 as <-.
      apply (planned_same st); [done|apply omap_snoc_node|done].
    + apply (startWithEdge_planned Hnames (edgesOf g) st); [done|done| |done].
      intros name e Hin. by apply elem_of_entries.
  - by injection H1 as <-.
Qed.

End Plan.

Lemma concatGraph_edgesByName : edgesByName ManagerExamples.concatGraph.
Proof.
  intros name e H. enum_lookup H; eexists; split; vm_compute; reflexivity.
Qed.

Lemma newPattern_plans_each_edge_once_witness :
  NoDup (planEdges ManagerExamples.concat) /\
  forall e, e ∈ planEdges ManagerExamples.concat ->
    exists ed, edgeStore (graph ManagerExamples.concatGraph) !! e = Some ed /\
               isInput (edge_io (edge_data ed)) = true.
Proof.
  apply (newPattern_plans_each_edge_once printNothing ManagerExamples.concatGraph
           10 "client" ManagerExamples.concat concatGraph_edgesByName).
  vm_compute. reflexivity.
Defined.

End MatcherProps.

(* ===================================================================== *)
(** * The SRG manager: registration and deletion keep the books           *)
(* ===================================================================== *)

Module ManagerProps.
Import AttributeValue Predicate Graph UTQL SRG Matching Manager ManagerExamples.
Import GraphRemovalProps DeleteEvolution DeleteProps GraphLinkProps.

(** ** Registration *)

Lemma initial_consistent : consistent initial.
Proof.
  split.
  - intros name e He. cbn in He. by rewrite lookup_empty in He.
  - intros name x (e & He & _). cbn in He. by rewrite lookup_empty in He.
  - split; [done|]. intros name n Hn. cbn in Hn. by rewrite lookup_empty in Hn.
  - intros name x (n & Hn & _). cbn in Hn. by rewrite lookup_empty in Hn.
Qed.

(** Merging into a node keeps its name and adds a spawning subgraph. *)
Lemma mergeNodeAttributes_spec (srg : SRGraph) (node : NodePtr) (utqlNode : UTQLNode)
    (subgraphID : string) (srg' : SRGraph) :
  mergeNodeAttributes srg node utqlNode subgraphID = Ret srg' ->
  nodesNamed srg -> nodesSpawned srg ->
  nodesNamed srg' /\ nodesSpawned srg' /\
  m_Edges (base srg') = m_Edges (base srg) /\ edgeStore (base srg') = edgeStore (base srg).
Proof.
  unfold mergeNodeAttributes. intros H [Hreg Hnamed] Hspawned.
  bind_inv H. injection H as <-. cbn [base withBase setNodes m_NodeIDMap m_Nodes nodeStore
                                       m_Edges edgeStore].
  split; [split; [done|]|split; [|done]].
  - intros name n Hn. destruct (Hnamed name n Hn) as (x & Hx & Hname).
    cbn [base withBase setNodes m_NodeIDMap m_Nodes nodeStore].
    destruct (decide (n = node)) as [->|Hne].
    + rewrite lookup_alter_eq, Hx. by eexists.
    + rewrite lookup_alter_ne by done. by exists x.
  - intros name x' (n & Hn & Hx').
    cbn [base withBase setNodes m_NodeIDMap m_Nodes nodeStore] in Hn, Hx'.
    destruct (decide (n = node)) as [->|Hne].
    + rewrite lookup_alter_eq in Hx'.
      destruct (nodeStore (base srg) !! node) as [x|]; [|done].
      injection Hx' as <-. cbn. set_solver.
    + rewrite lookup_alter_ne in Hx' by done. apply (Hspawned name x'). by exists n.
Qed.

(** A node that [SRGraph::addNode] adds is spawned by the subgraph. *)
Lemma SRG_addNode_spec (srg : SRGraph) (utqlNode : UTQLNode) (subgraphID : string)
    (srg' : SRGraph) (n : NodePtr) :
  subgraphID <> "" ->
  SRG.addNode srg utqlNode subgraphID = Ret (srg', n) ->
  nodesNamed srg -> nodesSpawned srg ->
  nodesNamed srg' /\ nodesSpawned srg' /\
  m_Edges (base srg') = m_Edges (base srg) /\ edgeStore (base srg') = edgeStore (base srg).
Proof.
  intros Hid H [Hreg Hnamed] Hspawned. unfold SRG.addNode in H.
  destruct (if String.eqb (m_QualifiedName utqlNode) "" then _ else _) as [id counter].
  destruct (SRG.hasNode srg id); [discriminate|].
  bind_inv H. destruct r as [g p]. injection H as <- <-.
  destruct (addNode_Ret _ _ _ _ _ H0) as (Hnone & Hfresh & HS & HN & HES & HE).
  assert (Hold : forall name n' x, m_Nodes (base srg) !! name = Some n' ->
                   nodeStore (base srg) !! n' = Some x -> nodeStore g !! n' = Some x).
  { intros name n' x _ Hx. rewrite HS, lookup_insert_ne; [done|]. intros <-. congruence. }
  unfold nodesNamed, nodesSpawned, srgNode. cbn [fst snd base m_NodeIDMap].
  split; [split|split; [|done]].
  - by rewrite HN, Hreg.
  - intros name n' Hn'. rewrite HN in Hn'.
    apply lookup_insert_Some in Hn'. destruct Hn' as [[<- <-]|[Hne Hn']].
    + rewrite HS, lookup_insert_eq. by eexists.
    + destruct (Hnamed name n' Hn') as (x & Hx & Hname). exists x. split; [|done].
      by apply (Hold name).
  - intros name x (n' & Hn' & Hx). rewrite HN in Hn'.
    apply lookup_insert_Some in Hn'. destruct Hn' as [[<- <-]|[Hne Hn']].
    + rewrite HS, lookup_insert_eq in Hx. injection Hx as <-. cbn.
      unfold newSRGNodeAttributes. cbn.
      destruct (String.eqb_spec subgraphID ""); [done|]. set_solver.
    + destruct (Hnamed name n' Hn') as (y & Hy & _).
      rewrite (Hold name n' y Hn' Hy) in Hx. injection Hx as <-.
      apply (Hspawned name y). by exists n'.
Qed.

Lemma registerNodes_spec (subgraphID : string) (subgraph : UTQLSubgraph) :
  subgraphID <> "" ->
  forall nodes srg matching r,
    registerNodes subgraphID subgraph nodes srg matching = Ret r ->
    nodesNamed srg -> nodesSpawned srg ->
    nodesNamed (fst r) /\ nodesSpawned (fst r) /\
    m_Edges (base (fst r)) = m_Edges (base srg) /\
    edgeStore (base (fst r)) = edgeStore (base srg).
Proof.
  intros Hid. induction nodes as [|[k node] nodes IH]; intros srg matching r H Hn Hs;
    simpl in H.
  { by injection H as <-. }
  bind_inv H. destruct (negb (isOutput _)); [by apply (IH _ _ _ H)|].
  destruct (SRG.hasNode srg _).
  - bind_inv H. bind_inv H.
    destruct (mergeNodeAttributes_spec _ _ _ _ _ H2 Hn Hs) as (Hn' & Hs' & HE & HES).
    destruct (IH _ _ _ H Hn' Hs') as (? & ? & ? & ?). split_and!; [done|done|congruence|congruence].
  - bind_inv H. destruct r1 as [srg1 n1]. cbn [fst snd] in H.
    destruct (SRG_addNode_spec _ _ _ _ _ Hid H1 Hn Hs) as (Hn' & Hs' & HE & HES).
    destruct (IH _ _ _ H Hn' Hs') as (? & ? & ? & ?). split_and!; [done|done|congruence|congruence].
Qed.

(** An edge that [registerSRG] adds for an output edge of the subgraph. *)
Lemma registerEdge_spec (srg : SRGraph) (repository : gmap string InstantiatedPattern)
    (edgeName : string) (src dst : NodePtr) (data : SRGEdgeAttributes)
    (f : SRGEdgeAttributes -> SRGEdgeAttributes) g (e : EdgePtr) :
  Graph.addEdge (base srg) edgeName src dst data = Ret (g, e) ->
  (forall x, m_SubgraphID (f x) = m_SubgraphID x) ->
  (exists inst l,
     repository !! m_SubgraphID data = Some inst /\
     outputEdge (instance_graph inst) l /\
     edgeName = srgEdgeName (m_SubgraphID data) l) ->
  edgesNamed srg -> edgesProduced srg repository -> nodesNamed srg -> nodesSpawned srg ->
  edgesNamed (updateEdge f e (withBase srg g)) /\
  edgesProduced (updateEdge f e (withBase srg g)) repository /\
  nodesNamed (updateEdge f e (withBase srg g)) /\
  nodesSpawned (updateEdge f e (withBase srg g)).
Proof.
  intros H Hf Hnew Hnamed Hprod [Hreg Hnodes] Hspawned.
  destruct (addEdge_nodes _ _ _ _ _ _ _ H) as (Hfresh & HES & HN & HE & _ & _ & HS).
  assert (Hentry : forall name e', m_Edges g !! name = Some e' ->
            m_Edges (base srg) !! name = Some e' \/ (name = edgeName /\ e' = e)).
  { intros name e' He'. rewrite HE in He'.
    destruct (m_Edges (base srg) !! edgeName) eqn:Hold; [by left|].
    apply lookup_insert_Some in He'. destruct He' as [[<- <-]|[_ ?]]; [by right|by left]. }
  assert (Hobj : forall name e' x, m_Edges g !! name = Some e' ->
            alter (onEdgeData f) e (edgeStore g) !! e' = Some x ->
            (m_Edges (base srg) !! name = Some e' /\ edgeStore (base srg) !! e' = Some x) \/
            (name = edgeName /\
             x = onEdgeData f (mkEdge data edgeName (Some src) (Some dst)))).
  { intros name e' x He' Hx. destruct (Hentry name e' He') as [Hold|[-> ->]].
    - left. split; [done|]. destruct (Hnamed name e' Hold) as (y & Hy & _).
      assert (e' <> e) as Hne by congruence.
      rewrite lookup_alter_ne, HES, lookup_insert_ne in Hx by done. done.
    - right. split; [done|].
      rewrite lookup_alter_eq, HES, lookup_insert_eq in Hx. by injection Hx as <-. }
  unfold updateEdge, edgesNamed, edgesProduced, nodesNamed, nodesSpawned, srgEdge, srgNode.
  cbn [base withBase setEdges m_Edges edgeStore m_Nodes nodeStore m_NodeIDMap].
  split; [|split; [|split; [split|]]].
  - intros name e' He'.
    destruct (Hentry name e' He') as [Hold|[-> ->]].
    + destruct (Hnamed name e' Hold) as (y & Hy & Hname). exists y. split; [|done].
      assert (e' <> e) as Hne by congruence.
      by rewrite lookup_alter_ne, HES, lookup_insert_ne.
    + rewrite lookup_alter_eq, HES, lookup_insert_eq. by eexists.
  - intros name x (e' & He' & Hx).
    destruct (Hobj name e' x He' Hx) as [[Hold Hy]|[-> ->]].
    + apply (Hprod name x). by exists e'.
    + cbn. by rewrite Hf.
  - by rewrite HN.
  - intros name n Hn. rewrite HN in Hn. destruct (Hnodes name n Hn) as (x & Hx & Hname).
    exists (withEdge e src dst n x). by rewrite HS, Hx.
  - intros name x (n & Hn & Hx). rewrite HN in Hn.
    destruct (withEdge_lookup _ _ _ _ _ _ _ HS Hx) as (nd & Hnd & ->). cbn.
    apply (Hspawned name nd). by exists n.
Qed.

Lemma registerEdges_spec (subgraph : UTQLSubgraph) (clientID : string)
    (repository : gmap string InstantiatedPattern) :
  repository !! m_ID subgraph = Some (mkInstance subgraph clientID) ->
  forall edges matching srg srg',
    registerEdges (m_ID subgraph) subgraph edges matching srg = Ret srg' ->
    (forall k e, (k, e) ∈ edges -> m_Edges (graph subgraph) !! k = Some e) ->
    edgesNamed srg -> edgesProduced srg repository -> nodesNamed srg -> nodesSpawned srg ->
    edgesNamed srg' /\ edgesProduced srg' repository /\ nodesNamed srg' /\ nodesSpawned srg'.
Proof.
  intros Hrepo. induction edges as [|[k edge] edges IH];
    intros matching srg srg' H Hin Hnamed Hprod Hnodes Hspawned; simpl in H.
  { by injection H as <-. }
  assert (Hrest : forall k' e', (k', e') ∈ edges -> m_Edges (graph subgraph) !! k' = Some e')
    by (intros k' e' Hk; apply Hin; by right).
  bind_inv H. apply deref_ptr_Ret in H0.
  destruct (isOutput (edge_io (edge_data r))) eqn:Hio; cbn [negb] in H;
    [|by apply (IH _ _ _ H)].
  bind_inv H. bind_inv H. bind_inv H. destruct r2 as [g e]. cbn [fst snd] in H.
  assert (Hout : outputEdge subgraph (edge_Name r)).
  { exists k, edge, r. split_and!; try done. apply Hin. left. }
  destruct (registerEdge_spec srg repository _ _ _ _
              (fun x => setInformationSources
                          ({[srgEdgeName (m_ID subgraph) (edge_Name r)]}
                           ∪ informationSources x) x)
              _ _ H3 (fun _ => eq_refl)
              (ex_intro _ (mkInstance subgraph clientID)
                 (ex_intro _ (edge_Name r) (conj Hrepo (conj Hout eq_refl))))
              Hnamed Hprod Hnodes Hspawned) as (? & ? & ? & ?).
  by apply (IH _ _ _ H).
Qed.

Lemma registerSRG_consistent (st : State) (subgraph : UTQLSubgraph)
    (clientID : string) (st' : State) :
  consistent st ->
  m_ID subgraph <> "" ->
  m_GraphRepository st !! m_ID subgraph = None ->
  registerSRG st subgraph clientID = Ret st' ->
  consistent st'.
Proof.
  intros [Hnamed Hprod Hnodes Hspawned] Hid Hnew H. unfold registerSRG in H.
  bind_inv H. bind_inv H. injection H as <-.
  destruct (registerNodes_spec _ subgraph Hid _ _ _ _ H0 Hnodes Hspawned)
    as (Hnodes1 & Hspawned1 & HE & HES).
  eapply (registerEdges_spec subgraph clientID
            (<[m_ID subgraph := mkInstance subgraph clientID]> (m_GraphRepository st)))
    in H1; try done.
  - by destruct H1 as (? & ? & ? & ?).
  - apply lookup_insert_eq.
  - intros k e Hk. by apply elem_of_entries.
  - intros name e He. rewrite HE in He. rewrite HES. by apply Hnamed.
  - intros name x (e & He & Hx). rewrite HE in He. rewrite HES in Hx.
    destruct (Hprod name x) as (inst & l & Hrepo & Hout & Hname); [by exists e|].
    exists inst, l. split; [|done]. rewrite lookup_insert_ne; [done|]. congruence.
Qed.

(** X22.  Registration keeps the SRG and the repository consistent: the
    empty manager is consistent, and in a consistent state
    [registerSRG] of a subgraph with a non-empty id that is not in the
    repository leaves a consistent state. *)
Theorem registerSRG_keeps_consistent :
  consistent initial /\
  (forall (st : State) (subgraph : UTQLSubgraph) (clientID : string) (st' : State),
     consistent st ->
     m_ID subgraph <> "" ->
     m_GraphRepository st !! m_ID subgraph = None ->
     registerSRG st subgraph clientID = Ret st' ->
     consistent st').
Proof. split; [apply initial_consistent|apply registerSRG_consistent]. Qed.

Lemma registerSRG_keeps_consistent_witness : consistent registered.
Proof.
  destruct registerSRG_keeps_consistent as [Hinitial Hkeeps].
  apply (Hkeeps initial baseAB "client" registered Hinitial).
  - vm_compute. discriminate.
  - vm_compute. reflexivity.
  - vm_compute. reflexivity.
Defined.

(** ** Deletion *)

Lemma removeNodes_named : forall names srg srg',
  removeNodes names srg = Ret srg' -> nodesNamed srg -> nodesNamed srg'.
Proof.
  induction names as [|n names IH]; intros srg srg' H Hn; simpl in H.
  { by injection H as <-. }
  bind_inv H. destruct (removeNode_spec _ _ _ H0 Hn) as [Hn' _]. by apply (IH r).
Qed.

Lemma deleteSRG_stays_consistent (st : State) (id : string) (st' : State) :
  consistent st ->
  deleteSRG st id = Ret st' ->
  consistent st'.
Proof.
  intros [Hnamed Hprod Hnodes Hspawned] H.
  pose proof (deleteSRG_nodes st id st' Hnodes Hspawned H) as Hspawned'.
  pose proof (deleteSRG_evolves st id st' H) as Hev.
  unfold deleteSRG in H. bind_inv H. bind_inv H. injection H as <-.
  cbn [m_GlobalSrg m_GraphRepository] in *.
  pose proof H0 as Hloop.
  apply (deleteLoop_keeps st id) in H0.
  2:{ split; cbn [del_srg del_repository deleteStack deletedSubgraphs]; try done.
      - intros y [Hin| ->]; [by apply elem_of_empty in Hin|]. left. left.
      - intros n y Hy. by right; right. }
  destruct H0 as [Hinv Hstack].
  apply deleteLoop_orphans in Hloop; cbn [del_srg removableNodes].
  2:{ split; [done|]. intros name x Hx Hempty. by destruct (Hspawned name x Hx). }
  destruct Hloop as [Hnodes1 _].
  split; cbn [m_GlobalSrg m_GraphRepository].
  - by apply (evolves_edgesNamed (m_GlobalSrg st)).
  - intros name x Hx. pose proof (removeNodes_evolves _ _ _ H1) as Hev1.
    destruct (srgEdge_evolves _ _ _ _ Hev1 Hx) as (x1 & Hx1 & _ & Hsub & _).
    destruct (del_produced _ _ _ Hinv name x1 Hx1) as (inst & l & Hrepo & Hout & Hname).
    exists inst, l. by rewrite Hsub.
  - by apply (removeNodes_named _ _ _ H1).
  - done.
Qed.

(** X23.  Deletion keeps the SRG and the repository consistent: what
    [deleteSRG] leaves of a consistent state is consistent. *)
Theorem deleteSRG_keeps_consistent (st : State) (id : string) (st' : State) :
  consistent st ->
  deleteSRG st id = Ret st' ->
  consistent st'.
Proof. apply deleteSRG_stays_consistent. Qed.

Lemma deleteSRG_keeps_consistent_witness :
  consistent twoInverses /\ consistent afterDelete.
Proof.
  split; [apply twoInverses_consistent|].
  apply (deleteSRG_keeps_consistent twoInverses "s" afterDelete).
  - apply twoInverses_consistent.
  - vm_compute. reflexivity.
Defined.

(** ** The first stage of acceptance *)

Lemma disjointFromOthers_false (srg : SRGraph) (it : EdgePtr * EdgePtr) :
  forall others, disjointFromOthers srg it others = Ret false ->
  exists o x y s,
    o ∈ others /\ fst it <> fst o /\
    edgeStore (base srg) !! snd it = Some x /\ edgeStore (base srg) !! snd o = Some y /\
    s ∈ informationSources (edge_data x) /\ s ∈ informationSources (edge_data y).
Proof.
  induction others as [|o others IH]; simpl; [discriminate|].
  assert (Hrest : disjointFromOthers srg it others = Ret false ->
    exists o' x y s,
      o' ∈ o :: others /\ fst it <> fst o' /\
      edgeStore (base srg) !! snd it = Some x /\ edgeStore (base srg) !! snd o' = Some y /\
      s ∈ informationSources (edge_data x) /\ s ∈ informationSources (edge_data y)).
  { intros H. destruct (IH H) as (o' & x & y & s & Hin & Hrest).
    exists o', x, y, s. split; [by right|done]. }
  destruct (Nat.eqb_spec (fst it) (fst o)) as [Heq|Hne]; [done|].
  intros H. bind_inv H. apply deref_ptr_Ret in H0.
  destruct (members (informationSources (edge_data r))) as [|s0 rest] eqn:Hm; [by apply Hrest|].
  bind_inv H. apply deref_ptr_Ret in H1.
  match type of H with
  | context [bool_decide (s0 ∈ ?S) || existsb ?f rest] =>
      change (bool_decide (s0 ∈ S) || existsb f rest) with (existsb f (s0 :: rest)) in H;
      destruct (existsb f (s0 :: rest)) eqn:Hex; [|by apply Hrest]
  end.
  apply existsb_exists in Hex. destruct Hex as (s & Hin & Hs).
  apply bool_decide_eq_true in Hs. exists o, r, r0, s. split_and!; try done; [left|].
  apply elem_of_members. rewrite Hm. by apply list_elem_of_In.
Qed.

Lemma allDisjoint_false (srg : SRGraph) (all : list (EdgePtr * EdgePtr)) :
  forall its, allDisjoint srg its all = Ret false ->
  exists it, it ∈ its /\ disjointFromOthers srg it all = Ret false.
Proof.
  induction its as [|it its IH]; simpl; [discriminate|].
  intros H. bind_inv H. destruct r.
  - destruct (IH H) as (it' & Hin & Hit'). exists it'. split; [by right|done].
  - exists it. split; [left|done].
Qed.

(** X24.  When every matched SRG edge is an edge object, [decidePattern1]
    returns a decision, and it accepts the matching exactly when the
    SRG edges matched to any two different pattern edges have no
    information source in common. *)
Theorem decidePattern1_accepts_disjoint (srg : SRGraph) (m : EdgeMatching) :
  matchedAllocated srg m ->
  exists b, decidePattern1 srg m = Ret b /\
    (b = true <->
     forall e1 e2 f1 f2,
       m_edgeForwardMap m !! e1 = Some f1 -> m_edgeForwardMap m !! e2 = Some f2 ->
       e1 <> e2 -> apart srg f1 f2).
Proof.
  intros Hall. unfold decidePattern1.
  destruct (1 <? Z.of_nat (base.size (m_edgeForwardMap m))) eqn:Hsize.
  - destruct (AcceptanceProps.allDisjoint_spec srg (map_to_list (m_edgeForwardMap m)))
      with (its := map_to_list (m_edgeForwardMap m)) as (b & Hb & Hdis).
    { apply Forall_forall. intros [e f] Hin%elem_of_map_to_list. by apply (Hall e f). }
    { done. }
    exists b. split; [done|]. split.
    + intros Ht e1 e2 f1 f2 H1 H2 Hne.
      apply (Hdis Ht (e1, f1) (e2, f2)); try done; by apply elem_of_map_to_list.
    + intros Hap. destruct b; [done|]. exfalso.
      destruct (allDisjoint_false _ _ _ Hb) as ([e1 f1] & Hin & Hfalse).
      destruct (disjointFromOthers_false _ _ _ Hfalse)
        as ([e2 f2] & x & y & s & Hin2 & Hne & Hx & Hy & Hs & Hs').
      apply elem_of_map_to_list in Hin, Hin2. cbn [fst snd] in *.
      by apply (Hap e1 e2 f1 f2 Hin Hin2 Hne x y s).
  - exists true. split; [done|]. split; [|done].
    intros _ e1 e2 f1 f2 H1 H2 Hne. exfalso.
    pose proof (AcceptanceProps.two_entries _ _ _ _ _ H1 H2 Hne) as Hsz.
    apply Z.ltb_ge in Hsize. lia.
Qed.

(** The theorem at the self-match of [concat] on [A -> B] and the
    derived [B -> A]. *)
Lemma selfMatch_allocated : matchedAllocated (m_GlobalSrg withInverse) selfMatch.
Proof.
  intros e f He. enum_lookup He; eexists; vm_compute; reflexivity.
Qed.

Lemma decidePattern1_accepts_disjoint_witness :
  exists b, decidePattern1 (m_GlobalSrg withInverse) selfMatch = Ret b /\
    (b = true <->
     forall e1 e2 f1 f2,
       m_edgeForwardMap selfMatch !! e1 = Some f1 ->
       m_edgeForwardMap selfMatch !! e2 = Some f2 ->
       e1 <> e2 -> apart (m_GlobalSrg withInverse) f1 f2).
Proof.
  apply (decidePattern1_accepts_disjoint (m_GlobalSrg withInverse) selfMatch).
  exact selfMatch_allocated.
Defined.

End ManagerProps.

(* ===================================================================== *)
(** * The search plan: the loops of the constructor end                   *)
(* ===================================================================== *)

Module PlanProps.
Import AttributeValue Predicate Graph UTQL SRG Matching.

Lemma locked_fuel (p : option NodePtr) : locked p <> OutOfFuel.
Proof. by destruct p. Qed.

(** A loop body that ends in the call that [IH] is about. *)
Ltac loop_fuel IH :=
  repeat first
    [ apply IH
    | apply locked_fuel
    | apply deref_ptr_fuel
    | apply bindExc_fuel; [|intros ? ?]
    | match goal with
      | |- Ret _ <> OutOfFuel => discriminate
      | |- Throw _ <> OutOfFuel => discriminate
      | |- Undefined <> OutOfFuel => discriminate
      | |- (if ?b then _ else _) <> OutOfFuel => destruct b
      | |- (match ?x with _ => _ end) <> OutOfFuel => destruct x
      end ].

Section Plan.

Variable printDouble : float -> string.
Variable g : UTQLSubgraph.

Local Abbreviation measure := (planMeasure g).

Lemma key_nodeNames name n : (name, n) ∈ nodesOf g -> name ∈ nodeNames g.
Proof.
  intros H. apply elem_of_entries in H. apply elem_of_union_l, elem_of_dom. by exists n.
Qed.

Lemma object_nodeNames n nd : nodeAt g n = Ret nd -> node_Name nd ∈ nodeNames g.
Proof.
  intros H. apply deref_ptr_Ret in H. apply elem_of_union_r, elem_of_list_to_set.
  apply list_elem_of_fmap. exists nd. split; [done|].
  apply list_elem_of_fmap. exists (n, nd). split; [done|]. by apply elem_of_map_to_list.
Qed.

(** Marking a further name makes room for one push. *)
Lemma mark_new (name : string) (matched : gset string) :
  name ∈ nodeNames g -> name ∉ matched ->
  S (base.size (nodeNames g ∖ ({[name]} ∪ matched))) = base.size (nodeNames g ∖ matched).
Proof.
  intros Hin Hnew.
  assert (nodeNames g ∖ matched = {[name]} ∪ nodeNames g ∖ ({[name]} ∪ matched)) as ->.
  { apply set_eq. intros x. rewrite elem_of_union, !elem_of_difference, elem_of_union,
      elem_of_singleton. split.
    - intros [Hx Hm]. destruct (decide (x = name)) as [->|Hne]; [by left|].
      right. split; [done|]. by intros [?|?].
    - intros [->|[Hx Hm]]; [done|]. split; [done|]. intros ?. apply Hm. by right. }
  rewrite (size_union ({[name]} : gset string) (nodeNames g ∖ ({[name]} ∪ matched))).
  - by rewrite size_singleton.
  - intros x Hx%elem_of_singleton [_ Hn]%elem_of_difference. subst x.
    apply Hn, elem_of_union. left. by apply elem_of_singleton.
Qed.

Lemma mark_any (name : string) (matched : gset string) :
  (base.size (nodeNames g ∖ ({[name]} ∪ matched)) <= base.size (nodeNames g ∖ matched))%nat.
Proof.
  apply subseteq_size. intros x [Hx Hn]%elem_of_difference.
  apply elem_of_difference. split; [done|]. intros ?. apply Hn, elem_of_union. by right.
Qed.

Lemma followEdges_fuel other : forall edges st, followEdges g other edges st <> OutOfFuel.
Proof.
  induction edges as [|e edges IH]; intros st; simpl; [done|].
  loop_fuel IH.
Qed.

Lemma followEdges_measure other : forall edges st st',
  followEdges g other edges st = Ret st' -> (measure st' <= measure st)%nat.
Proof.
  induction edges as [|e edges IH]; intros st st' H; simpl in H.
  { by injection H as <-. }
  bind_inv H.
  destruct (isInput _ && negb _); [|by apply IH].
  bind_inv H. bind_inv H.
  destruct (bool_decide (node_Name r1 ∈ matchedNodes st)) eqn:Hm.
  - apply IH in H. unfold planMeasure in *. cbn [nodeStack matchedNodes] in H. lia.
  - apply bool_decide_eq_false in Hm. apply IH in H.
    pose proof (mark_new _ _ (object_nodeNames _ _ H2) Hm).
    unfold planMeasure in *. cbn [nodeStack matchedNodes length] in H. lia.
Qed.

Lemma drainStack_spec : forall fuel st,
  (measure st <= fuel)%nat ->
  drainStack fuel g st <> OutOfFuel /\
  forall st', drainStack fuel g st = Ret st' ->
    nodeStack st' = [] /\ (measure st' <= measure st)%nat /\
    (nodeStack st <> [] -> (measure st' < measure st)%nat).
Proof.
  induction fuel as [|fuel IH]; intros st Hfuel.
  - destruct (nodeStack st) as [|n below] eqn:Hs.
    + simpl. rewrite Hs. split; [done|]. intros st' [= <-]. by rewrite Hs.
    + unfold planMeasure in Hfuel. rewrite Hs in Hfuel. cbn in Hfuel. lia.
  - simpl. destruct (nodeStack st) as [|n below] eqn:Hs.
    { split; [done|]. intros st' [= <-]. by rewrite Hs. }
    assert (Hpop : (S (measure (mkPlan (plan st) below (matchedEdges st) (matchedNodes st)))
                    = measure st)%nat).
    { unfold planMeasure. rewrite Hs. reflexivity. }
    split.
    + apply bindExc_fuel; [apply deref_ptr_fuel|]. intros nd _.
      apply bindExc_fuel; [apply followEdges_fuel|]. intros st1 H1.
      apply bindExc_fuel; [apply deref_ptr_fuel|]. intros nd' _.
      apply bindExc_fuel; [apply followEdges_fuel|]. intros st2 H2.
      apply followEdges_measure in H1, H2. apply IH. lia.
    + intros st' H. bind_inv H. bind_inv H. bind_inv H. bind_inv H.
      apply followEdges_measure in H1, H3.
      destruct (IH r2) as [_ Hret]; [lia|].
      destruct (Hret st' H) as (Hempty & Hle & _).
      split; [done|]. split; [lia|]. intros _. lia.
Qed.

Lemma nextUnmatched_fuel : forall nodes st, nextUnmatched g nodes st <> OutOfFuel.
Proof.
  induction nodes as [|[name n] nodes IH]; intros st; simpl; [done|].
  loop_fuel IH.
Qed.

Lemma nextUnmatched_measure : forall nodes st st',
  (forall name n, (name, n) ∈ nodes -> (name, n) ∈ nodesOf g) ->
  nextUnmatched g nodes st = Ret st' ->
  (measure st' <= measure st)%nat /\ (nodeStack st = [] -> nodeStack st' = [] -> st' = st).
Proof.
  induction nodes as [|[name n] nodes IH]; intros st st' Hin H; simpl in H.
  { injection H as <-. by split. }
  bind_inv H.
  destruct (isInput _) eqn:Hio; cbn [andb] in H.
  2:{ apply IH; [|done]. intros name' n' Hn'. apply Hin. by right. }
  destruct (bool_decide (name ∈ matchedNodes st)) eqn:Hm; cbn [negb] in H.
  { apply IH; [|done]. intros name' n' Hn'. apply Hin. by right. }
  injection H as <-. apply bool_decide_eq_false in Hm.
  assert (name ∈ nodeNames g) as Hname by (apply (key_nodeNames name n), Hin; left).
  pose proof (mark_new _ _ Hname Hm).
  split; [|done]. unfold planMeasure. cbn [nodeStack matchedNodes length]. lia.
Qed.

Lemma planLoop_fuel : forall fuel st,
  (measure st + (if nodeStack st is [] then 2 else 1) <= fuel)%nat ->
  planLoop fuel g st <> OutOfFuel.
Proof.
  induction fuel as [|fuel IH]; intros st Hfuel.
  { destruct (nodeStack st); lia. }
  cbn [planLoop].
  destruct (drainStack_spec (S fuel) st) as [Hdrain Hret].
  { destruct (nodeStack st); lia. }
  apply bindExc_fuel; [done|]. intros st1 H1.
  destruct (Hret st1 H1) as (Hempty & Hle & Hlt).
  apply bindExc_fuel; [apply nextUnmatched_fuel|]. intros st2 H2.
  apply nextUnmatched_measure in H2; [|done]. destruct H2 as [Hle2 _].
  destruct (nodeStack st2) as [|n below] eqn:Hs2; [done|].
  apply IH. rewrite Hs2.
  destruct (nodeStack st) as [|n0 below0] eqn:Hs; [lia|].
  assert (measure st1 < measure st)%nat by (by apply Hlt). lia.
Qed.

Lemma findIdNodes_fuel : forall nodes st first, findIdNodes printDouble g nodes st first <> OutOfFuel.
Proof.
  induction nodes as [|[name n] nodes IH]; intros st first; simpl; [done|].
  apply bindExc_fuel; [apply deref_ptr_fuel|]. intros nd _.
  destruct (isInput (node_io (node_data nd))),
    (m_predicateList (node_io (node_data nd))); apply IH.
Qed.

Lemma findIdNodes_measure : forall nodes st first r,
  NoDup nodes.*1 ->
  (forall name n, (name, n) ∈ nodes -> (name, n) ∈ nodesOf g /\ name ∉ matchedNodes st) ->
  findIdNodes printDouble g nodes st first = Ret r ->
  (measure (fst r) <= measure st)%nat.
Proof.
  induction nodes as [|[name n] nodes IH]; intros st first r Hnd Hin H; simpl in H.
  { by injection H as <-. }
  rewrite fmap_cons in Hnd. apply NoDup_cons in Hnd. destruct Hnd as [Hfirst Hnd].
  assert (Hrest : forall name' n', (name', n') ∈ nodes ->
            (name', n') ∈ nodesOf g /\ name' ∉ matchedNodes st).
  { intros name' n' Hn'. apply Hin. by right. }
  bind_inv H.
  destruct (isInput _); [|by apply (IH _ _ _ Hnd Hrest H)].
  destruct (m_predicateList _) as [|front preds]; [by apply (IH _ _ _ Hnd Hrest H)|].
  destruct (idEquality _) as [sId|]; [|by apply (IH _ _ _ Hnd Hrest H)].
  destruct (Hin name n) as [Hkey Hnew]; [left|].
  apply IH in H; [|done|].
  - pose proof (mark_new _ _ (key_nodeNames _ _ Hkey) Hnew).
    unfold planMeasure in *. cbn [nodeStack matchedNodes length] in H. lia.
  - intros name' n' Hn'. destruct (Hrest name' n' Hn') as [Hk Hm]. split; [done|].
    cbn [matchedNodes]. intros [Heq%elem_of_singleton|?]%elem_of_union; [|done].
    subst name'. apply Hfirst. apply list_elem_of_fmap. by exists (name, n').
Qed.

Lemma startWithEdge_fuel : forall edges st, startWithEdge g edges st <> OutOfFuel.
Proof.
  induction edges as [|[name e] edges IH]; intros st; simpl; [done|].
  loop_fuel IH.
Qed.

Lemma startWithEdge_measure : forall edges st st',
  startWithEdge g edges st = Ret st' -> (measure st' <= measure st + 2)%nat.
Proof.
  induction edges as [|[name e] edges IH]; intros st st' H; simpl in H.
  { injection H as <-. lia. }
  bind_inv H. destruct (isInput _); [|by apply IH].
  bind_inv H. bind_inv H. bind_inv H. bind_inv H. injection H as <-.
  unfold planMeasure. cbn [nodeStack matchedNodes length].
  pose proof (mark_any (node_Name r3) ({[node_Name r1]} ∪ matchedNodes st)).
  pose proof (mark_any (node_Name r1) (matchedNodes st)). lia.
Qed.

(** X25.  The loops of the constructor of [Pattern] end: with more
    passes allowed than the pattern graph has node names, plus three,
    the construction of the search plan is never cut short. *)
Theorem newPattern_terminates (clientId : string) (fuel : nat) :
  (base.size (nodeNames g) + 4 <= fuel)%nat ->
  newPattern printDouble fuel g clientId <> OutOfFuel.
Proof.
  intros Hfuel. unfold newPattern.
  destruct (nodesOf g) as [|first rest] eqn:Hnodes; [done|]. rewrite <- Hnodes.
  assert (Hzero : measure (mkPlan [] [] ∅ ∅) = base.size (nodeNames g)).
  { unfold planMeasure. cbn [nodeStack matchedNodes length].
    by rewrite difference_empty_L. }
  apply bindExc_fuel; [apply findIdNodes_fuel|]. intros [st pFirst] Hfind.
  apply findIdNodes_measure in Hfind.
  2:{ unfold nodesOf, entries. rewrite merge_sort_Permutation. apply NoDup_fst_map_to_list. }
  2:{ intros name n Hn. split; [done|]. cbn [matchedNodes]. set_solver. }
  cbn [fst] in Hfind. rewrite Hzero in Hfind.
  apply bindExc_fuel.
  - destruct (nodeStack st); [|done]. destruct pFirst; [|apply startWithEdge_fuel].
    apply bindExc_fuel; [apply deref_ptr_fuel|done].
  - intros st1 Hst1. apply bindExc_fuel; [|done]. apply planLoop_fuel.
    assert (measure st1 <= measure st + 2)%nat as Hle.
    { destruct (nodeStack st) as [|n below] eqn:Hs.
      - destruct pFirst as [n|]; [|by apply (startWithEdge_measure _ _ _ Hst1)].
        bind_inv Hst1. injection Hst1 as <-.
        pose proof (mark_any (node_Name r) (matchedNodes st)).
        unfold planMeasure. cbn [nodeStack matchedNodes length]. rewrite Hs. cbn. lia.
      - injection Hst1 as <-. lia. }
    destruct (nodeStack st1); lia.
Qed.

End Plan.

Lemma newPattern_terminates_witness :
  newPattern printNothing 7 ManagerExamples.concatGraph "client" <> OutOfFuel.
Proof.
  apply (newPattern_terminates printNothing ManagerExamples.concatGraph "client" 7).
  vm_compute. lia.
Defined.

End PlanProps.

(* ===================================================================== *)
(** * The SRG manager: pattern application keeps the books                *)
(* ===================================================================== *)

Module ApplyProps.
Import AttributeValue Predicate Graph UTQL SRG Matching Manager ManagerExamples.
Import GraphRemovalProps DeleteEvolution SourcesProps GraphLinkProps ManagerProps.

(** ** The instance of a pattern *)

Lemma instanciateNodes_edges (srg : SRGraph) : forall nodes i i',
  instanciateNodes srg nodes i = Ret i' ->
  m_Edges (graph (inst_subgraph i')) = m_Edges (graph (inst_subgraph i)) /\
  edgeStore (graph (inst_subgraph i')) = edgeStore (graph (inst_subgraph i)).
Proof.
  induction nodes as [|[name pn] nodes IH]; intros i i' H; simpl in H.
  { by injection H as <-. }
  bind_inv H. bind_inv H. bind_inv H. bind_inv H. destruct r2 as [g n].
  destruct (addNode_Ret _ _ _ _ _ H3) as (_ & _ & _ & _ & HES & HE).
  destruct (isOutput _); apply IH in H; cbn [inst_subgraph withGraph graph setNodes
    m_Edges edgeStore fst snd] in H; destruct H as [-> ->]; by rewrite HES, HE.
Qed.

(** A new edge of the instance, under the name and with the tag of the
    pattern edge it copies. *)
Lemma copyEdge_spec (pattern subgraph : UTQLSubgraph) (k : string) (pe : EdgePtr)
    (ped : GraphEdge UTQLEdge) (source target : NodePtr) (tag : Tag)
    (copy : UTQLEdge -> UTQLEdge) g (e : EdgePtr) :
  Graph.addEdge (graph subgraph) k source target (newUTQLEdge tag) = Ret (g, e) ->
  (forall d, m_Tag (edge_io (copy d)) = m_Tag (edge_io d)) ->
  m_Edges (graph pattern) !! k = Some pe ->
  edgeStore (graph pattern) !! pe = Some ped ->
  m_Tag (edge_io (edge_data ped)) = tag ->
  copiesEdges pattern subgraph ->
  copiesEdges pattern
    (withGraph subgraph (setEdges g (alter (onEdgeData copy) e (edgeStore g)))).
Proof.
  intros H Hcopy Hpe Hped Htag Hinv k' e' He'.
  destruct (addEdge_nodes _ _ _ _ _ _ _ H) as (Hfresh & HES & _ & HE & _).
  cbn [withGraph graph setEdges m_Edges edgeStore] in He' |- *. rewrite HE in He'.
  assert (Hold : m_Edges (graph subgraph) !! k' = Some e' ->
    exists x pe' ped',
      alter (onEdgeData copy) e (edgeStore g) !! e' = Some x /\ edge_Name x = k' /\
      m_Edges (graph pattern) !! k' = Some pe' /\
      edgeStore (graph pattern) !! pe' = Some ped' /\
      m_Tag (edge_io (edge_data x)) = m_Tag (edge_io (edge_data ped'))).
  { intros Hk. destruct (Hinv k' e' Hk) as (x & pe' & ped' & Hx & Hrest).
    exists x, pe', ped'. split; [|done].
    assert (e' <> e) as Hne by congruence.
    by rewrite lookup_alter_ne, HES, lookup_insert_ne. }
  destruct (m_Edges (graph subgraph) !! k) eqn:Hk; [by apply Hold|].
  apply lookup_insert_Some in He'. destruct He' as [[<- <-]|[_ He']]; [|by apply Hold].
  eexists _, pe, ped. rewrite lookup_alter_eq, HES, lookup_insert_eq. cbn.
  split; [done|]. split; [done|]. split; [done|]. split; [done|].
  cbn. rewrite Hcopy. cbn. by rewrite Htag.
Qed.

Lemma instanciateEdges_copies (srg : SRGraph) (pattern : UTQLSubgraph) :
  forall edges i i',
    instanciateEdges srg edges i = Ret i' ->
    m_Edges (graph (inst_pattern i)) = m_Edges (graph pattern) ->
    edgeStore (graph (inst_pattern i)) = edgeStore (graph pattern) ->
    (forall k e, (k, e) ∈ edges ->
       m_Edges (graph pattern) !! k = Some e /\
       exists ed, edgeStore (graph pattern) !! e = Some ed /\ edge_Name ed = k) ->
    copiesEdges pattern (inst_subgraph i) ->
    copiesEdges pattern (inst_subgraph i').
Proof.
  induction edges as [|[k pe] edges IH]; intros i i' H HE HT Hin Hinv; simpl in H.
  { by injection H as <-. }
  destruct (Hin k pe) as (Hk & ed & Hed & Hname); [left|].
  assert (Hrest : forall k' e', (k', e') ∈ edges ->
            m_Edges (graph pattern) !! k' = Some e' /\
            exists ed', edgeStore (graph pattern) !! e' = Some ed' /\ edge_Name ed' = k').
  { intros k' e' Hk'. apply Hin. by right. }
  bind_inv H. apply deref_ptr_Ret in H0. rewrite HT, Hed in H0. injection H0 as <-.
  bind_inv H. bind_inv H. bind_inv H. bind_inv H. rewrite Hname in *.
  assert (Hone : copiesEdges pattern (inst_subgraph r1) /\
                 inst_pattern r1 = inst_pattern i).
  { destruct (isInput (edge_io (edge_data ed))) eqn:Hio; [|by injection H2 as <-].
    apply bindExc_Ret in H2 as ([g e] & Hadd & H2).
    apply bindExc_Ret in H2 as (f & _ & H2). apply bindExc_Ret in H2 as (se & _ & H2).
    apply bindExc_Ret in H2 as (ref & _ & H2). injection H2 as <-.
    cbn [inst_subgraph inst_pattern fst snd]. split; [|done].
    apply (copyEdge_spec pattern (inst_subgraph i) k pe ed _ _ Input _ _ _ Hadd);
      try done.
    unfold isInput in Hio. by destruct (m_Tag (edge_io (edge_data ed))). }
  destruct Hone as [Hinv1 Hp1].
  assert (Htwo : copiesEdges pattern (inst_subgraph r2) /\
                 inst_pattern r2 = inst_pattern i).
  { destruct (isOutput (edge_io (edge_data ed))) eqn:Hio; [|by injection H3 as <-].
    apply bindExc_Ret in H3 as ([g e] & Hadd & H3). injection H3 as <-.
    cbn [inst_subgraph inst_pattern fst snd]. split; [|done].
    apply (copyEdge_spec pattern (inst_subgraph r1) k pe ed _ _ Output _ _ _ Hadd);
      try done.
    unfold isOutput in Hio. by destruct (m_Tag (edge_io (edge_data ed))). }
  destruct Htwo as [Hinv2 Hp2].
  apply (IH _ _ H); [by rewrite Hp2| by rewrite Hp2|done|done].
Qed.

(** The edge map of a pattern, as the loops over it meet it. *)
Lemma edgesOf_byName (pattern : UTQLSubgraph) :
  edgesByName pattern ->
  forall k e, (k, e) ∈ edgesOf pattern ->
    m_Edges (graph pattern) !! k = Some e /\
    exists ed, edgeStore (graph pattern) !! e = Some ed /\ edge_Name ed = k.
Proof.
  intros Hby k e Hin. apply elem_of_entries in Hin. split; [done|]. by apply Hby.
Qed.

Lemma instanciatePattern_copies (p : Pattern) (srg : SRGraph) (m : EdgeMatching)
    (i : Instantiation) :
  edgesByName (m_Graph p) ->
  instanciatePattern p srg m = Ret i ->
  copiesEdges (m_Graph p) (inst_subgraph i).
Proof.
  intros Hby H. unfold instanciatePattern in H. bind_inv H.
  pose proof (instanciateNodes_edges _ _ _ _ H0) as [HE HES].
  apply instanciateNodes_kept in H0. destruct H0 as (_ & _ & HPE & HPS).
  cbn [inst_subgraph inst_pattern graph m_Edges edgeStore emptyGraph] in *.
  apply (instanciateEdges_copies srg (m_Graph p) _ _ _ H); try done.
  - by apply edgesOf_byName.
  - intros k e He. rewrite HE in He. by rewrite lookup_empty in He.
Qed.

(** ** The loop of [applyDetectedPattern] *)

(** A change of the attributes of an edge that keeps its producer. *)
Lemma updateEdge_consistent (f : SRGEdgeAttributes -> SRGEdgeAttributes) (e : EdgePtr)
    (srg : SRGraph) (repository : gmap string InstantiatedPattern) :
  (forall x, m_SubgraphID (f x) = m_SubgraphID x) ->
  edgesNamed srg -> edgesProduced srg repository -> nodesNamed srg -> nodesSpawned srg ->
  edgesNamed (updateEdge f e srg) /\ edgesProduced (updateEdge f e srg) repository /\
  nodesNamed (updateEdge f e srg) /\ nodesSpawned (updateEdge f e srg).
Proof.
  intros Hf Hnamed Hprod Hnodes Hspawned.
  assert (Hobj : forall e' x', alter (onEdgeData f) e (edgeStore (base srg)) !! e' = Some x' ->
            exists x, edgeStore (base srg) !! e' = Some x /\ edge_Name x' = edge_Name x /\
                      m_SubgraphID (edge_data x') = m_SubgraphID (edge_data x)).
  { intros e' x' Hx'. destruct (decide (e' = e)) as [->|Hne].
    - rewrite lookup_alter_eq in Hx'.
      destruct (edgeStore (base srg) !! e) as [x|]; [|done]. injection Hx' as <-.
      exists x. cbn. by rewrite Hf.
    - rewrite lookup_alter_ne in Hx' by done. by exists x'. }
  unfold updateEdge, edgesNamed, edgesProduced, srgEdge.
  cbn [base withBase setEdges m_Edges edgeStore].
  split; [|split; [|done]].
  - intros name e' He'. destruct (Hnamed name e' He') as (x & Hx & Hname).
    destruct (decide (e' = e)) as [->|Hne].
    + rewrite lookup_alter_eq, Hx. by eexists.
    + rewrite lookup_alter_ne by done. by exists x.
  - intros name x' (e' & He' & Hx').
    destruct (Hobj e' x' Hx') as (x & Hx & _ & Hsub). rewrite Hsub.
    apply (Hprod name x). by exists e'.
Qed.

Lemma insertOutputs_consistent (p : Pattern) (subgraph : UTQLSubgraph) (m : EdgeMatching)
    (clientID : string) (repository : gmap string InstantiatedPattern) :
  repository !! m_ID subgraph = Some (mkInstance subgraph clientID) ->
  copiesEdges (m_Graph p) subgraph ->
  forall edges srg inserted r,
    insertOutputs p subgraph m edges srg inserted = Ret r ->
    (forall k e, (k, e) ∈ edges ->
       m_Edges (graph (m_Graph p)) !! k = Some e /\
       exists ed, edgeStore (graph (m_Graph p)) !! e = Some ed /\ edge_Name ed = k) ->
    edgesNamed srg -> edgesProduced srg repository -> nodesNamed srg -> nodesSpawned srg ->
    edgesNamed (fst r) /\ edgesProduced (fst r) repository /\
    nodesNamed (fst r) /\ nodesSpawned (fst r).
Proof.
  intros Hrepo Hcopies.
  induction edges as [|[k edge] edges IH];
    intros srg inserted r H Hin Hnamed Hprod Hnodes Hspawned; simpl in H.
  { by injection H as <-. }
  destruct (Hin k edge) as (Hk & ed & Hed & Hname); [left|].
  assert (Hrest : forall k' e', (k', e') ∈ edges ->
            m_Edges (graph (m_Graph p)) !! k' = Some e' /\
            exists ed', edgeStore (graph (m_Graph p)) !! e' = Some ed' /\ edge_Name ed' = k').
  { intros k' e' Hk'. apply Hin. by right. }
  bind_inv H. apply deref_ptr_Ret in H0. rewrite Hed in H0. injection H0 as <-.
  destruct (isInput (edge_io (edge_data ed))) eqn:Hinput.
  { apply bindExc_Ret in H as (srgEdge & _ & H). apply bindExc_Ret in H as (se & _ & H).
    destruct (updateEdge_consistent
                (fun x => setDependants ({[m_ID subgraph]} ∪ m_DependantSubgraphIDs x) x)
                srgEdge srg repository (fun _ => eq_refl) Hnamed Hprod Hnodes Hspawned)
      as (? & ? & ? & ?).
    by apply (IH _ _ _ H). }
  destruct (isOutput (edge_io (edge_data ed))) eqn:Houtput; [|by apply (IH _ _ _ H)].
  apply bindExc_Ret in H as (s & _ & H). apply bindExc_Ret in H as (source & _ & H).
  apply bindExc_Ret in H as (t & _ & H). apply bindExc_Ret in H as (target & _ & H).
  apply bindExc_Ret in H as (instanceEdge & Hget & H).
  apply bindExc_Ret in H as (ie & _ & H).
  apply bindExc_Ret in H as ([g e] & Hadd & H). cbn [fst snd] in H.
  assert (Hout : outputEdge subgraph (edge_Name ed)).
  { unfold Graph.getEdge in Hget.
    destruct (m_Edges (graph subgraph) !! edge_Name ed) as [e0|] eqn:Hie; [|discriminate].
    injection Hget as <-.
    destruct (Hcopies _ _ Hie) as (x & pe & ped & Hx & Hxname & Hpe & Hped & Htag).
    rewrite Hname in Hpe. rewrite Hk in Hpe. injection Hpe as <-.
    rewrite Hed in Hped. injection Hped as <-.
    exists (edge_Name ed), e0, x. split_and!; try done.
    unfold isOutput in *. by rewrite Htag. }
  destruct (registerEdge_spec srg repository _ _ _ _
              (fun x => setPatternName (pattern_Name p)
                          (setInformationSources (m_informationSources m) x))
              _ _ Hadd (fun _ => eq_refl)
              (ex_intro _ (mkInstance subgraph clientID)
                 (ex_intro _ (edge_Name ed) (conj Hrepo (conj Hout eq_refl))))
              Hnamed Hprod Hnodes Hspawned) as (? & ? & ? & ?).
  by apply (IH _ _ _ H).
Qed.

Lemma applyDetectedPattern_consistent (st : State) (p : Pattern) (m : EdgeMatching)
    (a : Application) :
  consistent st ->
  edgesByName (m_Graph p) ->
  idsUnused (pattern_Name p) st ->
  applyDetectedPattern st p m = Ret a ->
  consistent (app_state a) /\ edgesByName (m_Graph (app_pattern a)) /\
  pattern_Name (app_pattern a) = pattern_Name p /\
  idsUnused (pattern_Name p) (app_state a).
Proof.
  intros [Hnamed Hprod Hnodes Hspawned] Hby Hunused H.
  unfold applyDetectedPattern in H. bind_inv H. bind_inv H. injection H as <-.
  pose proof (instanciatePattern_copies _ _ _ _ Hby H0) as Hcopies.
  apply instanciatePattern_kept in H0. destruct H0 as (_ & _ & HE & HT).
  cbn [app_state app_pattern m_Graph pattern_Name].
  assert (Hby' : edgesByName (inst_pattern r)).
  { intros name e He. rewrite HE in He. rewrite HT. by apply Hby. }
  assert (Hfresh : m_GraphRepository st
                     !! (pattern_Name p +:+ pretty (patternApplicationID st)) = None).
  { specialize (Hunused 0 ltac:(lia)). by rewrite Z.add_0_r in Hunused. }
  split; [|split; [done|split; [done|]]].
  - eapply (insertOutputs_consistent _ _ _ (m_clientId p)
              (<[pattern_Name p +:+ pretty (patternApplicationID st) :=
                   mkInstance (withID (inst_subgraph r)
                                 (pattern_Name p +:+ pretty (patternApplicationID st)))
                              (m_clientId p)]> (m_GraphRepository st))) in H1.
    + destruct H1 as (? & ? & ? & ?). by split.
    + cbn [withID m_ID]. apply lookup_insert_eq.
    + intros k e He. cbn [withID graph] in He |- *.
      destruct (Hcopies k e He) as (x & pe & ped & Hx & Hxname & Hpe & Hped & Htag).
      exists x, pe, ped. cbn [m_Graph]. by rewrite HE, HT.
    + cbn [m_Graph]. by apply edgesOf_byName.
    + done.
    + intros name x Hx. destruct (Hprod name x Hx) as (inst & l & Hrepo & Hrest).
      exists inst, l. split; [|done]. rewrite lookup_insert_ne; [done|]. congruence.
    + done.
    + done.
  - intros k Hk. cbn [m_GraphRepository patternApplicationID].
    rewrite lookup_insert_ne.
    + replace (patternApplicationID st + 1 + k) with (patternApplicationID st + (1 + k))
        by lia. apply Hunused. lia.
    + intros Heq. apply String.app_inj, pretty_Z_inj in Heq. lia.
Qed.

(** ** The passes of [applyPattern] *)

Section Apply.

Variable strtod : string -> float * nat.
Variable printDouble : float -> string.
Variable evaluateFunction :
  FunctionType -> list AttributeExpression -> gmap string KeyValueAttributes ->
  gset string -> Exc AttributeValue.t.
Variable decidePattern2 : State -> Pattern -> EdgeMatching -> Exc (bool * list string).

Local Abbreviation applyMatching :=
  (Manager.applyMatching strtod printDouble evaluateFunction decidePattern2).
Local Abbreviation applyMatchings :=
  (Manager.applyMatchings strtod printDouble evaluateFunction decidePattern2).
Local Abbreviation applyPattern :=
  (Manager.applyPattern strtod printDouble evaluateFunction decidePattern2).

Lemma applyMatchings_consistent (name : string) : forall matches pr pr',
  applyMatchings matches pr = Ret pr' ->
  consistent (prog_state pr) ->
  edgesByName (m_Graph (prog_pattern pr)) ->
  pattern_Name (prog_pattern pr) = name ->
  idsUnused name (prog_state pr) ->
  consistent (prog_state pr').
Proof.
  induction matches as [|it matches IH]; intros pr pr' H Hc Hby Hname Hunused;
    cbn [Manager.applyMatchings] in H.
  { by injection H as <-. }
  bind_inv H. destruct r as [|a supersedes]; [by apply (IH _ _ H)|].
  unfold Manager.applyMatching in H0. bind_inv H0.
  destruct (negb r); [discriminate|]. bind_inv H0. bind_inv H0.
  destruct (negb (fst r1)); [discriminate|]. bind_inv H0. injection H0 as <- _.
  rewrite <- Hname in Hunused.
  destruct (applyDetectedPattern_consistent _ _ _ _ Hc Hby Hunused H4)
    as (Hc' & Hby' & Hname' & Hunused').
  apply (IH _ _ H); cbn [prog_state prog_pattern].
  - exact Hc'.
  - exact Hby'.
  - by rewrite Hname'.
  - by rewrite <- Hname.
Qed.

Lemma deleteSuperseded_consistent : forall ids st st',
  deleteSuperseded ids st = Ret st' -> consistent st -> consistent st'.
Proof.
  induction ids as [|id ids IH]; intros st st' H Hc; simpl in H.
  { by injection H as <-. }
  destruct (m_GraphRepository st !! id); [|by apply (IH _ _ H)].
  bind_inv H. destruct (r =? 1); [|by apply (IH _ _ H)].
  bind_inv H. apply (IH _ _ H). by apply (deleteSRG_stays_consistent st id).
Qed.

(** X26.  Pattern application keeps the SRG and the repository
    consistent: if the edge map of the pattern graph leads to edges of
    the same name, and the subgraph ids that the call makes for its
    instances (pattern name and application counter) are not in use,
    [applyPattern] leaves a consistent state of a consistent state,
    whatever the second stage decides. *)
Theorem applyPattern_keeps_consistent (fuel : nat) (st : State) (p : Pattern)
    (pr : Progress) :
  consistent st ->
  edgesByName (m_Graph p) ->
  idsUnused (pattern_Name p) st ->
  applyPattern fuel st p = Ret pr ->
  consistent (prog_state pr).
Proof.
  intros Hc Hby Hunused H. unfold Manager.applyPattern in H.
  bind_inv H. bind_inv H. bind_inv H. injection H as <-. cbn [prog_state].
  apply (deleteSuperseded_consistent _ _ _ H2).
  by apply (applyMatchings_consistent (pattern_Name p) _ _ _ H1).
Qed.

End Apply.

(** The theorem at the application of [inv] to the base SRG [A -> B]. *)
Lemma registered_consistent : consistent registered.
Proof.
  apply (registerSRG_consistent initial baseAB "client" registered).
  - apply initial_consistent.
  - vm_compute. discriminate.
  - vm_compute. reflexivity.
  - vm_compute. reflexivity.
Qed.

Lemma inv_edgesByName : edgesByName (m_Graph inv).
Proof.
  intros name e He. enum_lookup He; eexists; (split; [vm_compute; reflexivity|reflexivity]).
Qed.

Lemma registered_unused : idsUnused (pattern_Name inv) registered.
Proof.
  intros k Hk.
  assert (m_GraphRepository registered = {["s" := mkInstance baseAB "client"]}) as ->
    by (vm_compute; reflexivity).
  apply lookup_singleton_ne. assert (pattern_Name inv = "inv") as -> by reflexivity.
  cbn [String.append]. discriminate.
Qed.

Lemma applyPattern_keeps_consistent_witness : consistent (prog_state invApplied).
Proof.
  apply (applyPattern_keeps_consistent strtodDigits printNothing noFunction accept
           20 registered inv invApplied
           registered_consistent inv_edgesByName registered_unused).
  vm_compute. reflexivity.
Defined.

End ApplyProps.

(* ===================================================================== *)
(** * The matcher: the search ends                                        *)
(* ===================================================================== *)

Module SearchProps.
Import AttributeValue Predicate Graph UTQL SRG Matching.
Import PlanProps.

Lemma entries_length {A} (m : gmap string A) : length (entries m) = base.size m.
Proof.
  unfold entries. rewrite merge_sort_Permutation. by rewrite length_map_to_list.
Qed.

Lemma branching_cases (srg : SRGraph) :
  (1 <= branching srg)%nat /\
  (base.size (m_Edges (base srg)) <= branching srg)%nat /\
  (base.size (m_Nodes (base srg)) <= branching srg)%nat /\
  forall n nd, nodeStore (base srg) !! n = Some nd ->
    (length (m_OutEdges nd) <= branching srg)%nat /\
    (length (m_InEdges nd) <= branching srg)%nat.
Proof.
  unfold branching. split_and!.
  - apply max_list_elem_of_le. left.
  - apply max_list_elem_of_le. right. left.
  - apply max_list_elem_of_le. right. right. left.
  - intros n nd Hnd.
    assert (Nat.max (length (m_OutEdges nd)) (length (m_InEdges nd))
            <= max_list (1%nat :: base.size (m_Edges (base srg))
                         :: base.size (m_Nodes (base srg))
                         :: ((fun x => Nat.max (length (m_OutEdges (snd x)))
                                               (length (m_InEdges (snd x))))
                               <$> map_to_list (nodeStore (base srg)))))%nat as Hle.
    { apply max_list_elem_of_le. do 3 right.
      apply list_elem_of_fmap. exists (n, nd). split; [done|]. by apply elem_of_map_to_list. }
    lia.
Qed.

Section Search.

Variable strtod : string -> float * nat.
Variable printDouble : float -> string.
Variable evaluateFunction :
  FunctionType -> list AttributeExpression -> gmap string KeyValueAttributes ->
  gset string -> Exc AttributeValue.t.

Local Abbreviation checkStep := (Matching.checkStep strtod printDouble evaluateFunction).
Local Abbreviation checkLoop := (Matching.checkLoop strtod printDouble evaluateFunction).
Local Abbreviation checkPattern := (Matching.checkPattern strtod printDouble evaluateFunction).
Local Abbreviation tryEdges := (Matching.tryEdges strtod printDouble evaluateFunction).
Local Abbreviation tryNodes := (Matching.tryNodes strtod printDouble evaluateFunction).

Variable p : Pattern.
Variable srg : SRGraph.

Lemma addMatchedEdge_step (state : EdgeMatching) (e f : EdgePtr) (m : EdgeMatching) :
  addMatchedEdge (m_Graph p) srg state e f = Ret m ->
  m_iSearchPlanStep m = m_iSearchPlanStep state.
Proof.
  unfold addMatchedEdge. intros H. repeat bind_inv H. by injection H as <-.
Qed.

Lemma addMatchedEdge_fuel (state : EdgeMatching) (e f : EdgePtr) :
  addMatchedEdge (m_Graph p) srg state e f <> OutOfFuel.
Proof. unfold addMatchedEdge. loop_fuel locked_fuel. Qed.

Lemma tryEdges_fuel (state : EdgeMatching) (pEdge : EdgePtr) (pe : GraphEdge UTQLEdge)
    (fixedEnd : option NodePtr) (farEnd : GraphEdge SRGEdgeAttributes -> option NodePtr)
    (endsFree : bool) :
  forall candidates,
    tryEdges p srg state pEdge pe fixedEnd farEnd endsFree candidates <> OutOfFuel.
Proof.
  induction candidates as [|c candidates IH]; cbn [Matching.tryEdges]; [done|].
  apply bindExc_fuel; [apply deref_ptr_fuel|]. intros se _.
  apply bindExc_fuel; [loop_fuel locked_fuel|]. intros skip _.
  destruct (skip || negb _); [done|].
  apply bindExc_fuel; [apply addMatchedEdge_fuel|]. intros refined _.
  apply bindExc_fuel; [done|]. done.
Qed.

Lemma tryEdges_pushes (state : EdgeMatching) (pEdge : EdgePtr) (pe : GraphEdge UTQLEdge)
    (fixedEnd : option NodePtr) (farEnd : GraphEdge SRGEdgeAttributes -> option NodePtr)
    (endsFree : bool) :
  forall candidates l,
    tryEdges p srg state pEdge pe fixedEnd farEnd endsFree candidates = Ret l ->
    (length l <= length candidates)%nat /\
    Forall (fun m => m_iSearchPlanStep m = m_iSearchPlanStep state) l.
Proof.
  induction candidates as [|c candidates IH]; intros l H; cbn [Matching.tryEdges] in H.
  { injection H as <-. split; [done|constructor]. }
  bind_inv H. bind_inv H.
  destruct (r0 || negb _).
  { destruct (IH _ H) as [Hlen Hall]. split; [cbn; lia|done]. }
  bind_inv H. bind_inv H. injection H as <-.
  destruct (IH _ H3) as [Hlen Hall]. split; [cbn; lia|].
  constructor; [|done]. by apply (addMatchedEdge_step _ _ _ _ H2).
Qed.

Lemma tryNodes_fuel (state : EdgeMatching) (pVertex : NodePtr) (pv : GraphNode UTQLNode) :
  forall candidates, tryNodes srg state pVertex pv candidates <> OutOfFuel.
Proof.
  induction candidates as [|[k n] candidates IH]; cbn [Matching.tryNodes]; [done|].
  apply bindExc_fuel; [apply deref_ptr_fuel|]. intros sn _.
  apply bindExc_fuel; [done|]. intros rest _. by destruct (_ || _).
Qed.

Lemma tryNodes_pushes (state : EdgeMatching) (pVertex : NodePtr) (pv : GraphNode UTQLNode) :
  forall candidates l,
    tryNodes srg state pVertex pv candidates = Ret l ->
    (length l <= length candidates)%nat /\
    Forall (fun m => m_iSearchPlanStep m = m_iSearchPlanStep state) l.
Proof.
  induction candidates as [|[k n] candidates IH]; intros l H; cbn [Matching.tryNodes] in H.
  { injection H as <-. split; [done|constructor]. }
  bind_inv H. bind_inv H. destruct (IH _ H1) as [Hlen Hall].
  destruct (_ || _); injection H as <-; (split; [cbn; lia|]); [done|].
  by constructor.
Qed.

Lemma checkStep_fuel (popped : EdgeMatching) : checkStep p srg popped <> OutOfFuel.
Proof.
  unfold Matching.checkStep.
  destruct (_ =? _); [done|]. destruct (m_searchPlan p !! _) as [step|]; [|done].
  destruct (m_pEdge step) as [pEdge|].
  - apply bindExc_fuel; [apply deref_ptr_fuel|]. intros pe _.
    apply bindExc_fuel; [apply locked_fuel|]. intros src _.
    apply bindExc_fuel; [apply locked_fuel|]. intros tgt _.
    destruct (isPatternVertexMatched _ src); [|destruct (isPatternVertexMatched _ tgt)].
    + apply bindExc_fuel; [unfold getCorrespondingSrgVertex; by destruct (_ !! _)|].
      intros start _. apply bindExc_fuel; [apply deref_ptr_fuel|]. intros sn _.
      apply bindExc_fuel.
      { destruct (isPatternVertexMatched _ tgt); [|done].
        apply bindExc_fuel; [unfold getCorrespondingSrgVertex; by destruct (_ !! _)|done]. }
      intros fixedEnd _. apply bindExc_fuel; [apply tryEdges_fuel|done].
    + apply bindExc_fuel; [unfold getCorrespondingSrgVertex; by destruct (_ !! _)|].
      intros start _. apply bindExc_fuel; [apply deref_ptr_fuel|]. intros sn _.
      apply bindExc_fuel; [apply tryEdges_fuel|done].
    + apply bindExc_fuel; [apply tryEdges_fuel|done].
  - apply bindExc_fuel; [apply locked_fuel|]. intros pVertex _.
    apply bindExc_fuel; [apply deref_ptr_fuel|]. intros pv _.
    destruct (isPatternVertexMatched _ pVertex).
    + apply bindExc_fuel; [unfold getCorrespondingSrgVertex; by destruct (_ !! _)|].
      intros n _. apply bindExc_fuel; [apply deref_ptr_fuel|]. intros sn _.
      by destruct (isVertexCompatible _ _ _ _ _).
    + destruct (String.eqb _ _).
      * apply bindExc_fuel; [apply tryNodes_fuel|done].
      * destruct (SRG.hasNode _ _); [|done].
        apply bindExc_fuel; [unfold SRG.getNode; by destruct (_ !! _)|done].
Qed.

(** A pass that pushes: the plan is not worked off, no more matchings
    are pushed than there are candidates, and each of them is one step
    further. *)
Lemma checkStep_pushes (popped : EdgeMatching) (l : list EdgeMatching) :
  0 <= m_iSearchPlanStep popped ->
  checkStep p srg popped = Ret (Pushed l) ->
  (Z.to_nat (m_iSearchPlanStep popped) < length (m_searchPlan p))%nat /\
  (length l <= branching srg)%nat /\
  Forall (fun m => m_iSearchPlanStep m = m_iSearchPlanStep popped + 1) l.
Proof.
  intros Hpos H. unfold Matching.checkStep in H.
  destruct (branching_cases srg) as (Hone & Hedges & Hnodes & Hlists).
  set (state := withStep popped (m_iSearchPlanStep popped + 1)) in *.
  assert (Hs : m_iSearchPlanStep state = m_iSearchPlanStep popped + 1) by reflexivity.
  clearbody state.
  destruct (_ =? _); [discriminate|].
  destruct (m_searchPlan p !! _) as [step|] eqn:Hi; [|discriminate].
  split; [by apply lookup_lt_Some in Hi|]. rewrite <- Hs.
  destruct (m_pEdge step) as [pEdge|] eqn:He.
  - apply bindExc_Ret in H as (pe & _ & H). apply bindExc_Ret in H as (src & _ & H).
    apply bindExc_Ret in H as (tgt & _ & H).
    destruct (isPatternVertexMatched state src).
    + apply bindExc_Ret in H as (pStartNode & _ & H).
      apply bindExc_Ret in H as (start & Hstart & H).
      apply bindExc_Ret in H as (fixedEnd & _ & H).
      apply bindExc_Ret in H as (l' & Htry & H). injection H as <-.
      apply deref_ptr_Ret in Hstart. destruct (Hlists _ _ Hstart) as [Hout _].
      apply tryEdges_pushes in Htry. destruct Htry as [Hlen Hall]. split; [lia|done].
    + destruct (isPatternVertexMatched state tgt).
      * apply bindExc_Ret in H as (pStartNode & _ & H).
        apply bindExc_Ret in H as (start & Hstart & H).
        apply bindExc_Ret in H as (l' & Htry & H). injection H as <-.
        apply deref_ptr_Ret in Hstart. destruct (Hlists _ _ Hstart) as [_ Hin].
        apply tryEdges_pushes in Htry. destruct Htry as [Hlen Hall]. split; [lia|done].
      * apply bindExc_Ret in H as (l' & Htry & H). injection H as <-.
        apply tryEdges_pushes in Htry. destruct Htry as [Hlen Hall].
        rewrite length_fmap, entries_length in Hlen. split; [lia|done].
  - apply bindExc_Ret in H as (pVertex & _ & H). apply bindExc_Ret in H as (pv & _ & H).
    destruct (isPatternVertexMatched state pVertex).
    + apply bindExc_Ret in H as (n & _ & H). apply bindExc_Ret in H as (sn & _ & H).
      destruct (isVertexCompatible _ _ _ _ _); injection H as <-.
      * split; [cbn; lia|]. by constructor.
      * split; [cbn; lia|constructor].
    + destruct (String.eqb _ _).
      * apply bindExc_Ret in H as (l' & Htry & H). injection H as <-.
        apply tryNodes_pushes in Htry. destruct Htry as [Hlen Hall].
        rewrite entries_length in Hlen. split; [lia|done].
      * destruct (SRG.hasNode _ _); [|injection H as <-; split; [cbn; lia|constructor]].
        apply bindExc_Ret in H as (n & _ & H). injection H as <-.
        split; [cbn; lia|]. by constructor.
Qed.

Lemma sum_list_cons (x : nat) (l : list nat) : sum_list (x :: l) = (x + sum_list l)%nat.
Proof. reflexivity. Qed.

Lemma searchPasses_pos b k : (1 <= searchPasses b k)%nat.
Proof. destruct k; cbn; lia. Qed.

(** What the pushed matchings need is paid for by the popped one. *)
Lemma pushed_passes (popped : EdgeMatching) (l : list EdgeMatching) :
  0 <= m_iSearchPlanStep popped ->
  (Z.to_nat (m_iSearchPlanStep popped) < length (m_searchPlan p))%nat ->
  (length l <= branching srg)%nat ->
  Forall (fun m => m_iSearchPlanStep m = m_iSearchPlanStep popped + 1) l ->
  (S (sum_list (passesFor p srg <$> l)) <= passesFor p srg popped)%nat.
Proof.
  intros Hpos Hlt Hlen Hall. unfold passesFor at 2.
  set (n := length (m_searchPlan p)) in *.
  set (i := Z.to_nat (m_iSearchPlanStep popped)) in *.
  replace (n - i)%nat with (S (n - S i)) by lia. cbn [searchPasses].
  apply le_n_S.
  assert (sum_list (passesFor p srg <$> l)
          = (length l * searchPasses (branching srg) (n - S i))%nat) as ->.
  { clear Hlen. induction Hall as [|m l Hm Hall IH]; [done|].
    rewrite fmap_cons, sum_list_cons, IH. cbn [length Nat.mul].
    assert (passesFor p srg m = searchPasses (branching srg) (n - S i)) as ->; [|done].
    unfold passesFor. fold n. rewrite Hm. f_equal. unfold i. lia. }
  apply Nat.mul_le_mono_r. done.
Qed.

Lemma checkLoop_fuel : forall fuel stack detected,
  Forall (fun m => 0 <= m_iSearchPlanStep m) stack ->
  (sum_list (passesFor p srg <$> stack) <= fuel)%nat ->
  checkLoop fuel p srg stack detected <> OutOfFuel.
Proof.
  induction fuel as [|fuel IH]; intros stack detected Hpos Hfuel;
    destruct stack as [|top below]; cbn [Matching.checkLoop]; try done.
  { assert (1 <= passesFor p srg top)%nat as Htop by apply searchPasses_pos.
    rewrite fmap_cons, sum_list_cons in Hfuel. lia. }
  apply Forall_cons in Hpos. destruct Hpos as [Htop Hbelow].
  assert (1 <= passesFor p srg top)%nat as Hone by apply searchPasses_pos.
  rewrite fmap_cons, sum_list_cons in Hfuel.
  apply bindExc_fuel; [apply checkStep_fuel|]. intros [m|l] Hstep.
  - apply IH; [done|]. lia.
  - destruct (checkStep_pushes top l Htop Hstep) as (Hlt & Hlen & Hall).
    pose proof (pushed_passes top l Htop Hlt Hlen Hall) as Hpaid.
    apply IH.
    + apply Forall_app. split; [|done]. apply Forall_reverse.
      eapply Forall_impl; [exact Hall|]. intros m Hm. cbn in Hm. lia.
    + rewrite fmap_app, sum_list_with_app, fmap_reverse, sum_list_with_reverse. lia.
Qed.

(** X27.  The search of [checkPattern] ends: a pass works off one
    matching and pushes at most as many as it has candidates, each one
    step further in the search plan, so the loop needs no more passes
    than [searchPasses] counts for the length of the plan. *)
Theorem checkPattern_terminates (fuel : nat) :
  (searchPasses (branching srg) (length (m_searchPlan p)) <= fuel)%nat ->
  checkPattern fuel p srg <> OutOfFuel.
Proof.
  intros Hfuel. unfold Matching.checkPattern. apply checkLoop_fuel.
  - constructor; [done|constructor].
  - rewrite fmap_cons, sum_list_cons. unfold passesFor at 1.
    cbn [m_iSearchPlanStep withStep fmap list_fmap]. rewrite Nat.sub_0_r.
    change (sum_list []) with 0%nat. lia.
Qed.

End Search.

(** The theorem at the search for [concat] in the SRG with [A -> B] and
    the derived [B -> A]. *)
Lemma checkPattern_terminates_witness :
  checkPattern strtodDigits printNothing ManagerExamples.noFunction 50
    ManagerExamples.concat (Manager.m_GlobalSrg ManagerExamples.withInverse) <> OutOfFuel.
Proof.
  apply (checkPattern_terminates strtodDigits printNothing ManagerExamples.noFunction
           ManagerExamples.concat (Manager.m_GlobalSrg ManagerExamples.withInverse) 50).
  vm_compute. lia.
Defined.

End SearchProps.
